(** * NeurAVR: serial line buffer, ADC scheduler, atomic sections,
      command parser, event dispatch and report queue.

    A shallow embedding of the core of the NeurAVR firmware library and
    of its object-oriented application skeleton, with the properties the
    design document states about them.

    Conventions.  C [int], [uint8_t], [uint16_t] and [char] values are
    modelled as [Z]; where the source relies on wrap-around (the 16-bit
    command arguments) the reduction is written out.  C arrays are lists
    updated by index with stdpp's list insert; the bounds of every index
    the code computes are part of the invariants proved below. *)

From Stdlib Require Import ZArith List Lia Bool String Ascii Sorted.
From stdpp Require Import base list.
Import ListNotations.
Open Scope Z_scope.

(** ** Flat character arrays *)

Definition peek (buf : list Z) (i : Z) : option Z := buf !! Z.to_nat i.
Definition poke (i : Z) (v : Z) (buf : list Z) : list Z :=
  <[Z.to_nat i := v]> buf.

Lemma length_poke (i v : Z) (buf : list Z) :
  length (poke i v buf) = length buf.
Proof. unfold poke. apply length_insert. Qed.

Lemma peek_poke_eq (i v : Z) (buf : list Z) :
  0 <= i < Z.of_nat (length buf) -> peek (poke i v buf) i = Some v.
Proof.
  intros Hi. unfold peek, poke. apply list_lookup_insert_eq. lia.
Qed.

Lemma peek_poke_ne (i j v : Z) (buf : list Z) :
  0 <= i -> 0 <= j -> i <> j -> peek (poke i v buf) j = peek buf j.
Proof.
  intros Hi Hj Hne. unfold peek, poke. apply list_lookup_insert_ne. lia.
Qed.

(** Characters of a Rocq string literal, as C [char] values. *)
Definition chars (s : string) : list Z :=
  map (fun a => Z.of_N (N_of_ascii a)) (list_ascii_of_string s).

(** A C string held in an array: the characters before the first NUL. *)
Fixpoint until_nul (l : list Z) : list Z :=
  match l with
  | [] => []
  | c :: rest => if c =? 0 then [] else c :: until_nul rest
  end.

(** ** Index loops over arrays *)

(** A list filtered down to [c :: rest] splits at the first hit. *)
Lemma filter_first {A : Type} (f : A -> bool) (l : list A) (c : A)
      (rest : list A) :
  List.filter f l = c :: rest ->
  exists l1 l2, l = l1 ++ c :: l2 /\
                Forall (fun x => f x = false) l1 /\
                f c = true /\ List.filter f l2 = rest.
Proof.
  induction l as [| x l IH]; simpl; intros H.
  - discriminate.
  - destruct (f x) eqn:Fx.
    + injection H as -> <-. exists [], l. repeat split; auto.
    + destruct (IH H) as (l1 & l2 & -> & Hall & Hc & Hrest).
      exists (x :: l1), l2. repeat split; auto.
Qed.

Lemma filter_none {A : Type} (f : A -> bool) (l : list A) :
  Forall (fun x => f x = false) l -> List.filter f l = [].
Proof.
  induction 1 as [| x l Hx _ IH]; simpl.
  - reflexivity.
  - now rewrite Hx.
Qed.

Lemma find_app {A : Type} (f : A -> bool) (l1 l2 : list A) :
  List.find f (l1 ++ l2)
  = match List.find f l1 with
    | Some x => Some x
    | None => List.find f l2
    end.
Proof.
  induction l1 as [| x l1 IH]; simpl.
  - reflexivity.
  - destruct (f x); [reflexivity | exact IH].
Qed.

(** A loop whose body does nothing on every index does nothing. *)
Lemma fold_left_idle {S A : Type} (body : S -> A -> S) (l : list A) (st : S) :
  Forall (fun x => body st x = st) l -> fold_left body l st = st.
Proof.
  induction 1 as [| x l Hx _ IH]; simpl.
  - reflexivity.
  - rewrite Hx. exact IH.
Qed.

(** Writing [v] at every index of [l]. *)
Lemma fold_insert_length {A : Type} (v : A) (l : list nat) (a : list A) :
  length (fold_left (fun acc i => <[i := v]> acc) l a) = length a.
Proof.
  revert a. induction l as [| j l IH]; intros a; simpl.
  - reflexivity.
  - rewrite IH. apply length_insert.
Qed.

Lemma fold_insert_lookup {A : Type} (v : A) (l : list nat) (a : list A)
      (i : nat) :
  In i l -> (i < length a)%nat ->
  fold_left (fun acc j => <[j := v]> acc) l a !! i = Some v.
Proof.
  revert a. induction l as [| j l IH]; intros a Hin Hlt; simpl.
  - destruct Hin.
  - destruct (in_dec Nat.eq_dec i l) as [Hl | Hl].
    + apply IH; [exact Hl | now rewrite length_insert].
    + destruct Hin as [-> | Hin]; [| contradiction].
      clear IH. revert a Hlt. induction l as [| k l IH]; intros a Hlt; simpl.
      * now apply list_lookup_insert_eq.
      * assert (k <> i) by (intros ->; apply Hl; now left).
        rewrite list_insert_insert_ne by congruence.
        apply IH; [| now rewrite length_insert].
        intros Hil. apply Hl. now right.
Qed.

Lemma fold_insert_all {A : Type} (v : A) (a : list A) :
  fold_left (fun acc i => <[i := v]> acc) (seq 0 (length a)) a
  = replicate (length a) v.
Proof.
  apply list_eq. intros i.
  destruct (decide (i < length a)%nat) as [Hlt | Hge].
  - rewrite lookup_replicate_2 by exact Hlt.
    apply fold_insert_lookup; [| exact Hlt].
    apply in_seq. lia.
  - rewrite !lookup_ge_None_2; [reflexivity | |].
    + rewrite length_replicate. lia.
    + rewrite fold_insert_length. lia.
Qed.

(** ** UART receive side (neuravr-uart.cpp) *)

Module UART.
Section Receive.

(** Per-chip macros (neur-m328p.h: 8 and 6; neur-m2560.h: 8 and 7). *)
Variable UART_LINE_COUNT : Z.
Variable UART_LINE_BITS : Z.
Definition UART_LINE_SIZE : Z := Z.shiftl 1 UART_LINE_BITS.

Record uart_state := mkUart {
  UART_recvlines : list Z;
  rowcount : Z;
  oldestrow : Z;
  newestrow : Z;
  recvcharptr : Z;
  uart_filter_empty_lines : bool;
  saw_cr : bool   (* function-static in UART_HandleRecvChar_ISR *)
}.

Definition CR : Z := 13.
Definition LF : Z := 10.

Definition row_base (row : Z) : Z := Z.shiftl row UART_LINE_BITS.

(** The state at program start: zeroed globals, [saw_cr = false]. *)
Definition uart_boot : uart_state :=
  mkUart (repeat 0 (Z.to_nat (UART_LINE_COUNT * UART_LINE_SIZE)))
         0 0 0 0 false false.

(** [for (rowcount = 0; rowcount < UART_LINE_COUNT; rowcount++)
       UART_recvlines[rowcount << UART_LINE_BITS] = 0;] *)
Fixpoint clear_rows (n : nat) (row : Z) (buf : list Z) : list Z :=
  match n with
  | O => buf
  | S n' => clear_rows n' (row + 1) (poke (row_base row) 0 buf)
  end.

Definition UART_InitBuffers_ISR (s : uart_state) : uart_state :=
  mkUart (clear_rows (Z.to_nat UART_LINE_COUNT) 0 (UART_recvlines s))
         0 0 0 0 false (saw_cr s).

Definition uart_init : uart_state := UART_InitBuffers_ISR uart_boot.

Definition UART_HandleRecvChar_ISR (recvchar : Z) (s : uart_state)
  : uart_state :=
  let s1 :=
    if saw_cr s && (recvchar =? LF) then
      (* Ignore the LF in CRLF even if filtering is off. *)
      s
    else if (recvchar =? LF) || (recvchar =? CR) then
      if uart_filter_empty_lines s && (recvcharptr s =? 0) then s
      else
        let ptr := if recvcharptr s >=? UART_LINE_SIZE
                   then UART_LINE_SIZE - 1 else recvcharptr s in
        let buf1 := poke (row_base (newestrow s) + ptr) 0 (UART_recvlines s) in
        let advance := rowcount s <? UART_LINE_COUNT - 1 in
        let newest' := if advance
                       then Z.land (newestrow s + 1) (UART_LINE_COUNT - 1)
                       else newestrow s in
        let count' := if advance then rowcount s + 1 else rowcount s in
        let buf2 := poke (row_base newest') 0 buf1 in
        mkUart buf2 count' (oldestrow s) newest' 0
               (uart_filter_empty_lines s) (saw_cr s)
    else
      if recvcharptr s <? UART_LINE_SIZE then
        mkUart (poke (row_base (newestrow s) + recvcharptr s) recvchar
                     (UART_recvlines s))
               (rowcount s) (oldestrow s) (newestrow s) (recvcharptr s + 1)
               (uart_filter_empty_lines s) (saw_cr s)
      else s
  in
  mkUart (UART_recvlines s1) (rowcount s1) (oldestrow s1) (newestrow s1)
         (recvcharptr s1) (uart_filter_empty_lines s1) (recvchar =? CR).

(** [UART_GetNextLine]: offset of the oldest complete line, [None] for the
    NULL result. *)
Definition UART_GetNextLine (s : uart_state) : option Z :=
  if 0 <? rowcount s then Some (Z.shiftl (oldestrow s) UART_LINE_BITS)
  else None.

Definition UART_DoneWithLine (s : uart_state) : uart_state :=
  if 0 <? rowcount s then
    mkUart (UART_recvlines s) (rowcount s - 1)
           (Z.land (oldestrow s + 1) (UART_LINE_COUNT - 1))
           (newestrow s) (recvcharptr s)
           (uart_filter_empty_lines s) (saw_cr s)
  else s.

Definition UART_SetLineFiltering (new_state : bool) (s : uart_state)
  : uart_state :=
  mkUart (UART_recvlines s) (rowcount s) (oldestrow s) (newestrow s)
         (recvcharptr s) new_state (saw_cr s).

(** What can happen to the receive buffer: the receive interrupt delivers a
    character, or the main loop releases a line or switches filtering. *)
Inductive uart_event :=
| EvRecv (c : Z)
| EvDone
| EvFilter (b : bool).

Definition uart_step (s : uart_state) (e : uart_event) : uart_state :=
  match e with
  | EvRecv c => UART_HandleRecvChar_ISR c s
  | EvDone => UART_DoneWithLine s
  | EvFilter b => UART_SetLineFiltering b s
  end.

Definition uart_run (s : uart_state) (evs : list uart_event) : uart_state :=
  fold_left uart_step evs s.

Definition feed (s : uart_state) (cs : list Z) : uart_state :=
  fold_left (fun st c => UART_HandleRecvChar_ISR c st) cs s.

(** The characters of slot [row], and the line they hold: what a consumer
    reads through the pointer [UART_GetNextLine] returns. *)
Definition slot (buf : list Z) (row : Z) : list Z :=
  take (Z.to_nat UART_LINE_SIZE) (drop (Z.to_nat (row_base row)) buf).
Definition line_text (s : uart_state) (row : Z) : list Z :=
  until_nul (slot (UART_recvlines s) row).

(** The number of line terminators in a character sequence as the design
    document counts them: a CR, or an LF that does not immediately follow a
    CR.  [prev_cr] tells whether the character before the sequence was a
    CR. *)
Fixpoint spec_terminators (prev_cr : bool) (cs : list Z) : Z :=
  match cs with
  | [] => 0
  | c :: rest =>
      (if c =? CR then 1
       else if (c =? LF) && negb prev_cr then 1
       else 0)
      + spec_terminators (c =? CR) rest
  end.

(** Slot [row] holds a NUL at an index below its capacity. *)
Definition terminated (buf : list Z) (row : Z) : Prop :=
  exists j, 0 <= j < UART_LINE_SIZE /\ peek buf (row_base row + j) = Some 0.

(** Slot [row] is one of the [rowcount] complete, unread lines. *)
Definition complete_row (s : uart_state) (row : Z) : Prop :=
  0 <= row < UART_LINE_COUNT /\
  (row - oldestrow s) mod UART_LINE_COUNT < rowcount s.

Record uart_inv (s : uart_state) : Prop := mkInv {
  inv_len : Z.of_nat (length (UART_recvlines s))
            = UART_LINE_COUNT * UART_LINE_SIZE;
  inv_count : 0 <= rowcount s <= UART_LINE_COUNT - 1;
  inv_oldest : 0 <= oldestrow s < UART_LINE_COUNT;
  inv_newest : 0 <= newestrow s < UART_LINE_COUNT;
  inv_ring : (newestrow s - oldestrow s) mod UART_LINE_COUNT = rowcount s;
  inv_ptr : 0 <= recvcharptr s <= UART_LINE_SIZE;
  inv_term : forall row, complete_row s row ->
             terminated (UART_recvlines s) row
}.

(** *** Well-formed configurations

    The header asks for a power of two so that masking with
    [UART_LINE_COUNT - 1] is reduction modulo [UART_LINE_COUNT]. *)
Hypothesis Hbits : 0 <= UART_LINE_BITS.
Hypothesis Hcount : UART_LINE_COUNT = 2 ^ Z.log2 UART_LINE_COUNT.

Lemma line_size_pow2 : UART_LINE_SIZE = 2 ^ UART_LINE_BITS.
Proof.
  unfold UART_LINE_SIZE. rewrite Z.shiftl_mul_pow2 by exact Hbits. lia.
Qed.

Lemma line_size_pos : 0 < UART_LINE_SIZE.
Proof. rewrite line_size_pow2. apply Z.pow_pos_nonneg; lia. Qed.

Lemma line_count_pos : 0 < UART_LINE_COUNT.
Proof.
  rewrite Hcount. apply Z.pow_pos_nonneg; [lia | apply Z.log2_nonneg].
Qed.

Lemma row_base_mul (row : Z) : row_base row = row * UART_LINE_SIZE.
Proof.
  unfold row_base. rewrite Z.shiftl_mul_pow2 by exact Hbits.
  now rewrite line_size_pow2.
Qed.

Lemma mask_is_mod (x : Z) :
  Z.land x (UART_LINE_COUNT - 1) = x mod UART_LINE_COUNT.
Proof.
  rewrite Hcount at 1.
  replace (2 ^ Z.log2 UART_LINE_COUNT - 1)
    with (Z.ones (Z.log2 UART_LINE_COUNT))
    by (rewrite Z.ones_equiv; lia).
  rewrite Z.land_ones by apply Z.log2_nonneg.
  now rewrite <- Hcount.
Qed.

Lemma ring_inj (a b o : Z) :
  0 <= a < UART_LINE_COUNT -> 0 <= b < UART_LINE_COUNT ->
  (a - o) mod UART_LINE_COUNT = (b - o) mod UART_LINE_COUNT -> a = b.
Proof.
  intros Ha Hb Heq.
  assert (Hd : (a - b) mod UART_LINE_COUNT = 0).
  { replace (a - b) with ((a - o) - (b - o)) by lia.
    rewrite Zminus_mod, Heq, Z.sub_diag. apply Z.mod_0_l. lia. }
  apply Z.mod_divide in Hd; [| lia].
  destruct Hd as [q Hq].
  assert (q = 0) by nia. lia.
Qed.

Lemma ring_succ (a o n : Z) :
  (a - o) mod UART_LINE_COUNT = n -> n + 1 < UART_LINE_COUNT ->
  ((a + 1) mod UART_LINE_COUNT - o) mod UART_LINE_COUNT = n + 1.
Proof.
  intros Hn Hlt.
  assert (0 <= n) by (subst n; apply Z.mod_pos_bound, line_count_pos).
  rewrite Zminus_mod_idemp_l.
  replace (a + 1 - o) with ((a - o) + 1) by lia.
  rewrite <- Zplus_mod_idemp_l, Hn.
  apply Z.mod_small. lia.
Qed.

Lemma slot_index_bounds (row j : Z) :
  0 <= row < UART_LINE_COUNT -> 0 <= j < UART_LINE_SIZE ->
  0 <= row_base row + j < UART_LINE_COUNT * UART_LINE_SIZE.
Proof. intros Hr Hj. rewrite row_base_mul. nia. Qed.

Lemma slot_index_row (r1 r2 j1 j2 : Z) :
  0 <= j1 < UART_LINE_SIZE -> 0 <= j2 < UART_LINE_SIZE ->
  r1 <> r2 -> row_base r1 + j1 <> row_base r2 + j2.
Proof. intros H1 H2 Hne. rewrite !row_base_mul. nia. Qed.

(** A write into one slot leaves the terminator of every other slot alone. *)
Lemma terminated_poke_other (buf : list Z) (r r' j v : Z) :
  0 <= r -> 0 <= r' -> r <> r' -> 0 <= j < UART_LINE_SIZE ->
  terminated buf r -> terminated (poke (row_base r' + j) v buf) r.
Proof.
  intros Hr Hr' Hne Hj [k [Hk Hz]]. exists k. split; [exact Hk |].
  rewrite peek_poke_ne; [exact Hz | | |].
  - rewrite row_base_mul. pose proof line_size_pos. nia.
  - rewrite row_base_mul. pose proof line_size_pos. nia.
  - apply slot_index_row; auto.
Qed.

Lemma length_clear_rows (n : nat) (row : Z) (buf : list Z) :
  length (clear_rows n row buf) = length buf.
Proof.
  revert row buf. induction n as [| n IH]; intros row buf; simpl.
  - reflexivity.
  - rewrite IH. apply length_poke.
Qed.

Lemma uart_inv_init : uart_inv uart_init.
Proof.
  pose proof line_count_pos as Hc. pose proof line_size_pos as Hs.
  constructor; simpl; try lia.
  - rewrite length_clear_rows, repeat_length. rewrite Z2Nat.id; nia.
  - rewrite Z.sub_diag. apply Z.mod_0_l. lia.
  - intros row [_ Hlt]. exfalso. simpl in Hlt.
    pose proof (Z.mod_pos_bound (row - 0) UART_LINE_COUNT Hc). lia.
Qed.

Lemma complete_not_newest (s : uart_state) (row : Z) :
  uart_inv s -> complete_row s row -> row <> newestrow s.
Proof.
  intros Hinv [_ Hlt] ->. rewrite (inv_ring s Hinv) in Hlt. lia.
Qed.

Lemma uart_inv_recv (c : Z) (s : uart_state) :
  uart_inv s -> uart_inv (UART_HandleRecvChar_ISR c s).
Proof.
  intros Hinv.
  pose proof line_count_pos as Hc. pose proof line_size_pos as Hs.
  destruct Hinv as [Hlen Hcnt Hold Hnew Hring Hptr Hterm].
  assert (Hinv : uart_inv s) by (constructor; assumption).
  unfold UART_HandleRecvChar_ISR.
  destruct (saw_cr s && (c =? LF)); [constructor; assumption |].
  destruct ((c =? LF) || (c =? CR)).
  - destruct (uart_filter_empty_lines s && (recvcharptr s =? 0));
      [constructor; assumption |].
    set (ptr := if recvcharptr s >=? UART_LINE_SIZE
                then UART_LINE_SIZE - 1 else recvcharptr s).
    assert (Hp : 0 <= ptr < UART_LINE_SIZE).
    { subst ptr. destruct (Z.geb_spec (recvcharptr s) UART_LINE_SIZE); lia. }
    destruct (Z.ltb_spec (rowcount s) (UART_LINE_COUNT - 1)) as [Hadv | Hfull].
    + (* a new slot becomes the in-progress line *)
      rewrite mask_is_mod.
      assert (Hn' : 0 <= (newestrow s + 1) mod UART_LINE_COUNT
                    < UART_LINE_COUNT) by (apply Z.mod_pos_bound; lia).
      assert (Hring' : ((newestrow s + 1) mod UART_LINE_COUNT - oldestrow s)
                       mod UART_LINE_COUNT = rowcount s + 1)
        by (apply ring_succ; [exact Hring | lia]).
      assert (Hdiff : (newestrow s + 1) mod UART_LINE_COUNT <> newestrow s).
      { intros E. rewrite E in Hring'. lia. }
      constructor; simpl; try lia.
      * rewrite !length_poke. exact Hlen.
      * intros row [Hr Hlt]; simpl in Hlt.
        assert (Hrn : row <> (newestrow s + 1) mod UART_LINE_COUNT).
        { intros ->. lia. }
        destruct (Z.eq_dec row (newestrow s)) as [-> | Hne].
        -- exists ptr. split; [exact Hp |].
           rewrite peek_poke_ne.
           ++ apply peek_poke_eq.
              pose proof (slot_index_bounds (newestrow s) ptr Hnew Hp). lia.
           ++ pose proof (slot_index_bounds _ 0 Hn' ltac:(lia)). lia.
           ++ pose proof (slot_index_bounds (newestrow s) ptr Hnew Hp). lia.
           ++ replace (row_base ((newestrow s + 1) mod UART_LINE_COUNT))
                with (row_base ((newestrow s + 1) mod UART_LINE_COUNT) + 0)
                by lia.
              apply slot_index_row; auto; lia.
        -- assert (Hold' : complete_row s row).
           { split; [exact Hr |].
             assert ((row - oldestrow s) mod UART_LINE_COUNT <> rowcount s).
             { intros E. apply Hne.
               apply (ring_inj row (newestrow s) (oldestrow s)); auto.
               now rewrite Hring. }
             lia. }
           replace (row_base ((newestrow s + 1) mod UART_LINE_COUNT))
             with (row_base ((newestrow s + 1) mod UART_LINE_COUNT) + 0)
             by lia.
           apply terminated_poke_other; try lia.
           apply terminated_poke_other; try lia.
           apply Hterm, Hold'.
    + (* full: the same slot is reused *)
      constructor; simpl; try lia.
      * rewrite !length_poke. exact Hlen.
      * intros row Hrow.
        assert (Hrow' : complete_row s row) by exact Hrow.
        pose proof (complete_not_newest s row Hinv Hrow') as Hne.
        destruct Hrow' as [Hr _].
        replace (row_base (newestrow s)) with (row_base (newestrow s) + 0)
          at 1 by lia.
        apply terminated_poke_other; try lia.
        apply terminated_poke_other; try lia.
        apply Hterm, Hrow.
  - destruct (Z.ltb_spec (recvcharptr s) UART_LINE_SIZE) as [Hroom | Hnone];
      [| constructor; assumption].
    constructor; simpl; try lia.
    + rewrite length_poke. exact Hlen.
    + intros row Hrow.
      assert (Hrow' : complete_row s row) by exact Hrow.
      pose proof (complete_not_newest s row Hinv Hrow') as Hne.
      destruct Hrow' as [Hr _].
      apply terminated_poke_other; try lia.
      apply Hterm, Hrow.
Qed.

Lemma uart_inv_done (s : uart_state) :
  uart_inv s -> uart_inv (UART_DoneWithLine s).
Proof.
  intros Hinv. pose proof line_count_pos as Hc.
  unfold UART_DoneWithLine.
  destruct (Z.ltb_spec 0 (rowcount s)) as [Hpos | Hzero]; [| exact Hinv].
  destruct Hinv as [Hlen Hcnt Hold Hnew Hring Hptr Hterm].
  rewrite mask_is_mod.
  assert (Ho' : 0 <= (oldestrow s + 1) mod UART_LINE_COUNT < UART_LINE_COUNT)
    by (apply Z.mod_pos_bound; lia).
  assert (Hshift : forall a,
    (a - oldestrow s) mod UART_LINE_COUNT
    = ((a - (oldestrow s + 1) mod UART_LINE_COUNT) mod UART_LINE_COUNT + 1)
      mod UART_LINE_COUNT).
  { intros a. rewrite Zplus_mod_idemp_l, <- Z.add_sub_swap.
    rewrite Zminus_mod_idemp_r. f_equal. lia. }
  constructor; simpl; try lia; try assumption.
  - pose proof (Hshift (newestrow s)) as E. rewrite Hring in E.
    pose proof (Z.mod_pos_bound
      (newestrow s - (oldestrow s + 1) mod UART_LINE_COUNT)
      UART_LINE_COUNT Hc) as Hb.
    destruct (Z.eq_dec
      ((newestrow s - (oldestrow s + 1) mod UART_LINE_COUNT)
         mod UART_LINE_COUNT + 1) UART_LINE_COUNT) as [Ew | Ew].
    + rewrite Ew, Z.mod_same in E by lia. lia.
    + rewrite Z.mod_small in E by lia. lia.
  - intros row [Hr Hlt]; simpl in Hlt. apply Hterm. split; [exact Hr |].
    rewrite (Hshift row).
    pose proof (Z.mod_pos_bound
      (row - (oldestrow s + 1) mod UART_LINE_COUNT) UART_LINE_COUNT Hc).
    rewrite Z.mod_small by lia. lia.
Qed.

Lemma uart_inv_step (s : uart_state) (e : uart_event) :
  uart_inv s -> uart_inv (uart_step s e).
Proof.
  destruct e as [c | | b]; simpl.
  - apply uart_inv_recv.
  - apply uart_inv_done.
  - intros [? ? ? ? ? ? ?]. constructor; assumption.
Qed.

Lemma uart_inv_run (evs : list uart_event) (s : uart_state) :
  uart_inv s -> uart_inv (uart_run s evs).
Proof.
  revert s. induction evs as [| e evs IH]; intros s Hinv; simpl.
  - exact Hinv.
  - apply IH, uart_inv_step, Hinv.
Qed.

Lemma feed_as_run (cs : list Z) (s : uart_state) :
  feed s cs = uart_run s (map EvRecv cs).
Proof.
  revert s. induction cs as [| c cs IH]; intros s; simpl.
  - reflexivity.
  - apply IH.
Qed.

Lemma slot_poke_other (buf : list Z) (r r' j v : Z) :
  0 <= r -> 0 <= r' -> r <> r' -> 0 <= j < UART_LINE_SIZE ->
  slot (poke (row_base r' + j) v buf) r = slot buf r.
Proof.
  intros Hr Hr' Hne Hj. pose proof line_size_pos as Hs.
  unfold slot, poke. apply list_eq. intros i.
  destruct (decide (i < Z.to_nat UART_LINE_SIZE)%nat) as [Hi | Hi].
  - rewrite !lookup_take_lt, !lookup_drop by exact Hi.
    apply list_lookup_insert_ne.
    rewrite !row_base_mul. nia.
  - rewrite !lookup_take_ge by lia. reflexivity.
Qed.

(** An effective terminator: CR or LF, not the LF of a CRLF pair, and not
    swallowed by empty-line filtering. *)
Definition ends_line (s : uart_state) (c : Z) : Prop :=
  (c = CR \/ c = LF) /\
  (saw_cr s && (c =? LF) = false) /\
  (uart_filter_empty_lines s && (recvcharptr s =? 0) = false).

(** C4.  Whatever is fed to the receive state machine from the initialised
    buffer (characters from the interrupt, also interleaved with the main
    loop releasing lines or switching empty-line filtering), the number of
    complete unread lines stays within [0, UART_LINE_COUNT - 1] and every
    complete line holds a NUL at an index below [UART_LINE_SIZE]. *)
Theorem line_buffer_bounded :
  (forall cs : list Z,
     let s := feed uart_init cs in
     0 <= rowcount s <= UART_LINE_COUNT - 1 /\
     forall row, complete_row s row ->
       exists j, 0 <= j < UART_LINE_SIZE /\
                 peek (UART_recvlines s) (row_base row + j) = Some 0) /\
  (forall evs : list uart_event,
     let s := uart_run uart_init evs in
     0 <= rowcount s <= UART_LINE_COUNT - 1 /\
     forall row, complete_row s row ->
       exists j, 0 <= j < UART_LINE_SIZE /\
                 peek (UART_recvlines s) (row_base row + j) = Some 0).
Proof.
  assert (Hrun : forall evs : list uart_event,
     let s := uart_run uart_init evs in
     0 <= rowcount s <= UART_LINE_COUNT - 1 /\
     forall row, complete_row s row ->
       exists j, 0 <= j < UART_LINE_SIZE /\
                 peek (UART_recvlines s) (row_base row + j) = Some 0).
  { intros evs s.
    pose proof (uart_inv_run evs uart_init uart_inv_init) as Hinv.
    fold s in Hinv. split.
    - apply (inv_count s Hinv).
    - intros row Hrow. apply (inv_term s Hinv row Hrow). }
  split; [| exact Hrun].
  intros cs. rewrite feed_as_run. apply Hrun.
Qed.

Lemma recv_when_full (s : uart_state) (c : Z) :
  rowcount s = UART_LINE_COUNT - 1 ->
  ends_line s c ->
  UART_HandleRecvChar_ISR c s =
  let ptr := if recvcharptr s >=? UART_LINE_SIZE
             then UART_LINE_SIZE - 1 else recvcharptr s in
  mkUart (poke (row_base (newestrow s)) 0
            (poke (row_base (newestrow s) + ptr) 0 (UART_recvlines s)))
         (rowcount s) (oldestrow s) (newestrow s) 0
         (uart_filter_empty_lines s) (c =? CR).
Proof.
  intros Hfull [Hc [Hlf Hflt]].
  assert (Hterm : (c =? LF) || (c =? CR) = true).
  { destruct Hc as [-> | ->]; unfold CR, LF; reflexivity. }
  assert (Hnadv : (rowcount s <? UART_LINE_COUNT - 1) = false)
    by (apply Z.ltb_ge; lia).
  unfold UART_HandleRecvChar_ISR.
  rewrite Hlf, Hterm, Hflt, Hnadv. reflexivity.
Qed.

Lemma slot_starts_with_nul (buf : list Z) (row : Z) :
  0 < UART_LINE_SIZE -> peek buf (row_base row) = Some 0 ->
  until_nul (slot buf row) = [].
Proof.
  intros Hs Hlk. unfold peek in Hlk. unfold slot.
  rewrite (drop_S _ _ _ Hlk).
  destruct (Z.to_nat UART_LINE_SIZE) eqn:E; [lia | reflexivity].
Qed.

(** C2, as the code has it.  When a terminator takes effect while
    [UART_LINE_COUNT - 1] complete lines are unread, the in-progress slot is
    reused: the count and both cursors stay, the write cursor returns to 0,
    the in-progress slot now holds the empty line (so the line just
    received is the one that is lost), and every other slot, the oldest
    unread line included, keeps its characters. *)
Theorem full_buffer_reuses_slot (s : uart_state) (c : Z) :
  uart_inv s ->
  rowcount s = UART_LINE_COUNT - 1 ->
  ends_line s c ->
  let s' := UART_HandleRecvChar_ISR c s in
  rowcount s' = UART_LINE_COUNT - 1 /\
  newestrow s' = newestrow s /\
  oldestrow s' = oldestrow s /\
  recvcharptr s' = 0 /\
  line_text s' (newestrow s') = [] /\
  (forall row, 0 <= row -> row <> newestrow s ->
     slot (UART_recvlines s') row = slot (UART_recvlines s) row) /\
  (forall row, complete_row s row ->
     complete_row s' row /\ line_text s' row = line_text s row).
Proof.
  intros Hinv Hfull Hends s'. subst s'.
  rewrite (recv_when_full s c Hfull Hends).
  pose proof line_count_pos as Hcp. pose proof line_size_pos as Hs.
  set (ptr := if recvcharptr s >=? UART_LINE_SIZE
              then UART_LINE_SIZE - 1 else recvcharptr s).
  assert (Hp : 0 <= ptr < UART_LINE_SIZE).
  { pose proof (inv_ptr s Hinv). subst ptr.
    destruct (Z.geb_spec (recvcharptr s) UART_LINE_SIZE); lia. }
  pose proof (inv_newest s Hinv) as Hnew.
  pose proof (inv_len s Hinv) as Hlen.
  pose proof (slot_index_bounds (newestrow s) 0 Hnew ltac:(lia)) as Hb.
  cbv zeta. unfold line_text, complete_row. simpl.
  assert (Hother : forall row, 0 <= row -> row <> newestrow s ->
     slot (poke (row_base (newestrow s)) 0
             (poke (row_base (newestrow s) + ptr) 0 (UART_recvlines s))) row
     = slot (UART_recvlines s) row).
  { intros row Hr Hne.
    replace (row_base (newestrow s)) with (row_base (newestrow s) + 0)
      at 1 by lia.
    rewrite !slot_poke_other by lia. reflexivity. }
  split; [exact Hfull |].
  split; [reflexivity |]. split; [reflexivity |]. split; [reflexivity |].
  split; [| split; [exact Hother |]].
  - apply slot_starts_with_nul; [exact Hs |].
    apply peek_poke_eq. rewrite length_poke. lia.
  - intros row Hrow. split; [exact Hrow |].
    rewrite Hother; [reflexivity | apply Hrow |].
    apply (complete_not_newest s row Hinv Hrow).
Qed.

(** Two receive states that differ at most in the CR tracking flag. *)
Definition same_buffer (s1 s2 : uart_state) : Prop :=
  UART_recvlines s1 = UART_recvlines s2 /\
  rowcount s1 = rowcount s2 /\
  oldestrow s1 = oldestrow s2 /\
  newestrow s1 = newestrow s2 /\
  recvcharptr s1 = recvcharptr s2 /\
  uart_filter_empty_lines s1 = uart_filter_empty_lines s2.

Lemma spec_terminators_nonneg (cs : list Z) (prev_cr : bool) :
  0 <= spec_terminators prev_cr cs.
Proof using Type.
  clear Hbits Hcount.
  revert prev_cr. induction cs as [| c cs IH]; intros prev_cr; simpl.
  - lia.
  - specialize (IH (c =? CR)).
    destruct (c =? CR); [lia |].
    destruct ((c =? LF) && negb prev_cr); lia.
Qed.

(** One received character, filtering off: the count of complete lines
    goes up by one on a terminator (saturating at the cap) and stays
    otherwise. *)
Lemma recv_counts_terminator (c : Z) (s : uart_state) :
  uart_filter_empty_lines s = false ->
  0 <= rowcount s <= UART_LINE_COUNT - 1 ->
  let s' := UART_HandleRecvChar_ISR c s in
  uart_filter_empty_lines s' = false /\
  saw_cr s' = (c =? CR) /\
  rowcount s' =
    Z.min (UART_LINE_COUNT - 1)
          (rowcount s + spec_terminators (saw_cr s) [c]).
Proof using Type.
  clear Hbits Hcount.
  intros Hf Hb. unfold UART_HandleRecvChar_ISR. simpl spec_terminators.
  rewrite Hf. cbn [andb].
  destruct (Z.eqb_spec c CR) as [-> | Hcr].
  - (* CR *)
    replace (CR =? LF) with false by reflexivity.
    rewrite andb_false_r. cbn [orb]. cbv zeta.
    destruct (Z.ltb_spec (rowcount s) (UART_LINE_COUNT - 1)); simpl;
      repeat split; auto; lia.
  - destruct (Z.eqb_spec c LF) as [-> | Hlf].
    + destruct (saw_cr s); cbn [andb orb negb]; cbv zeta.
      * simpl. repeat split; auto; lia.
      * destruct (Z.ltb_spec (rowcount s) (UART_LINE_COUNT - 1)); simpl;
          repeat split; auto; lia.
    + rewrite andb_false_r. cbn [andb orb].
      destruct (recvcharptr s <? UART_LINE_SIZE); simpl;
        repeat split; auto; lia.
Qed.

(** C6.  CR, LF and CR LF each end exactly one line.
    (1) The LF of a CR LF pair changes nothing in the buffer, whatever the
        filtering flag says.
    (2) An LF that does not follow a CR has exactly the effect of a CR.
    (3) With filtering off and no line released, the count of complete
        lines after any character sequence is the number of terminators the
        design document defines (CR, or LF not right after CR), capped at
        [UART_LINE_COUNT - 1]. *)
Theorem crlf_is_one_terminator :
  (forall s : uart_state,
     same_buffer (UART_HandleRecvChar_ISR LF (UART_HandleRecvChar_ISR CR s))
                 (UART_HandleRecvChar_ISR CR s)) /\
  (forall s : uart_state, saw_cr s = false ->
     same_buffer (UART_HandleRecvChar_ISR LF s)
                 (UART_HandleRecvChar_ISR CR s)) /\
  (forall (cs : list Z) (s : uart_state),
     uart_filter_empty_lines s = false ->
     0 <= rowcount s <= UART_LINE_COUNT - 1 ->
     rowcount (feed s cs) =
       Z.min (UART_LINE_COUNT - 1)
             (rowcount s + spec_terminators (saw_cr s) cs)).
Proof using Type.
  clear Hbits Hcount.
  split; [| split].
  - intros s.
    set (s1 := UART_HandleRecvChar_ISR CR s).
    assert (Hcr : saw_cr s1 = true) by reflexivity.
    unfold UART_HandleRecvChar_ISR at 1. rewrite Hcr.
    replace (LF =? LF) with true by reflexivity. cbn [andb].
    unfold same_buffer. simpl. repeat split; reflexivity.
  - intros s Hno. unfold UART_HandleRecvChar_ISR. rewrite Hno.
    cbn [andb].
    replace (LF =? LF) with true by reflexivity.
    replace (CR =? CR) with true by reflexivity.
    replace (CR =? LF) with false by reflexivity.
    cbn [orb]. cbv zeta.
    destruct (uart_filter_empty_lines s && (recvcharptr s =? 0));
      unfold same_buffer; simpl; repeat split; reflexivity.
  - induction cs as [| c cs IH]; intros s Hf Hb.
    + simpl. lia.
    + change (feed s (c :: cs))
        with (feed (UART_HandleRecvChar_ISR c s) cs).
      destruct (recv_counts_terminator c s Hf Hb) as [Hf' [Hcr' Hrc']].
      pose proof (spec_terminators_nonneg cs (c =? CR)) as Hrest.
      pose proof (spec_terminators_nonneg [c] (saw_cr s)) as Hone.
      rewrite IH; [| exact Hf' | rewrite Hrc'; lia].
      rewrite Hcr', Hrc'.
      assert (E : spec_terminators (saw_cr s) (c :: cs)
                  = spec_terminators (saw_cr s) [c]
                    + spec_terminators (c =? CR) cs) by (simpl; lia).
      rewrite E. lia.
Qed.

(** *** The unread lines as a queue

    The main loop takes lines with [UART_GetNextLine] and releases them
    with [UART_DoneWithLine]; the receive interrupt completes lines behind
    it.  [queued] lists the complete, unread lines from the oldest on. *)

(** The slot [i] places after the oldest one. *)
Definition ring_row (s : uart_state) (i : nat) : Z :=
  Z.land (oldestrow s + Z.of_nat i) (UART_LINE_COUNT - 1).

Definition queued (s : uart_state) : list (list Z) :=
  map (fun i => line_text s (ring_row s i)) (seq 0 (Z.to_nat (rowcount s))).

(** The C string a consumer reads through the pointer
    [UART_recvlines + off]. *)
Definition text_at (s : uart_state) (off : Z) : list Z :=
  until_nul (drop (Z.to_nat off) (UART_recvlines s)).

(** The main loop's idiom, at most [n] times: fetch the next line, use it,
    release it.  Returns the lines read and the state left. *)
Fixpoint consume (n : nat) (s : uart_state) : list (list Z) * uart_state :=
  match n with
  | O => ([], s)
  | S n' =>
      match UART_GetNextLine s with
      | None => ([], s)
      | Some off =>
          let '(ls, s') := consume n' (UART_DoneWithLine s) in
          (text_at s off :: ls, s')
      end
  end.

(** A line of payload characters: no NUL and no terminator. *)
Definition clean (l : list Z) : Prop :=
  Forall (fun c => c <> 0 /\ c <> CR /\ c <> LF) l.

(** How a host ends a line. *)
Inductive eol := EolCR | EolLF | EolCRLF.

Definition eol_chars (e : eol) : list Z :=
  match e with
  | EolCR => [CR]
  | EolLF => [LF]
  | EolCRLF => [CR; LF]
  end.

(** The character stream of a sequence of lines, each with its own line
    ending. *)
Definition wire (lines : list (list Z * eol)) : list Z :=
  flat_map (fun le => fst le ++ eol_chars (snd le)) lines.

(** What a slot keeps of a line: one byte of the slot is the NUL. *)
Definition stored (l : list Z) : list Z :=
  take (Z.to_nat (UART_LINE_SIZE - 1)) l.

Lemma until_nul_take (n : nat) (l : list Z) :
  (exists j, (j < n)%nat /\ l !! j = Some 0) ->
  until_nul (take n l) = until_nul l.
Proof using Type.
  clear Hbits Hcount.
  revert n. induction l as [| c l IH]; intros n [j [Hj Hz]].
  - now rewrite take_nil.
  - destruct n as [| n]; [lia |]. simpl.
    destruct (Z.eqb_spec c 0) as [-> | Hc]; [reflexivity |].
    f_equal. apply IH. destruct j as [| j].
    + simpl in Hz. congruence.
    + exists j. split; [lia | exact Hz].
Qed.

Lemma until_nul_insert (n : nat) (l : list Z) :
  (n < length l)%nat -> Forall (fun c => c <> 0) (take n l) ->
  until_nul (<[n := 0]> l) = take n l.
Proof using Type.
  clear Hbits Hcount.
  revert n. induction l as [| c l IH]; intros n Hn Hall.
  - simpl in Hn. lia.
  - destruct n as [| n]; simpl.
    + reflexivity.
    + simpl in Hall. apply Forall_cons in Hall as [Hc Hall].
      destruct (Z.eqb_spec c 0) as [-> | _]; [congruence |].
      f_equal. apply IH; [simpl in Hn; lia | exact Hall].
Qed.

Lemma until_nul_nonempty (l : list Z) (c : Z) :
  l !! 0%nat = Some c -> c <> 0 -> until_nul l <> [].
Proof using Type.
  clear Hbits Hcount.
  destruct l as [| x l]; simpl; [discriminate |].
  intros [= ->] Hc. destruct (Z.eqb_spec c 0); [contradiction | discriminate].
Qed.

Lemma slot_length (buf : list Z) (row : Z) :
  Z.of_nat (length buf) = UART_LINE_COUNT * UART_LINE_SIZE ->
  0 <= row < UART_LINE_COUNT ->
  length (slot buf row) = Z.to_nat UART_LINE_SIZE.
Proof.
  intros Hlen Hrow. pose proof line_size_pos as Hs.
  unfold slot. rewrite length_take, length_drop, row_base_mul. nia.
Qed.

Lemma slot_lookup (buf : list Z) (row j : Z) :
  0 <= row -> 0 <= j < UART_LINE_SIZE ->
  slot buf row !! Z.to_nat j = peek buf (row_base row + j).
Proof.
  intros Hrow Hj. pose proof line_size_pos as Hs.
  unfold slot, peek. rewrite lookup_take_lt by lia.
  rewrite lookup_drop. f_equal. rewrite row_base_mul. nia.
Qed.

(** A write into a slot, seen from that slot. *)
Lemma slot_poke_same (buf : list Z) (r j v : Z) :
  0 <= r -> 0 <= j < UART_LINE_SIZE ->
  slot (poke (row_base r + j) v buf) r = <[Z.to_nat j := v]> (slot buf r).
Proof.
  intros Hr Hj. pose proof line_size_pos as Hs.
  unfold slot, poke.
  assert (Hb : 0 <= row_base r) by (rewrite row_base_mul; nia).
  rewrite drop_insert_ge by lia.
  rewrite take_insert_lt by lia.
  f_equal. lia.
Qed.

Lemma text_at_line (s : uart_state) (row : Z) :
  uart_inv s -> complete_row s row ->
  text_at s (row_base row) = line_text s row.
Proof.
  intros Hinv Hrow. pose proof line_size_pos as Hs.
  destruct (inv_term s Hinv row Hrow) as [j [Hj Hz]].
  unfold text_at, line_text, slot. symmetry. apply until_nul_take.
  exists (Z.to_nat j). split; [lia |].
  rewrite lookup_drop. unfold peek in Hz. rewrite <- Hz. f_equal.
  destruct Hrow as [Hrow _]. rewrite row_base_mul. nia.
Qed.

Lemma ring_row_range (s : uart_state) (i : nat) :
  0 <= ring_row s i < UART_LINE_COUNT.
Proof.
  unfold ring_row. rewrite mask_is_mod.
  apply Z.mod_pos_bound, line_count_pos.
Qed.

Lemma ring_row_offset (s : uart_state) (i : nat) :
  0 <= oldestrow s < UART_LINE_COUNT ->
  Z.of_nat i < UART_LINE_COUNT ->
  (ring_row s i - oldestrow s) mod UART_LINE_COUNT = Z.of_nat i.
Proof.
  intros Ho Hi. unfold ring_row. rewrite mask_is_mod.
  rewrite Zminus_mod_idemp_l.
  replace (oldestrow s + Z.of_nat i - oldestrow s) with (Z.of_nat i) by lia.
  apply Z.mod_small. lia.
Qed.

Lemma ring_row_complete (s : uart_state) (i : nat) :
  uart_inv s -> Z.of_nat i < rowcount s -> complete_row s (ring_row s i).
Proof.
  intros Hinv Hi. split; [apply ring_row_range |].
  rewrite ring_row_offset; [exact Hi | apply (inv_oldest s Hinv) |].
  pose proof (inv_count s Hinv). lia.
Qed.

(** The slot being filled is the one right after the complete lines. *)
Lemma ring_row_newest (s : uart_state) :
  uart_inv s -> ring_row s (Z.to_nat (rowcount s)) = newestrow s.
Proof.
  intros Hinv. pose proof (inv_count s Hinv) as Hc.
  apply (ring_inj _ _ (oldestrow s));
    [apply ring_row_range | apply (inv_newest s Hinv) |].
  rewrite ring_row_offset, (inv_ring s Hinv);
    [lia | apply (inv_oldest s Hinv) | lia].
Qed.

Lemma length_queued (s : uart_state) :
  length (queued s) = Z.to_nat (rowcount s).
Proof using Type.
  clear Hbits Hcount.
  unfold queued. now rewrite length_map, length_seq.
Qed.

(** Two states with the same read cursor and the same characters in every
    complete slot of the first hold its lines as a prefix. *)
Lemma queued_frame (s s' : uart_state) (n : nat) :
  uart_inv s ->
  oldestrow s' = oldestrow s ->
  Z.of_nat n <= rowcount s ->
  (forall row, complete_row s row ->
               slot (UART_recvlines s') row = slot (UART_recvlines s) row) ->
  map (fun i => line_text s' (ring_row s' i)) (seq 0 n)
  = map (fun i => line_text s (ring_row s i)) (seq 0 n).
Proof.
  intros Hinv Ho Hn Hsame. apply map_ext_in. intros i Hi.
  apply List.in_seq in Hi.
  assert (Er : ring_row s' i = ring_row s i)
    by (unfold ring_row; now rewrite Ho).
  rewrite Er. unfold line_text. rewrite Hsame; [reflexivity |].
  apply ring_row_complete; [exact Hinv | lia].
Qed.

(** *** The consumer side *)

Lemma queued_done (s : uart_state) :
  uart_inv s -> queued (UART_DoneWithLine s) = tail (queued s).
Proof.
  intros Hinv. pose proof (inv_count s Hinv) as Hc.
  unfold UART_DoneWithLine.
  destruct (Z.ltb_spec 0 (rowcount s)) as [Hpos | Hzero].
  - unfold queued. cbn [rowcount].
    replace (Z.to_nat (rowcount s)) with (S (Z.to_nat (rowcount s - 1)))
      by lia.
    cbn [seq map tail]. rewrite <- seq_shift, map_map.
    apply map_ext. intros i.
    unfold line_text, ring_row. cbn [UART_recvlines oldestrow].
    do 2 f_equal. rewrite !mask_is_mod.
    rewrite Zplus_mod_idemp_l. f_equal. lia.
  - unfold queued. replace (rowcount s) with 0 by lia. reflexivity.
Qed.

Lemma next_line_is_head (s : uart_state) :
  uart_inv s ->
  match UART_GetNextLine s with
  | None => queued s = []
  | Some off => exists rest, queued s = text_at s off :: rest
  end.
Proof.
  intros Hinv. pose proof (inv_count s Hinv) as Hc.
  pose proof (inv_oldest s Hinv) as Ho.
  unfold UART_GetNextLine.
  destruct (Z.ltb_spec 0 (rowcount s)) as [Hpos | Hzero].
  - unfold queued.
    replace (Z.to_nat (rowcount s)) with (S (Z.to_nat (rowcount s - 1)))
      by lia.
    cbn [seq map]. eexists. f_equal.
    assert (E0 : ring_row s 0 = oldestrow s).
    { unfold ring_row. rewrite mask_is_mod, Z.add_0_r.
      apply Z.mod_small. exact Ho. }
    rewrite E0. fold (row_base (oldestrow s)).
    symmetry. apply text_at_line; [exact Hinv |].
    rewrite <- E0. apply ring_row_complete; [exact Hinv | lia].
  - unfold queued. replace (rowcount s) with 0 by lia. reflexivity.
Qed.

Lemma consume_spec (n : nat) (s : uart_state) :
  uart_inv s ->
  fst (consume n s) = take n (queued s) /\
  queued (snd (consume n s)) = drop n (queued s) /\
  uart_inv (snd (consume n s)).
Proof.
  revert s. induction n as [| n IH]; intros s Hinv.
  - simpl. rewrite drop_0. auto.
  - cbn [consume].
    pose proof (next_line_is_head s Hinv) as Hhead.
    destruct (UART_GetNextLine s) as [off |].
    + destruct Hhead as [rest Hq].
      destruct (IH (UART_DoneWithLine s) (uart_inv_done s Hinv))
        as (Hf & Hd & Hi).
      rewrite (queued_done s Hinv), Hq in Hf, Hd. cbn [tail] in Hf, Hd.
      destruct (consume n (UART_DoneWithLine s)) as [ls s'].
      cbn [fst snd] in *. rewrite Hq. cbn [take drop].
      rewrite Hf. auto.
    + cbn [fst snd]. rewrite Hhead. rewrite take_nil, drop_nil. auto.
Qed.

(** *** The producer side *)

Lemma recv_cursors (c : Z) (s : uart_state) :
  let s' := UART_HandleRecvChar_ISR c s in
  oldestrow s' = oldestrow s /\
  uart_filter_empty_lines s' = uart_filter_empty_lines s /\
  (rowcount s' = rowcount s \/
   rowcount s < UART_LINE_COUNT - 1 /\ rowcount s' = rowcount s + 1).
Proof using Type.
  clear Hbits Hcount.
  unfold UART_HandleRecvChar_ISR.
  destruct (saw_cr s && (c =? LF)); [simpl; auto |].
  destruct ((c =? LF) || (c =? CR)).
  - destruct (uart_filter_empty_lines s && (recvcharptr s =? 0));
      [simpl; auto |].
    cbv zeta.
    destruct (Z.ltb_spec (rowcount s) (UART_LINE_COUNT - 1)); simpl; auto.
  - destruct (recvcharptr s <? UART_LINE_SIZE); simpl; auto.
Qed.

(** The slot after the newest one holds no complete line. *)
Lemma next_row_not_complete (s : uart_state) (row : Z) :
  uart_inv s -> rowcount s < UART_LINE_COUNT - 1 -> complete_row s row ->
  row <> Z.land (newestrow s + 1) (UART_LINE_COUNT - 1).
Proof.
  intros Hinv Hadv [Hr Hlt] ->. rewrite mask_is_mod in Hlt.
  rewrite (ring_succ _ _ _ (inv_ring s Hinv)) in Hlt; lia.
Qed.

(** A received character leaves the characters of every complete line
    alone. *)
Lemma recv_keeps_complete (c : Z) (s : uart_state) (row : Z) :
  uart_inv s -> complete_row s row ->
  slot (UART_recvlines (UART_HandleRecvChar_ISR c s)) row
  = slot (UART_recvlines s) row.
Proof.
  intros Hinv Hrow.
  pose proof (complete_not_newest s row Hinv Hrow) as Hne.
  pose proof (inv_newest s Hinv) as Hn. pose proof (inv_ptr s Hinv) as Hp.
  pose proof line_size_pos as Hs.
  pose proof (next_row_not_complete s row Hinv) as Hnext.
  assert (Hr : 0 <= row) by (destruct Hrow; lia).
  unfold UART_HandleRecvChar_ISR.
  destruct (saw_cr s && (c =? LF)); [reflexivity |].
  destruct ((c =? LF) || (c =? CR)).
  - destruct (uart_filter_empty_lines s && (recvcharptr s =? 0));
      [reflexivity |].
    cbv zeta. cbn [UART_recvlines].
    set (ptr := if recvcharptr s >=? UART_LINE_SIZE
                then UART_LINE_SIZE - 1 else recvcharptr s).
    assert (Hptr : 0 <= ptr < UART_LINE_SIZE).
    { subst ptr. destruct (Z.geb_spec (recvcharptr s) UART_LINE_SIZE); lia. }
    set (newest' := if rowcount s <? UART_LINE_COUNT - 1
                    then Z.land (newestrow s + 1) (UART_LINE_COUNT - 1)
                    else newestrow s).
    assert (Hn' : 0 <= newest' /\ row <> newest').
    { subst newest'.
      destruct (Z.ltb_spec (rowcount s) (UART_LINE_COUNT - 1)) as [Ha | Ha].
      - split; [| now apply Hnext].
        rewrite mask_is_mod.
        apply Z.mod_pos_bound, line_count_pos.
      - split; [lia | exact Hne]. }
    replace (row_base newest') with (row_base newest' + 0) by lia.
    rewrite slot_poke_other by lia.
    apply slot_poke_other; lia.
  - destruct (Z.ltb_spec (recvcharptr s) UART_LINE_SIZE); cbn [UART_recvlines];
      [| reflexivity].
    apply slot_poke_other; lia.
Qed.

(** One received character either leaves the queue as it is or appends
    the line it completes. *)
Lemma queued_recv (c : Z) (s : uart_state) :
  uart_inv s ->
  let s' := UART_HandleRecvChar_ISR c s in
  (rowcount s' = rowcount s /\ queued s' = queued s) \/
  (rowcount s < UART_LINE_COUNT - 1 /\ rowcount s' = rowcount s + 1 /\
   queued s' = queued s ++ [line_text s' (newestrow s)]).
Proof.
  intros Hinv s'. pose proof (inv_count s Hinv) as Hc.
  destruct (recv_cursors c s) as (Ho & _ & Hrc). fold s' in Ho, Hrc.
  assert (Hframe : forall n, Z.of_nat n <= rowcount s ->
            map (fun i => line_text s' (ring_row s' i)) (seq 0 n)
            = map (fun i => line_text s (ring_row s i)) (seq 0 n)).
  { intros n Hn. apply queued_frame; auto.
    intros row Hrow. now apply recv_keeps_complete. }
  destruct Hrc as [Hsame | [Hadv Hinc]].
  - left. split; [exact Hsame |]. unfold queued. rewrite Hsame.
    apply Hframe. lia.
  - right. split; [exact Hadv |]. split; [exact Hinc |].
    unfold queued at 1. rewrite Hinc.
    replace (Z.to_nat (rowcount s + 1)) with (Z.to_nat (rowcount s) + 1)%nat
      by lia.
    rewrite seq_app, map_app, Hframe by lia. cbn [seq map].
    f_equal. f_equal. f_equal.
    rewrite <- (ring_row_newest s Hinv). unfold ring_row. now rewrite Ho.
Qed.

Lemma feed_snoc (s : uart_state) (cs : list Z) (c : Z) :
  feed s (cs ++ [c]) = UART_HandleRecvChar_ISR c (feed s cs).
Proof using Type.
  clear Hbits Hcount. unfold feed. now rewrite List.fold_left_app.
Qed.

Lemma feed_app (s : uart_state) (a b : list Z) :
  feed s (a ++ b) = feed (feed s a) b.
Proof using Type.
  clear Hbits Hcount. unfold feed. now rewrite List.fold_left_app.
Qed.

Lemma uart_inv_feed (cs : list Z) (s : uart_state) :
  uart_inv s -> uart_inv (feed s cs).
Proof.
  intros Hinv. rewrite feed_as_run. now apply uart_inv_run.
Qed.

(** A payload character is stored at the write cursor, or dropped when
    the slot is full. *)
Lemma recv_payload (c : Z) (s : uart_state) :
  c <> CR -> c <> LF ->
  UART_HandleRecvChar_ISR c s =
  if recvcharptr s <? UART_LINE_SIZE then
    mkUart (poke (row_base (newestrow s) + recvcharptr s) c
                 (UART_recvlines s))
           (rowcount s) (oldestrow s) (newestrow s) (recvcharptr s + 1)
           (uart_filter_empty_lines s) false
  else
    mkUart (UART_recvlines s) (rowcount s) (oldestrow s) (newestrow s)
           (recvcharptr s) (uart_filter_empty_lines s) false.
Proof using Type.
  clear Hbits Hcount.
  intros Hcr Hlf. unfold UART_HandleRecvChar_ISR.
  apply Z.eqb_neq in Hcr, Hlf. rewrite Hcr, Hlf, andb_false_r.
  cbn [orb]. now destruct (recvcharptr s <? UART_LINE_SIZE).
Qed.

(** A terminator that takes effect. *)
Lemma recv_ends_line (c : Z) (s : uart_state) :
  ends_line s c ->
  UART_HandleRecvChar_ISR c s =
  let ptr := if recvcharptr s >=? UART_LINE_SIZE
             then UART_LINE_SIZE - 1 else recvcharptr s in
  let advance := rowcount s <? UART_LINE_COUNT - 1 in
  let newest' := if advance
                 then Z.land (newestrow s + 1) (UART_LINE_COUNT - 1)
                 else newestrow s in
  mkUart (poke (row_base newest') 0
            (poke (row_base (newestrow s) + ptr) 0 (UART_recvlines s)))
         (if advance then rowcount s + 1 else rowcount s)
         (oldestrow s) newest' 0 (uart_filter_empty_lines s) (c =? CR).
Proof using Type.
  clear Hbits Hcount.
  intros [Hc [Hlf Hflt]].
  assert (Hterm : (c =? LF) || (c =? CR) = true).
  { destruct Hc as [-> | ->]; unfold CR, LF; reflexivity. }
  unfold UART_HandleRecvChar_ISR.
  rewrite Hlf, Hterm, Hflt. reflexivity.
Qed.

(** The payload of a line, fed from the start of a slot: the slot holds
    as much of it as fits, and nothing else moves. *)
Lemma feed_clean (cs : list Z) (s : uart_state) :
  uart_inv s -> recvcharptr s = 0 -> clean cs ->
  let s' := feed s cs in
  rowcount s' = rowcount s /\ oldestrow s' = oldestrow s /\
  newestrow s' = newestrow s /\
  uart_filter_empty_lines s' = uart_filter_empty_lines s /\
  recvcharptr s' = Z.min (Z.of_nat (length cs)) UART_LINE_SIZE /\
  (cs <> [] -> saw_cr s' = false) /\
  take (Z.to_nat (recvcharptr s'))
       (slot (UART_recvlines s') (newestrow s))
  = take (Z.to_nat UART_LINE_SIZE) cs /\
  queued s' = queued s.
Proof.
  intros Hinv Hptr. pose proof line_size_pos as Hs.
  induction cs as [| c cs IH] using rev_ind; intros Hclean s'.
  - subst s'. cbn [feed fold_left length]. rewrite Hptr.
    repeat split; auto; try lia; [congruence | now rewrite take_nil].
  - apply Forall_app in Hclean as [Hcs Hc].
    apply Forall_cons in Hc as [(Hc0 & Hcr & Hlf) _].
    destruct (IH Hcs) as (Hrc & Ho & Hn & Hf & Hp & _ & Hslot & Hq).
    clear IH. subst s'. rewrite feed_snoc.
    pose proof (uart_inv_feed cs s Hinv) as Hinv1.
    set (s1 := feed s cs) in *.
    pose proof (inv_newest s Hinv) as Hnew.
    pose proof (inv_len s1 Hinv1) as Hlen1.
    assert (Hq' : queued (UART_HandleRecvChar_ISR c s1) = queued s1).
    { destruct (queued_recv c s1 Hinv1) as [[_ E] | (_ & E & _)];
        [exact E |].
      rewrite (recv_payload c s1 Hcr Hlf) in E.
      destruct (recvcharptr s1 <? UART_LINE_SIZE); simpl in E; lia. }
    rewrite Hq', Hq. rewrite (recv_payload c s1 Hcr Hlf).
    rewrite length_app. cbn [length].
    destruct (Z.ltb_spec (recvcharptr s1) UART_LINE_SIZE) as [Hroom | Hfull];
      cbn [rowcount oldestrow newestrow uart_filter_empty_lines recvcharptr
           saw_cr UART_recvlines].
    + assert (Hlencs : recvcharptr s1 = Z.of_nat (length cs)) by lia.
      repeat split; auto; try lia.
      rewrite Hn, slot_poke_same by lia.
      replace (Z.to_nat (recvcharptr s1 + 1))
        with (S (Z.to_nat (recvcharptr s1))) by lia.
      assert (Hsl : (Z.to_nat (recvcharptr s1)
                     < length (slot (UART_recvlines s1) (newestrow s)))%nat).
      { rewrite slot_length; [lia | exact Hlen1 | exact Hnew]. }
      rewrite (take_S_r _ _ c)
        by (apply list_lookup_insert_eq; exact Hsl).
      rewrite take_insert_ge by lia. rewrite Hslot.
      rewrite !take_ge by (try rewrite length_app; cbn [length]; lia).
      reflexivity.
    + repeat split; auto; try lia.
      rewrite Hslot.
      rewrite take_app_le by lia. reflexivity.
Qed.

Lemma queued_ext (s s' : uart_state) :
  UART_recvlines s' = UART_recvlines s -> rowcount s' = rowcount s ->
  oldestrow s' = oldestrow s -> queued s' = queued s.
Proof using Type.
  clear Hbits Hcount.
  intros Hb Hc Ho. unfold queued, line_text, ring_row.
  now rewrite Hb, Hc, Ho.
Qed.

(** The LF of a CR LF pair only clears the CR flag. *)
Lemma recv_lf_after_cr (s : uart_state) :
  saw_cr s = true ->
  UART_HandleRecvChar_ISR LF s =
  mkUart (UART_recvlines s) (rowcount s) (oldestrow s) (newestrow s)
         (recvcharptr s) (uart_filter_empty_lines s) false.
Proof using Type.
  clear Hbits Hcount.
  intros Hcr. unfold UART_HandleRecvChar_ISR. rewrite Hcr. reflexivity.
Qed.

(** A payload and one terminator character, from the start of a slot. *)
Lemma feed_line (s : uart_state) (l : list Z) (t : Z) :
  uart_inv s -> recvcharptr s = 0 -> clean l -> l <> [] ->
  t = CR \/ t = LF ->
  let s' := feed s (l ++ [t]) in
  queued s' = (if rowcount s <? UART_LINE_COUNT - 1
               then queued s ++ [stored l] else queued s) /\
  rowcount s' = (if rowcount s <? UART_LINE_COUNT - 1
                 then rowcount s + 1 else rowcount s) /\
  oldestrow s' = oldestrow s /\
  uart_filter_empty_lines s' = uart_filter_empty_lines s /\
  recvcharptr s' = 0 /\ saw_cr s' = (t =? CR) /\ uart_inv s'.
Proof.
  intros Hinv Hptr Hclean Hne Ht s'. pose proof line_size_pos as Hs.
  destruct (feed_clean l s Hinv Hptr Hclean)
    as (Hrc & Ho & Hn & Hf & Hp & Hcr & Hslot & Hq).
  specialize (Hcr Hne).
  pose proof (uart_inv_feed l s Hinv) as Hinv1.
  subst s'. rewrite feed_snoc.
  set (s1 := feed s l) in *.
  assert (Hlen : (0 < length l)%nat) by (destruct l; simpl; [congruence | lia]).
  assert (Hends : ends_line s1 t).
  { split; [exact Ht |]. rewrite Hcr. split; [reflexivity |].
    replace (recvcharptr s1 =? 0) with false; [apply andb_false_r |].
    symmetry. apply Z.eqb_neq. lia. }
  pose proof (uart_inv_recv t s1 Hinv1) as Hinv2.
  pose proof (queued_recv t s1 Hinv1) as Hqr.
  rewrite (recv_ends_line t s1 Hends) in Hqr, Hinv2 |- *.
  cbv zeta in Hqr, Hinv2 |- *.
  rewrite Hrc in Hqr, Hinv2 |- *.
  destruct (Z.ltb_spec (rowcount s) (UART_LINE_COUNT - 1)) as [Hadv | Hfull];
    cbn [rowcount oldestrow uart_filter_empty_lines recvcharptr saw_cr];
    (split; [| repeat apply conj; auto]).
  - destruct Hqr as [[E _] | (_ & _ & E)]; [simpl in E; lia |].
    rewrite E, Hq. f_equal. f_equal.
    (* the text left in the slot that was being filled *)
    set (ptr := if recvcharptr s1 >=? UART_LINE_SIZE
                then UART_LINE_SIZE - 1 else recvcharptr s1).
    assert (Hptr1 : ptr = Z.min (Z.of_nat (length l)) (UART_LINE_SIZE - 1)).
    { subst ptr. destruct (Z.geb_spec (recvcharptr s1) UART_LINE_SIZE); lia. }
    pose proof (inv_newest s1 Hinv1) as Hnew. rewrite Hn in Hnew.
    assert (Hother : newestrow s
                     <> Z.land (newestrow s + 1) (UART_LINE_COUNT - 1)).
    { intros Heq. rewrite mask_is_mod in Heq.
      pose proof (ring_succ _ _ _ (inv_ring s Hinv) ltac:(lia)) as Hsucc.
      rewrite <- Heq, (inv_ring s Hinv) in Hsucc. lia. }
    unfold line_text. cbn [UART_recvlines]. rewrite Hn.
    replace (row_base (Z.land (newestrow s + 1) (UART_LINE_COUNT - 1)))
      with (row_base (Z.land (newestrow s + 1) (UART_LINE_COUNT - 1)) + 0)
      by lia.
    rewrite slot_poke_other;
      [| lia | rewrite mask_is_mod;
               apply Z.mod_pos_bound, line_count_pos | exact Hother | lia].
    rewrite slot_poke_same by lia.
    assert (Hpre : take (Z.to_nat ptr) (slot (UART_recvlines s1) (newestrow s))
                   = stored l).
    { replace (Z.to_nat ptr)
        with (Z.to_nat ptr `min` Z.to_nat (recvcharptr s1))%nat by lia.
      rewrite <- take_take, Hslot, take_take. unfold stored.
      destruct (Z.le_gt_cases (Z.of_nat (length l)) (UART_LINE_SIZE - 1)).
      - rewrite !take_ge by lia. reflexivity.
      - f_equal. lia. }
    rewrite until_nul_insert.
    + exact Hpre.
    + rewrite slot_length; [lia | apply (inv_len s1 Hinv1) | exact Hnew].
    + rewrite Hpre. unfold stored. apply Forall_take.
      eapply List.Forall_impl; [| exact Hclean]. simpl. tauto.
  - destruct Hqr as [[_ E] | (E & _)]; [| lia].
    now rewrite E, Hq.
Qed.

(** A payload and its line ending. *)
Lemma feed_eol (s : uart_state) (l : list Z) (e : eol) :
  uart_inv s -> recvcharptr s = 0 -> clean l -> l <> [] ->
  let s' := feed s (l ++ eol_chars e) in
  queued s' = (if rowcount s <? UART_LINE_COUNT - 1
               then queued s ++ [stored l] else queued s) /\
  oldestrow s' = oldestrow s /\
  uart_filter_empty_lines s' = uart_filter_empty_lines s /\
  recvcharptr s' = 0 /\ uart_inv s'.
Proof.
  intros Hinv Hptr Hclean Hne.
  destruct e; cbn [eol_chars].
  - destruct (feed_line s l CR Hinv Hptr Hclean Hne ltac:(auto)) as
      (Hq & _ & Ho & Hf & Hp & _ & Hi). auto.
  - destruct (feed_line s l LF Hinv Hptr Hclean Hne ltac:(auto)) as
      (Hq & _ & Ho & Hf & Hp & _ & Hi). auto.
  - destruct (feed_line s l CR Hinv Hptr Hclean Hne ltac:(auto)) as
      (Hq & _ & Ho & Hf & Hp & Hcr & Hi).
    replace (l ++ [CR; LF]) with ((l ++ [CR]) ++ [LF])
      by now rewrite <- app_assoc.
    rewrite feed_snoc. set (s1 := feed s (l ++ [CR])) in *.
    pose proof (uart_inv_recv LF s1 Hi) as Hi2.
    rewrite (recv_lf_after_cr s1 Hcr) in Hi2 |- *.
    cbn [oldestrow uart_filter_empty_lines recvcharptr].
    split; [| repeat apply conj; auto].
    rewrite <- Hq. now apply queued_ext.
Qed.

Lemma feed_lines (lines : list (list Z * eol)) (s : uart_state) :
  uart_inv s -> recvcharptr s = 0 ->
  Forall (fun le => clean (fst le) /\ fst le <> []) lines ->
  let s' := feed s (wire lines) in
  queued s' = take (Z.to_nat (UART_LINE_COUNT - 1))
                   (queued s ++ map (fun le => stored (fst le)) lines) /\
  uart_inv s'.
Proof.
  revert s. induction lines as [| [l e] lines IH]; intros s Hinv Hptr Hall.
  - cbn [wire flat_map feed fold_left map]. rewrite app_nil_r.
    split; [| exact Hinv].
    rewrite take_ge; [reflexivity |].
    rewrite length_queued. pose proof (inv_count s Hinv). lia.
  - apply Forall_cons in Hall as [[Hclean Hne] Hall]. cbn [fst] in *.
    cbn [wire flat_map fst snd]. fold (wire lines). rewrite feed_app.
    destruct (feed_eol s l e Hinv Hptr Hclean Hne) as (Hq & _ & _ & Hp & Hi).
    destruct (IH _ Hi Hp Hall) as [Hq' Hi'].
    split; [| exact Hi'].
    rewrite Hq', Hq. cbn [map fst].
    destruct (Z.ltb_spec (rowcount s) (UART_LINE_COUNT - 1)) as [Hadv | Hfull].
    + now rewrite <- app_assoc.
    + assert (Hl : Z.to_nat (UART_LINE_COUNT - 1) = length (queued s)).
      { rewrite length_queued. pose proof (inv_count s Hinv). lia. }
      rewrite !take_app_le by lia. reflexivity.
Qed.

(** X1.  A line arriving on the wire: a non-empty payload without NUL,
    CR or LF, received from the start of a slot and ended by CR or LF.
    While fewer than [UART_LINE_COUNT - 1] lines are unread, the line joins
    the unread lines at the tail, cut to its first [UART_LINE_SIZE - 1]
    characters (the characters beyond the slot are dropped without any
    signal); with [UART_LINE_COUNT - 1] lines unread the whole line is
    dropped and the unread lines stay as they were.  Either way the next
    character starts a fresh line. *)
Theorem received_line_is_queued (s : uart_state) (l : list Z) (t : Z) :
  uart_inv s -> recvcharptr s = 0 -> clean l -> l <> [] ->
  t = CR \/ t = LF ->
  let s' := feed s (l ++ [t]) in
  queued s' = (if rowcount s <? UART_LINE_COUNT - 1
               then queued s ++ [take (Z.to_nat (UART_LINE_SIZE - 1)) l]
               else queued s) /\
  recvcharptr s' = 0 /\
  uart_inv s'.
Proof.
  intros Hinv Hptr Hclean Hne Ht.
  destruct (feed_line s l t Hinv Hptr Hclean Hne Ht)
    as (Hq & _ & _ & _ & Hp & _ & Hi).
  auto.
Qed.

(** X2.  The consumer's side of the line buffer.  Fetching and releasing
    [n] times hands out the first [n] unread lines, oldest first, and
    leaves the others unread; [UART_GetNextLine] answers NULL exactly when
    no line is unread, and then [UART_DoneWithLine] changes nothing;
    [UART_GetNextLine] itself never consumes: the line it points to stays
    the next one until it is released. *)
Theorem lines_come_out_in_order (n : nat) (s : uart_state) :
  uart_inv s ->
  fst (consume n s) = take n (queued s) /\
  queued (snd (consume n s)) = drop n (queued s) /\
  (UART_GetNextLine s = None <-> queued s = []) /\
  (queued s = [] -> UART_DoneWithLine s = s) /\
  (forall off, UART_GetNextLine s = Some off ->
               head (queued s) = Some (text_at s off)) /\
  queued (UART_DoneWithLine s) = tail (queued s).
Proof.
  intros Hinv.
  destruct (consume_spec n s Hinv) as (Hf & Hd & _).
  pose proof (next_line_is_head s Hinv) as Hhead.
  pose proof (length_queued s) as Hlen.
  pose proof (inv_count s Hinv) as Hc.
  split; [exact Hf |]. split; [exact Hd |]. split; [| split; [| split]].
  - destruct (UART_GetNextLine s).
    + destruct Hhead as [rest ->]. split; discriminate.
    + tauto.
  - intros Hq. rewrite Hq in Hlen. simpl in Hlen.
    unfold UART_DoneWithLine.
    destruct (Z.ltb_spec 0 (rowcount s)); [lia | reflexivity].
  - intros off Hoff. rewrite Hoff in Hhead.
    destruct Hhead as [rest ->]. reflexivity.
  - now apply queued_done.
Qed.

Lemma queued_init : queued uart_init = [].
Proof using Type. clear Hbits Hcount. reflexivity. Qed.

(** X3.  Round trip through the line buffer.  Lines sent to a freshly
    initialised buffer, each a non-empty payload without NUL, CR or LF
    followed by CR, LF or CR LF, and then read by the main loop: the first
    [UART_LINE_COUNT - 1] of them come out, in the order sent, each cut to
    [UART_LINE_SIZE - 1] characters; the lines sent after the buffer was
    full are lost, and after reading the buffer is empty. *)
Theorem lines_round_trip (lines : list (list Z * eol)) :
  Forall (fun le => clean (fst le) /\ fst le <> []) lines ->
  let s := feed uart_init (wire lines) in
  let kept := take (Z.to_nat (UART_LINE_COUNT - 1))
                   (map (fun le => take (Z.to_nat (UART_LINE_SIZE - 1))
                                        (fst le)) lines) in
  queued s = kept /\
  fst (consume (length lines) s) = kept /\
  UART_GetNextLine (snd (consume (length lines) s)) = None.
Proof.
  intros Hall s kept.
  destruct (feed_lines lines uart_init uart_inv_init eq_refl Hall)
    as [Hq Hi].
  fold s in Hq, Hi. rewrite queued_init in Hq. cbn [app] in Hq.
  fold (stored) in Hq.
  assert (Hk : queued s = kept) by exact Hq.
  destruct (consume_spec (length lines) s Hi) as (Hf & Hd & Hi').
  assert (Hlen : (length kept <= length lines)%nat).
  { subst kept. rewrite length_take, length_map. lia. }
  split; [exact Hk |]. split.
  - rewrite Hf, Hk. apply take_ge. exact Hlen.
  - pose proof (next_line_is_head _ Hi') as Hhead.
    destruct (UART_GetNextLine (snd (consume (length lines) s)));
      [| reflexivity].
    destruct Hhead as [rest Hrest]. rewrite Hd, Hk in Hrest.
    rewrite drop_ge in Hrest by exact Hlen. discriminate.
Qed.

Lemma feed_grows (cs : list Z) (s : uart_state) :
  uart_inv s ->
  oldestrow (feed s cs) = oldestrow s /\
  exists more, queued (feed s cs) = queued s ++ more.
Proof.
  intros Hinv. induction cs as [| c cs IH] using rev_ind.
  - split; [reflexivity |]. exists []. now rewrite app_nil_r.
  - destruct IH as [Ho [more Hq]]. rewrite feed_snoc.
    pose proof (uart_inv_feed cs s Hinv) as Hinv1.
    destruct (recv_cursors c (feed s cs)) as (Ho' & _).
    split; [congruence |].
    destruct (queued_recv c (feed s cs) Hinv1) as [[_ E] | (_ & _ & E)];
      rewrite E, Hq.
    + now exists more.
    + eexists. now rewrite <- app_assoc.
Qed.

(** X4.  Input never disturbs unread lines.  Whatever characters arrive
    (NULs, over-long lines and floods of terminators included), the unread
    lines stay unread, unchanged and in order, and new lines are only added
    behind them; in particular the line a consumer holds through the
    pointer [UART_GetNextLine] gave keeps its text until the consumer
    releases it. *)
Theorem unread_lines_survive_input (s : uart_state) (cs : list Z) :
  uart_inv s ->
  (exists more, queued (feed s cs) = queued s ++ more) /\
  (forall off, UART_GetNextLine s = Some off ->
     UART_GetNextLine (feed s cs) = Some off /\
     text_at (feed s cs) off = text_at s off).
Proof.
  intros Hinv. destruct (feed_grows cs s Hinv) as [Ho [more Hq]].
  split; [now exists more |].
  intros off Hoff.
  pose proof (next_line_is_head s Hinv) as Hhead. rewrite Hoff in Hhead.
  destruct Hhead as [rest Hrest].
  pose proof (next_line_is_head _ (uart_inv_feed cs s Hinv)) as Hhead'.
  pose proof (length_queued (feed s cs)) as Hlen.
  rewrite Hq, Hrest in Hlen. cbn [app length] in Hlen.
  unfold UART_GetNextLine in Hoff, Hhead' |- *.
  destruct (0 <? rowcount s); [| discriminate].
  injection Hoff as <-.
  destruct (Z.ltb_spec 0 (rowcount (feed s cs))) as [_ | Hz]; [| lia].
  rewrite Ho in Hhead' |- *. split; [reflexivity |].
  destruct Hhead' as [rest' Hrest'].
  rewrite Hq, Hrest in Hrest'. cbn [app] in Hrest'. congruence.
Qed.

(** *** Empty-line filtering *)

(** The events of a session that keeps filtering switched on and never
    receives a NUL. *)
Definition keeps_filtering (e : uart_event) : Prop :=
  match e with
  | EvRecv c => c <> 0
  | EvDone => True
  | EvFilter b => b = true
  end.

Record filter_inv (s : uart_state) : Prop := mkFilterInv {
  fi_inv : uart_inv s;
  fi_on : uart_filter_empty_lines s = true;
  fi_lines : Forall (fun l => l <> []) (queued s);
  (* the line being received starts with a character other than NUL *)
  fi_first : 0 < recvcharptr s ->
             exists c, peek (UART_recvlines s) (row_base (newestrow s))
                       = Some c /\ c <> 0
}.

Lemma line_size_two : 0 < UART_LINE_BITS -> 2 <= UART_LINE_SIZE.
Proof.
  intros Hb. rewrite line_size_pow2.
  replace UART_LINE_BITS with (1 + (UART_LINE_BITS - 1)) by lia.
  rewrite Z.pow_add_r by lia.
  pose proof (Z.pow_pos_nonneg 2 (UART_LINE_BITS - 1)). lia.
Qed.

Lemma filter_inv_same (s s' : uart_state) :
  filter_inv s -> uart_inv s' -> same_buffer s' s -> filter_inv s'.
Proof using Type.
  clear Hbits Hcount.
  intros [Hinv Hon Hlines Hfirst] Hinv' (Eb & Ec & Eo & En & Ep & Ef).
  constructor.
  - exact Hinv'.
  - congruence.
  - now rewrite (queued_ext s s' Eb Ec Eo).
  - rewrite Eb, En, Ep. exact Hfirst.
Qed.

Lemma filter_inv_recv (c : Z) (s : uart_state) :
  0 < UART_LINE_BITS -> c <> 0 ->
  filter_inv s -> filter_inv (UART_HandleRecvChar_ISR c s).
Proof.
  intros Hb Hc Hfi. pose proof Hfi as [Hinv Hon Hlines Hfirst].
  pose proof (line_size_two Hb) as Hs2.
  pose proof (uart_inv_recv c s Hinv) as Hinv'.
  pose proof (queued_recv c s Hinv) as Hq.
  pose proof (inv_newest s Hinv) as Hnew.
  pose proof (inv_ptr s Hinv) as Hptr.
  pose proof (inv_len s Hinv) as Hlen.
  assert (Hbase : 0 <= row_base (newestrow s)
                  /\ row_base (newestrow s) + UART_LINE_SIZE
                     <= Z.of_nat (length (UART_recvlines s))).
  { rewrite row_base_mul. nia. }
  destruct (saw_cr s && (c =? LF)) eqn:Eswallow.
  { (* the LF of a CR LF pair *)
    apply (filter_inv_same s); [exact Hfi | exact Hinv' |].
    unfold UART_HandleRecvChar_ISR. rewrite Eswallow.
    repeat split; reflexivity. }
  destruct ((c =? LF) || (c =? CR)) eqn:Eterm.
  - assert (Ht : c = CR \/ c = LF).
    { apply orb_true_iff in Eterm as [E | E]; apply Z.eqb_eq in E; auto. }
    destruct (recvcharptr s =? 0) eqn:Ezero.
    { (* a terminator on an empty line: filtered *)
      apply (filter_inv_same s); [exact Hfi | exact Hinv' |].
      unfold UART_HandleRecvChar_ISR. rewrite Eswallow, Eterm, Hon, Ezero.
      repeat split; reflexivity. }
    (* a terminator that ends a non-empty line *)
    assert (Hends : ends_line s c).
    { split; [exact Ht | split; [exact Eswallow |]].
      rewrite Ezero. apply andb_false_r. }
    apply Z.eqb_neq in Ezero.
    destruct (Hfirst ltac:(lia)) as [c0 [Hpk Hc0]].
    rewrite (recv_ends_line c s Hends) in Hinv', Hq |- *.
    cbv zeta in Hinv', Hq |- *.
    constructor; cbn [uart_filter_empty_lines recvcharptr]; auto;
      [| intros; lia].
    destruct Hq as [[_ E] | (Hadv & _ & E)]; rewrite E; [exact Hlines |].
    apply Forall_app_2; [exact Hlines |].
    apply Forall_cons_2; [| constructor].
    apply (until_nul_nonempty _ c0); [| exact Hc0].
    change 0%nat with (Z.to_nat 0).
    rewrite slot_lookup by lia.
    cbn [UART_recvlines].
    assert (Hadvb : (rowcount s <? UART_LINE_COUNT - 1) = true)
      by now apply Z.ltb_lt.
    rewrite Hadvb.
    set (ptr := if recvcharptr s >=? UART_LINE_SIZE
                then UART_LINE_SIZE - 1 else recvcharptr s).
    assert (Hptr' : 1 <= ptr < UART_LINE_SIZE).
    { subst ptr. destruct (Z.geb_spec (recvcharptr s) UART_LINE_SIZE); lia. }
    set (next := Z.land (newestrow s + 1) (UART_LINE_COUNT - 1)).
    assert (Hnext : 0 <= next < UART_LINE_COUNT /\ next <> newestrow s).
    { subst next. rewrite mask_is_mod. split.
      - apply Z.mod_pos_bound, line_count_pos.
      - intros Heq.
        pose proof (ring_succ _ _ _ (inv_ring s Hinv) ltac:(lia)) as Hsucc.
        rewrite Heq, (inv_ring s Hinv) in Hsucc. lia. }
    rewrite Z.add_0_r.
    rewrite peek_poke_ne; [| rewrite row_base_mul; nia | lia
                           | rewrite !row_base_mul; nia].
    rewrite peek_poke_ne by lia. exact Hpk.
  - (* a payload character *)
    apply orb_false_iff in Eterm as [Nlf Ncr].
    apply Z.eqb_neq in Nlf, Ncr.
    rewrite (recv_payload c s Ncr Nlf) in Hinv', Hq |- *.
    destruct (Z.ltb_spec (recvcharptr s) UART_LINE_SIZE) as [Hroom | Hfull].
    + constructor; cbn [uart_filter_empty_lines recvcharptr UART_recvlines
                        newestrow]; auto.
      * destruct Hq as [[_ E] | (_ & E & _)]; [| simpl in E; lia].
        now rewrite E.
      * intros _. destruct (Z.eq_dec (recvcharptr s) 0) as [E0 | N0].
        -- exists c. split; [| exact Hc]. rewrite E0, Z.add_0_r.
           apply peek_poke_eq. lia.
        -- destruct (Hfirst ltac:(lia)) as [c0 [Hpk Hc0]].
           exists c0. split; [| exact Hc0].
           rewrite peek_poke_ne by lia. exact Hpk.
    + apply (filter_inv_same s); [exact Hfi | exact Hinv' |].
      repeat split; reflexivity.
Qed.

Lemma filter_inv_step (e : uart_event) (s : uart_state) :
  0 < UART_LINE_BITS -> keeps_filtering e ->
  filter_inv s -> filter_inv (uart_step s e).
Proof.
  intros Hb He Hfi. destruct e as [c | | b]; cbn [uart_step keeps_filtering] in *.
  - now apply filter_inv_recv.
  - destruct Hfi as [Hinv Hon Hlines Hfirst].
    pose proof (uart_inv_done s Hinv) as Hinv'.
    pose proof (queued_done s Hinv) as Hq.
    constructor; auto.
    + unfold UART_DoneWithLine. now destruct (0 <? rowcount s).
    + rewrite Hq. destruct (queued s); [constructor |].
      now apply Forall_cons in Hlines as [_ ?].
    + unfold UART_DoneWithLine. destruct (0 <? rowcount s); exact Hfirst.
  - subst b. destruct Hfi as [Hinv Hon Hlines Hfirst].
    constructor; auto.
    apply (uart_inv_step s (EvFilter true) Hinv).
Qed.

(** X5.  Empty-line filtering (line slots of two bytes or more).  Once
    filtering is switched on for an initialised buffer, and as long as it
    stays on and no NUL is received, no empty line is ever queued, however
    terminators and payload arrive and whenever the main loop releases
    lines: every unread line has at least one character. *)
Theorem filtering_queues_no_empty_line (evs : list uart_event) :
  0 < UART_LINE_BITS ->
  Forall keeps_filtering evs ->
  let s := uart_run (UART_SetLineFiltering true uart_init) evs in
  uart_filter_empty_lines s = true /\
  Forall (fun l => l <> []) (queued s).
Proof.
  intros Hb Hall s.
  assert (H0 : filter_inv (UART_SetLineFiltering true uart_init)).
  { constructor.
    - apply (uart_inv_step uart_init (EvFilter true) uart_inv_init).
    - reflexivity.
    - constructor.
    - cbn [UART_SetLineFiltering recvcharptr uart_init UART_InitBuffers_ISR].
      lia. }
  assert (Hrun : forall evs s0, Forall keeps_filtering evs -> filter_inv s0 ->
                                filter_inv (uart_run s0 evs)).
  { clear evs Hall s H0. induction evs as [| e evs IH]; intros s0 Hall H0.
    - exact H0.
    - apply Forall_cons in Hall as [He Hall]. cbn [uart_run fold_left].
      apply IH; [exact Hall |]. now apply filter_inv_step. }
  destruct (Hrun evs _ Hall H0) as [_ Hon Hlines _]. auto.
Qed.

End Receive.
End UART.

(** *** The ATmega328P configuration (8 lines of 64 characters) *)

Definition m328p_feed (cs : list Z) : UART.uart_state :=
  UART.feed 8 6 (UART.uart_init 8 6) cs.

(** Seven one-letter lines, each ended by CR, then the letter h. *)
Definition seven_lines_then_h : list Z :=
  chars "a" ++ [13] ++ chars "b" ++ [13] ++ chars "c" ++ [13] ++
  chars "d" ++ [13] ++ chars "e" ++ [13] ++ chars "f" ++ [13] ++
  chars "g" ++ [13] ++ chars "h".

Lemma line_buffer_bounded_m328p :
  let s := m328p_feed (chars "go" ++ [13; 10] ++ chars "x" ++ [10]) in
  0 <= UART.rowcount s <= 8 - 1 /\
  forall row, UART.complete_row 8 s row ->
    exists j, 0 <= j < UART.UART_LINE_SIZE 6 /\
              peek (UART.UART_recvlines s) (UART.row_base 6 row + j) = Some 0.
Proof.
  exact (proj1 (UART.line_buffer_bounded 8 6 ltac:(lia) eq_refl)
               (chars "go" ++ [13; 10] ++ chars "x" ++ [10])).
Defined.

Lemma full_state_inv : UART.uart_inv 8 6 (m328p_feed seven_lines_then_h).
Proof.
  unfold m328p_feed. rewrite UART.feed_as_run.
  apply UART.uart_inv_run; [lia | reflexivity |].
  apply UART.uart_inv_init; [lia | reflexivity].
Qed.

Lemma full_buffer_reuses_slot_m328p :
  let s := m328p_feed seven_lines_then_h in
  let s' := UART.UART_HandleRecvChar_ISR 8 6 13 s in
  UART.rowcount s' = 8 - 1 /\
  UART.newestrow s' = UART.newestrow s /\
  UART.oldestrow s' = UART.oldestrow s /\
  UART.recvcharptr s' = 0 /\
  UART.line_text 6 s' (UART.newestrow s') = [] /\
  (forall row, 0 <= row -> row <> UART.newestrow s ->
     UART.slot 6 (UART.UART_recvlines s') row
     = UART.slot 6 (UART.UART_recvlines s) row) /\
  (forall row, UART.complete_row 8 s row ->
     UART.complete_row 8 s' row /\
     UART.line_text 6 s' row = UART.line_text 6 s row).
Proof.
  apply (UART.full_buffer_reuses_slot 8 6).
  - lia.
  - reflexivity.
  - exact full_state_inv.
  - vm_compute. reflexivity.
  - unfold UART.ends_line. split; [left; reflexivity |].
    split; vm_compute; reflexivity.
Defined.

(** The claim that the oldest unread line is overwritten fails: with seven
    unread lines a..g and "h" in progress, the terminator leaves the oldest
    line (and all seven) as they were; "h" is the line that disappears. *)
Lemma full_buffer_keeps_oldest_line :
  let s := m328p_feed seven_lines_then_h in
  let s' := UART.UART_HandleRecvChar_ISR 8 6 13 s in
  UART.rowcount s = 7 /\ UART.rowcount s' = 7 /\
  UART.UART_GetNextLine 6 s' = UART.UART_GetNextLine 6 s /\
  UART.line_text 6 s (UART.oldestrow s) = chars "a" /\
  UART.line_text 6 s' (UART.oldestrow s') = chars "a" /\
  UART.line_text 6 s (UART.newestrow s) = chars "h" /\
  map (UART.line_text 6 s') [0; 1; 2; 3; 4; 5; 6; 7]
  = [chars "a"; chars "b"; chars "c"; chars "d"; chars "e"; chars "f";
     chars "g"; []].
Proof. vm_compute. repeat split; reflexivity. Qed.

Lemma crlf_is_one_terminator_m328p :
  UART.rowcount (m328p_feed (chars "ab" ++ [13; 10] ++ chars "c" ++ [10]))
  = Z.min (8 - 1)
      (0 + UART.spec_terminators false
             (chars "ab" ++ [13; 10] ++ chars "c" ++ [10])).
Proof.
  exact (proj2 (proj2 (UART.crlf_is_one_terminator 8 6))
           (chars "ab" ++ [13; 10] ++ chars "c" ++ [10])
           (UART.uart_init 8 6) eq_refl ltac:(simpl; lia)).
Defined.

(** ** ADC round-robin scheduler (neuravr-adc.cpp) *)

Module ADC.
Section Scheduler.

(** [ADC_CHANNEL_COUNT] is 6 on the ATmega328P and 8 on the ATmega2560. *)
Variable ADC_CHANNEL_COUNT : nat.

(** The scheduler's globals, and the channels handed to the hardware by
    [ADC_ReadFromChannel], oldest first. *)
Record adc_state := mkAdc {
  ADC_idle : bool;
  ADC_needs_conversion : list bool;
  ADC_data_ready : list bool;
  ADC_data : list Z;
  adc_started : list nat
}.

Definition flag (l : list bool) (cidx : nat) : bool := default false (l !! cidx).

(** [channel_mask & (1 << cidx)] as a C condition. *)
Definition mask_has (channel_mask : Z) (cidx : nat) : bool :=
  negb (Z.land channel_mask (Z.shiftl 1 (Z.of_nat cidx)) =? 0).

Definition ADC_ReadFromChannel (channel_id : nat) (s : adc_state) : adc_state :=
  mkAdc (ADC_idle s) (ADC_needs_conversion s) (ADC_data_ready s) (ADC_data s)
        (adc_started s ++ [channel_id]).

Definition reinit_body (s : adc_state) (cidx : nat) : adc_state :=
  mkAdc true
        (<[cidx := false]> (ADC_needs_conversion s))
        (<[cidx := false]> (ADC_data_ready s))
        (<[cidx := 0]> (ADC_data s))
        (adc_started s).

Definition ADC_ReInitBuffer (s : adc_state) : adc_state :=
  fold_left reinit_body (seq 0 ADC_CHANNEL_COUNT) s.

(** Locals of the loop in [ADC_HousekeepingPoll]. *)
Record poll_loop := mkPoll {
  pl_needs : list bool;
  pl_ready : list bool;
  pl_data : list Z;
  pl_count : Z;
  pl_next_channel : nat
}.

Definition poll_body (result : Z) (st : poll_loop) (cidx : nat) : poll_loop :=
  if flag (pl_needs st) cidx then
    let count := pl_count st + 1 in
    if count =? 1 then
      mkPoll (<[cidx := false]> (pl_needs st))
             (<[cidx := true]> (pl_ready st))
             (<[cidx := result]> (pl_data st))
             count (pl_next_channel st)
    else if count =? 2 then
      mkPoll (pl_needs st) (pl_ready st) (pl_data st) count cidx
    else
      mkPoll (pl_needs st) (pl_ready st) (pl_data st) count
             (pl_next_channel st)
  else st.

(** [busy] is what [ADC_IsADCBusy()] answers and [result] what
    [ADC_GetConversionResult()] would return at this poll. *)
Definition ADC_HousekeepingPoll (busy : bool) (result : Z) (s : adc_state)
  : adc_state :=
  if negb (ADC_idle s) && negb busy then
    let st := fold_left (poll_body result) (seq 0 ADC_CHANNEL_COUNT)
                (mkPoll (ADC_needs_conversion s) (ADC_data_ready s)
                        (ADC_data s) 0 0%nat) in
    if 1 >=? pl_count st then
      mkAdc true (pl_needs st) (pl_ready st) (pl_data st) (adc_started s)
    else
      ADC_ReadFromChannel (pl_next_channel st)
        (mkAdc (ADC_idle s) (pl_needs st) (pl_ready st) (pl_data st)
               (adc_started s))
  else s.

(** Locals of the loop in [ADC_StartConversion]. *)
Record start_loop := mkStart {
  sl_needs : list bool;
  sl_need_first : bool;
  sl_first_channel : nat
}.

Definition start_body (channel_mask : Z) (st : start_loop) (cidx : nat)
  : start_loop :=
  if mask_has channel_mask cidx then
    let needs := <[cidx := true]> (sl_needs st) in
    if sl_need_first st then mkStart needs false cidx
    else mkStart needs (sl_need_first st) (sl_first_channel st)
  else st.

Definition ADC_StartConversion (channel_mask : Z) (s : adc_state)
  : adc_state :=
  if ADC_idle s then
    let s1 := ADC_ReInitBuffer s in
    let st := fold_left (start_body channel_mask) (seq 0 ADC_CHANNEL_COUNT)
                (mkStart (ADC_needs_conversion s1) true 0%nat) in
    let s2 := mkAdc (ADC_idle s1) (sl_needs st) (ADC_data_ready s1)
                    (ADC_data s1) (adc_started s1) in
    if negb (sl_need_first st) then
      ADC_ReadFromChannel (sl_first_channel st)
        (mkAdc false (sl_needs st) (ADC_data_ready s1) (ADC_data s1)
               (adc_started s1))
    else s2
  else s.

(** Locals of the loop in [ADC_ReadPendingSample]; the loop condition
    [(!found) && ...] makes every iteration after a hit a no-op. *)
Record read_loop := mkRead {
  rl_ready : list bool;
  rl_found : option (Z * nat)   (* data, channel_id *)
}.

Definition read_body (data : list Z) (st : read_loop) (cidx : nat)
  : read_loop :=
  match rl_found st with
  | Some _ => st
  | None =>
      if flag (rl_ready st) cidx then
        mkRead (<[cidx := false]> (rl_ready st))
               (Some (default 0 (data !! cidx), cidx))
      else st
  end.

(** Returns the sample ([None] for a [false] result, which leaves the
    output parameters alone) and the new state. *)
Definition ADC_ReadPendingSample (s : adc_state)
  : option (Z * nat) * adc_state :=
  if ADC_idle s then
    let st := fold_left (read_body (ADC_data s)) (seq 0 ADC_CHANNEL_COUNT)
                (mkRead (ADC_data_ready s) None) in
    (rl_found st,
     mkAdc (ADC_idle s) (ADC_needs_conversion s) (rl_ready st) (ADC_data s)
           (adc_started s))
  else (None, s).

(** Globals as the C runtime initialises them. *)
Definition adc_boot : adc_state :=
  mkAdc true (replicate ADC_CHANNEL_COUNT false)
        (replicate ADC_CHANNEL_COUNT false)
        (replicate ADC_CHANNEL_COUNT 0) [].

(** One poll per hardware result, the hardware never busy when polled. *)
Fixpoint polls (rs : list Z) (s : adc_state) : adc_state :=
  match rs with
  | [] => s
  | r :: rs' => polls rs' (ADC_HousekeepingPoll false r s)
  end.

(** Read samples until [ADC_ReadPendingSample] reports none (at most
    [fuel] of them). *)
Fixpoint read_all (fuel : nat) (s : adc_state) : list (Z * nat) :=
  match fuel with
  | O => []
  | S n =>
      match ADC_ReadPendingSample s with
      | (Some sample, s') => sample :: read_all n s'
      | (None, _) => []
      end
  end.

(** The in-range channels a mask asks for, in ascending order. *)
Definition requested (channel_mask : Z) : list nat :=
  List.filter (mask_has channel_mask) (seq 0 ADC_CHANNEL_COUNT).

Definition adc_wf (s : adc_state) : Prop :=
  length (ADC_needs_conversion s) = ADC_CHANNEL_COUNT /\
  length (ADC_data_ready s) = ADC_CHANNEL_COUNT /\
  length (ADC_data s) = ADC_CHANNEL_COUNT.

(** Channels whose flag is set in [l], ascending. *)
Definition pending (l : list bool) : list nat :=
  List.filter (flag l) (seq 0 ADC_CHANNEL_COUNT).

Lemma flag_insert_ne (l : list bool) (c x : nat) (b : bool) :
  c <> x -> flag (<[c := b]> l) x = flag l x.
Proof. intros Hne. unfold flag. now rewrite list_lookup_insert_ne. Qed.

Lemma flag_insert_false (l : list bool) (c : nat) :
  flag (<[c := false]> l) c = false.
Proof.
  unfold flag. destruct (decide (c < length l)%nat) as [Hlt | Hge].
  - now rewrite list_lookup_insert_eq.
  - rewrite lookup_ge_None_2; [reflexivity |]. rewrite length_insert. lia.
Qed.

Lemma flag_insert_true (l : list bool) (c : nat) :
  (c < length l)%nat -> flag (<[c := true]> l) c = true.
Proof. intros Hlt. unfold flag. now rewrite list_lookup_insert_eq. Qed.

Lemma pending_in (l : list bool) (c : nat) :
  In c (pending l) <-> (c < ADC_CHANNEL_COUNT)%nat /\ flag l c = true.
Proof.
  unfold pending. rewrite List.filter_In, List.in_seq. intuition lia.
Qed.

Lemma pending_NoDup (l : list bool) : List.NoDup (pending l).
Proof. apply List.NoDup_filter, List.seq_NoDup. Qed.

(** Clearing the first pending flag leaves the rest pending. *)
Lemma pending_clear_first (l : list bool) (c : nat) (rest : list nat) :
  pending l = c :: rest -> pending (<[c := false]> l) = rest.
Proof.
  intros Hp. pose proof (pending_NoDup l) as Hnd. rewrite Hp in Hnd.
  unfold pending in *.
  destruct (filter_first _ _ _ _ Hp) as (l1 & l2 & Hseq & Hall & Hc & Hrest).
  pose proof (List.seq_NoDup ADC_CHANNEL_COUNT 0) as Hsnd.
  rewrite Hseq in Hsnd |- *. apply List.NoDup_remove_2 in Hsnd.
  rewrite List.filter_app. simpl. rewrite flag_insert_false.
  rewrite <- Hrest.
  replace (List.filter (flag (<[c := false]> l)) l1) with (@nil nat).
  - simpl. apply List.filter_ext_in. intros x Hx. apply flag_insert_ne.
    intros ->. apply Hsnd, in_or_app. now right.
  - symmetry. apply filter_none.
    rewrite List.Forall_forall in Hall |- *. intros x Hx.
    rewrite flag_insert_ne; [now apply Hall |].
    intros ->. apply Hsnd, in_or_app. now left.
Qed.

(** *** The loop of [ADC_HousekeepingPoll] *)

Lemma poll_loop_skip (r : Z) (l : list nat) (st : poll_loop) :
  Forall (fun c => flag (pl_needs st) c = false) l ->
  fold_left (poll_body r) l st = st.
Proof.
  intros Hall. apply fold_left_idle.
  eapply List.Forall_impl; [| exact Hall].
  intros c Hc. unfold poll_body. now rewrite Hc.
Qed.

(** Once the first pending channel has been completed, the rest of the
    loop only counts, and remembers the second pending channel. *)
Lemma poll_loop_rest (r : Z) (l : list nat) (st : poll_loop) :
  1 <= pl_count st ->
  let st' := fold_left (poll_body r) l st in
  pl_needs st' = pl_needs st /\ pl_ready st' = pl_ready st /\
  pl_data st' = pl_data st /\
  (2 <= pl_count st -> pl_next_channel st' = pl_next_channel st) /\
  match List.filter (flag (pl_needs st)) l with
  | [] => st' = st
  | c2 :: _ => pl_count st + 1 <= pl_count st' /\
               (pl_count st = 1 -> pl_next_channel st' = c2)
  end.
Proof.
  revert st. induction l as [| x l IH]; intros st Hc; simpl.
  - repeat split; auto.
  - destruct (flag (pl_needs st) x) eqn:Fx.
    + set (st1 := poll_body r st x).
      assert (H1 : pl_needs st1 = pl_needs st /\ pl_ready st1 = pl_ready st /\
                   pl_data st1 = pl_data st /\
                   pl_count st1 = pl_count st + 1 /\
                   (2 <= pl_count st ->
                    pl_next_channel st1 = pl_next_channel st) /\
                   (pl_count st = 1 -> pl_next_channel st1 = x)).
      { subst st1. unfold poll_body. rewrite Fx.
        destruct (Z.eqb_spec (pl_count st + 1) 1); [lia |].
        destruct (Z.eqb_spec (pl_count st + 1) 2); simpl;
          repeat split; auto; lia. }
      destruct H1 as (En & Er & Ed & Ec & Hn2 & Hn1).
      destruct (IH st1 ltac:(lia)) as (In' & Ir & Id & Inx & Im).
      rewrite In', Ir, Id. repeat split; auto.
      * intros H2. rewrite Inx by lia. auto.
      * rewrite En in Im.
        destruct (List.filter (flag (pl_needs st)) l);
          [rewrite Im | ]; lia.
      * intros E1. rewrite Inx by lia. auto.
    + assert (E : poll_body r st x = st)
        by (unfold poll_body; now rewrite Fx).
      rewrite E. apply IH, Hc.
Qed.

Lemma poll_loop_first (r : Z) (needs ready : list bool) (data : list Z)
      (c : nat) (rest : list nat) :
  pending needs = c :: rest ->
  let st' := fold_left (poll_body r) (seq 0 ADC_CHANNEL_COUNT)
               (mkPoll needs ready data 0 0%nat) in
  pl_needs st' = <[c := false]> needs /\
  pl_ready st' = <[c := true]> ready /\
  pl_data st' = <[c := r]> data /\
  match rest with
  | [] => pl_count st' = 1
  | c2 :: _ => 2 <= pl_count st' /\ pl_next_channel st' = c2
  end.
Proof.
  intros Hp. pose proof (pending_clear_first needs c rest Hp) as Hclr.
  unfold pending in Hp, Hclr.
  destruct (filter_first _ _ _ _ Hp) as (l1 & l2 & Hseq & Hall & Hc & Hrest).
  pose proof (List.seq_NoDup ADC_CHANNEL_COUNT 0) as Hsnd.
  rewrite Hseq in Hsnd, Hclr |- *. apply List.NoDup_remove_2 in Hsnd.
  cbv zeta. rewrite List.fold_left_app.
  rewrite (poll_loop_skip r l1 (mkPoll needs ready data 0 0%nat) Hall).
  assert (E : poll_body r (mkPoll needs ready data 0 0%nat) c
              = mkPoll (<[c := false]> needs) (<[c := true]> ready)
                       (<[c := r]> data) 1 0%nat).
  { unfold poll_body. simpl. rewrite Hc. reflexivity. }
  simpl fold_left. rewrite E.
  set (st1 := mkPoll (<[c := false]> needs) (<[c := true]> ready)
                     (<[c := r]> data) 1 0%nat).
  destruct (poll_loop_rest r l2 st1 ltac:(simpl; lia))
    as (En & Er & Ed & _ & Hm).
  rewrite En, Er, Ed. simpl. repeat split.
  assert (Hf2 : List.filter (flag (<[c := false]> needs)) l2 = rest).
  { rewrite <- Hrest. apply List.filter_ext_in. intros x Hx.
    apply flag_insert_ne. intros ->. apply Hsnd, in_or_app. now right. }
  simpl in Hm. rewrite Hf2 in Hm.
  destruct rest as [| c2 rest'].
  - rewrite Hm. reflexivity.
  - destruct Hm as [Hcnt Hnx]. split; [lia | auto].
Qed.

(** One poll with the hardware done: the lowest pending channel gets its
    result; the next pending channel, if any, is started, else the
    scheduler goes idle. *)
Lemma poll_step (r : Z) (s : adc_state) (c : nat) (rest : list nat) :
  ADC_idle s = false ->
  pending (ADC_needs_conversion s) = c :: rest ->
  ADC_HousekeepingPoll false r s =
  mkAdc (match rest with [] => true | _ => false end)
        (<[c := false]> (ADC_needs_conversion s))
        (<[c := true]> (ADC_data_ready s))
        (<[c := r]> (ADC_data s))
        (adc_started s ++ firstn 1 rest).
Proof.
  intros Hidle Hp. unfold ADC_HousekeepingPoll. rewrite Hidle. simpl.
  destruct (poll_loop_first r _ (ADC_data_ready s) (ADC_data s) c rest Hp)
    as (En & Er & Ed & Hm).
  rewrite En, Er, Ed.
  destruct rest as [| c2 rest'].
  - rewrite Hm. simpl. now rewrite app_nil_r.
  - destruct Hm as [Hcnt Hnx]. rewrite Hnx.
    destruct (Z.geb_spec 1 (pl_count
      (fold_left (poll_body r) (seq 0 ADC_CHANNEL_COUNT)
         (mkPoll (ADC_needs_conversion s) (ADC_data_ready s) (ADC_data s)
                 0 0%nat)))); [lia |].
    reflexivity.
Qed.

(** *** [ADC_ReInitBuffer] and the loop of [ADC_StartConversion] *)

Lemma reinit_fold (l : list nat) (s : adc_state) :
  let s' := fold_left reinit_body l s in
  ADC_idle s' = match l with [] => ADC_idle s | _ => true end /\
  ADC_needs_conversion s'
    = fold_left (fun a i => <[i := false]> a) l (ADC_needs_conversion s) /\
  ADC_data_ready s'
    = fold_left (fun a i => <[i := false]> a) l (ADC_data_ready s) /\
  ADC_data s' = fold_left (fun a i => <[i := 0]> a) l (ADC_data s) /\
  adc_started s' = adc_started s.
Proof.
  revert s. induction l as [| j l IH]; intros s; simpl.
  - repeat split; reflexivity.
  - destruct (IH (reinit_body s j)) as (Ei & En & Er & Ed & Es).
    rewrite En, Er, Ed, Es. repeat split; auto.
    rewrite Ei. destruct l; reflexivity.
Qed.

Lemma reinit_spec (s : adc_state) :
  adc_wf s -> ADC_idle s = true ->
  ADC_ReInitBuffer s =
  mkAdc true (replicate ADC_CHANNEL_COUNT false)
        (replicate ADC_CHANNEL_COUNT false)
        (replicate ADC_CHANNEL_COUNT 0) (adc_started s).
Proof.
  intros (Ln & Lr & Ld) Hidle. unfold ADC_ReInitBuffer.
  destruct (reinit_fold (seq 0 ADC_CHANNEL_COUNT) s) as (Ei & En & Er & Ed & Es).
  destruct (fold_left reinit_body (seq 0 ADC_CHANNEL_COUNT) s)
    as [i n r d st]. simpl in Ei, En, Er, Ed, Es.
  rewrite Ei, En, Er, Ed, Es. f_equal.
  - rewrite Hidle. now destruct (seq 0 ADC_CHANNEL_COUNT).
  - rewrite <- Ln at 1 2. apply fold_insert_all.
  - rewrite <- Lr at 1 2. apply fold_insert_all.
  - rewrite <- Ld at 1 2. apply fold_insert_all.
Qed.

Lemma start_body_flag (mask : Z) (st : start_loop) (x c : nat) :
  (c < length (sl_needs st))%nat ->
  flag (sl_needs (start_body mask st x)) c = true <->
  flag (sl_needs st) c = true \/ (mask_has mask c = true /\ x = c).
Proof.
  intros Hc. unfold start_body.
  destruct (decide (x = c)) as [-> | Hne].
  - destruct (mask_has mask c) eqn:Mc.
    + destruct (sl_need_first st); simpl;
        rewrite flag_insert_true by exact Hc; tauto.
    + intuition congruence.
  - destruct (mask_has mask x).
    + destruct (sl_need_first st); simpl;
        rewrite flag_insert_ne by exact Hne; tauto.
    + tauto.
Qed.

Lemma start_loop_spec (mask : Z) (l : list nat) (st : start_loop) :
  let st' := fold_left (start_body mask) l st in
  length (sl_needs st') = length (sl_needs st) /\
  (forall c, (c < length (sl_needs st))%nat ->
     flag (sl_needs st') c = true <->
     flag (sl_needs st) c = true \/ (mask_has mask c = true /\ In c l)) /\
  match List.filter (mask_has mask) l with
  | [] => sl_need_first st' = sl_need_first st /\
          sl_first_channel st' = sl_first_channel st
  | c :: _ => sl_need_first st' = false /\
              sl_first_channel st'
              = if sl_need_first st then c else sl_first_channel st
  end.
Proof.
  revert st. induction l as [| x l IH]; intros st; simpl.
  - repeat split; auto; tauto.
  - destruct (IH (start_body mask st x)) as (Hlen & Hfl & Hm).
    assert (Hlen1 : length (sl_needs (start_body mask st x))
                    = length (sl_needs st)).
    { unfold start_body. destruct (mask_has mask x); [| reflexivity].
      destruct (sl_need_first st); simpl; apply length_insert. }
    split; [congruence |]. split.
    + intros c Hc. rewrite Hfl by lia.
      rewrite (start_body_flag mask st x c Hc). tauto.
    + unfold start_body in Hm |- *.
      destruct (mask_has mask x) eqn:Mx.
      * destruct (sl_need_first st) eqn:Nf; simpl in Hm |- *;
          destruct (List.filter (mask_has mask) l);
          destruct Hm as [H1 H2]; rewrite H1, H2; auto.
      * exact Hm.
Qed.

Lemma flag_replicate_false (n c : nat) : flag (replicate n false) c = false.
Proof.
  unfold flag. destruct (decide (c < n)%nat).
  - now rewrite lookup_replicate_2.
  - rewrite lookup_ge_None_2; [reflexivity |]. rewrite length_replicate. lia.
Qed.

(** An accepted request: buffers reinitialised, exactly the requested
    channels pending, the lowest one started. *)
Lemma start_spec (mask : Z) (s : adc_state) :
  adc_wf s -> ADC_idle s = true ->
  exists needs,
    ADC_StartConversion mask s =
    mkAdc (match requested mask with [] => true | _ => false end)
          needs
          (replicate ADC_CHANNEL_COUNT false)
          (replicate ADC_CHANNEL_COUNT 0)
          (adc_started s ++ firstn 1 (requested mask)) /\
    length needs = ADC_CHANNEL_COUNT /\
    pending needs = requested mask.
Proof.
  intros Hwf Hidle. unfold ADC_StartConversion. rewrite Hidle.
  rewrite (reinit_spec s Hwf Hidle). cbv zeta. simpl.
  destruct (start_loop_spec mask (seq 0 ADC_CHANNEL_COUNT)
              (mkStart (replicate ADC_CHANNEL_COUNT false) true 0%nat))
    as (Hlen & Hfl & Hm).
  simpl in Hlen, Hfl, Hm. rewrite length_replicate in Hlen, Hfl.
  set (st := fold_left (start_body mask) (seq 0 ADC_CHANNEL_COUNT)
               (mkStart (replicate ADC_CHANNEL_COUNT false) true 0%nat))
    in *.
  exists (sl_needs st).
  assert (Hpend : pending (sl_needs st) = requested mask).
  { unfold pending, requested. apply List.filter_ext_in. intros c Hc.
    pose proof Hc as Hc'. apply List.in_seq in Hc'.
    specialize (Hfl c ltac:(lia)). rewrite flag_replicate_false in Hfl.
    destruct (flag (sl_needs st) c), (mask_has mask c); auto.
    - destruct (proj1 Hfl eq_refl) as [? | [? _]]; discriminate.
    - apply (proj2 Hfl). right. split; [reflexivity | exact Hc]. }
  split; [| split; [exact Hlen | exact Hpend]].
  fold (requested mask) in Hm.
  destruct (requested mask) as [| c rest].
  - destruct Hm as [H1 _]. rewrite H1. simpl. now rewrite app_nil_r.
  - destruct Hm as [H1 H2]. rewrite H1, H2. reflexivity.
Qed.

Lemma flag_insert_true_iff (l : list bool) (c x : nat) :
  (c < length l)%nat ->
  flag (<[c := true]> l) x = true <-> x = c \/ flag l x = true.
Proof.
  intros Hc. destruct (decide (c = x)) as [-> | Hne].
  - rewrite flag_insert_true by exact Hc. tauto.
  - rewrite flag_insert_ne by exact Hne. intuition congruence.
Qed.

(** *** A whole conversion round *)

(** From a busy scheduler whose pending channels are [p], one poll per
    pending channel completes them all, lowest first. *)
Lemma polls_complete (p : list nat) :
  forall (rs : list Z) (s : adc_state),
  ADC_idle s = false -> adc_wf s ->
  pending (ADC_needs_conversion s) = p -> p <> [] ->
  length rs = length p ->
  let s' := polls rs s in
  adc_wf s' /\ ADC_idle s' = true /\
  pending (ADC_needs_conversion s') = [] /\
  adc_started s' = adc_started s ++ tl p /\
  (forall x, flag (ADC_data_ready s') x = true <->
             In x p \/ flag (ADC_data_ready s) x = true) /\
  (forall i c r, p !! i = Some c -> rs !! i = Some r ->
                 ADC_data s' !! c = Some r) /\
  (forall x, ~ In x p -> ADC_data s' !! x = ADC_data s !! x) /\
  (forall k, (k < length p)%nat -> ADC_idle (polls (take k rs) s) = false).
Proof.
  induction p as [| c rest IH]; intros rs s Hidle Hwf Hp Hne Hlen;
    [congruence |].
  destruct rs as [| r rs']; [discriminate |].
  simpl in Hlen. injection Hlen as Hlen.
  pose proof (pending_NoDup (ADC_needs_conversion s)) as Hnd.
  rewrite Hp in Hnd. apply List.NoDup_cons_iff in Hnd as [Hcr Hnd].
  assert (HcN : (c < ADC_CHANNEL_COUNT)%nat).
  { apply (pending_in (ADC_needs_conversion s)). rewrite Hp. now left. }
  destruct Hwf as (Ln & Lr & Ld).
  pose proof (poll_step r s c rest Hidle Hp) as Hstep.
  pose proof (pending_clear_first _ c rest Hp) as Hclr.
  cbv zeta. simpl polls. rewrite Hstep.
  set (s1 := mkAdc (match rest with [] => true | _ => false end)
                   (<[c := false]> (ADC_needs_conversion s))
                   (<[c := true]> (ADC_data_ready s))
                   (<[c := r]> (ADC_data s))
                   (adc_started s ++ firstn 1 rest)).
  assert (Hwf1 : adc_wf s1).
  { unfold adc_wf. simpl. rewrite !length_insert. auto. }
  assert (Hfirst : forall k, (k < S (length rest))%nat ->
            (forall k', (k' < length rest)%nat ->
                        ADC_idle (polls (take k' rs') s1) = false) ->
            ADC_idle (polls (take k (r :: rs')) s) = false).
  { intros [| k'] Hk Hrec; simpl.
    - exact Hidle.
    - rewrite Hstep. apply Hrec. lia. }
  destruct rest as [| c2 rest'].
  - (* the last pending channel *)
    destruct rs'; [| discriminate]. simpl polls.
    split; [exact Hwf1 |]. split; [reflexivity |].
    split; [exact Hclr |]. split; [reflexivity |].
    split; [| split; [| split]].
    + intros x. simpl.
      rewrite (flag_insert_true_iff _ c x) by lia. intuition.
    + intros [| i] c' r' Hi Hr; simpl in Hi, Hr; [| discriminate].
      injection Hi as <-. injection Hr as <-. simpl.
      apply list_lookup_insert_eq. lia.
    + intros x Hx. simpl. apply list_lookup_insert_ne.
      intros ->. apply Hx. now left.
    + intros k Hk. apply Hfirst; [exact Hk |]. simpl. lia.
  - (* more channels pending: the next one has been started *)
    destruct (IH rs' s1 eq_refl Hwf1 Hclr ltac:(discriminate) Hlen)
      as (Hwf' & Hid' & Hpe' & Hst' & Hrd' & Hda' & Hdo' & Hk').
    split; [exact Hwf' |]. split; [exact Hid' |].
    split; [exact Hpe' |]. split; [| split; [| split; [| split]]].
    + rewrite Hst'. simpl. now rewrite <- app_assoc.
    + intros x. rewrite Hrd'. simpl.
      rewrite (flag_insert_true_iff _ c x) by lia. intuition.
    + intros [| i] c' r' Hi Hr; simpl in Hi, Hr.
      * injection Hi as <-. injection Hr as <-.
        rewrite Hdo' by exact Hcr. simpl.
        apply list_lookup_insert_eq. lia.
      * apply (Hda' i c' r' Hi Hr).
    + intros x Hx. rewrite Hdo'.
      * simpl. apply list_lookup_insert_ne. intros ->. apply Hx. now left.
      * intros Hin. apply Hx. now right.
    + intros k Hk. apply Hfirst; [exact Hk | exact Hk'].
Qed.

(** *** The loop of [ADC_ReadPendingSample] *)

Lemma read_loop_skip (data : list Z) (l : list nat) (st : read_loop) :
  Forall (fun c => flag (rl_ready st) c = false) l ->
  fold_left (read_body data) l st = st.
Proof.
  intros Hall. apply fold_left_idle.
  eapply List.Forall_impl; [| exact Hall].
  intros c Hc. unfold read_body. rewrite Hc. now destruct (rl_found st).
Qed.

Lemma read_loop_found (data : list Z) (l : list nat) (st : read_loop) :
  rl_found st <> None -> fold_left (read_body data) l st = st.
Proof.
  intros Hf. apply fold_left_idle. apply List.Forall_forall. intros c _.
  unfold read_body. destruct (rl_found st); [reflexivity | congruence].
Qed.

Lemma read_step (s : adc_state) (c : nat) (rest : list nat) :
  ADC_idle s = true ->
  pending (ADC_data_ready s) = c :: rest ->
  ADC_ReadPendingSample s =
  (Some (default 0 (ADC_data s !! c), c),
   mkAdc true (ADC_needs_conversion s) (<[c := false]> (ADC_data_ready s))
         (ADC_data s) (adc_started s)).
Proof.
  intros Hidle Hp. unfold ADC_ReadPendingSample. rewrite Hidle.
  unfold pending in Hp.
  destruct (filter_first _ _ _ _ Hp) as (l1 & l2 & Hseq & Hall & Hc & _).
  rewrite Hseq, List.fold_left_app.
  rewrite (read_loop_skip (ADC_data s) l1 (mkRead (ADC_data_ready s) None)
             Hall).
  simpl fold_left.
  assert (E : read_body (ADC_data s) (mkRead (ADC_data_ready s) None) c
              = mkRead (<[c := false]> (ADC_data_ready s))
                       (Some (default 0 (ADC_data s !! c), c))).
  { unfold read_body. simpl. now rewrite Hc. }
  rewrite E, read_loop_found by discriminate. reflexivity.
Qed.

Lemma read_none (s : adc_state) :
  pending (ADC_data_ready s) = [] ->
  ADC_ReadPendingSample s = (None, s).
Proof.
  intros Hp. unfold ADC_ReadPendingSample.
  destruct (ADC_idle s) eqn:Hidle; [| reflexivity].
  rewrite read_loop_skip.
  - simpl. destruct s; simpl in *. now rewrite Hidle.
  - simpl. apply List.Forall_forall. intros c Hc.
    destruct (flag (ADC_data_ready s) c) eqn:F; [| reflexivity].
    assert (Hin : In c (pending (ADC_data_ready s))).
    { apply pending_in. apply List.in_seq in Hc. split; [lia | exact F]. }
    rewrite Hp in Hin. destruct Hin.
Qed.

(** Reading drains the ready channels in ascending order, one sample per
    call, each with the value stored for its channel. *)
Lemma read_all_spec (p : list nat) :
  forall (fuel : nat) (s : adc_state),
  ADC_idle s = true -> pending (ADC_data_ready s) = p ->
  (length p <= fuel)%nat ->
  read_all fuel s = map (fun c => (default 0 (ADC_data s !! c), c)) p.
Proof.
  induction p as [| c rest IH]; intros fuel s Hidle Hp Hfuel.
  - destruct fuel; [reflexivity |]. simpl.
    now rewrite (read_none s Hp).
  - destruct fuel; [simpl in Hfuel; lia |]. simpl in Hfuel |- *.
    rewrite (read_step s c rest Hidle Hp). f_equal.
    set (s1 := mkAdc true (ADC_needs_conversion s)
                     (<[c := false]> (ADC_data_ready s))
                     (ADC_data s) (adc_started s)).
    change (ADC_data s) with (ADC_data s1).
    apply (IH fuel s1); [reflexivity | | lia].
    apply (pending_clear_first _ c rest Hp).
Qed.

Lemma filter_seq_sorted (f : nat -> bool) (n a : nat) :
  StronglySorted lt (List.filter f (seq a n)).
Proof.
  revert a. induction n as [| n IH]; intros a; simpl.
  - constructor.
  - destruct (f a); [| apply IH].
    constructor; [apply IH |].
    apply List.Forall_forall. intros x Hx.
    apply List.filter_In in Hx as [Hx _]. apply List.in_seq in Hx. lia.
Qed.

Lemma samples_zip (data : list Z) (req : list nat) :
  forall rs : list Z,
  length rs = length req ->
  (forall i c r, req !! i = Some c -> rs !! i = Some r ->
                 data !! c = Some r) ->
  map (fun c => (default 0 (data !! c), c)) req = zip rs req.
Proof.
  induction req as [| c req IH]; intros [| r rs] Hlen Hd;
    try discriminate; simpl.
  - reflexivity.
  - f_equal.
    + now rewrite (Hd 0%nat c r eq_refl eq_refl).
    + apply IH; [simpl in Hlen; lia |].
      intros i c' r' Hi Hr. apply (Hd (S i) c' r' Hi Hr).
Qed.

Lemma requested_in (mask : Z) (c : nat) :
  In c (requested mask) <->
  (c < ADC_CHANNEL_COUNT)%nat /\ mask_has mask c = true.
Proof.
  unfold requested. rewrite List.filter_In, List.in_seq. intuition lia.
Qed.

(** C3.  A request accepted while idle, followed by one poll per requested
    in-range channel with the hardware done each time:
    - the hardware is started once per requested channel, in ascending
      channel order;
    - the scheduler stays busy until the last requested channel has its
      result, and is idle then;
    - exactly the requested channels are ready;
    - [ADC_ReadPendingSample] then hands out exactly one sample per
      requested channel, ascending, each with the result of its own
      conversion, and nothing after them.
    A poll that finds the hardware busy or the scheduler idle, and a
    request made while not idle, change nothing. *)
Theorem adc_round_robin (mask : Z) (rs : list Z) (s : adc_state) :
  adc_wf s -> ADC_idle s = true ->
  length rs = length (requested mask) ->
  let s0 := ADC_StartConversion mask s in
  let sK := polls rs s0 in
  StronglySorted lt (requested mask) /\
  adc_started sK = adc_started s ++ requested mask /\
  (forall k, (k < length (requested mask))%nat ->
             ADC_idle (polls (take k rs) s0) = false) /\
  ADC_idle sK = true /\
  (forall c, (c < ADC_CHANNEL_COUNT)%nat ->
             flag (ADC_data_ready sK) c = mask_has mask c) /\
  (forall fuel, (length (requested mask) <= fuel)%nat ->
                read_all fuel sK = zip rs (requested mask)) /\
  (forall r s', ADC_HousekeepingPoll true r s' = s') /\
  (forall b r s', ADC_idle s' = true -> ADC_HousekeepingPoll b r s' = s') /\
  (forall m s', ADC_idle s' = false -> ADC_StartConversion m s' = s').
Proof.
  intros Hwf Hidle Hlen s0 sK.
  split; [apply filter_seq_sorted |].
  assert (Hbusy : (forall r s', ADC_HousekeepingPoll true r s' = s') /\
                  (forall b r s', ADC_idle s' = true ->
                                  ADC_HousekeepingPoll b r s' = s')).
  { split.
    - intros r s'. unfold ADC_HousekeepingPoll. now rewrite andb_false_r.
    - intros b r s' Hi. unfold ADC_HousekeepingPoll. now rewrite Hi. }
  assert (Hign : forall m s', ADC_idle s' = false ->
                              ADC_StartConversion m s' = s').
  { intros m s' Hs'. unfold ADC_StartConversion. now rewrite Hs'. }
  destruct (start_spec mask s Hwf Hidle) as (needs & Es0 & Lneeds & Hpend).
  fold s0 in Es0.
  assert (Hready : forall s1 : adc_state,
            ADC_idle s1 = true ->
            (forall c, (c < ADC_CHANNEL_COUNT)%nat ->
                       flag (ADC_data_ready s1) c = mask_has mask c) ->
            (forall i c r, requested mask !! i = Some c -> rs !! i = Some r ->
                           ADC_data s1 !! c = Some r) ->
            forall fuel, (length (requested mask) <= fuel)%nat ->
                         read_all fuel s1 = zip rs (requested mask)).
  { intros s1 Hid Hfl Hda fuel Hfuel.
    rewrite (read_all_spec (requested mask) fuel s1 Hid); [| | exact Hfuel].
    - apply samples_zip; [exact Hlen | exact Hda].
    - unfold pending, requested. apply List.filter_ext_in.
      intros c Hc. apply Hfl. apply List.in_seq in Hc. lia. }
  destruct (requested mask) as [| c0 rest] eqn:Ereq.
  - (* nothing requested in range: the scheduler stays idle *)
    destruct rs; [| discriminate].
    change sK with s0.
    assert (Hfl : forall c, (c < ADC_CHANNEL_COUNT)%nat ->
              flag (ADC_data_ready s0) c = mask_has mask c).
    { intros c Hc. rewrite Es0. simpl. rewrite flag_replicate_false.
      destruct (mask_has mask c) eqn:Mc; [| reflexivity].
      assert (Hin : In c (requested mask))
        by (apply requested_in; auto).
      rewrite Ereq in Hin. destruct Hin. }
    assert (Hid0 : ADC_idle s0 = true) by (rewrite Es0; reflexivity).
    split; [rewrite Es0; reflexivity |].
    split; [intros k Hk; simpl in Hk; lia |].
    split; [exact Hid0 |]. split; [exact Hfl |].
    split; [| split; [apply Hbusy | split; [apply Hbusy | exact Hign]]].
    apply Hready; auto. intros [| i]; discriminate.
  - (* at least one channel: run the round *)
    assert (Hid0 : ADC_idle s0 = false) by (rewrite Es0; reflexivity).
    assert (Hwf0 : adc_wf s0).
    { rewrite Es0. unfold adc_wf. simpl.
      rewrite !length_replicate. auto. }
    assert (Hp0 : pending (ADC_needs_conversion s0) = c0 :: rest)
      by (rewrite Es0; exact Hpend).
    destruct (polls_complete (c0 :: rest) rs s0 Hid0 Hwf0 Hp0
                ltac:(discriminate) Hlen)
      as (HwfK & HidK & _ & HstK & HrdK & HdaK & _ & HkK).
    fold sK in HwfK, HidK, HstK, HrdK, HdaK.
    assert (Hfl : forall c, (c < ADC_CHANNEL_COUNT)%nat ->
              flag (ADC_data_ready sK) c = mask_has mask c).
    { intros c Hc. specialize (HrdK c).
      assert (E0 : flag (ADC_data_ready s0) c = false)
        by (rewrite Es0; apply flag_replicate_false).
      rewrite E0 in HrdK. rewrite <- Ereq in HrdK.
      rewrite requested_in in HrdK.
      destruct (flag (ADC_data_ready sK) c), (mask_has mask c); auto.
      - destruct (proj1 HrdK eq_refl) as [[_ ?] | ?]; discriminate.
      - apply (proj2 HrdK). left. auto. }
    split; [| split; [exact HkK | split; [exact HidK |]]].
    + rewrite HstK, Es0. simpl. now rewrite <- app_assoc.
    + split; [exact Hfl |].
      split; [| split; [apply Hbusy | split; [apply Hbusy | exact Hign]]].
      apply Hready; auto.
Qed.

(** *** Arbitrary use of the scheduler

    The three entry points in any order and with any arguments: requests
    from the main loop, polls from the timer interrupt (with whatever the
    hardware answers), reads from the main loop. *)

Inductive adc_op :=
| OpStart (channel_mask : Z)
| OpPoll (busy : bool) (result : Z)
| OpRead.

Definition adc_step (s : adc_state) (o : adc_op) : adc_state :=
  match o with
  | OpStart channel_mask => ADC_StartConversion channel_mask s
  | OpPoll busy result => ADC_HousekeepingPoll busy result s
  | OpRead => snd (ADC_ReadPendingSample s)
  end.

Definition adc_run (s : adc_state) (ops : list adc_op) : adc_state :=
  fold_left adc_step ops s.

Definition ADC_IsDataReady (s : adc_state) : bool :=
  if ADC_idle s then
    fold_left (fun result cidx =>
                 if flag (ADC_data_ready s) cidx then true else result)
              (seq 0 ADC_CHANNEL_COUNT) false
  else false.

(** [ADC_WaitForData]: the delay loop spins while the timer interrupt
    polls the scheduler; [ticks] are the hardware's answers at the polls
    that happen during the wait.  [None]: still waiting when they run
    out. *)
Fixpoint ADC_WaitForData (ticks : list (bool * Z)) (s : adc_state)
  : option adc_state :=
  if ADC_IsDataReady s then Some s
  else
    match ticks with
    | [] => None
    | (busy, result) :: rest =>
        ADC_WaitForData rest (ADC_HousekeepingPoll busy result s)
    end.

Record adc_inv (s : adc_state) : Prop := mkAdcInv {
  ai_wf : adc_wf s;
  ai_idle : ADC_idle s = true -> pending (ADC_needs_conversion s) = [];
  (* the conversion in flight is the one of the lowest waiting channel *)
  ai_busy : ADC_idle s = false ->
            exists c rest,
              pending (ADC_needs_conversion s) = c :: rest /\
              last (adc_started s) = Some c;
  ai_disjoint : forall c, In c (pending (ADC_needs_conversion s)) ->
                          flag (ADC_data_ready s) c = false;
  ai_range : Forall (fun c => (c < ADC_CHANNEL_COUNT)%nat) (adc_started s)
}.

Lemma pending_replicate_false :
  pending (replicate ADC_CHANNEL_COUNT false) = [].
Proof.
  unfold pending. apply filter_none. apply List.Forall_forall.
  intros c _. apply flag_replicate_false.
Qed.

Lemma adc_inv_boot : adc_inv adc_boot.
Proof.
  constructor; simpl.
  - unfold adc_wf. simpl. now rewrite !length_replicate.
  - intros _. apply pending_replicate_false.
  - discriminate.
  - rewrite pending_replicate_false. intros c [].
  - constructor.
Qed.

Lemma pending_head_range (l : list bool) (c : nat) (rest : list nat) :
  pending l = c :: rest -> (c < ADC_CHANNEL_COUNT)%nat.
Proof.
  intros Hp. apply (pending_in l c). rewrite Hp. now left.
Qed.

Lemma adc_inv_start (mask : Z) (s : adc_state) :
  adc_inv s -> adc_inv (ADC_StartConversion mask s).
Proof.
  intros Hinv. destruct (ADC_idle s) eqn:Hidle.
  2: { unfold ADC_StartConversion. now rewrite Hidle. }
  destruct (start_spec mask s (ai_wf s Hinv) Hidle)
    as (needs & -> & Hlen & Hpend).
  constructor; cbn [ADC_idle ADC_needs_conversion ADC_data_ready ADC_data
                    adc_started].
  - unfold adc_wf. cbn. rewrite !length_replicate. auto.
  - rewrite Hpend. now destruct (requested mask).
  - rewrite Hpend. destruct (requested mask) as [| c rest]; [discriminate |].
    intros _. exists c, rest. split; [reflexivity |].
    cbn [firstn]. apply last_snoc.
  - intros c _. apply flag_replicate_false.
  - apply Forall_app_2; [apply (ai_range s Hinv) |].
    destruct (requested mask) as [| c rest] eqn:Er; [constructor |].
    cbn [firstn]. constructor; [| constructor].
    now apply (pending_head_range _ _ _ Hpend).
Qed.

Lemma adc_inv_poll (busy : bool) (r : Z) (s : adc_state) :
  adc_inv s -> adc_inv (ADC_HousekeepingPoll busy r s).
Proof.
  intros Hinv. destruct (ADC_idle s) eqn:Hidle.
  { unfold ADC_HousekeepingPoll. now rewrite Hidle. }
  destruct busy.
  { unfold ADC_HousekeepingPoll. now rewrite andb_false_r. }
  destruct (ai_busy s Hinv Hidle) as (c & rest & Hp & Hlast).
  destruct (ai_wf s Hinv) as (Ln & Lr & Ld).
  pose proof (pending_NoDup (ADC_needs_conversion s)) as Hnd.
  rewrite Hp in Hnd. apply List.NoDup_cons_iff in Hnd as [Hnotin _].
  pose proof (pending_clear_first _ c rest Hp) as Hrest.
  rewrite (poll_step r s c rest Hidle Hp).
  constructor; cbn [ADC_idle ADC_needs_conversion ADC_data_ready ADC_data
                    adc_started].
  - unfold adc_wf. cbn. rewrite !length_insert. auto.
  - rewrite Hrest. now destruct rest.
  - rewrite Hrest. destruct rest as [| c2 rest']; [discriminate |].
    intros _. exists c2, rest'. split; [reflexivity |].
    cbn [firstn]. apply last_snoc.
  - rewrite Hrest. intros x Hx.
    rewrite flag_insert_ne by (intros ->; contradiction).
    apply (ai_disjoint s Hinv). rewrite Hp. now right.
  - apply Forall_app_2; [apply (ai_range s Hinv) |].
    destruct rest as [| c2 rest']; [constructor |].
    cbn [firstn]. constructor; [| constructor].
    apply (pending_in (ADC_needs_conversion s) c2). rewrite Hp.
    right. now left.
Qed.

Lemma adc_inv_read (s : adc_state) :
  adc_inv s -> adc_inv (snd (ADC_ReadPendingSample s)).
Proof.
  intros Hinv. destruct (ADC_idle s) eqn:Hidle.
  2: { unfold ADC_ReadPendingSample. now rewrite Hidle. }
  destruct (pending (ADC_data_ready s)) as [| c rest] eqn:Hp.
  { now rewrite (read_none s Hp). }
  rewrite (read_step s c rest Hidle Hp). cbn [snd].
  destruct (ai_wf s Hinv) as (Ln & Lr & Ld).
  constructor; cbn [ADC_idle ADC_needs_conversion ADC_data_ready ADC_data
                    adc_started].
  - unfold adc_wf. cbn. rewrite !length_insert. auto.
  - intros _. now apply (ai_idle s Hinv).
  - discriminate.
  - rewrite (ai_idle s Hinv Hidle). intros x [].
  - apply (ai_range s Hinv).
Qed.

Lemma adc_inv_run (ops : list adc_op) (s : adc_state) :
  adc_inv s -> adc_inv (adc_run s ops).
Proof.
  revert s. induction ops as [| o ops IH]; intros s Hinv.
  - exact Hinv.
  - cbn [adc_run fold_left]. apply IH.
    destruct o; cbn [adc_step].
    + now apply adc_inv_start.
    + now apply adc_inv_poll.
    + now apply adc_inv_read.
Qed.

(** X6.  Whatever the main loop and the timer interrupt do with the
    scheduler from program start (requests with any mask, polls with any
    answer of the hardware, reads, in any order):
    - while the scheduler is idle no channel waits for conversion;
    - while it is busy, the conversion the hardware was last given is the
      one of the lowest-numbered channel still waiting, which is the
      channel the next completed poll credits the result to: a result is
      never stored under another channel than the one it was measured on;
    - a channel never waits for conversion and offers unread data at the
      same time;
    - the hardware is only ever given channel numbers below
      [ADC_CHANNEL_COUNT]. *)
Theorem scheduler_tracks_the_hardware (ops : list adc_op) :
  let s := adc_run adc_boot ops in
  (ADC_idle s = true ->
   forall c, (c < ADC_CHANNEL_COUNT)%nat ->
             flag (ADC_needs_conversion s) c = false) /\
  (ADC_idle s = false ->
   exists c rest,
     pending (ADC_needs_conversion s) = c :: rest /\
     last (adc_started s) = Some c /\
     forall r, ADC_data (ADC_HousekeepingPoll false r s) !! c = Some r) /\
  (forall c, (c < ADC_CHANNEL_COUNT)%nat ->
             flag (ADC_needs_conversion s) c = true ->
             flag (ADC_data_ready s) c = false) /\
  Forall (fun c => (c < ADC_CHANNEL_COUNT)%nat) (adc_started s).
Proof.
  intros s. pose proof (adc_inv_run ops adc_boot adc_inv_boot) as Hinv.
  fold s in Hinv. split; [| split; [| split]].
  - intros Hidle c Hc.
    destruct (flag (ADC_needs_conversion s) c) eqn:F; [| reflexivity].
    assert (Hin : In c (pending (ADC_needs_conversion s)))
      by now apply pending_in.
    rewrite (ai_idle s Hinv Hidle) in Hin. destruct Hin.
  - intros Hidle. destruct (ai_busy s Hinv Hidle) as (c & rest & Hp & Hl).
    exists c, rest. split; [exact Hp |]. split; [exact Hl |].
    intros r. rewrite (poll_step r s c rest Hidle Hp). cbn [ADC_data].
    apply list_lookup_insert_eq.
    destruct (ai_wf s Hinv) as (_ & _ & Ld). rewrite Ld.
    now apply (pending_head_range _ _ _ Hp).
  - intros c Hc F. apply (ai_disjoint s Hinv). now apply pending_in.
  - apply (ai_range s Hinv).
Qed.

(** *** Waiting for data *)

Lemma is_data_ready_loop (ready : list bool) (l : list nat) (b : bool) :
  fold_left (fun result cidx => if flag ready cidx then true else result)
            l b
  = b || existsb (flag ready) l.
Proof.
  revert b. induction l as [| c l IH]; intros b; simpl.
  - now rewrite orb_false_r.
  - rewrite IH. destruct (flag ready c), b; reflexivity.
Qed.

Lemma is_data_ready_spec (s : adc_state) :
  ADC_IsDataReady s = true <->
  ADC_idle s = true /\ pending (ADC_data_ready s) <> [].
Proof.
  unfold ADC_IsDataReady. destruct (ADC_idle s).
  - rewrite is_data_ready_loop. cbn [orb]. rewrite existsb_exists.
    split.
    + intros (c & Hin & Hf). split; [reflexivity |].
      intros Hp.
      assert (Hc : In c (pending (ADC_data_ready s))).
      { unfold pending. apply List.filter_In. auto. }
      rewrite Hp in Hc. destruct Hc.
    + intros [_ Hne].
      destruct (pending (ADC_data_ready s)) as [| c rest] eqn:Hp;
        [congruence |].
      exists c.
      assert (Hc : In c (pending (ADC_data_ready s)))
        by (rewrite Hp; now left).
      unfold pending in Hc. now apply List.filter_In in Hc.
  - split; [discriminate | intros [? _]; discriminate].
Qed.

(** X7.  [ADC_IsDataReady] answers true exactly when
    [ADC_ReadPendingSample] would hand out a sample; while it answers
    false (a conversion round is still running, or nothing is unread) a
    read returns nothing and changes nothing.  A successful read takes
    the lowest-numbered ready channel, returns the value stored for it and
    clears only that channel's ready flag. *)
Theorem data_ready_iff_sample_readable (s : adc_state) :
  (ADC_IsDataReady s = true <->
   exists sample, fst (ADC_ReadPendingSample s) = Some sample) /\
  (ADC_IsDataReady s = false -> ADC_ReadPendingSample s = (None, s)) /\
  (forall v c s', ADC_ReadPendingSample s = (Some (v, c), s') ->
     hd_error (pending (ADC_data_ready s)) = Some c /\
     v = default 0 (ADC_data s !! c) /\
     ADC_data_ready s' = <[c := false]> (ADC_data_ready s) /\
     ADC_needs_conversion s' = ADC_needs_conversion s /\
     ADC_data s' = ADC_data s).
Proof.
  pose proof (is_data_ready_spec s) as Hspec.
  destruct (ADC_idle s) eqn:Hidle.
  - destruct (pending (ADC_data_ready s)) as [| c rest] eqn:Hp.
    + assert (Hno : ADC_IsDataReady s = false).
      { destruct (ADC_IsDataReady s); [| reflexivity].
        destruct (proj1 Hspec eq_refl) as [_ Hne]. congruence. }
      rewrite (read_none s Hp), Hno. cbn [fst].
      split; [split; [discriminate | intros [? ?]; discriminate] |].
      split; [reflexivity | discriminate].
    + assert (Hyes : ADC_IsDataReady s = true)
        by (apply Hspec; split; [reflexivity | discriminate]).
      rewrite (read_step s c rest Hidle Hp), Hyes. cbn [fst].
      split; [split; [eauto | reflexivity] |].
      split; [discriminate |].
      intros v c' s' [= <- <- <-]. cbn. auto.
  - assert (Hno : ADC_IsDataReady s = false).
    { unfold ADC_IsDataReady. now rewrite Hidle. }
    unfold ADC_ReadPendingSample. rewrite Hidle, Hno. cbn [fst].
    split; [split; [discriminate | intros [? ?]; discriminate] |].
    split; [reflexivity | discriminate].
Qed.

Lemma wait_ready (ticks : list (bool * Z)) (s : adc_state) :
  ADC_IsDataReady s = true -> ADC_WaitForData ticks s = Some s.
Proof. intros H. destruct ticks as [| [b r] ticks]; simpl; now rewrite H. Qed.

Lemma wait_not_ready (b : bool) (r : Z) (ticks : list (bool * Z))
      (s : adc_state) :
  ADC_IsDataReady s = false ->
  ADC_WaitForData ((b, r) :: ticks) s
  = ADC_WaitForData ticks (ADC_HousekeepingPoll b r s).
Proof. intros H. simpl. now rewrite H. Qed.

(** The polls that find the hardware done. *)
Definition free_polls (ticks : list (bool * Z)) : list Z :=
  map snd (List.filter (fun t => negb (fst t)) ticks).

Lemma wait_busy (p : list nat) :
  forall (ticks : list (bool * Z)) (s : adc_state),
  adc_inv s -> ADC_idle s = false ->
  pending (ADC_needs_conversion s) = p ->
  (length p <= length (free_polls ticks))%nat ->
  ADC_WaitForData ticks s
  = Some (polls (take (length p) (free_polls ticks)) s).
Proof.
  induction p as [| c rest IHp]; intros ticks s Hinv Hidle Hp Hlen.
  - destruct (ai_busy s Hinv Hidle) as (c & rest & Hp' & _). congruence.
  - assert (Hno : ADC_IsDataReady s = false).
    { unfold ADC_IsDataReady. now rewrite Hidle. }
    revert Hlen. induction ticks as [| [b r] ticks IHt]; intros Hlen.
    + simpl in Hlen. lia.
    + rewrite (wait_not_ready b r ticks s Hno).
      destruct b.
      * (* the hardware is still converting *)
        assert (E : ADC_HousekeepingPoll true r s = s).
        { unfold ADC_HousekeepingPoll. now rewrite andb_false_r. }
        rewrite E. unfold free_polls in *. cbn [List.filter fst negb] in *.
        apply IHt. exact Hlen.
      * unfold free_polls in Hlen |- *.
        cbn [List.filter fst negb map snd length] in Hlen |- *.
        cbn [take polls].
        pose proof (adc_inv_poll false r s Hinv) as Hinv'.
        pose proof (pending_clear_first _ c rest Hp) as Hrest.
        pose proof (poll_step r s c rest Hidle Hp) as Hstep.
        destruct rest as [| c2 rest'].
        -- (* the last channel of the round *)
           cbn [length take polls].
           rewrite take_0. cbn [polls].
           apply wait_ready. apply is_data_ready_spec.
           rewrite Hstep. cbn [ADC_idle ADC_data_ready].
           split; [reflexivity |]. intros Hnone.
           assert (Hin : In c (pending (<[c := true]> (ADC_data_ready s)))).
           { apply pending_in. split.
             - now apply (pending_head_range _ _ _ Hp).
             - apply flag_insert_true.
               destruct (ai_wf s Hinv) as (_ & Lr & _). rewrite Lr.
               now apply (pending_head_range _ _ _ Hp). }
           rewrite Hnone in Hin. destruct Hin.
        -- apply (IHp ticks (ADC_HousekeepingPoll false r s)).
           ++ exact Hinv'.
           ++ rewrite Hstep. reflexivity.
           ++ rewrite Hstep. exact Hrest.
           ++ unfold free_polls. simpl in Hlen |- *. lia.
Qed.

Lemma wait_idle_empty (ticks : list (bool * Z)) (s : adc_state) :
  ADC_idle s = true -> pending (ADC_data_ready s) = [] ->
  ADC_WaitForData ticks s = None.
Proof.
  intros Hidle Hp.
  assert (Hno : ADC_IsDataReady s = false).
  { destruct (ADC_IsDataReady s) eqn:E; [| reflexivity].
    apply is_data_ready_spec in E as [_ Hne]. congruence. }
  induction ticks as [| [b r] ticks IH].
  - simpl. now rewrite Hno.
  - rewrite (wait_not_ready b r ticks s Hno).
    assert (E : ADC_HousekeepingPoll b r s = s).
    { unfold ADC_HousekeepingPoll. now rewrite Hidle. }
    now rewrite E.
Qed.

Lemma wait_short (ticks : list (bool * Z)) :
  forall (p : list nat) (s : adc_state),
  adc_inv s -> ADC_idle s = false ->
  pending (ADC_needs_conversion s) = p ->
  (length (free_polls ticks) < length p)%nat ->
  ADC_WaitForData ticks s = None.
Proof.
  induction ticks as [| [b r] ticks IH]; intros p s Hinv Hidle Hp Hlen;
    assert (Hno : ADC_IsDataReady s = false)
      by (unfold ADC_IsDataReady; now rewrite Hidle).
  - simpl. now rewrite Hno.
  - rewrite (wait_not_ready b r ticks s Hno). destruct b.
    + assert (E : ADC_HousekeepingPoll true r s = s).
      { unfold ADC_HousekeepingPoll. now rewrite andb_false_r. }
      rewrite E. apply (IH p); auto.
    + unfold free_polls in Hlen.
      cbn [List.filter fst negb map length] in Hlen.
      fold (free_polls ticks) in Hlen.
      destruct p as [| c [| c2 rest]]; cbn [length] in Hlen; try lia.
      pose proof (adc_inv_poll false r s Hinv) as Hinv'.
      pose proof (pending_clear_first _ c _ Hp) as Hrest.
      pose proof (poll_step r s c _ Hidle Hp) as Hstep.
      apply (IH (c2 :: rest)).
      * exact Hinv'.
      * now rewrite Hstep.
      * now rewrite Hstep.
      * cbn [length]. lia.
Qed.

(** X8.  [ADC_WaitForData] after a request accepted by the idle
    scheduler, the timer interrupt polling during the wait:
    - when the mask selects channels, the wait ends at the poll that
      completes the last of them, that is after as many polls that find the
      hardware done as channels were requested, and not before; the
      scheduler is then idle and exactly the requested channels are ready;
    - when the mask selects no channel below [ADC_CHANNEL_COUNT], nothing
      is converted and the wait does not end, however long the interrupt
      keeps polling. *)
Theorem wait_for_data_ends_with_the_round
        (mask : Z) (ticks : list (bool * Z)) (s : adc_state) :
  adc_inv s -> ADC_idle s = true ->
  let s0 := ADC_StartConversion mask s in
  let n := length (requested mask) in
  (requested mask <> [] -> (n <= length (free_polls ticks))%nat ->
   let s' := polls (take n (free_polls ticks)) s0 in
   ADC_WaitForData ticks s0 = Some s' /\
   ADC_idle s' = true /\
   forall c, (c < ADC_CHANNEL_COUNT)%nat ->
             flag (ADC_data_ready s') c = mask_has mask c) /\
  (requested mask <> [] -> (length (free_polls ticks) < n)%nat ->
   ADC_WaitForData ticks s0 = None) /\
  (requested mask = [] -> ADC_WaitForData ticks s0 = None).
Proof.
  intros Hinv Hidle s0 n.
  pose proof (adc_inv_start mask s Hinv) as Hinv0. fold s0 in Hinv0.
  destruct (start_spec mask s (ai_wf s Hinv) Hidle)
    as (needs & Es0 & Lneeds & Hpend).
  fold s0 in Es0.
  assert (Hp0 : pending (ADC_needs_conversion s0) = requested mask)
    by (rewrite Es0; exact Hpend).
  split; [| split].
  - intros Hne Hlen s'.
    assert (Hidle0 : ADC_idle s0 = false).
    { rewrite Es0. cbn. now destruct (requested mask). }
    split; [now apply wait_busy |].
    assert (Hrs : length (take n (free_polls ticks))
                  = length (requested mask))
      by (rewrite length_take; subst n; lia).
    destruct (polls_complete (requested mask) _ s0 Hidle0 (ai_wf s0 Hinv0)
                Hp0 Hne Hrs) as (_ & HidK & _ & _ & HrdK & _).
    fold s' in HidK, HrdK. split; [exact HidK |].
    intros c Hc. specialize (HrdK c).
    assert (E0 : flag (ADC_data_ready s0) c = false)
      by (rewrite Es0; apply flag_replicate_false).
    rewrite E0, requested_in in HrdK.
    destruct (flag (ADC_data_ready s') c), (mask_has mask c); auto.
    + destruct (proj1 HrdK eq_refl) as [[_ ?] | ?]; discriminate.
    + apply (proj2 HrdK). left. auto.
  - intros Hne Hlen.
    assert (Hidle0 : ADC_idle s0 = false).
    { rewrite Es0. cbn. now destruct (requested mask). }
    now apply (wait_short ticks (requested mask)).
  - intros Hnone. apply wait_idle_empty.
    + rewrite Es0, Hnone. reflexivity.
    + rewrite Es0. cbn. apply pending_replicate_false.
Qed.

End Scheduler.
End ADC.

Lemma adc_round_robin_m328p :
  let s0 := ADC.ADC_StartConversion 6 37 (ADC.adc_boot 6) in
  let sK := ADC.polls 6 [100; 200; 300] s0 in
  StronglySorted lt (ADC.requested 6 37) /\
  ADC.adc_started sK = ADC.adc_started (ADC.adc_boot 6) ++ ADC.requested 6 37 /\
  (forall k, (k < length (ADC.requested 6 37))%nat ->
             ADC.ADC_idle (ADC.polls 6 (take k [100; 200; 300]) s0) = false) /\
  ADC.ADC_idle sK = true /\
  (forall c, (c < 6)%nat ->
             ADC.flag (ADC.ADC_data_ready sK) c = ADC.mask_has 37 c) /\
  (forall fuel, (length (ADC.requested 6 37) <= fuel)%nat ->
                ADC.read_all 6 fuel sK = zip [100; 200; 300] (ADC.requested 6 37)) /\
  (forall r s', ADC.ADC_HousekeepingPoll 6 true r s' = s') /\
  (forall b r s', ADC.ADC_idle s' = true ->
                  ADC.ADC_HousekeepingPoll 6 b r s' = s') /\
  (forall m s', ADC.ADC_idle s' = false -> ADC.ADC_StartConversion 6 m s' = s').
Proof.
  apply (ADC.adc_round_robin 6 37 [100; 200; 300] (ADC.adc_boot 6)).
  - repeat split; reflexivity.
  - reflexivity.
  - reflexivity.
Defined.

(** ** Atomic sections on the workstation target (neuravr-emu.cpp)

    [ATOMIC_BLOCK(X)] expands to
    [for (idx = ATOMIC_GetCli(X); idx != 0; idx = ATOMIC_ReleaseCli(idx))],
    so every block is one [ATOMIC_GetCli], the body, and one
    [ATOMIC_ReleaseCli] fed with the token the enter returned.  Holding
    [atomic_waiting_mutex] stands for "interrupts disabled".  The model
    follows one thread; the short critical sections on
    [atomic_access_mutex] only guard the bookkeeping reads and writes and
    are not represented. *)

Module Atomic.

Definition thread_id := nat.

(** [enum atomic_state_t] *)
Definition ATOMIC_DONE : Z := 0.
Definition ATOMIC_WANT_INTERRUPTS : Z := 1.
Definition ATOMIC_WANT_NO_INTERRUPTS : Z := 2.

(** [ATOMIC_RESTORESTATE] and [ATOMIC_FORCEON] (neuravr-emu.h). *)
Definition ATOMIC_RESTORESTATE : bool := true.
Definition ATOMIC_FORCEON : bool := false.

(** Real operations on [atomic_waiting_mutex]. *)
Inductive mutex_op :=
| Lock (t : thread_id)
| Unlock.

Record atomic_state := mkAtomic {
  atomic_owner_count : Z;
  atomic_owner_id : option thread_id;      (* [None]: default-constructed id *)
  atomic_waiting_mutex : option thread_id; (* who holds it, if anybody *)
  mutex_log : list mutex_op                (* lock/unlock calls so far *)
}.

Definition same_thread (self : thread_id) (id : option thread_id) : bool :=
  match id with
  | Some t => Nat.eqb self t
  | None => false
  end.

(** [atomic_waiting_mutex.lock()]: [None] when the call cannot return
    (the mutex is held). *)
Definition waiting_lock (self : thread_id) (s : atomic_state)
  : option atomic_state :=
  match atomic_waiting_mutex s with
  | None => Some (mkAtomic (atomic_owner_count s) (atomic_owner_id s)
                           (Some self) (mutex_log s ++ [Lock self]))
  | Some _ => None
  end.

Definition ATOMIC_GetCli (self : thread_id) (save_old : bool)
           (s : atomic_state) : option (Z * atomic_state) :=
  let old_count := atomic_owner_count s in
  let old_id := atomic_owner_id s in
  let locked :=
    if (0 =? old_count) || negb (same_thread self old_id)
    then waiting_lock self s
    else Some s in
  match locked with
  | None => None
  | Some s1 =>
      let old_count := atomic_owner_count s1 in
      let s2 := mkAtomic (atomic_owner_count s1 + 1) (Some self)
                         (atomic_waiting_mutex s1) (mutex_log s1) in
      let result := if save_old && (0 <? old_count)
                    then ATOMIC_WANT_NO_INTERRUPTS
                    else ATOMIC_WANT_INTERRUPTS in
      Some (result, s2)
  end.

Definition ATOMIC_ReleaseCli (desired_state : Z) (s : atomic_state)
  : Z * atomic_state :=
  let old_count := atomic_owner_count s - 1 in
  (* the desired state is ignored *)
  let s1 :=
    if 0 =? old_count
    then mkAtomic old_count (atomic_owner_id s) None (mutex_log s ++ [Unlock])
    else mkAtomic old_count (atomic_owner_id s) (atomic_waiting_mutex s)
                  (mutex_log s) in
  (ATOMIC_DONE, s1).

(** Entering and leaving blocks, as one thread's control flow does. *)
Inductive op :=
| Enter (save_old : bool)
| Exit.

(** [stack] holds the tokens of the blocks that are open. *)
Fixpoint run (self : thread_id) (ops : list op) (stack : list Z)
         (s : atomic_state) : option (list Z * atomic_state) :=
  match ops with
  | [] => Some (stack, s)
  | Enter save_old :: rest =>
      match ATOMIC_GetCli self save_old s with
      | None => None
      | Some (token, s') => run self rest (token :: stack) s'
      end
  | Exit :: rest =>
      match stack with
      | [] => None
      | token :: stack' =>
          run self rest stack' (snd (ATOMIC_ReleaseCli token s))
      end
  end.

(** [ops] closes exactly the [depth] open blocks and those it opens. *)
Fixpoint nested (depth : nat) (ops : list op) : bool :=
  match ops with
  | [] => Nat.eqb depth 0
  | Enter _ :: rest => nested (S depth) rest
  | Exit :: rest =>
      match depth with
      | O => false
      | S d => nested d rest
      end
  end.

(** The design's rule for real mutex operations, for a thread that runs
    [ops] from nesting count [count]: only an enter at count 0 locks, only
    the exit that reaches count 0 unlocks. *)
Fixpoint spec_real_ops (self : thread_id) (count : Z) (ops : list op)
  : list mutex_op :=
  match ops with
  | [] => []
  | Enter _ :: rest =>
      (if count =? 0 then [Lock self] else [])
      ++ spec_real_ops self (count + 1) rest
  | Exit :: rest =>
      (if count =? 1 then [Unlock] else [])
      ++ spec_real_ops self (count - 1) rest
  end.

(** The bookkeeping is consistent from [self]'s point of view: nobody is
    inside, or [self] is and holds the mutex. *)
Definition atomic_inv (self : thread_id) (s : atomic_state) : Prop :=
  0 <= atomic_owner_count s /\
  (atomic_owner_count s = 0 -> atomic_waiting_mutex s = None) /\
  (0 < atomic_owner_count s ->
   atomic_waiting_mutex s = Some self /\ atomic_owner_id s = Some self).

Definition atomic_boot : atomic_state := mkAtomic 0 None None [].

Section OneOwner.

Variable self : thread_id.

Lemma same_thread_self : same_thread self (Some self) = true.
Proof. simpl. apply Nat.eqb_refl. Qed.

Lemma enter_spec (save_old : bool) (s : atomic_state) :
  atomic_inv self s ->
  ATOMIC_GetCli self save_old s =
  Some (if save_old && (0 <? atomic_owner_count s)
        then ATOMIC_WANT_NO_INTERRUPTS else ATOMIC_WANT_INTERRUPTS,
        mkAtomic (atomic_owner_count s + 1) (Some self) (Some self)
                 (mutex_log s ++
                  if atomic_owner_count s =? 0 then [Lock self] else [])).
Proof.
  intros (Hpos & Hzero & Hin). unfold ATOMIC_GetCli.
  destruct (Z.eqb_spec 0 (atomic_owner_count s)) as [E | NE].
  - simpl. unfold waiting_lock. rewrite (Hzero (eq_sym E)). simpl.
    rewrite <- E. reflexivity.
  - destruct (Hin ltac:(lia)) as [Hm Ho].
    rewrite Ho, same_thread_self. simpl. rewrite Hm.
    destruct (Z.eqb_spec (atomic_owner_count s) 0); [lia |].
    now rewrite app_nil_r.
Qed.

Lemma exit_spec (token : Z) (s : atomic_state) :
  ATOMIC_ReleaseCli token s =
  (ATOMIC_DONE,
   mkAtomic (atomic_owner_count s - 1) (atomic_owner_id s)
            (if atomic_owner_count s =? 1 then None
             else atomic_waiting_mutex s)
            (mutex_log s ++
             if atomic_owner_count s =? 1 then [Unlock] else [])).
Proof.
  unfold ATOMIC_ReleaseCli.
  destruct (Z.eqb_spec 0 (atomic_owner_count s - 1));
    destruct (Z.eqb_spec (atomic_owner_count s) 1); try lia.
  - reflexivity.
  - now rewrite app_nil_r.
Qed.

Lemma enter_inv (save_old : bool) (s : atomic_state) :
  atomic_inv self s ->
  exists token s', ATOMIC_GetCli self save_old s = Some (token, s') /\
                   atomic_inv self s' /\
                   atomic_owner_count s' = atomic_owner_count s + 1 /\
                   mutex_log s' = mutex_log s ++
                     if atomic_owner_count s =? 0 then [Lock self] else [].
Proof.
  intros Hinv. rewrite (enter_spec save_old s Hinv).
  do 2 eexists. split; [reflexivity |]. unfold atomic_inv. simpl.
  destruct Hinv as (Hpos & _). repeat split; intros; auto; lia.
Qed.

Lemma exit_inv (token : Z) (s : atomic_state) :
  atomic_inv self s -> 0 < atomic_owner_count s ->
  let s' := snd (ATOMIC_ReleaseCli token s) in
  atomic_inv self s' /\
  atomic_owner_count s' = atomic_owner_count s - 1 /\
  mutex_log s' = mutex_log s ++
    if atomic_owner_count s =? 1 then [Unlock] else [].
Proof.
  intros (Hpos & Hzero & Hin) Hgt. rewrite exit_spec. simpl.
  destruct (Hin Hgt) as [Hm Ho].
  unfold atomic_inv. simpl.
  destruct (Z.eqb_spec (atomic_owner_count s) 1) as [E | NE];
    repeat split; intros; auto; lia.
Qed.

(** Whatever [self] runs, as long as it returns: the bookkeeping stays
    consistent, the count tracks the open blocks, and the real mutex
    operations are those of the design's rule. *)
Lemma run_inv (ops : list op) :
  forall (stack : list Z) (s : atomic_state) (stack' : list Z)
         (s' : atomic_state),
  atomic_inv self s ->
  Z.of_nat (length stack) <= atomic_owner_count s ->
  run self ops stack s = Some (stack', s') ->
  atomic_inv self s' /\
  Z.of_nat (length stack') <= atomic_owner_count s' /\
  atomic_owner_count s' - Z.of_nat (length stack')
  = atomic_owner_count s - Z.of_nat (length stack) /\
  mutex_log s' = mutex_log s ++ spec_real_ops self (atomic_owner_count s) ops.
Proof.
  induction ops as [| [save_old |] ops IH];
    intros stack s stack' s' Hinv Hst Hrun; simpl in Hrun.
  - injection Hrun as <- <-. simpl. rewrite app_nil_r. auto.
  - destruct (enter_inv save_old s Hinv) as (tok & s1 & E & Hinv1 & Hc1 & Hl1).
    rewrite E in Hrun.
    destruct (IH (tok :: stack) s1 stack' s' Hinv1
                 ltac:(simpl length; lia) Hrun) as (Hi & Hb & Hc & Hl).
    split; [exact Hi |]. split; [exact Hb |]. split.
    + simpl length in Hc. lia.
    + rewrite Hl, Hl1, Hc1. simpl. now rewrite <- app_assoc.
  - destruct stack as [| tok stack0]; [discriminate |].
    simpl length in Hst.
    destruct (exit_inv tok s Hinv ltac:(lia)) as (Hinv1 & Hc1 & Hl1).
    destruct (IH stack0 _ stack' s' Hinv1 ltac:(lia) Hrun)
      as (Hi & Hb & Hc & Hl).
    split; [exact Hi |]. split; [exact Hb |]. split.
    + simpl length. lia.
    + rewrite Hl, Hl1, Hc1. simpl. now rewrite <- app_assoc.
Qed.

(** A properly nested sequence never blocks and closes every block. *)
Lemma run_nested (ops : list op) :
  forall (stack : list Z) (s : atomic_state),
  atomic_inv self s ->
  Z.of_nat (length stack) <= atomic_owner_count s ->
  nested (length stack) ops = true ->
  exists s', run self ops stack s = Some ([], s').
Proof.
  induction ops as [| [save_old |] ops IH]; intros stack s Hinv Hst Hn;
    cbn [run nested] in Hn |- *.
  - destruct stack; [eauto | discriminate].
  - destruct (enter_inv save_old s Hinv) as (tok & s1 & E & Hinv1 & Hc1 & _).
    rewrite E. apply IH; [exact Hinv1 | simpl length; lia | exact Hn].
  - destruct stack as [| tok stack0]; [discriminate |].
    simpl length in Hst, Hn.
    destruct (exit_inv tok s Hinv ltac:(lia)) as (Hinv1 & Hc1 & _).
    apply IH; [exact Hinv1 | lia | exact Hn].
Qed.

(** C7.  For one owner:
    (1) an enter inside a block succeeds at once, only counts, and does not
        touch the mutex; under the restore policy its token records that
        the resource was already disabled;
    (2) an exit that leaves the count above zero keeps the mutex held and
        performs no unlock;
    (3) the exit that brings the count to zero performs the unlock;
    (4) a properly nested sequence runs to its end and leaves the nesting
        count and the mutex exactly as they were before its outermost
        enter, with real lock and unlock operations only at nesting zero;
    (5) at every point where a block is open the mutex is held by the
        owner. *)
Theorem nested_sections_one_owner :
  (forall (s : atomic_state) (save_old : bool),
     atomic_inv self s -> 0 < atomic_owner_count s ->
     exists s', ATOMIC_GetCli self save_old s
                = Some (if save_old then ATOMIC_WANT_NO_INTERRUPTS
                        else ATOMIC_WANT_INTERRUPTS, s') /\
                atomic_owner_count s' = atomic_owner_count s + 1 /\
                atomic_waiting_mutex s' = Some self /\
                mutex_log s' = mutex_log s) /\
  (forall (s : atomic_state) (token : Z),
     atomic_inv self s -> 1 < atomic_owner_count s ->
     let s' := snd (ATOMIC_ReleaseCli token s) in
     atomic_owner_count s' = atomic_owner_count s - 1 /\
     atomic_waiting_mutex s' = Some self /\
     mutex_log s' = mutex_log s) /\
  (forall (s : atomic_state) (token : Z),
     atomic_inv self s -> atomic_owner_count s = 1 ->
     let s' := snd (ATOMIC_ReleaseCli token s) in
     atomic_owner_count s' = 0 /\
     atomic_waiting_mutex s' = None /\
     mutex_log s' = mutex_log s ++ [Unlock]) /\
  (forall (ops : list op) (s : atomic_state),
     atomic_inv self s -> nested 0 ops = true ->
     exists s', run self ops [] s = Some ([], s') /\
                atomic_owner_count s' = atomic_owner_count s /\
                atomic_waiting_mutex s' = atomic_waiting_mutex s /\
                mutex_log s' = mutex_log s ++
                  spec_real_ops self (atomic_owner_count s) ops) /\
  (forall (ops : list op) (s : atomic_state) (stack' : list Z)
          (s' : atomic_state),
     atomic_inv self s -> run self ops [] s = Some (stack', s') ->
     stack' <> [] -> atomic_waiting_mutex s' = Some self).
Proof.
  split; [| split; [| split; [| split]]].
  - intros s save_old Hinv Hgt. rewrite (enter_spec save_old s Hinv).
    destruct Hinv as (_ & _ & Hin). destruct (Hin Hgt) as [Hm _].
    assert (E1 : (0 <? atomic_owner_count s) = true) by (apply Z.ltb_lt; lia).
    assert (E2 : (atomic_owner_count s =? 0) = false)
      by (apply Z.eqb_neq; lia).
    rewrite E1, E2, andb_true_r, app_nil_r.
    eexists. split; [reflexivity |]. simpl. auto.
  - intros s token (_ & _ & Hin) Hgt. rewrite exit_spec. simpl.
    destruct (Hin ltac:(lia)) as [Hm _].
    assert (E : (atomic_owner_count s =? 1) = false)
      by (apply Z.eqb_neq; lia).
    rewrite E, app_nil_r. auto.
  - intros s token _ Hone. rewrite exit_spec. simpl.
    rewrite Hone. simpl. auto.
  - intros ops s Hinv Hn.
    destruct (run_nested ops [] s Hinv ltac:(destruct Hinv; simpl; lia) Hn)
      as [s' Hrun].
    exists s'. split; [exact Hrun |].
    destruct (run_inv ops [] s [] s' Hinv
                ltac:(destruct Hinv; simpl; lia) Hrun)
      as (Hinv' & _ & Hc & Hl).
    simpl in Hc. split; [lia |]. split; [| exact Hl].
    destruct Hinv as (Hpos & Hzero & Hin).
    destruct Hinv' as (_ & Hzero' & Hin').
    destruct (Z.eq_dec (atomic_owner_count s) 0) as [E | NE].
    + rewrite Hzero by exact E. apply Hzero'. lia.
    + destruct (Hin ltac:(lia)) as [-> _].
      destruct (Hin' ltac:(lia)) as [-> _]. reflexivity.
  - intros ops s stack' s' Hinv Hrun Hne.
    destruct (run_inv ops [] s stack' s' Hinv
                ltac:(destruct Hinv; simpl; lia) Hrun)
      as ((_ & _ & Hin') & Hb & _ & _).
    apply Hin'. destruct stack'; [congruence | simpl length in Hb; lia].
Qed.

End OneOwner.

End Atomic.

Lemma nested_sections_example :
  exists s',
    Atomic.run 1%nat
      [Atomic.Enter Atomic.ATOMIC_RESTORESTATE;
       Atomic.Enter Atomic.ATOMIC_RESTORESTATE; Atomic.Exit;
       Atomic.Enter Atomic.ATOMIC_FORCEON; Atomic.Exit; Atomic.Exit]
      [] Atomic.atomic_boot = Some ([], s') /\
    Atomic.atomic_owner_count s' = 0 /\
    Atomic.atomic_waiting_mutex s' = None /\
    Atomic.mutex_log s' = [] ++ [Atomic.Lock 1%nat; Atomic.Unlock].
Proof.
  apply (proj1 (proj2 (proj2 (proj2 (Atomic.nested_sections_one_owner 1%nat))))
           [Atomic.Enter Atomic.ATOMIC_RESTORESTATE;
            Atomic.Enter Atomic.ATOMIC_RESTORESTATE; Atomic.Exit;
            Atomic.Enter Atomic.ATOMIC_FORCEON; Atomic.Exit; Atomic.Exit]
           Atomic.atomic_boot).
  - unfold Atomic.atomic_inv. simpl. repeat split; auto; lia.
  - reflexivity.
Defined.

(** ** Command parser (neurapp-oo.cpp, [NeurApp_Parser]) *)

Module Parser.

Inductive parse_state_t :=
| PSTATE_PREAMBLE
| PSTATE_OPCODE
| PSTATE_FIRSTGAP
| PSTATE_FIRSTARG
| PSTATE_SECONDGAP
| PSTATE_SECONDARG
| PSTATE_TAIL
| PSTATE_ERROR.

Definition NEURAPP_CMD_CHARS : Z := 3.

(** [neurapp_cmdname_t cmd_help = { 'H', 'L', 'P' }] and the other
    built-in names. *)
Definition cmd_help : list Z := chars "HLP".
Definition cmd_ident : list Z := chars "IDQ".
Definition cmd_reset : list Z := chars "INI".
Definition cmd_echo : list Z := chars "ECH".
Definition cmd_debug_mem : list Z := chars "ZZM".
Definition cmd_debug_evticks : list Z := chars "ZZE".

(** Conversion to [uint16_t]. *)
Definition u16 (x : Z) : Z := x mod 65536.

Record parser := mkParser {
  have_command : bool;
  this_cmdname : list Z;    (* [char[NEURAPP_CMD_CHARS]] *)
  this_arg1 : Z;            (* [uint16_t] *)
  this_arg2 : Z;            (* [uint16_t] *)
  argsfound : Z
}.

(** [ResetState] zeroes every field; the loop over the three name bytes
    leaves a name of three NULs. *)
Definition ResetState (p : parser) : parser :=
  mkParser false (replicate (Z.to_nat NEURAPP_CMD_CHARS) 0) 0 0 0.

(** Locals of the scan loop of [ParseInputLine], with the parser fields
    the loop updates. *)
Record scan := mkScan {
  state : parse_state_t;
  opidx : Z;
  saw_question : bool;
  fields : parser
}.

Definition is_error (st : parse_state_t) : bool :=
  match st with PSTATE_ERROR => true | _ => false end.

(** The character class decided at the top of the loop body; letters come
    out in upper case. *)
Record char_class := mkClass {
  folded : Z;
  is_letter : bool;
  is_digit : bool;
  is_white : bool;
  is_question : bool
}.

Definition classify (thischar : Z) : char_class :=
  if (97 <=? thischar) && (122 >=? thischar) then
    mkClass (thischar - 97 + 65) true false false false
  else if (65 <=? thischar) && (90 >=? thischar) then
    mkClass thischar true false false false
  else if (48 <=? thischar) && (57 >=? thischar) then
    mkClass thischar false true false false
  else if 32 >=? thischar then
    mkClass thischar false false true false
  else if 63 =? thischar then
    mkClass thischar false false false true
  else
    mkClass thischar false false false false.

(** First [switch]: the state transition. *)
Definition next_state (st : parse_state_t) (k : char_class) : parse_state_t :=
  match st with
  | PSTATE_PREAMBLE =>
      if is_letter k then PSTATE_OPCODE
      else if negb (is_white k) then PSTATE_ERROR else st
  | PSTATE_OPCODE =>
      if is_white k then PSTATE_FIRSTGAP
      else if negb (is_letter k) then PSTATE_ERROR else st
  | PSTATE_FIRSTGAP =>
      if is_digit k then PSTATE_FIRSTARG
      else if negb (is_white k) then PSTATE_ERROR else st
  | PSTATE_FIRSTARG =>
      if is_white k then PSTATE_SECONDGAP
      else if negb (is_digit k) then PSTATE_ERROR else st
  | PSTATE_SECONDGAP =>
      if is_digit k then PSTATE_SECONDARG
      else if negb (is_white k) then PSTATE_ERROR else st
  | PSTATE_SECONDARG =>
      if is_white k then PSTATE_TAIL
      else if negb (is_digit k) then PSTATE_ERROR else st
  | PSTATE_TAIL =>
      if negb (is_white k) then PSTATE_ERROR else st
  | PSTATE_ERROR => st
  end.

(** One iteration of the scan loop. *)
Definition scan_char (thischar : Z) (sc : scan) : scan :=
  let k := classify thischar in
  let saw := saw_question sc || is_question k in
  let st := next_state (state sc) k in
  let p := fields sc in
  (* second [switch]: the data update *)
  match st with
  | PSTATE_OPCODE =>
      let p1 := mkParser true (this_cmdname p) (this_arg1 p) (this_arg2 p)
                         (argsfound p) in
      if opidx sc <? NEURAPP_CMD_CHARS then
        mkScan st (opidx sc + 1) saw
               (mkParser true
                         (<[Z.to_nat (opidx sc) := folded k]> (this_cmdname p))
                         (this_arg1 p) (this_arg2 p) (argsfound p))
      else mkScan PSTATE_ERROR (opidx sc) saw p1
  | PSTATE_FIRSTARG =>
      let arg := u16 (this_arg1 p * 10) in
      let scratch := u16 (u16 (folded k) - 48) in
      mkScan st (opidx sc) saw
             (mkParser (have_command p) (this_cmdname p)
                       (u16 (arg + scratch)) (this_arg2 p) 1)
  | PSTATE_SECONDARG =>
      let arg := u16 (this_arg2 p * 10) in
      let scratch := u16 (u16 (folded k) - 48) in
      mkScan st (opidx sc) saw
             (mkParser (have_command p) (this_cmdname p)
                       (this_arg1 p) (u16 (arg + scratch)) 2)
  | _ => mkScan st (opidx sc) saw p
  end.

(** [for (rawidx = 0; 0 != (thischar = rawline[rawidx]); rawidx++)] *)
Fixpoint scan_line (rawline : list Z) (sc : scan) : scan :=
  match rawline with
  | [] => sc
  | thischar :: rest =>
      if thischar =? 0 then sc else scan_line rest (scan_char thischar sc)
  end.

Definition scan_start (p : parser) : scan :=
  mkScan PSTATE_PREAMBLE 0 false (ResetState p).

Definition ParseInputLine (rawline : list Z) (p : parser) : bool * parser :=
  let sc := scan_line rawline (scan_start p) in
  let was_ok := negb (is_error (state sc)) in
  let '(was_ok, p1) :=
    if saw_question sc then
      (* Pretend we saw HLP with no arguments. *)
      let q := ResetState (fields sc) in
      (true, mkParser true cmd_help (this_arg1 q) (this_arg2 q) (argsfound q))
    else (was_ok, fields sc) in
  if negb was_ok then (was_ok, ResetState p1) else (was_ok, p1).

(** [WasNewCommand]: the copied-out command, if one was parsed, and the
    parser with the one-shot flag cleared. *)
Definition WasNewCommand (p : parser)
  : option (list Z * Z * Z * Z) * parser :=
  if have_command p then
    (Some (this_cmdname p, this_arg1 p, this_arg2 p, argsfound p),
     mkParser false (this_cmdname p) (this_arg1 p) (this_arg2 p)
              (argsfound p))
  else (None, p).

Definition parser_new : parser := ResetState (mkParser false [] 0 0 0).

(** The parser state a failed parse leaves behind. *)
Definition parser_reset : parser := mkParser false [0; 0; 0] 0 0 0.

(** The value a decimal numeral denotes. *)
Definition decimal (digits : list Z) : Z :=
  fold_left (fun acc d => acc * 10 + d) digits 0.

Definition digit_char (d : Z) : Z := 48 + d.

Definition to_upper (c : Z) : Z :=
  if (97 <=? c) && (122 >=? c) then c - 97 + 65 else c.

(** *** Character classes *)

Ltac class_cases c :=
  unfold classify, to_upper;
  repeat match goal with
  | |- context [?a <=? ?b] => destruct (Z.leb_spec a b)
  | |- context [?a >=? ?b] => destruct (Z.geb_spec a b)
  | |- context [?a =? ?b] => destruct (Z.eqb_spec a b)
  end; simpl; try reflexivity; try discriminate; try lia.

Lemma classify_question (c : Z) : is_question (classify c) = (c =? 63).
Proof. class_cases c. Qed.

Lemma classify_upper (c : Z) : classify (to_upper c) = classify c.
Proof.
  unfold to_upper.
  destruct ((97 <=? c) && (122 >=? c)) eqn:E; [| reflexivity].
  unfold classify. rewrite E.
  apply andb_true_iff in E as [E1 E2].
  apply Z.leb_le in E1. apply Z.geb_le in E2.
  replace (97 <=? c - 97 + 65) with false by (symmetry; apply Z.leb_gt; lia).
  replace (65 <=? c - 97 + 65) with true by (symmetry; apply Z.leb_le; lia).
  replace (90 >=? c - 97 + 65) with true by (symmetry; apply Z.geb_le; lia).
  reflexivity.
Qed.

Lemma upper_nul (c : Z) : (to_upper c =? 0) = (c =? 0).
Proof.
  unfold to_upper.
  destruct ((97 <=? c) && (122 >=? c)) eqn:E; [| reflexivity].
  apply andb_true_iff in E as [E1 E2].
  apply Z.leb_le in E1. apply Z.geb_le in E2.
  destruct (Z.eqb_spec (c - 97 + 65) 0), (Z.eqb_spec c 0); lia.
Qed.

Lemma classify_letter (c : Z) :
  is_letter (classify c) = true ->
  classify c = mkClass (to_upper c) true false false false /\ c <> 0.
Proof. class_cases c; intros; split; (reflexivity || lia). Qed.

Lemma classify_digit (d : Z) :
  0 <= d <= 9 ->
  classify (digit_char d) = mkClass (digit_char d) false true false false /\
  digit_char d <> 0 /\ u16 (u16 (digit_char d) - 48) = d.
Proof.
  intros Hd. unfold digit_char. split; [| split].
  - class_cases d.
  - lia.
  - unfold u16. rewrite (Z.mod_small (48 + d)) by lia.
    replace (48 + d - 48) with d by lia. apply Z.mod_small. lia.
Qed.

(** *** The scan loop *)

Lemma scan_line_app (a b : list Z) (sc : scan) :
  Forall (fun c => c <> 0) a ->
  scan_line (a ++ b) sc = scan_line b (scan_line a sc).
Proof.
  intros Ha. revert sc. induction Ha as [| c a Hc _ IH]; intros sc; simpl.
  - reflexivity.
  - destruct (Z.eqb_spec c 0); [contradiction | apply IH].
Qed.

Lemma scan_line_cons (c : Z) (rest : list Z) (sc : scan) :
  c <> 0 -> scan_line (c :: rest) sc = scan_line rest (scan_char c sc).
Proof. intros Hc. simpl. now destruct (Z.eqb_spec c 0). Qed.

(** The Error state is sticky. *)
Lemma error_is_sticky (rawline : list Z) (sc : scan) :
  state sc = PSTATE_ERROR -> state (scan_line rawline sc) = PSTATE_ERROR.
Proof.
  revert sc. induction rawline as [| c rest IH]; intros sc Herr; simpl.
  - exact Herr.
  - destruct (c =? 0); [exact Herr |]. apply IH.
    unfold scan_char. rewrite Herr. reflexivity.
Qed.

Lemma saw_question_scan_char (c : Z) (sc : scan) :
  saw_question (scan_char c sc) = saw_question sc || (c =? 63).
Proof.
  unfold scan_char. rewrite <- classify_question.
  destruct (next_state (state sc) (classify c)); try reflexivity.
  destruct (opidx sc <? NEURAPP_CMD_CHARS); reflexivity.
Qed.

Lemma saw_question_scan (rawline : list Z) (sc : scan) :
  saw_question (scan_line rawline sc)
  = saw_question sc || existsb (Z.eqb 63) (until_nul rawline).
Proof.
  revert sc. induction rawline as [| c rest IH]; intros sc;
    cbn [scan_line until_nul].
  - cbn [existsb]. now rewrite orb_false_r.
  - destruct (c =? 0); cbn [existsb]; [now rewrite orb_false_r |].
    rewrite IH, saw_question_scan_char, (Z.eqb_sym c 63).
    now rewrite orb_assoc.
Qed.

Lemma scan_char_upper (c : Z) (sc : scan) :
  scan_char (to_upper c) sc = scan_char c sc.
Proof. unfold scan_char. now rewrite classify_upper. Qed.

Lemma scan_line_upper (rawline : list Z) (sc : scan) :
  scan_line (map to_upper rawline) sc = scan_line rawline sc.
Proof.
  revert sc. induction rawline as [| c rest IH]; intros sc; simpl.
  - reflexivity.
  - rewrite upper_nul, scan_char_upper, IH. reflexivity.
Qed.

(** C5.  The parser on the documented examples, and its three general
    rules: a question mark anywhere in the line turns the result into a
    valid HLP with no arguments, whatever state the scan reached; the
    Error state is sticky and a line that ends in it (without a question
    mark) is reported invalid with every parsed field reset; letters are
    folded to upper case. *)
Theorem parser_state_machine :
  (forall p, ParseInputLine (chars "ECH 1") p
             = (true, mkParser true (chars "ECH") 1 0 1)) /\
  (forall p, ParseInputLine (chars "ECH") p
             = (true, mkParser true (chars "ECH") 0 0 0)) /\
  (forall p, ParseInputLine (chars "  ?  ") p
             = (true, mkParser true (chars "HLP") 0 0 0)) /\
  (forall rawline p,
     In 63 (until_nul rawline) ->
     ParseInputLine rawline p = (true, mkParser true cmd_help 0 0 0)) /\
  (forall p,
     state (scan_line (chars "ech 1 2 3") (scan_start p)) = PSTATE_ERROR /\
     ParseInputLine (chars "ech 1 2 3") p = (false, parser_reset)) /\
  (forall p,
     state (scan_line (chars "ABCD") (scan_start p)) = PSTATE_ERROR /\
     ParseInputLine (chars "ABCD") p = (false, parser_reset)) /\
  (forall rawline sc,
     state sc = PSTATE_ERROR ->
     state (scan_line rawline sc) = PSTATE_ERROR) /\
  (forall rawline p,
     state (scan_line rawline (scan_start p)) = PSTATE_ERROR ->
     ~ In 63 (until_nul rawline) ->
     ParseInputLine rawline p = (false, parser_reset)) /\
  (forall rawline p,
     ParseInputLine (map to_upper rawline) p = ParseInputLine rawline p) /\
  (forall p, ParseInputLine (chars "ech 1") p
             = ParseInputLine (chars "ECH 1") p).
Proof.
  assert (Hq : forall rawline p,
            saw_question (scan_line rawline (scan_start p))
            = existsb (Z.eqb 63) (until_nul rawline)).
  { intros rawline p. now rewrite saw_question_scan. }
  repeat split; try (intros; reflexivity).
  - intros rawline p Hin. unfold ParseInputLine.
    rewrite Hq.
    assert (E : existsb (Z.eqb 63) (until_nul rawline) = true).
    { apply existsb_exists. exists 63. split; [exact Hin | reflexivity]. }
    rewrite E. reflexivity.
  - intros rawline sc. apply error_is_sticky.
  - intros rawline p Herr Hnq. unfold ParseInputLine.
    rewrite Hq, Herr.
    assert (E : existsb (Z.eqb 63) (until_nul rawline) = false).
    { apply not_true_is_false. intros Hex.
      apply existsb_exists in Hex as (x & Hx & Hxe).
      apply Z.eqb_eq in Hxe. subst x. contradiction. }
    rewrite E. reflexivity.
  - intros rawline p. unfold ParseInputLine.
    now rewrite scan_line_upper.
Qed.

(** *** Well-formed command lines *)

Definition whites (ws : list Z) : Prop :=
  Forall (fun c => c <= 32 /\ c <> 0) ws.
Definition letters (ls : list Z) : Prop :=
  Forall (fun c => is_letter (classify c) = true) ls.
Definition digits (ds : list Z) : Prop :=
  Forall (fun d => 0 <= d <= 9) ds.

(** The name stored for an opcode of up to three letters. *)
Definition opcode_name (ls : list Z) : list Z :=
  map to_upper ls ++ replicate (3 - length ls) 0.

(** Where a run of whitespace takes each state. *)
Definition after_white (st : parse_state_t) : parse_state_t :=
  match st with
  | PSTATE_OPCODE => PSTATE_FIRSTGAP
  | PSTATE_FIRSTARG => PSTATE_SECONDGAP
  | PSTATE_SECONDARG => PSTATE_TAIL
  | _ => st
  end.

Lemma classify_white (c : Z) :
  c <= 32 -> classify c = mkClass c false false true false.
Proof. intros Hc. class_cases c. Qed.

Lemma scan_white_char (c : Z) (sc : scan) :
  c <= 32 ->
  scan_char c sc
  = mkScan (after_white (state sc)) (opidx sc) (saw_question sc) (fields sc).
Proof.
  intros Hc. unfold scan_char. rewrite (classify_white c Hc). simpl.
  rewrite orb_false_r. destruct (state sc); reflexivity.
Qed.

Lemma after_white_idem (st : parse_state_t) :
  after_white (after_white st) = after_white st.
Proof. destruct st; reflexivity. Qed.

Lemma scan_whites (ws : list Z) (sc : scan) :
  whites ws ->
  scan_line ws sc
  = match ws with
    | [] => sc
    | _ => mkScan (after_white (state sc)) (opidx sc) (saw_question sc)
                  (fields sc)
    end.
Proof.
  intros Hws. revert sc.
  induction Hws as [| c ws [Hc Hnz] _ IH]; intros sc; simpl.
  - reflexivity.
  - destruct (Z.eqb_spec c 0); [contradiction |].
    rewrite IH, (scan_white_char c sc Hc).
    destruct ws; [reflexivity |]. simpl. now rewrite after_white_idem.
Qed.

Lemma whites_nonzero (ws : list Z) : whites ws -> Forall (fun c => c <> 0) ws.
Proof. apply List.Forall_impl. tauto. Qed.

Lemma letters_nonzero (ls : list Z) :
  letters ls -> Forall (fun c => c <> 0) ls.
Proof.
  apply List.Forall_impl. intros c Hc. apply (classify_letter c Hc).
Qed.

Lemma digits_nonzero (ds : list Z) :
  digits ds -> Forall (fun c => c <> 0) (map digit_char ds).
Proof.
  intros Hd. apply List.Forall_map.
  eapply List.Forall_impl; [| exact Hd].
  intros d Hr. apply (classify_digit d Hr).
Qed.

Lemma scan_letter (c : Z) (sc : scan) :
  is_letter (classify c) = true ->
  state sc = PSTATE_PREAMBLE \/ state sc = PSTATE_OPCODE ->
  opidx sc < NEURAPP_CMD_CHARS ->
  scan_char c sc
  = mkScan PSTATE_OPCODE (opidx sc + 1) (saw_question sc)
           (mkParser true
              (<[Z.to_nat (opidx sc) := to_upper c]> (this_cmdname (fields sc)))
              (this_arg1 (fields sc)) (this_arg2 (fields sc))
              (argsfound (fields sc))).
Proof.
  intros Hl Hst Hidx. unfold scan_char.
  destruct (classify_letter c Hl) as [-> _]. simpl.
  rewrite orb_false_r.
  assert (E : (opidx sc <? NEURAPP_CMD_CHARS) = true) by now apply Z.ltb_lt.
  destruct Hst as [-> | ->]; simpl; rewrite E; reflexivity.
Qed.

(** An opcode of one to three letters after optional leading blanks. *)
Lemma scan_opcode (ls : list Z) (p : parser) :
  letters ls -> (1 <= length ls <= 3)%nat ->
  scan_line ls (scan_start p)
  = mkScan PSTATE_OPCODE (Z.of_nat (length ls)) false
           (mkParser true (opcode_name ls) 0 0 0).
Proof.
  intros Hl Hlen.
  destruct ls as [| a [| b [| c [| d ls]]]]; simpl in Hlen; try lia.
  - apply Forall_cons_1 in Hl as [Ha _].
    destruct (classify_letter a Ha) as [_ Hna].
    simpl. destruct (Z.eqb_spec a 0); [contradiction |].
    rewrite scan_letter; simpl; auto; reflexivity.
  - apply Forall_cons_1 in Hl as [Ha Hl].
    apply Forall_cons_1 in Hl as [Hb _].
    destruct (classify_letter a Ha) as [_ Hna].
    destruct (classify_letter b Hb) as [_ Hnb].
    simpl. destruct (Z.eqb_spec a 0); [contradiction |].
    destruct (Z.eqb_spec b 0); [contradiction |].
    rewrite (scan_letter a); simpl; auto; try reflexivity.
    rewrite (scan_letter b); simpl; auto; reflexivity.
  - apply Forall_cons_1 in Hl as [Ha Hl].
    apply Forall_cons_1 in Hl as [Hb Hl].
    apply Forall_cons_1 in Hl as [Hc _].
    destruct (classify_letter a Ha) as [_ Hna].
    destruct (classify_letter b Hb) as [_ Hnb].
    destruct (classify_letter c Hc) as [_ Hnc].
    simpl. destruct (Z.eqb_spec a 0); [contradiction |].
    destruct (Z.eqb_spec b 0); [contradiction |].
    destruct (Z.eqb_spec c 0); [contradiction |].
    rewrite (scan_letter a); simpl; auto; try reflexivity.
    rewrite (scan_letter b); simpl; auto; try reflexivity.
    rewrite (scan_letter c); simpl; auto; reflexivity.
Qed.

(** *** Decimal accumulation in a 16-bit field *)

Definition accumulate (arg : Z) (ds : list Z) : Z :=
  fold_left (fun a d => u16 (a * 10 + d)) ds arg.

Lemma accumulate_decimal (ds : list Z) (x : Z) :
  accumulate (u16 x) ds
  = u16 (fold_left (fun acc d => acc * 10 + d) ds x).
Proof.
  revert x. induction ds as [| d ds IH]; intros x; simpl.
  - reflexivity.
  - unfold accumulate in IH |- *. simpl. rewrite <- IH. f_equal.
    unfold u16.
    rewrite <- (Zplus_mod_idemp_l (x mod 65536 * 10)).
    rewrite Zmult_mod_idemp_l. now rewrite Zplus_mod_idemp_l.
Qed.

Lemma scan_digit_first (d : Z) (sc : scan) :
  0 <= d <= 9 ->
  state sc = PSTATE_FIRSTGAP \/ state sc = PSTATE_FIRSTARG ->
  scan_char (digit_char d) sc
  = mkScan PSTATE_FIRSTARG (opidx sc) (saw_question sc)
           (mkParser (have_command (fields sc)) (this_cmdname (fields sc))
                     (u16 (this_arg1 (fields sc) * 10 + d))
                     (this_arg2 (fields sc)) 1).
Proof.
  intros Hd Hst. unfold scan_char.
  destruct (classify_digit d Hd) as (-> & _ & Hs). simpl folded.
  rewrite Hs. simpl. rewrite orb_false_r.
  assert (E : u16 (u16 (this_arg1 (fields sc) * 10) + d)
              = u16 (this_arg1 (fields sc) * 10 + d))
    by (unfold u16; apply Zplus_mod_idemp_l).
  destruct Hst as [-> | ->]; simpl; now rewrite E.
Qed.

Lemma scan_digit_second (d : Z) (sc : scan) :
  0 <= d <= 9 ->
  state sc = PSTATE_SECONDGAP \/ state sc = PSTATE_SECONDARG ->
  scan_char (digit_char d) sc
  = mkScan PSTATE_SECONDARG (opidx sc) (saw_question sc)
           (mkParser (have_command (fields sc)) (this_cmdname (fields sc))
                     (this_arg1 (fields sc))
                     (u16 (this_arg2 (fields sc) * 10 + d)) 2).
Proof.
  intros Hd Hst. unfold scan_char.
  destruct (classify_digit d Hd) as (-> & _ & Hs). simpl folded.
  rewrite Hs. simpl. rewrite orb_false_r.
  assert (E : u16 (u16 (this_arg2 (fields sc) * 10) + d)
              = u16 (this_arg2 (fields sc) * 10 + d))
    by (unfold u16; apply Zplus_mod_idemp_l).
  destruct Hst as [-> | ->]; simpl; now rewrite E.
Qed.

Lemma scan_digits_first (ds : list Z) :
  forall (d : Z) (sc : scan),
  digits (d :: ds) ->
  state sc = PSTATE_FIRSTGAP \/ state sc = PSTATE_FIRSTARG ->
  scan_line (map digit_char (d :: ds)) sc
  = mkScan PSTATE_FIRSTARG (opidx sc) (saw_question sc)
           (mkParser (have_command (fields sc)) (this_cmdname (fields sc))
                     (accumulate (this_arg1 (fields sc)) (d :: ds))
                     (this_arg2 (fields sc)) 1).
Proof.
  induction ds as [| d' ds IH]; intros d sc Hds Hst;
    apply Forall_cons_1 in Hds as [Hd Hds];
    destruct (classify_digit d Hd) as (_ & Hnz & _);
    rewrite (List.map_cons digit_char d), scan_line_cons by exact Hnz;
    rewrite (scan_digit_first d sc Hd Hst).
  - reflexivity.
  - rewrite (IH d' _ Hds) by (right; reflexivity). reflexivity.
Qed.

Lemma scan_digits_second (ds : list Z) :
  forall (d : Z) (sc : scan),
  digits (d :: ds) ->
  state sc = PSTATE_SECONDGAP \/ state sc = PSTATE_SECONDARG ->
  scan_line (map digit_char (d :: ds)) sc
  = mkScan PSTATE_SECONDARG (opidx sc) (saw_question sc)
           (mkParser (have_command (fields sc)) (this_cmdname (fields sc))
                     (this_arg1 (fields sc))
                     (accumulate (this_arg2 (fields sc)) (d :: ds)) 2).
Proof.
  induction ds as [| d' ds IH]; intros d sc Hds Hst;
    apply Forall_cons_1 in Hds as [Hd Hds];
    destruct (classify_digit d Hd) as (_ & Hnz & _);
    rewrite (List.map_cons digit_char d), scan_line_cons by exact Hnz;
    rewrite (scan_digit_second d sc Hd Hst).
  - reflexivity.
  - rewrite (IH d' _ Hds) by (right; reflexivity). reflexivity.
Qed.

Ltac proj_simpl :=
  cbn [state opidx saw_question fields have_command this_cmdname
       this_arg1 this_arg2 argsfound after_white].

Lemma parse_of_scan (rawline : list Z) (p : parser) (sc : scan) :
  scan_line rawline (scan_start p) = sc ->
  saw_question sc = false -> is_error (state sc) = false ->
  ParseInputLine rawline p = (true, fields sc).
Proof.
  intros Hsc Hq He. unfold ParseInputLine. rewrite Hsc, Hq, He. reflexivity.
Qed.

Lemma accumulate_zero (ds : list Z) :
  accumulate 0 ds = decimal ds mod 65536.
Proof. apply (accumulate_decimal ds 0). Qed.

(** The scan of a line up to the end of its first argument. *)
Lemma scan_to_first_arg (ws0 ls ws1 ds1 : list Z) (p : parser) :
  whites ws0 -> letters ls -> (1 <= length ls <= 3)%nat ->
  whites ws1 -> ws1 <> [] -> digits ds1 -> ds1 <> [] ->
  scan_line (ws0 ++ ls ++ ws1 ++ map digit_char ds1) (scan_start p)
  = mkScan PSTATE_FIRSTARG (Z.of_nat (length ls)) false
           (mkParser true (opcode_name ls) (decimal ds1 mod 65536) 0 1).
Proof.
  intros Hw0 Hl Hlen Hw1 Hn1 Hd1 Hnd1.
  rewrite scan_line_app by now apply whites_nonzero.
  assert (E0 : scan_line ws0 (scan_start p) = scan_start p).
  { rewrite (scan_whites ws0 _ Hw0). now destruct ws0. }
  rewrite E0, scan_line_app by now apply letters_nonzero.
  rewrite (scan_opcode ls p Hl Hlen).
  rewrite scan_line_app by now apply whites_nonzero.
  rewrite (scan_whites ws1 _ Hw1).
  destruct ws1 as [| w1 ws1]; [congruence |].
  destruct ds1 as [| d ds1]; [congruence |].
  rewrite (scan_digits_first ds1 d _ Hd1) by (left; reflexivity).
  proj_simpl. now rewrite accumulate_zero.
Qed.

(** C10.  Every well-formed command line with one or two arguments
    (optional leading blanks, an opcode of one to three letters, blanks,
    a decimal numeral, optionally blanks and a second numeral, optional
    trailing blanks) is reported valid, and each stored argument is the
    value of its numeral modulo 2^16: numerals of 65536 and more wrap
    instead of being rejected. *)
Theorem decimal_arguments_wrap
        (ws0 ls ws1 ds1 ws2 ds2 ws3 : list Z) (p : parser) :
  whites ws0 -> letters ls -> (1 <= length ls <= 3)%nat ->
  whites ws1 -> ws1 <> [] -> digits ds1 -> ds1 <> [] ->
  whites ws2 -> ws2 <> [] -> digits ds2 -> ds2 <> [] ->
  whites ws3 ->
  ParseInputLine (ws0 ++ ls ++ ws1 ++ map digit_char ds1 ++ ws3) p
  = (true, mkParser true (opcode_name ls) (decimal ds1 mod 65536) 0 1) /\
  ParseInputLine (ws0 ++ ls ++ ws1 ++ map digit_char ds1 ++
                  ws2 ++ map digit_char ds2 ++ ws3) p
  = (true, mkParser true (opcode_name ls) (decimal ds1 mod 65536)
                    (decimal ds2 mod 65536) 2).
Proof.
  intros Hw0 Hl Hlen Hw1 Hn1 Hd1 Hnd1 Hw2 Hn2 Hd2 Hnd2 Hw3.
  pose proof (scan_to_first_arg ws0 ls ws1 ds1 p
                Hw0 Hl Hlen Hw1 Hn1 Hd1 Hnd1) as Hfirst.
  assert (Hnz : Forall (fun c => c <> 0)
                  (ws0 ++ ls ++ ws1 ++ map digit_char ds1)).
  { repeat apply Forall_app_2;
      auto using whites_nonzero, letters_nonzero, digits_nonzero. }
  split.
  - replace (ws0 ++ ls ++ ws1 ++ map digit_char ds1 ++ ws3)
      with ((ws0 ++ ls ++ ws1 ++ map digit_char ds1) ++ ws3)
      by now rewrite <- !app_assoc.
    assert (Hsc : scan_line ((ws0 ++ ls ++ ws1 ++ map digit_char ds1) ++ ws3)
                    (scan_start p)
                  = mkScan (match ws3 with
                            | [] => PSTATE_FIRSTARG
                            | _ => PSTATE_SECONDGAP
                            end)
                           (Z.of_nat (length ls)) false
                           (mkParser true (opcode_name ls)
                                     (decimal ds1 mod 65536) 0 1)).
    { rewrite scan_line_app by exact Hnz.
      rewrite Hfirst, (scan_whites ws3 _ Hw3). now destruct ws3. }
    rewrite (parse_of_scan _ p _ Hsc); [reflexivity | reflexivity |].
    now destruct ws3.
  - replace (ws0 ++ ls ++ ws1 ++ map digit_char ds1 ++
             ws2 ++ map digit_char ds2 ++ ws3)
      with ((ws0 ++ ls ++ ws1 ++ map digit_char ds1) ++
            ws2 ++ map digit_char ds2 ++ ws3)
      by now rewrite <- !app_assoc.
    destruct ws2 as [| w2 ws2]; [congruence |].
    destruct ds2 as [| d2 ds2]; [congruence |].
    assert (Hsc : scan_line ((ws0 ++ ls ++ ws1 ++ map digit_char ds1) ++
                             (w2 :: ws2) ++ map digit_char (d2 :: ds2) ++ ws3)
                    (scan_start p)
                  = mkScan (match ws3 with
                            | [] => PSTATE_SECONDARG
                            | _ => PSTATE_TAIL
                            end)
                           (Z.of_nat (length ls)) false
                           (mkParser true (opcode_name ls)
                                     (decimal ds1 mod 65536)
                                     (decimal (d2 :: ds2) mod 65536) 2)).
    { rewrite scan_line_app by exact Hnz.
      rewrite Hfirst.
      rewrite scan_line_app by now apply whites_nonzero.
      rewrite (scan_whites (w2 :: ws2) _ Hw2).
      rewrite scan_line_app by now apply digits_nonzero.
      rewrite (scan_digits_second ds2 d2 _ Hd2) by (left; reflexivity).
      rewrite (scan_whites ws3 _ Hw3). proj_simpl.
      rewrite accumulate_zero. now destruct ws3. }
    rewrite (parse_of_scan _ p _ Hsc); [reflexivity | reflexivity |].
    now destruct ws3.
Qed.

(** *** The grammar of command lines

    What [ParseInputLine] accepts, and what it stores for each accepted
    line.  Blanks are all characters up to and including the space
    (control characters too); a numeral is a run of decimal digits. *)

Definition numeral (cs : list Z) : Prop :=
  Forall (fun c => 48 <= c <= 57) cs.

(** The value of a numeral in a 16-bit field. *)
Definition number (cs : list Z) : Z :=
  decimal (map (fun c => c - 48) cs) mod 65536.

Inductive parses : list Z -> parser -> Prop :=
| parses_blank (ws : list Z) :
    whites ws -> parses ws parser_reset
| parses_cmd (ws0 ls ws1 : list Z) :
    whites ws0 -> letters ls -> (1 <= length ls <= 3)%nat -> whites ws1 ->
    parses (ws0 ++ ls ++ ws1) (mkParser true (opcode_name ls) 0 0 0)
| parses_arg1 (ws0 ls ws1 n1 ws2 : list Z) :
    whites ws0 -> letters ls -> (1 <= length ls <= 3)%nat ->
    whites ws1 -> ws1 <> [] -> numeral n1 -> n1 <> [] -> whites ws2 ->
    parses (ws0 ++ ls ++ ws1 ++ n1 ++ ws2)
           (mkParser true (opcode_name ls) (number n1) 0 1)
| parses_arg2 (ws0 ls ws1 n1 ws2 n2 ws3 : list Z) :
    whites ws0 -> letters ls -> (1 <= length ls <= 3)%nat ->
    whites ws1 -> ws1 <> [] -> numeral n1 -> n1 <> [] ->
    whites ws2 -> ws2 <> [] -> numeral n2 -> n2 <> [] -> whites ws3 ->
    parses (ws0 ++ ls ++ ws1 ++ n1 ++ ws2 ++ n2 ++ ws3)
           (mkParser true (opcode_name ls) (number n1) (number n2) 2).

(** What the scan loop has seen and stored when it is in a given state. *)
Inductive scanned (l : list Z) (sc : scan) : Prop :=
| sc_pre :
    whites l ->
    sc = mkScan PSTATE_PREAMBLE 0 false parser_reset -> scanned l sc
| sc_op (ws0 ls : list Z) :
    whites ws0 -> letters ls -> (1 <= length ls <= 3)%nat ->
    l = ws0 ++ ls ->
    sc = mkScan PSTATE_OPCODE (Z.of_nat (length ls)) false
                (mkParser true (opcode_name ls) 0 0 0) ->
    scanned l sc
| sc_gap1 (ws0 ls ws1 : list Z) :
    whites ws0 -> letters ls -> (1 <= length ls <= 3)%nat ->
    whites ws1 -> ws1 <> [] ->
    l = ws0 ++ ls ++ ws1 ->
    sc = mkScan PSTATE_FIRSTGAP (Z.of_nat (length ls)) false
                (mkParser true (opcode_name ls) 0 0 0) ->
    scanned l sc
| sc_arg1 (ws0 ls ws1 n1 : list Z) :
    whites ws0 -> letters ls -> (1 <= length ls <= 3)%nat ->
    whites ws1 -> ws1 <> [] -> numeral n1 -> n1 <> [] ->
    l = ws0 ++ ls ++ ws1 ++ n1 ->
    sc = mkScan PSTATE_FIRSTARG (Z.of_nat (length ls)) false
                (mkParser true (opcode_name ls) (number n1) 0 1) ->
    scanned l sc
| sc_gap2 (ws0 ls ws1 n1 ws2 : list Z) :
    whites ws0 -> letters ls -> (1 <= length ls <= 3)%nat ->
    whites ws1 -> ws1 <> [] -> numeral n1 -> n1 <> [] ->
    whites ws2 -> ws2 <> [] ->
    l = ws0 ++ ls ++ ws1 ++ n1 ++ ws2 ->
    sc = mkScan PSTATE_SECONDGAP (Z.of_nat (length ls)) false
                (mkParser true (opcode_name ls) (number n1) 0 1) ->
    scanned l sc
| sc_arg2 (ws0 ls ws1 n1 ws2 n2 : list Z) :
    whites ws0 -> letters ls -> (1 <= length ls <= 3)%nat ->
    whites ws1 -> ws1 <> [] -> numeral n1 -> n1 <> [] ->
    whites ws2 -> ws2 <> [] -> numeral n2 -> n2 <> [] ->
    l = ws0 ++ ls ++ ws1 ++ n1 ++ ws2 ++ n2 ->
    sc = mkScan PSTATE_SECONDARG (Z.of_nat (length ls)) false
                (mkParser true (opcode_name ls) (number n1) (number n2) 2) ->
    scanned l sc
| sc_tail (ws0 ls ws1 n1 ws2 n2 ws3 : list Z) :
    whites ws0 -> letters ls -> (1 <= length ls <= 3)%nat ->
    whites ws1 -> ws1 <> [] -> numeral n1 -> n1 <> [] ->
    whites ws2 -> ws2 <> [] -> numeral n2 -> n2 <> [] ->
    whites ws3 -> ws3 <> [] ->
    l = ws0 ++ ls ++ ws1 ++ n1 ++ ws2 ++ n2 ++ ws3 ->
    sc = mkScan PSTATE_TAIL (Z.of_nat (length ls)) false
                (mkParser true (opcode_name ls) (number n1) (number n2) 2) ->
    scanned l sc.

(** Every character is a letter, a digit, a blank, or none of these. *)
Lemma char_kinds (c : Z) :
  is_letter (classify c) = true \/
  48 <= c <= 57 \/
  c <= 32 \/
  (c > 32 /\
   classify c = mkClass c false false false (c =? 63)).
Proof.
  unfold classify.
  destruct (Z.leb_spec 97 c), (Z.geb_spec 122 c); cbn [andb]; auto;
  destruct (Z.leb_spec 65 c), (Z.geb_spec 90 c); cbn [andb]; auto;
  destruct (Z.leb_spec 48 c), (Z.geb_spec 57 c); cbn [andb];
    try (right; left; lia);
  destruct (Z.geb_spec 32 c); try (right; right; left; lia);
  right; right; right; (split; [lia |]);
  rewrite (Z.eqb_sym c 63); now destruct (63 =? c).
Qed.

Lemma scan_other_char (c : Z) (sc : scan) :
  classify c = mkClass c false false false (c =? 63) ->
  state (scan_char c sc) = PSTATE_ERROR.
Proof.
  intros Hk. unfold scan_char. rewrite Hk. cbn.
  destruct (state sc); reflexivity.
Qed.

Lemma scan_letter_late (c : Z) (sc : scan) :
  is_letter (classify c) = true ->
  state sc <> PSTATE_PREAMBLE ->
  state sc <> PSTATE_OPCODE \/ NEURAPP_CMD_CHARS <= opidx sc ->
  state (scan_char c sc) = PSTATE_ERROR.
Proof.
  intros Hl Hpre Hop. unfold scan_char.
  destruct (classify_letter c Hl) as [-> _]. cbn.
  destruct (state sc) eqn:Est; try reflexivity; try congruence.
  destruct Hop as [? | Hge]; [congruence |].
  destruct (Z.ltb_spec (opidx sc) NEURAPP_CMD_CHARS); [lia | reflexivity].
Qed.

Lemma scan_digit_early (c : Z) (sc : scan) :
  48 <= c <= 57 ->
  state sc = PSTATE_PREAMBLE \/ state sc = PSTATE_OPCODE \/
  state sc = PSTATE_TAIL ->
  state (scan_char c sc) = PSTATE_ERROR.
Proof.
  intros Hc Hst. unfold scan_char.
  replace c with (digit_char (c - 48)) by (unfold digit_char; lia).
  destruct (classify_digit (c - 48) ltac:(lia)) as (-> & _).
  cbn. destruct Hst as [-> | [-> | ->]]; reflexivity.
Qed.

Lemma number_snoc (cs : list Z) (c : Z) :
  48 <= c <= 57 ->
  number (cs ++ [c]) = u16 (number cs * 10 + (c - 48)).
Proof.
  intros Hc. unfold number, decimal, u16.
  rewrite map_app, List.fold_left_app. cbn [map fold_left].
  rewrite <- (Zplus_mod_idemp_l (_ mod 65536 * 10)).
  rewrite Zmult_mod_idemp_l. now rewrite Zplus_mod_idemp_l.
Qed.

Lemma number_single (c : Z) : 48 <= c <= 57 -> number [c] = c - 48.
Proof.
  intros Hc. unfold number, decimal. cbn. apply Z.mod_small. lia.
Qed.

Lemma opcode_name_snoc (ls : list Z) (c : Z) :
  (length ls < 3)%nat ->
  <[Z.to_nat (Z.of_nat (length ls)) := to_upper c]> (opcode_name ls)
  = opcode_name (ls ++ [c]).
Proof.
  intros Hlen. rewrite Nat2Z.id.
  destruct ls as [| a [| b [| d ls]]]; cbn in *; try lia; reflexivity.
Qed.

Lemma whites_snoc (ws : list Z) (c : Z) :
  whites ws -> c <= 32 -> c <> 0 -> whites (ws ++ [c]).
Proof.
  intros Hws Hc Hnz. apply Forall_app_2; [exact Hws |].
  constructor; [split; assumption | constructor].
Qed.

Lemma numeral_snoc (cs : list Z) (c : Z) :
  numeral cs -> 48 <= c <= 57 -> numeral (cs ++ [c]).
Proof.
  intros Hcs Hc. apply Forall_app_2; [exact Hcs |].
  constructor; [exact Hc | constructor].
Qed.

Lemma letters_snoc (ls : list Z) (c : Z) :
  letters ls -> is_letter (classify c) = true -> letters (ls ++ [c]).
Proof.
  intros Hls Hc. apply Forall_app_2; [exact Hls |].
  constructor; [exact Hc | constructor].
Qed.

Ltac snoc_list := rewrite <- ?app_assoc; reflexivity.
Ltac not_nil := intros Hnil; apply app_eq_nil in Hnil as [_ Hnil];
                discriminate.

Lemma scan_numeral_first (c : Z) (sc : scan) :
  48 <= c <= 57 ->
  state sc = PSTATE_FIRSTGAP \/ state sc = PSTATE_FIRSTARG ->
  scan_char c sc
  = mkScan PSTATE_FIRSTARG (opidx sc) (saw_question sc)
           (mkParser (have_command (fields sc)) (this_cmdname (fields sc))
                     (u16 (this_arg1 (fields sc) * 10 + (c - 48)))
                     (this_arg2 (fields sc)) 1).
Proof.
  intros Hc Hst.
  rewrite <- (scan_digit_first (c - 48) sc ltac:(lia) Hst).
  f_equal. unfold digit_char. lia.
Qed.

Lemma scan_numeral_second (c : Z) (sc : scan) :
  48 <= c <= 57 ->
  state sc = PSTATE_SECONDGAP \/ state sc = PSTATE_SECONDARG ->
  scan_char c sc
  = mkScan PSTATE_SECONDARG (opidx sc) (saw_question sc)
           (mkParser (have_command (fields sc)) (this_cmdname (fields sc))
                     (this_arg1 (fields sc))
                     (u16 (this_arg2 (fields sc) * 10 + (c - 48))) 2).
Proof.
  intros Hc Hst.
  rewrite <- (scan_digit_second (c - 48) sc ltac:(lia) Hst).
  f_equal. unfold digit_char. lia.
Qed.

Ltac grammar_side :=
  auto;
  try solve [ repeat constructor; auto
            | apply Forall_cons_2; [solve [auto] | apply Forall_nil_2]
            | discriminate
            | not_nil
            | snoc_list
            | apply whites_snoc; auto
            | apply numeral_snoc; auto
            | apply letters_snoc; auto
            | cbn; lia
            | rewrite length_app; cbn; lia
            | rewrite length_app; cbn [length]; do 2 f_equal; lia
            | rewrite number_single by lia; cbn; unfold u16;
              rewrite Z.mod_small by lia; reflexivity
            | rewrite number_snoc by lia; reflexivity ].

(** One more character keeps the scan within the grammar, unless it
    takes the scan to the Error state. *)
Lemma scanned_step (l : list Z) (sc : scan) (c : Z) :
  scanned l sc -> c <> 0 ->
  state (scan_char c sc) <> PSTATE_ERROR ->
  scanned (l ++ [c]) (scan_char c sc).
Proof.
  intros Hsc Hnz Hok.
  destruct (char_kinds c) as [Hl | [Hd | [Hw | [_ Ho]]]].
  4: { exfalso. apply Hok. now apply scan_other_char. }
  - (* a letter *)
    destruct Hsc as [Hws -> | ws0 ls Hw0 Hls Hlen -> ->
                     | ws0 ls ws1 ? ? ? ? ? ? ->
                     | ws0 ls ws1 n1 ? ? ? ? ? ? ? ? ->
                     | ws0 ls ws1 n1 ws2 ? ? ? ? ? ? ? ? ? ? ->
                     | ws0 ls ws1 n1 ws2 n2 ? ? ? ? ? ? ? ? ? ? ? ? ->
                     | ws0 ls ws1 n1 ws2 n2 ws3 ? ? ? ? ? ? ? ? ? ? ? ? ? ? ->];
      try (exfalso; apply Hok; apply scan_letter_late;
           [exact Hl | discriminate | left; discriminate]).
    + rewrite scan_letter;
        [| exact Hl | left; reflexivity
         | cbn; unfold NEURAPP_CMD_CHARS; lia].
      apply (sc_op _ _ l [c]); grammar_side.
    + destruct (Nat.eq_dec (length ls) 3%nat) as [E3 | N3].
      { exfalso. apply Hok. apply scan_letter_late;
          [exact Hl | discriminate | right; cbn; unfold NEURAPP_CMD_CHARS; lia]. }
      rewrite scan_letter;
        [| exact Hl | right; reflexivity
         | cbn; unfold NEURAPP_CMD_CHARS; lia].
      cbn [opidx saw_question fields this_cmdname this_arg1 this_arg2
           argsfound].
      rewrite opcode_name_snoc by lia.
      apply (sc_op _ _ ws0 (ls ++ [c])); grammar_side.
  - (* a digit *)
    destruct Hsc as [Hws -> | ws0 ls Hw0 Hls Hlen -> ->
                     | ws0 ls ws1 ? ? ? ? ? -> ->
                     | ws0 ls ws1 n1 ? ? ? ? ? ? ? -> ->
                     | ws0 ls ws1 n1 ws2 ? ? ? ? ? ? ? ? ? -> ->
                     | ws0 ls ws1 n1 ws2 n2 ? ? ? ? ? ? ? ? ? ? ? -> ->
                     | ws0 ls ws1 n1 ws2 n2 ws3 ? ? ? ? ? ? ? ? ? ? ? ? ? ? ->];
      try (exfalso; apply Hok; apply scan_digit_early;
           [exact Hd | cbn; solve [auto]]).
    + rewrite scan_numeral_first; [| lia | left; reflexivity].
      cbn [opidx saw_question fields have_command this_cmdname this_arg1
           this_arg2 argsfound].
      apply (sc_arg1 _ _ ws0 ls ws1 [c]); grammar_side.
    + rewrite scan_numeral_first; [| lia | right; reflexivity].
      cbn [opidx saw_question fields have_command this_cmdname this_arg1
           this_arg2 argsfound].
      apply (sc_arg1 _ _ ws0 ls ws1 (n1 ++ [c])); grammar_side.
    + rewrite scan_numeral_second; [| lia | left; reflexivity].
      cbn [opidx saw_question fields have_command this_cmdname this_arg1
           this_arg2 argsfound].
      apply (sc_arg2 _ _ ws0 ls ws1 n1 ws2 [c]); grammar_side.
    + rewrite scan_numeral_second; [| lia | right; reflexivity].
      cbn [opidx saw_question fields have_command this_cmdname this_arg1
           this_arg2 argsfound].
      apply (sc_arg2 _ _ ws0 ls ws1 n1 ws2 (n2 ++ [c])); grammar_side.
  - (* a blank *)
    rewrite (scan_white_char c sc Hw).
    destruct Hsc as [Hws -> | ws0 ls Hw0 Hls Hlen -> ->
                     | ws0 ls ws1 ? ? ? ? ? -> ->
                     | ws0 ls ws1 n1 ? ? ? ? ? ? ? -> ->
                     | ws0 ls ws1 n1 ws2 ? ? ? ? ? ? ? ? ? -> ->
                     | ws0 ls ws1 n1 ws2 n2 ? ? ? ? ? ? ? ? ? ? ? -> ->
                     | ws0 ls ws1 n1 ws2 n2 ws3 ? ? ? ? ? ? ? ? ? ? ? ? ? -> ->];
      cbn [state opidx saw_question fields after_white].
    + apply sc_pre; grammar_side.
    + apply (sc_gap1 _ _ ws0 ls [c]); grammar_side.
    + apply (sc_gap1 _ _ ws0 ls (ws1 ++ [c])); grammar_side.
    + apply (sc_gap2 _ _ ws0 ls ws1 n1 [c]); grammar_side.
    + apply (sc_gap2 _ _ ws0 ls ws1 n1 (ws2 ++ [c])); grammar_side.
    + apply (sc_tail _ _ ws0 ls ws1 n1 ws2 n2 [c]); grammar_side.
    + apply (sc_tail _ _ ws0 ls ws1 n1 ws2 n2 (ws3 ++ [c])); grammar_side.
Qed.

Lemma scan_until_nul (rawline : list Z) (sc : scan) :
  scan_line (until_nul rawline) sc = scan_line rawline sc.
Proof.
  revert sc. induction rawline as [| c rest IH]; intros sc;
    cbn [until_nul scan_line].
  - reflexivity.
  - destruct (Z.eqb_spec c 0) as [-> | Hc]; [reflexivity |].
    rewrite scan_line_cons by exact Hc. apply IH.
Qed.

Lemma until_nul_nonzero (l : list Z) : Forall (fun c => c <> 0) (until_nul l).
Proof.
  induction l as [| c l IH]; cbn [until_nul]; [constructor |].
  destruct (Z.eqb_spec c 0); [constructor | now constructor].
Qed.

Lemma until_nul_idem (l : list Z) :
  Forall (fun c => c <> 0) l -> until_nul l = l.
Proof.
  induction 1 as [| c l Hc _ IH]; cbn [until_nul]; [reflexivity |].
  destruct (Z.eqb_spec c 0); [contradiction | now rewrite IH].
Qed.

Lemma scan_line_snoc (l : list Z) (c : Z) (sc : scan) :
  Forall (fun c => c <> 0) l -> c <> 0 ->
  scan_line (l ++ [c]) sc = scan_char c (scan_line l sc).
Proof.
  intros Hl Hc. rewrite scan_line_app by exact Hl.
  now rewrite scan_line_cons.
Qed.

(** The scan of a line that does not end in the Error state is within
    the grammar. *)
Lemma scanned_line (l : list Z) (p : parser) :
  Forall (fun c => c <> 0) l ->
  state (scan_line l (scan_start p)) <> PSTATE_ERROR ->
  scanned l (scan_line l (scan_start p)).
Proof.
  induction l as [| c l IH] using rev_ind; intros Hnz Hok.
  - apply sc_pre; [constructor | reflexivity].
  - apply Forall_app in Hnz as [Hl Hc].
    apply Forall_cons in Hc as [Hc _].
    rewrite scan_line_snoc in Hok |- * by assumption.
    apply scanned_step; [| exact Hc | exact Hok].
    apply IH; [exact Hl |].
    intros Herr. apply Hok. unfold scan_char. rewrite Herr. reflexivity.
Qed.

Lemma parses_of_scanned (l : list Z) (sc : scan) :
  scanned l sc ->
  parses l (fields sc) /\ saw_question sc = false /\
  is_error (state sc) = false.
Proof.
  intros [Hws -> | ws0 ls ? ? ? -> ->
          | ws0 ls ws1 ? ? ? ? ? -> ->
          | ws0 ls ws1 n1 ? ? ? ? ? ? ? -> ->
          | ws0 ls ws1 n1 ws2 ? ? ? ? ? ? ? ? ? -> ->
          | ws0 ls ws1 n1 ws2 n2 ? ? ? ? ? ? ? ? ? ? ? -> ->
          | ws0 ls ws1 n1 ws2 n2 ws3 ? ? ? ? ? ? ? ? ? ? ? ? ? -> ->];
    cbn [fields saw_question state is_error];
    (split; [| split; reflexivity]).
  - now apply parses_blank.
  - replace (ws0 ++ ls) with (ws0 ++ ls ++ [])
      by now rewrite app_nil_r.
    apply parses_cmd; auto. constructor.
  - now apply parses_cmd.
  - replace (ws0 ++ ls ++ ws1 ++ n1) with (ws0 ++ ls ++ ws1 ++ n1 ++ [])
      by now rewrite app_nil_r.
    apply parses_arg1; auto. constructor.
  - now apply parses_arg1.
  - replace (ws0 ++ ls ++ ws1 ++ n1 ++ ws2 ++ n2)
      with (ws0 ++ ls ++ ws1 ++ n1 ++ ws2 ++ n2 ++ [])
      by now rewrite app_nil_r.
    apply parses_arg2; auto. constructor.
  - now apply parses_arg2.
Qed.

Lemma numeral_digits (cs : list Z) :
  numeral cs ->
  digits (map (fun c => c - 48) cs) /\
  map digit_char (map (fun c => c - 48) cs) = cs.
Proof.
  induction 1 as [| c cs Hc _ [IHd IHm]]; cbn [map].
  - split; [constructor | reflexivity].
  - split; [constructor; [lia | exact IHd] |].
    rewrite IHm. f_equal. unfold digit_char. lia.
Qed.

Lemma map_nonempty {A B : Type} (f : A -> B) (l : list A) :
  l <> [] -> map f l <> [].
Proof. destruct l; [congruence | discriminate]. Qed.

(** Every line of the grammar is accepted, with the fields the grammar
    gives. *)
Lemma parse_grammar (l : list Z) (p p' : parser) :
  parses l p' -> ParseInputLine l p = (true, p').
Proof.
  intros [ws Hws
          | ws0 ls ws1 Hw0 Hls Hlen Hw1
          | ws0 ls ws1 n1 ws2 Hw0 Hls Hlen Hw1 Hn1 Hd1 Hnd1 Hw2
          | ws0 ls ws1 n1 ws2 n2 ws3 Hw0 Hls Hlen Hw1 Hn1 Hd1 Hnd1
              Hw2 Hn2 Hd2 Hnd2 Hw3].
  - apply (parse_of_scan ws p
             (mkScan PSTATE_PREAMBLE 0 false parser_reset));
      [| reflexivity | reflexivity].
    rewrite (scan_whites ws _ Hws). now destruct ws.
  - apply (parse_of_scan _ p
             (mkScan (match ws1 with
                      | [] => PSTATE_OPCODE
                      | _ => PSTATE_FIRSTGAP
                      end)
                     (Z.of_nat (length ls)) false
                     (mkParser true (opcode_name ls) 0 0 0)));
      [| reflexivity | now destruct ws1].
    rewrite scan_line_app by now apply whites_nonzero.
    assert (E0 : scan_line ws0 (scan_start p) = scan_start p).
    { rewrite (scan_whites ws0 _ Hw0). now destruct ws0. }
    rewrite E0, scan_line_app by now apply letters_nonzero.
    rewrite (scan_opcode ls p Hls Hlen), (scan_whites ws1 _ Hw1).
    now destruct ws1.
  - destruct (numeral_digits n1 Hd1) as [Hds1 Em1].
    apply (parse_of_scan _ p
             (mkScan (match ws2 with
                      | [] => PSTATE_FIRSTARG
                      | _ => PSTATE_SECONDGAP
                      end)
                     (Z.of_nat (length ls)) false
                     (mkParser true (opcode_name ls) (number n1) 0 1)));
      [| reflexivity | now destruct ws2].
    replace (ws0 ++ ls ++ ws1 ++ n1 ++ ws2)
      with ((ws0 ++ ls ++ ws1 ++ n1) ++ ws2) by snoc_list.
    rewrite scan_line_app.
    2: { rewrite <- Em1. repeat apply Forall_app_2;
           auto using whites_nonzero, letters_nonzero, digits_nonzero. }
    rewrite <- Em1 at 1.
    rewrite (scan_to_first_arg ws0 ls ws1 _ p Hw0 Hls Hlen Hw1 Hn1 Hds1)
      by now apply map_nonempty.
    rewrite (scan_whites ws2 _ Hw2). now destruct ws2.
  - destruct (numeral_digits n1 Hd1) as [Hds1 Em1].
    destruct (numeral_digits n2 Hd2) as [Hds2 Em2].
    apply (parse_of_scan _ p
             (mkScan (match ws3 with
                      | [] => PSTATE_SECONDARG
                      | _ => PSTATE_TAIL
                      end)
                     (Z.of_nat (length ls)) false
                     (mkParser true (opcode_name ls) (number n1)
                               (number n2) 2)));
      [| reflexivity | now destruct ws3].
    replace (ws0 ++ ls ++ ws1 ++ n1 ++ ws2 ++ n2 ++ ws3)
      with ((ws0 ++ ls ++ ws1 ++ n1) ++ ws2 ++ n2 ++ ws3) by snoc_list.
    rewrite scan_line_app.
    2: { rewrite <- Em1. repeat apply Forall_app_2;
           auto using whites_nonzero, letters_nonzero, digits_nonzero. }
    rewrite <- Em1 at 1.
    rewrite (scan_to_first_arg ws0 ls ws1 _ p Hw0 Hls Hlen Hw1 Hn1 Hds1)
      by now apply map_nonempty.
    rewrite scan_line_app by now apply whites_nonzero.
    rewrite (scan_whites ws2 _ Hw2).
    destruct ws2 as [| w2 ws2]; [congruence |].
    rewrite scan_line_app
      by (rewrite <- Em2; now apply digits_nonzero).
    rewrite <- Em2 at 1.
    destruct (map (fun c => c - 48) n2) as [| d2 ds2] eqn:Eds2.
    { destruct n2; [congruence | discriminate]. }
    rewrite (scan_digits_second ds2 d2 _ Hds2) by (left; reflexivity).
    rewrite (scan_whites ws3 _ Hw3). proj_simpl.
    rewrite accumulate_zero. unfold number. rewrite Eds2.
    now destruct ws3.
Qed.

Lemma parse_rejected (rawline : list Z) (p p' : parser) :
  ParseInputLine rawline p = (false, p') -> p' = parser_reset.
Proof.
  unfold ParseInputLine.
  destruct (saw_question (scan_line rawline (scan_start p)));
    [discriminate |].
  destruct (is_error (state (scan_line rawline (scan_start p))));
    cbn [negb]; [now intros [= <-] | discriminate].
Qed.

Lemma parse_question (rawline : list Z) (p : parser) :
  In 63 (until_nul rawline) ->
  ParseInputLine rawline p = (true, mkParser true cmd_help 0 0 0).
Proof.
  intros Hin. unfold ParseInputLine. rewrite saw_question_scan.
  assert (E : existsb (Z.eqb 63) (until_nul rawline) = true).
  { apply existsb_exists. exists 63. split; [exact Hin | reflexivity]. }
  rewrite E. reflexivity.
Qed.

(** An accepted line without question mark is within the grammar. *)
Lemma parse_accepted (rawline : list Z) (p p' : parser) :
  ~ In 63 (until_nul rawline) ->
  ParseInputLine rawline p = (true, p') ->
  parses (until_nul rawline) p'.
Proof.
  intros Hnq. unfold ParseInputLine.
  pose proof (saw_question_scan rawline (scan_start p)) as Hq.
  assert (E : existsb (Z.eqb 63) (until_nul rawline) = false).
  { apply not_true_is_false. intros Hex.
    apply existsb_exists in Hex as (x & Hx & Hxe).
    apply Z.eqb_eq in Hxe. subst x. contradiction. }
  rewrite E in Hq. cbn in Hq. rewrite Hq.
  destruct (is_error (state (scan_line rawline (scan_start p)))) eqn:Eerr;
    cbn [negb]; [discriminate |].
  intros [= <-].
  rewrite <- scan_until_nul in Eerr |- *.
  apply parses_of_scanned, scanned_line; [apply until_nul_nonzero |].
  intros Herr. rewrite Herr in Eerr. discriminate.
Qed.


(** *** What a handler can rely on *)

Definition upper_or_nul (c : Z) : Prop := c = 0 \/ 65 <= c <= 90.

Lemma upper_letter (c : Z) :
  is_letter (classify c) = true -> 65 <= to_upper c <= 90.
Proof.
  unfold classify, to_upper.
  destruct (Z.leb_spec 97 c), (Z.geb_spec 122 c); cbn [andb is_letter];
    try lia;
  destruct (Z.leb_spec 65 c), (Z.geb_spec 90 c); cbn [andb is_letter];
    try lia;
  destruct ((48 <=? c) && (57 >=? c)); cbn [is_letter]; try discriminate;
  destruct (32 >=? c); cbn [is_letter]; try discriminate;
  destruct (63 =? c); discriminate.
Qed.

Lemma opcode_name_normal (ls : list Z) :
  letters ls -> (1 <= length ls <= 3)%nat ->
  length (opcode_name ls) = 3%nat /\
  Forall upper_or_nul (opcode_name ls) /\
  exists c, head (opcode_name ls) = Some c /\ 65 <= c <= 90.
Proof.
  intros Hls Hlen. unfold opcode_name. split; [| split].
  - rewrite length_app, length_map, length_replicate. lia.
  - apply Forall_app_2.
    + apply List.Forall_map. eapply List.Forall_impl; [| exact Hls].
      intros c Hc. right. now apply upper_letter.
    + apply Forall_replicate. now left.
  - destruct ls as [| a ls]; [simpl in Hlen; lia |].
    apply Forall_cons in Hls as [Ha _].
    exists (to_upper a). split; [reflexivity | now apply upper_letter].
Qed.

Lemma number_range (cs : list Z) : 0 <= number cs < 65536.
Proof. unfold number. apply Z.mod_pos_bound. lia. Qed.

(** X10.  Whatever line is parsed (question marks, junk and over-long
    input included) and whatever the verdict, the fields the parser holds
    afterwards are normalised: the name has [NEURAPP_CMD_CHARS] bytes,
    each an upper-case letter or NUL; both arguments are within sixteen
    bits; the argument count is 0, 1 or 2 and every argument beyond it is
    zero.  When a command is reported its name starts with a letter; when
    none is reported, and in particular after every rejected line, all
    fields are in the reset state, so nothing of a bad line is left
    behind. *)
Theorem parsed_fields_are_normalised (rawline : list Z) (p : parser) :
  let ok := fst (ParseInputLine rawline p) in
  let p' := snd (ParseInputLine rawline p) in
  length (this_cmdname p') = Z.to_nat NEURAPP_CMD_CHARS /\
  Forall upper_or_nul (this_cmdname p') /\
  0 <= this_arg1 p' < 65536 /\ 0 <= this_arg2 p' < 65536 /\
  (argsfound p' = 0 /\ this_arg1 p' = 0 /\ this_arg2 p' = 0 \/
   argsfound p' = 1 /\ this_arg2 p' = 0 \/
   argsfound p' = 2) /\
  (have_command p' = true ->
   exists c, head (this_cmdname p') = Some c /\ 65 <= c <= 90) /\
  (have_command p' = false -> p' = parser_reset) /\
  (ok = false -> p' = parser_reset).
Proof.
  intros ok p'.
  assert (Hreset : forall q : parser, q = parser_reset ->
    length (this_cmdname q) = Z.to_nat NEURAPP_CMD_CHARS /\
    Forall upper_or_nul (this_cmdname q) /\
    0 <= this_arg1 q < 65536 /\ 0 <= this_arg2 q < 65536 /\
    (argsfound q = 0 /\ this_arg1 q = 0 /\ this_arg2 q = 0 \/
     argsfound q = 1 /\ this_arg2 q = 0 \/
     argsfound q = 2) /\
    (have_command q = true ->
     exists c, head (this_cmdname q) = Some c /\ 65 <= c <= 90) /\
    (have_command q = false -> q = parser_reset)).
  { intros q ->. cbn.
    repeat apply conj; auto; try lia; try discriminate.
    repeat constructor. }
  destruct (in_dec Z.eq_dec 63 (until_nul rawline)) as [Hq | Hnq].
  { subst ok p'. rewrite (parse_question rawline p Hq).
    change cmd_help with [72; 76; 80]. cbn.
    repeat apply conj; auto; try lia; try discriminate.
    - repeat (apply Forall_cons_2; [right; lia |]). apply Forall_nil_2.
    - intros _. exists 72. split; [reflexivity | lia]. }
  destruct (ParseInputLine rawline p) as [b q] eqn:Ep.
  subst ok p'. cbn [fst snd]. destruct b.
  2: { pose proof (parse_rejected rawline p q Ep) as Eq.
       destruct (Hreset q Eq) as (H1 & H2 & H3 & H4 & H5 & H6 & H7).
       repeat apply conj; auto; lia. }
  pose proof (parse_accepted rawline p q Hnq Ep) as Hp.
  destruct Hp as [ws Hws
          | ws0 ls ws1 Hw0 Hls Hlen Hw1
          | ws0 ls ws1 n1 ws2 Hw0 Hls Hlen Hw1 Hn1 Hd1 Hnd1 Hw2
          | ws0 ls ws1 n1 ws2 n2 ws3 Hw0 Hls Hlen Hw1 Hn1 Hd1 Hnd1
              Hw2 Hn2 Hd2 Hnd2 Hw3].
  - destruct (Hreset parser_reset eq_refl)
      as (H1 & H2 & H3 & H4 & H5 & H6 & H7).
    repeat apply conj; auto; lia.
  - destruct (opcode_name_normal ls Hls Hlen) as (H1 & H2 & H3).
    cbn. repeat apply conj; auto; try lia; discriminate.
  - destruct (opcode_name_normal ls Hls Hlen) as (H1 & H2 & H3).
    pose proof (number_range n1).
    cbn. repeat apply conj; auto; try lia; discriminate.
  - destruct (opcode_name_normal ls Hls Hlen) as (H1 & H2 & H3).
    pose proof (number_range n1). pose proof (number_range n2).
    cbn. repeat apply conj; auto; try lia; discriminate.
Qed.

Lemma letter_of_upper (c : Z) :
  65 <= to_upper c <= 90 -> is_letter (classify c) = true.
Proof.
  unfold classify, to_upper.
  destruct (Z.leb_spec 97 c), (Z.geb_spec 122 c); cbn [andb is_letter];
    try reflexivity; intros Hc;
  destruct (Z.leb_spec 65 c), (Z.geb_spec 90 c); cbn [andb is_letter];
    try reflexivity; lia.
Qed.

(** A run of letters that spells a given three-letter name, in any mix
    of cases. *)
Lemma named_opcode (ls name : list Z) :
  map to_upper ls = name -> length name = 3%nat ->
  Forall (fun c => 65 <= c <= 90) name ->
  letters ls /\ (1 <= length ls <= 3)%nat /\ opcode_name ls = name.
Proof.
  intros <- Hlen Hall. rewrite length_map in Hlen.
  split; [| split; [lia |]].
  - apply List.Forall_map in Hall.
    eapply List.Forall_impl; [| exact Hall].
    intros c Hc. now apply letter_of_upper.
  - unfold opcode_name. rewrite Hlen. cbn. now rewrite app_nil_r.
Qed.

End Parser.

Lemma decimal_arguments_wrap_example :
  Parser.ParseInputLine (chars "ECH 65537") Parser.parser_new
  = (true, Parser.mkParser true (chars "ECH") 1 0 1) /\
  Parser.ParseInputLine (chars "ECH 65537 70000") Parser.parser_new
  = (true, Parser.mkParser true (chars "ECH") 1 4464 2).
Proof.
  apply (Parser.decimal_arguments_wrap
           [] (chars "ECH") (chars " ") [6; 5; 5; 3; 7]
           (chars " ") [7; 0; 0; 0; 0] [] Parser.parser_new).
  - constructor.
  - repeat constructor.
  - simpl. lia.
  - repeat constructor; simpl; lia.
  - discriminate.
  - repeat constructor; lia.
  - discriminate.
  - repeat constructor; simpl; lia.
  - discriminate.
  - repeat constructor; lia.
  - discriminate.
  - constructor.
Defined.

Lemma parser_state_machine_examples :
  Parser.ParseInputLine (chars "GO? 12") Parser.parser_new
  = (true, Parser.mkParser true Parser.cmd_help 0 0 0) /\
  Parser.ParseInputLine (chars "ECH 1 2 x") Parser.parser_new
  = (false, Parser.parser_reset).
Proof.
  split.
  - apply (proj1 (proj2 (proj2 (proj2 Parser.parser_state_machine)))).
    vm_compute. auto.
  - apply (proj1 (proj2 (proj2 (proj2 (proj2 (proj2 (proj2
             (proj2 Parser.parser_state_machine)))))))).
    + reflexivity.
    + vm_compute. intuition discriminate.
Defined.

(** ** Application skeleton (neurapp-oo.cpp, [NeurApp_Base])

    Event handlers are objects with virtual methods; what a method does
    to the handlers' own state is not known to the framework.  The model
    keeps an abstract [world] for that state, takes the methods' effects
    as parameters, and records every call that leaves the framework
    (handler hooks, user hooks, UART calls) in a log, in call order. *)

Module App.

Definition NEURAPP_REPORT_BUFFER_CHARS : Z := 90.
Definition NEURAPP_REPORT_QUEUE_LENGTH : Z := 4.
Definition NEURAPP_DEBUG_AVAILABLE : bool := true.
Definition NEURAPP_DEBUG_EV_HANDLER_SLOTS : Z := 16.
Definition NEURAPP_DEFAULT_ECHO : bool := true.

(** [neurapp_cmd_list_row_t]; a list is terminated by a negative
    [argcount]. *)
Record cmd_row := mkCmd {
  name : list Z;
  opcode : Z;
  argcount : Z
}.

(** [neurapp_event_handler_row_t]; handlers are identified by their
    address, [None] is NULL.  The table is terminated by a NULL handler. *)
Record event_row := mkRow {
  handler : option nat;
  cmdlist : option (list cmd_row)
}.

(** Calls that leave the framework. *)
Inductive call :=
| InitHardware (h : nat)
| InitState (h : nat)
| HandleCommand (h : nat) (opcode arg1 arg2 : Z)
| SaveReportState_Fast (h : nat)
| MakeReportString (h : nat) (slot : Z)
| HandlePolling (h : nat)
| GetHelpScreen (h : nat)
| UserInitHardware
| UserInitState
| UserUpdatePoll
| UART_QueueSend (message : list Z)
| UART_QueueSend_P (message : list Z)
| UART_PrintChar (value : Z)
| UART_PrintHex8 (value : Z)
| UART_WaitForSendDone
| UART_DoneWithLine
| DebugMemReport
| DebugTickReport.

(** The outgoing report queue of [NeurApp_Base]. *)
Record report_queue := mkQueue {
  report_read_ptr : Z;
  report_write_ptr : Z;
  report_count : Z;
  transmit_running : bool;
  reportqueue : list (list Z)   (* [NEURAPP_REPORT_QUEUE_LENGTH] buffers *)
}.

(** The profiling counters of [NeurApp_Base]. *)
Record debug_stats := mkStats {
  ev_handler_short_skipped_ticks : list Z;
  skipped_ticks_short_total : Z;
  ev_handler_long_skipped_ticks : list Z;
  skipped_ticks_long_total : Z
}.

(** The data members of [NeurApp_Base]. *)
Record app_state := mkApp {
  identity_message : list Z;
  help_message_long : list Z;
  event_lut : option (list event_row);
  parser : Parser.parser;
  echo_state : bool;
  queue : report_queue;
  stats : debug_stats;
  in_isr : bool;
  long_tasks_running : bool
}.

Definition set_parser (p : Parser.parser) (a : app_state) : app_state :=
  mkApp (identity_message a) (help_message_long a) (event_lut a) p
        (echo_state a) (queue a) (stats a) (in_isr a) (long_tasks_running a).
Definition set_echo (e : bool) (a : app_state) : app_state :=
  mkApp (identity_message a) (help_message_long a) (event_lut a) (parser a)
        e (queue a) (stats a) (in_isr a) (long_tasks_running a).
Definition set_queue (q : report_queue) (a : app_state) : app_state :=
  mkApp (identity_message a) (help_message_long a) (event_lut a) (parser a)
        (echo_state a) q (stats a) (in_isr a) (long_tasks_running a).
Definition set_stats (d : debug_stats) (a : app_state) : app_state :=
  mkApp (identity_message a) (help_message_long a) (event_lut a) (parser a)
        (echo_state a) (queue a) d (in_isr a) (long_tasks_running a).

Definition crlf : list Z := [13; 10].
Definition text_line (s : string) : list Z := chars s ++ crlf.

(** The help screen for built-in commands. *)
Definition neurapp_builtin_help : list Z :=
  text_line "Built-in commands:" ++ crlf ++
  text_line " ?, HLP  :  Help screen." ++
  text_line "  ECH 1/0:  Start/stop echoing typed characters back to the host." ++
  text_line "  IDQ    :  Device identification string query." ++
  text_line "  INI    :  Reinitialize (reset clock and idle events)." ++
  (if NEURAPP_DEBUG_AVAILABLE then
     crlf ++ text_line "Built-in debugging commands:" ++ crlf ++
     text_line "  ZZM    :  Report the amount of free memory." ++
     text_line "  ZZE    :  Report accumulated timeslice overruns for event handlers."
   else []).

Section Framework.

Variable world : Type.
(** What a call does to the handlers' and the user's own state. *)
Variable effect : call -> world -> world.
(** [handler->MakeReportString(buffer)]: whether a report was produced,
    and the buffer as the generator left it. *)
Variable generate : nat -> list Z -> world -> bool * list Z.
(** The text [handler->GetHelpScreen()] points to. *)
Variable help_screen : nat -> list Z.

Record sys := mkSys {
  app : app_state;
  wld : world;
  log : list call
}.

Definition invoke (c : call) (s : sys) : sys :=
  mkSys (app s) (effect c (wld s)) (log s ++ [c]).

Definition with_app (f : app_state -> app_state) (s : sys) : sys :=
  mkSys (f (app s)) (wld s) (log s).

(** The rows an index loop [for (hidx = 0; NULL != event_lut[hidx].handler;
    hidx++)] visits, with their handlers. *)
Fixpoint live_rows (lut : list event_row)
  : list (nat * option (list cmd_row)) :=
  match lut with
  | [] => []
  | r :: rest =>
      match handler r with
      | None => []
      | Some h => (h, cmdlist r) :: live_rows rest
      end
  end.

(** The loop body guarded by
    [(1 > hidx) || (event_lut[hidx].handler != event_lut[hidx-1].handler)];
    [prev] is the handler of the row before. *)
Fixpoint for_distinct (prev : option nat)
         (rows : list (nat * option (list cmd_row)))
         (body : nat -> sys -> sys) (s : sys) : sys :=
  match rows with
  | [] => s
  | (h, _) :: rest =>
      let s' := match prev with
                | Some h' => if Nat.eqb h h' then s else body h s
                | None => body h s
                end in
      for_distinct (Some h) rest body s'
  end.

(** The unguarded loop. *)
Definition for_each_row (rows : list (nat * option (list cmd_row)))
           (body : nat -> sys -> sys) (s : sys) : sys :=
  fold_left (fun st r => body (fst r) st) rows s.

Definition CommandMatch (first second : list Z) : bool :=
  fold_left
    (fun result cidx =>
       if negb (default 0 (first !! cidx) =? default 0 (second !! cidx))
       then false else result)
    (seq 0 (Z.to_nat Parser.NEURAPP_CMD_CHARS)) true.

Definition short_help_prefix : list Z :=
  chars "Unrecognized command:  " ++ [34].
Definition short_help_suffix : list Z :=
  [34] ++ chars ". Type " ++ [34] ++ chars "?" ++ [34] ++ chars " or "
  ++ [34] ++ chars "HLP" ++ [34] ++ chars " for help." ++ crlf.

Fixpoint print_raw (rawline : list Z) (s : sys) : sys :=
  match rawline with
  | [] => s
  | thischar :: rest =>
      if thischar =? 0 then s
      else if (32 <=? thischar) && (126 >=? thischar) then
        print_raw rest (invoke (UART_PrintChar thischar) s)
      else
        print_raw rest
          (invoke (UART_PrintChar 62)
             (invoke (UART_PrintHex8 thischar)
                (invoke (UART_PrintChar 60) s)))
  end.

Definition PrintShortHelp (rawline : list Z) (s : sys) : sys :=
  invoke (UART_QueueSend_P short_help_suffix)
    (print_raw rawline (invoke (UART_QueueSend_P short_help_prefix) s)).

(** [reportqueue[hidx][0] = 0] for every slot. *)
Definition clear_queue (q : list (list Z)) : list (list Z) :=
  fold_left
    (fun acc hidx =>
       <[hidx := <[0%nat := 0]> (default [] (acc !! hidx))]> acc)
    (seq 0 (Z.to_nat NEURAPP_REPORT_QUEUE_LENGTH)) q.

Definition zero_stats : debug_stats :=
  mkStats (replicate (Z.to_nat NEURAPP_DEBUG_EV_HANDLER_SLOTS) 0) 0
          (replicate (Z.to_nat NEURAPP_DEBUG_EV_HANDLER_SLOTS) 0) 0.

Definition ReInitState (s : sys) : sys :=
  let s1 := with_app (fun a =>
      set_queue (mkQueue 0 0 0 false (clear_queue (reportqueue (queue a))))
                (set_parser (Parser.ResetState (parser a)) a)) s in
  let s2 := invoke UART_WaitForSendDone s1 in
  let s3 := with_app (fun a =>
      if NEURAPP_DEBUG_AVAILABLE then set_stats zero_stats a else a) s2 in
  let s4 := invoke UserInitState s3 in
  match event_lut (app s4) with
  | None => s4
  | Some lut =>
      (* Duplicate handler pointers may exist; multiple calls are okay. *)
      for_each_row (live_rows lut) (fun h => invoke (InitState h)) s4
  end.

Definition DoInitialSetup (identity help : list Z)
           (eventdefs : option (list event_row)) (s : sys) : sys :=
  let s1 := with_app (fun a =>
      mkApp identity help eventdefs (parser a) (echo_state a) (queue a)
            (stats a) false false) s in
  let s2 := invoke UserInitHardware s1 in
  let s3 := match eventdefs with
            | None => s2
            | Some lut =>
                for_distinct None (live_rows lut)
                             (fun h => invoke (InitHardware h)) s2
            end in
  ReInitState s3.

(** *** Command dispatch (the tail of the command branch of [DoPolling]) *)

(** The inner loop over one command list: [(found, bad_command, state)]. *)
Fixpoint scan_cmdlist (h : nat) (cmds : list cmd_row) (thiscommand : list Z)
         (arg1 arg2 nargs : Z) (s : sys) : bool * bool * sys :=
  match cmds with
  | [] => (false, false, s)
  | e :: rest =>
      if 0 <=? argcount e then
        if CommandMatch thiscommand (name e) then
          if nargs =? argcount e then
            (true, false, invoke (HandleCommand h (opcode e) arg1 arg2) s)
          else (true, true, s)
        else scan_cmdlist h rest thiscommand arg1 arg2 nargs s
      else (false, false, s)
  end.

(** The outer loop over the rows. *)
Fixpoint scan_rows (rows : list (nat * option (list cmd_row)))
         (thiscommand : list Z) (arg1 arg2 nargs : Z) (s : sys)
  : bool * bool * sys :=
  match rows with
  | [] => (false, false, s)
  | (h, cl) :: rest =>
      match cl with
      | None => scan_rows rest thiscommand arg1 arg2 nargs s
      | Some cmds =>
          let '(found, bad_command, s') :=
            scan_cmdlist h cmds thiscommand arg1 arg2 nargs s in
          if found then (found, bad_command, s')
          else scan_rows rest thiscommand arg1 arg2 nargs s'
      end
  end.

(** A command that is no built-in: returns [bad_command] and the state. *)
Definition dispatch (lut : list event_row) (thiscommand : list Z)
           (arg1 arg2 nargs : Z) (s : sys) : bool * sys :=
  let '(found, bad_command, s') :=
    scan_rows (live_rows lut) thiscommand arg1 arg2 nargs s in
  (if negb found then true else bad_command, s').

Definition help_command (lut : list event_row) (s : sys) : sys :=
  let s1 := invoke (UART_QueueSend_P crlf) s in
  let s2 := invoke (UART_QueueSend_P (help_message_long (app s1))) s1 in
  let s3 := invoke (UART_QueueSend_P crlf) s2 in
  let s4 := invoke (UART_QueueSend_P neurapp_builtin_help) s3 in
  let s5 := for_distinct None (live_rows lut)
              (fun h st =>
                 invoke (UART_QueueSend_P (help_screen h))
                   (invoke (GetHelpScreen h)
                      (invoke (UART_QueueSend_P crlf) st))) s4 in
  invoke (UART_QueueSend_P crlf) s5.

(** The branch of [DoPolling] taken when [WasNewCommand] reports a
    command. *)
Definition handle_command (lut : list event_row) (thisline : list Z)
           (thiscommand : list Z) (arg1 arg2 nargs : Z) (s : sys) : sys :=
  let '(bad_command, s') :=
    if CommandMatch thiscommand Parser.cmd_help then
      (false, help_command lut s)
    else if CommandMatch thiscommand Parser.cmd_ident then
      (false, invoke (UART_QueueSend_P (identity_message (app s))) s)
    else if CommandMatch thiscommand Parser.cmd_reset then
      (false, ReInitState s)
    else if CommandMatch thiscommand Parser.cmd_echo then
      if 1 =? nargs
      then (false, with_app (set_echo (negb (arg1 =? 0))) s)
      else (true, s)
    else if NEURAPP_DEBUG_AVAILABLE
            && CommandMatch thiscommand Parser.cmd_debug_mem then
      (false, invoke DebugMemReport s)
    else if NEURAPP_DEBUG_AVAILABLE
            && CommandMatch thiscommand Parser.cmd_debug_evticks then
      (false, invoke DebugTickReport s)
    else dispatch lut thiscommand arg1 arg2 nargs s in
  if bad_command then PrintShortHelp thisline s' else s'.

(** The command branch of [DoPolling]; [thisline] is what
    [UART_GetNextLine] returned. *)
Definition poll_command (lut : list event_row) (thisline : option (list Z))
           (s : sys) : sys :=
  match thisline with
  | None => s
  | Some line =>
      let s1 := if echo_state (app s)
                then invoke (UART_QueueSend_P crlf)
                       (invoke (UART_QueueSend line) s)
                else s in
      let '(ok, p1) := Parser.ParseInputLine line (parser (app s1)) in
      let s2 := with_app (set_parser p1) s1 in
      let s3 :=
        if ok then
          let '(cmd, p2) := Parser.WasNewCommand (parser (app s2)) in
          let s2' := with_app (set_parser p2) s2 in
          match cmd with
          | Some (thiscommand, arg1, arg2, nargs) =>
              handle_command lut line thiscommand arg1 arg2 nargs s2'
          | None => s2'
          end
        else PrintShortHelp line s2 in
      invoke UART_DoneWithLine s3
  end.

(** *** Report queue (the report part of [DoPolling]) *)

Definition slot_at (q : report_queue) (i : Z) : list Z :=
  default [] (reportqueue q !! Z.to_nat i).

Definition wrap_ptr (ptr : Z) : Z :=
  if ptr >=? NEURAPP_REPORT_QUEUE_LENGTH then 0 else ptr.

(** A transmission has finished: drop the oldest slot. *)
Definition retire (q : report_queue) : report_queue :=
  mkQueue (wrap_ptr (report_read_ptr q + 1)) (report_write_ptr q)
          (report_count q - 1) false (reportqueue q).

(** [send_in_progress] is what [UART_IsSendInProgress()] answers. *)
Definition report_send (send_in_progress : bool) (s : sys) : sys :=
  if 0 <? report_count (queue (app s)) then
    if negb send_in_progress then
      let s1 := if transmit_running (queue (app s))
                then with_app (fun a => set_queue (retire (queue a)) a) s
                else s in
      if 0 <? report_count (queue (app s1)) then
        let q := queue (app s1) in
        invoke (UART_QueueSend (slot_at q (report_read_ptr q)))
          (with_app (set_queue
             (mkQueue (report_read_ptr q) (report_write_ptr q)
                      (report_count q) true (reportqueue q))) s1)
      else s1
    else s
  else s.

(** The generator has written [buf] into the slot at the write pointer. *)
Definition store (buf : list Z) (q : report_queue) : report_queue :=
  mkQueue (report_read_ptr q) (report_write_ptr q) (report_count q)
          (transmit_running q)
          (<[Z.to_nat (report_write_ptr q) := buf]> (reportqueue q)).

(** Body of the [while]: terminate the slot, count it, advance. *)
Definition commit (q : report_queue) : report_queue :=
  let slot := report_write_ptr q in
  mkQueue (report_read_ptr q) (wrap_ptr (slot + 1)) (report_count q + 1)
          (transmit_running q)
          (<[Z.to_nat slot :=
               <[Z.to_nat (NEURAPP_REPORT_BUFFER_CHARS - 1) := 0]>
                 (slot_at q slot)]> (reportqueue q)).

(** [while ((report_count < NEURAPP_REPORT_QUEUE_LENGTH)
           && handler->MakeReportString(reportqueue[report_write_ptr]))] *)
Fixpoint fill_while (fuel : nat) (h : nat) (s : sys) : sys :=
  match fuel with
  | O => s
  | S n =>
      let q := queue (app s) in
      if report_count q <? NEURAPP_REPORT_QUEUE_LENGTH then
        let slot := report_write_ptr q in
        let '(made, buf) := generate h (slot_at q slot) (wld s) in
        let s1 := invoke (MakeReportString h slot)
                    (with_app (set_queue (store buf q)) s) in
        if made
        then fill_while n h
               (with_app (fun a => set_queue (commit (queue a)) a) s1)
        else s1
      else s
  end.

(** Enough iterations for the loop to stop by its own condition. *)
Definition fill_fuel (s : sys) : nat :=
  S (Z.to_nat (NEURAPP_REPORT_QUEUE_LENGTH - report_count (queue (app s)))).

Definition report_fill (lut : list event_row) (s : sys) : sys :=
  for_distinct None (live_rows lut)
    (fun h st => fill_while (fill_fuel st) h st) s.

(** [DoPolling].  The member [event_lut] is only assigned by the
    constructor and by [DoInitialSetup], so one read serves the whole
    function; a NULL [event_lut] is dereferenced by the loops below, which
    the model returns as [None]. *)
Definition DoPolling (thisline : option (list Z)) (send_in_progress : bool)
           (s : sys) : option sys :=
  match event_lut (app s) with
  | None => None
  | Some lut =>
      let s1 := poll_command lut thisline s in
      let s2 := for_each_row (live_rows lut)
                  (fun h => invoke (SaveReportState_Fast h)) s1 in
      let s3 := report_send send_in_progress s2 in
      let s4 := report_fill lut s3 in
      let s5 := for_distinct None (live_rows lut)
                  (fun h => invoke (HandlePolling h)) s4 in
      Some (invoke UserUpdatePoll s5)
  end.

(** The state the constructor leaves. *)
Definition app_new : app_state :=
  mkApp (chars "BOGUS") (chars "BOGUS") None Parser.parser_new
        NEURAPP_DEFAULT_ECHO
        (mkQueue 0 0 0 false
           (replicate (Z.to_nat NEURAPP_REPORT_QUEUE_LENGTH)
              (replicate (Z.to_nat NEURAPP_REPORT_BUFFER_CHARS) 0)))
        zero_stats false false.

(** *** The dispatch rule of the design document *)

(** The entries of a command list before its terminator. *)
Fixpoint live_cmds (cmds : list cmd_row) : list cmd_row :=
  match cmds with
  | [] => []
  | e :: rest => if 0 <=? argcount e then e :: live_cmds rest else []
  end.

(** All entries in scan order, each with the handler of its row. *)
Definition entries (rows : list (nat * option (list cmd_row)))
  : list (nat * cmd_row) :=
  flat_map (fun r => match snd r with
                     | None => []
                     | Some cmds => map (pair (fst r)) (live_cmds cmds)
                     end) rows.

(** The first entry, in scan order, whose name is the command's. *)
Definition first_match (thiscommand : list Z) (es : list (nat * cmd_row))
  : option (nat * cmd_row) :=
  List.find (fun he => CommandMatch thiscommand (name (snd he))) es.

Definition is_builtin (thiscommand : list Z) : bool :=
  CommandMatch thiscommand Parser.cmd_help
  || CommandMatch thiscommand Parser.cmd_ident
  || CommandMatch thiscommand Parser.cmd_reset
  || CommandMatch thiscommand Parser.cmd_echo
  || (NEURAPP_DEBUG_AVAILABLE
      && CommandMatch thiscommand Parser.cmd_debug_mem)
  || (NEURAPP_DEBUG_AVAILABLE
      && CommandMatch thiscommand Parser.cmd_debug_evticks).

Lemma scan_cmdlist_first (h : nat) (cmds : list cmd_row)
      (thiscommand : list Z) (arg1 arg2 nargs : Z) (s : sys) :
  scan_cmdlist h cmds thiscommand arg1 arg2 nargs s =
  match first_match thiscommand (map (pair h) (live_cmds cmds)) with
  | Some (h', e) =>
      if nargs =? argcount e
      then (true, false, invoke (HandleCommand h' (opcode e) arg1 arg2) s)
      else (true, true, s)
  | None => (false, false, s)
  end.
Proof.
  induction cmds as [| e rest IH]; simpl.
  - reflexivity.
  - destruct (0 <=? argcount e); [| reflexivity]. simpl.
    destruct (CommandMatch thiscommand (name e)); [reflexivity |].
    exact IH.
Qed.

Lemma scan_rows_first (rows : list (nat * option (list cmd_row)))
      (thiscommand : list Z) (arg1 arg2 nargs : Z) (s : sys) :
  scan_rows rows thiscommand arg1 arg2 nargs s =
  match first_match thiscommand (entries rows) with
  | Some (h, e) =>
      if nargs =? argcount e
      then (true, false, invoke (HandleCommand h (opcode e) arg1 arg2) s)
      else (true, true, s)
  | None => (false, false, s)
  end.
Proof.
  induction rows as [| [h [cmds |]] rest IH]; simpl.
  - reflexivity.
  - rewrite scan_cmdlist_first. unfold first_match in *.
    rewrite find_app.
    destruct (List.find _ (map (pair h) (live_cmds cmds))) as [[h' e] |].
    + destruct (nargs =? argcount e); reflexivity.
    + exact IH.
  - exact IH.
Qed.

(** The nested loops stop at the first entry whose name matches. *)
Lemma dispatch_first_match (lut : list event_row) (thiscommand : list Z)
      (arg1 arg2 nargs : Z) (s : sys) :
  dispatch lut thiscommand arg1 arg2 nargs s =
  match first_match thiscommand (entries (live_rows lut)) with
  | Some (h, e) =>
      if nargs =? argcount e
      then (false, invoke (HandleCommand h (opcode e) arg1 arg2) s)
      else (true, s)
  | None => (true, s)
  end.
Proof.
  unfold dispatch. rewrite scan_rows_first.
  destruct (first_match thiscommand (entries (live_rows lut)))
    as [[h e] |]; [| reflexivity].
  destruct (nargs =? argcount e); reflexivity.
Qed.

(** C9.  For a command that is no built-in, the rows and their entries are
    searched in order and the first entry with the command's name decides:
    with the parsed argument count, its row's handler gets the entry's
    opcode and both arguments and nothing is printed; with another
    argument count the short help is printed and no handler is called;
    without any matching entry the short help is printed.  In every case
    processing goes on: [DoPolling] completes whenever a registry is
    installed. *)
Theorem dispatch_first_entry_decides (lut : list event_row)
        (thisline thiscommand : list Z) (arg1 arg2 nargs : Z) (s : sys) :
  is_builtin thiscommand = false ->
  handle_command lut thisline thiscommand arg1 arg2 nargs s =
  match first_match thiscommand (entries (live_rows lut)) with
  | Some (h, e) =>
      if nargs =? argcount e
      then invoke (HandleCommand h (opcode e) arg1 arg2) s
      else PrintShortHelp thisline s
  | None => PrintShortHelp thisline s
  end /\
  (forall line busy, event_lut (app s) = Some lut ->
                     exists s', DoPolling line busy s = Some s').
Proof.
  intros Hnb. split.
  - unfold is_builtin in Hnb.
    repeat (apply orb_false_iff in Hnb as [Hnb ?]).
    unfold handle_command.
    repeat match goal with
           | H : _ = false |- _ => rewrite H; clear H
           end.
    rewrite dispatch_first_match.
    destruct (first_match thiscommand (entries (live_rows lut)))
      as [[h e] |]; [| reflexivity].
    destruct (nargs =? argcount e); reflexivity.
  - intros line busy Hlut. unfold DoPolling. rewrite Hlut. eauto.
Qed.

(** *** Soft reset *)

Definition is_init_state (h : nat) (c : call) : bool :=
  match c with
  | InitState h' => Nat.eqb h' h
  | _ => false
  end.

(** How often [InitState] of handler [h] occurs in a log. *)
Definition init_state_calls (h : nat) (l : list call) : nat :=
  length (List.filter (is_init_state h) l).

(** How many of the rows hold handler [h]. *)
Definition rows_of (h : nat) (rows : list (nat * option (list cmd_row)))
  : nat :=
  length (List.filter (fun r => Nat.eqb (fst r) h) rows).

Lemma log_for_each_invoke (f : nat -> call)
      (rows : list (nat * option (list cmd_row))) (s : sys) :
  log (for_each_row rows (fun h => invoke (f h)) s)
  = log s ++ map (fun r => f (fst r)) rows.
Proof.
  unfold for_each_row. revert s.
  induction rows as [| r rows IH]; intros s; simpl.
  - now rewrite app_nil_r.
  - rewrite IH. simpl. now rewrite <- app_assoc.
Qed.

Lemma ReInitState_log (lut : list event_row) (s : sys) :
  event_lut (app s) = Some lut ->
  log (ReInitState s)
  = log s ++ [UART_WaitForSendDone; UserInitState]
      ++ map (fun r => InitState (fst r)) (live_rows lut).
Proof.
  intros Hlut. unfold ReInitState. simpl. rewrite Hlut.
  rewrite log_for_each_invoke. simpl. now rewrite <- !app_assoc.
Qed.

Lemma init_state_calls_rows (h : nat)
      (rows : list (nat * option (list cmd_row))) :
  init_state_calls h (map (fun r => InitState (fst r)) rows) = rows_of h rows.
Proof.
  unfold init_state_calls, rows_of.
  induction rows as [| r rows IH]; simpl.
  - reflexivity.
  - destruct (Nat.eqb (fst r) h); simpl; now rewrite IH.
Qed.

Lemma live_rows_app (pre rest : list event_row) :
  Forall (fun r => handler r <> None) pre ->
  live_rows (pre ++ rest) = live_rows pre ++ live_rows rest.
Proof.
  induction 1 as [| r pre Hr _ IH]; simpl.
  - reflexivity.
  - destruct (handler r); [| congruence]. simpl. now rewrite IH.
Qed.

Lemma entries_app (a b : list (nat * option (list cmd_row))) :
  entries (a ++ b) = entries a ++ entries b.
Proof. unfold entries. apply flat_map_app. Qed.

Lemma first_match_row (thiscommand : list Z) (h : nat)
      (cmds : list cmd_row) (e : cmd_row) :
  List.find (fun e => CommandMatch thiscommand (name e)) cmds = Some e ->
  first_match thiscommand (map (pair h) cmds) = Some (h, e).
Proof.
  unfold first_match. induction cmds as [| x cmds IH]; simpl.
  - discriminate.
  - destruct (CommandMatch thiscommand (name x)).
    + now intros [= ->].
    + exact IH.
Qed.

(** C1, as the code has it.  A registry with two adjacent rows for one
    handler [h]: a soft reset calls [InitState] once for every row, in row
    order, so [h] is initialised once per row it occupies (at least twice);
    and a command found only in the second row's list is dispatched to
    [h]. *)
Theorem soft_reset_inits_each_row
        (pre post : list event_row) (h : nat)
        (c1 : option (list cmd_row)) (c2 : list cmd_row) (s : sys) :
  let lut := pre ++ mkRow (Some h) c1 :: mkRow (Some h) (Some c2) :: post in
  Forall (fun r => handler r <> None) pre ->
  event_lut (app s) = Some lut ->
  log (ReInitState s)
  = log s ++ [UART_WaitForSendDone; UserInitState]
      ++ map (fun r => InitState (fst r)) (live_rows lut) /\
  init_state_calls h (log (ReInitState s))
  = (init_state_calls h (log s) + rows_of h (live_rows lut))%nat /\
  (2 <= rows_of h (live_rows lut))%nat /\
  (forall (thiscommand : list Z) (arg1 arg2 nargs : Z) (e : cmd_row)
          (st : sys),
     first_match thiscommand
       (entries (live_rows (pre ++ [mkRow (Some h) c1]))) = None ->
     List.find (fun e => CommandMatch thiscommand (name e)) (live_cmds c2)
     = Some e ->
     nargs = argcount e ->
     dispatch lut thiscommand arg1 arg2 nargs st
     = (false, invoke (HandleCommand h (opcode e) arg1 arg2) st)).
Proof.
  intros lut Hpre Hlut.
  pose proof (ReInitState_log lut s Hlut) as Hlog.
  split; [exact Hlog |]. split; [| split].
  - rewrite Hlog. unfold init_state_calls at 1.
    rewrite !List.filter_app, !length_app. simpl.
    fold (init_state_calls h (log s)).
    fold (init_state_calls h
            (map (fun r => InitState (fst r)) (live_rows lut))).
    now rewrite init_state_calls_rows.
  - subst lut. rewrite (live_rows_app pre _ Hpre). simpl.
    unfold rows_of. rewrite List.filter_app, length_app. simpl.
    rewrite Nat.eqb_refl. simpl. lia.
  - intros thiscommand arg1 arg2 nargs e st Hearlier Hfind ->.
    rewrite dispatch_first_match.
    assert (Esplit : lut = (pre ++ [mkRow (Some h) c1])
                           ++ mkRow (Some h) (Some c2) :: post).
    { subst lut. now rewrite <- app_assoc. }
    rewrite Esplit.
    assert (Hpre' : Forall (fun r => handler r <> None)
                      (pre ++ [mkRow (Some h) c1])).
    { apply Forall_app_2; [exact Hpre |]. repeat constructor. discriminate. }
    rewrite (live_rows_app _ _ Hpre'), entries_app.
    unfold first_match in *. rewrite find_app, Hearlier.
    simpl live_rows. unfold entries at 1. simpl flat_map.
    rewrite find_app.
    fold (first_match thiscommand (map (pair h) (live_cmds c2))).
    rewrite (first_match_row thiscommand h _ e Hfind).
    now rewrite Z.eqb_refl.
Qed.

(** *** The report queue invariant *)

Definition last_byte (buf : list Z) : option Z :=
  buf !! Z.to_nat (NEURAPP_REPORT_BUFFER_CHARS - 1).

Record q_inv (q : report_queue) : Prop := mkQInv {
  qi_count : 0 <= report_count q <= NEURAPP_REPORT_QUEUE_LENGTH;
  qi_read : 0 <= report_read_ptr q < NEURAPP_REPORT_QUEUE_LENGTH;
  qi_write : report_write_ptr q
             = (report_read_ptr q + report_count q)
               mod NEURAPP_REPORT_QUEUE_LENGTH;
  qi_slots : length (reportqueue q) = Z.to_nat NEURAPP_REPORT_QUEUE_LENGTH;
  qi_size : Forall (fun b => length b = Z.to_nat NEURAPP_REPORT_BUFFER_CHARS)
                   (reportqueue q);
  (* every queued report ends in NUL at the last byte of its slot *)
  qi_term : forall i, 0 <= i < report_count q ->
            last_byte (slot_at q ((report_read_ptr q + i)
                                  mod NEURAPP_REPORT_QUEUE_LENGTH))
            = Some 0
}.

Ltac queue_consts :=
  unfold NEURAPP_REPORT_QUEUE_LENGTH, NEURAPP_REPORT_BUFFER_CHARS in *.

Lemma wrap_ptr_mod (ptr : Z) :
  0 <= ptr <= NEURAPP_REPORT_QUEUE_LENGTH ->
  wrap_ptr ptr = ptr mod NEURAPP_REPORT_QUEUE_LENGTH.
Proof.
  intros Hp. unfold wrap_ptr. queue_consts.
  destruct (Z.geb_spec ptr 4).
  - assert (ptr = 4) by lia. subst. reflexivity.
  - symmetry. apply Z.mod_small. lia.
Qed.

Lemma slot_at_length (q : report_queue) (i : Z) :
  q_inv q -> 0 <= i < NEURAPP_REPORT_QUEUE_LENGTH ->
  length (slot_at q i) = Z.to_nat NEURAPP_REPORT_BUFFER_CHARS.
Proof.
  intros Hinv Hi. unfold slot_at.
  destruct (reportqueue q !! Z.to_nat i) as [b |] eqn:E.
  - simpl. pose proof (qi_size q Hinv) as Hall.
    rewrite Forall_lookup in Hall. apply (Hall _ _ E).
  - apply lookup_ge_None_1 in E. rewrite (qi_slots q Hinv) in E. lia.
Qed.

Lemma retire_inv (q : report_queue) :
  q_inv q -> 0 < report_count q -> q_inv (retire q).
Proof.
  intros [Hc Hr Hw Hs Hz Ht] Hpos.
  assert (Hwrap : wrap_ptr (report_read_ptr q + 1)
                  = (report_read_ptr q + 1) mod NEURAPP_REPORT_QUEUE_LENGTH)
    by (apply wrap_ptr_mod; lia).
  constructor; simpl; try assumption.
  - lia.
  - rewrite Hwrap. apply Z.mod_pos_bound. queue_consts. lia.
  - rewrite Hw, Hwrap. queue_consts.
    rewrite Zplus_mod_idemp_l. f_equal. lia.
  - intros i Hi. unfold slot_at in *. simpl.
    rewrite Hwrap.
    replace (((report_read_ptr q + 1) mod NEURAPP_REPORT_QUEUE_LENGTH + i)
             mod NEURAPP_REPORT_QUEUE_LENGTH)
      with ((report_read_ptr q + (i + 1)) mod NEURAPP_REPORT_QUEUE_LENGTH).
    + apply Ht. lia.
    + rewrite Zplus_mod_idemp_l. f_equal. lia.
Qed.

(** The slot at the write pointer is none of the queued ones. *)
Lemma write_slot_free (q : report_queue) (i : Z) :
  q_inv q -> report_count q < NEURAPP_REPORT_QUEUE_LENGTH ->
  0 <= i < report_count q ->
  Z.to_nat (report_write_ptr q)
  <> Z.to_nat ((report_read_ptr q + i) mod NEURAPP_REPORT_QUEUE_LENGTH).
Proof.
  intros [Hc Hr Hw Hs Hz Ht] Hfree Hi. rewrite Hw. queue_consts.
  pose proof (Z.mod_pos_bound (report_read_ptr q + report_count q) 4
                ltac:(lia)).
  pose proof (Z.mod_pos_bound (report_read_ptr q + i) 4 ltac:(lia)).
  intros E. apply Z2Nat.inj in E; try lia.
  Z.div_mod_to_equations. lia.
Qed.

Lemma store_inv (buf : list Z) (q : report_queue) :
  q_inv q -> report_count q < NEURAPP_REPORT_QUEUE_LENGTH ->
  length buf = Z.to_nat NEURAPP_REPORT_BUFFER_CHARS ->
  q_inv (store buf q).
Proof.
  intros Hinv Hfree Hlen.
  pose proof (write_slot_free q) as Hfreeslot.
  destruct Hinv as [Hc Hr Hw Hs Hz Ht].
  assert (Hinv : q_inv q) by (constructor; assumption).
  constructor; simpl; try assumption.
  - now rewrite length_insert.
  - apply Forall_insert; assumption.
  - intros i Hi. unfold slot_at. simpl.
    rewrite list_lookup_insert_ne by (apply Hfreeslot; auto).
    apply Ht, Hi.
Qed.

Lemma commit_inv (q : report_queue) :
  q_inv q -> report_count q < NEURAPP_REPORT_QUEUE_LENGTH ->
  q_inv (commit q).
Proof.
  intros Hinv Hfree.
  pose proof (write_slot_free q) as Hfreeslot.
  destruct Hinv as [Hc Hr Hw Hs Hz Ht].
  assert (Hinv : q_inv q) by (constructor; assumption).
  assert (Hwb : 0 <= report_write_ptr q < NEURAPP_REPORT_QUEUE_LENGTH).
  { rewrite Hw. apply Z.mod_pos_bound. queue_consts. lia. }
  pose proof (slot_at_length q (report_write_ptr q) Hinv Hwb) as Hsl.
  constructor; simpl; try assumption.
  - lia.
  - rewrite wrap_ptr_mod by lia. rewrite Hw.
    rewrite Zplus_mod_idemp_l. f_equal. lia.
  - now rewrite length_insert.
  - apply Forall_insert; [assumption |]. now rewrite length_insert.
  - intros i Hi. unfold slot_at. simpl.
    destruct (Z.eq_dec i (report_count q)) as [-> | Hne].
    + rewrite <- Hw. rewrite list_lookup_insert_eq by (rewrite Hs; lia).
      simpl. unfold last_byte. apply list_lookup_insert_eq.
      rewrite Hsl. queue_consts. lia.
    + rewrite list_lookup_insert_ne by (apply Hfreeslot; auto; lia).
      apply Ht. lia.
Qed.

(** A generator writes inside the buffer it is handed (anything else is
    undefined behaviour in C). *)
Hypothesis generate_in_place :
  forall h buf w, length (snd (generate h buf w)) = length buf.

(** A call of a report generator on a slot that held no queued report when
    the filling started from queue [q]. *)
Definition generator_on_free_slot (q : report_queue) (c : call) : Prop :=
  exists h slot,
    c = MakeReportString h slot /\
    report_count q
    <= (slot - report_read_ptr q) mod NEURAPP_REPORT_QUEUE_LENGTH.

(** What filling the queue may do, from [s] to [s']. *)
Record fill_post (s s' : sys) : Prop := mkFillPost {
  fp_inv : q_inv (queue (app s'));
  fp_read : report_read_ptr (queue (app s'))
            = report_read_ptr (queue (app s));
  fp_running : transmit_running (queue (app s'))
               = transmit_running (queue (app s));
  fp_count : report_count (queue (app s))
             <= report_count (queue (app s'));
  fp_log : exists new,
      log s' = log s ++ new /\ Forall (generator_on_free_slot (queue (app s))) new;
  fp_full : report_count (queue (app s)) = NEURAPP_REPORT_QUEUE_LENGTH ->
            s' = s
}.

Lemma fill_post_refl (s : sys) : q_inv (queue (app s)) -> fill_post s s.
Proof.
  intros Hinv. constructor; auto; try lia.
  exists []. split; [now rewrite app_nil_r | constructor].
Qed.

Lemma fill_post_trans (s1 s2 s3 : sys) :
  fill_post s1 s2 -> fill_post s2 s3 -> fill_post s1 s3.
Proof.
  intros [I1 R1 T1 C1 (n1 & L1 & F1) U1] [I2 R2 T2 C2 (n2 & L2 & F2) U2].
  constructor; try congruence; try lia.
  - exists (n1 ++ n2). split; [rewrite L2, L1; now rewrite app_assoc |].
    apply Forall_app_2; [exact F1 |].
    eapply List.Forall_impl; [| exact F2].
    intros c (h & slot & -> & Hle). exists h, slot. split; [reflexivity |].
    rewrite <- R1. lia.
  - intros Hfull. rewrite U2; [apply U1, Hfull |].
    rewrite (U1 Hfull). exact Hfull.
Qed.

Lemma fill_while_post (fuel : nat) (h : nat) :
  forall s : sys, q_inv (queue (app s)) -> fill_post s (fill_while fuel h s).
Proof.
  induction fuel as [| n IH]; intros s Hinv; simpl.
  - now apply fill_post_refl.
  - destruct (Z.ltb_spec (report_count (queue (app s)))
                         NEURAPP_REPORT_QUEUE_LENGTH) as [Hfree | Hfull];
      [| now apply fill_post_refl].
    set (q := queue (app s)) in *.
    assert (Hwb : 0 <= report_write_ptr q < NEURAPP_REPORT_QUEUE_LENGTH).
    { rewrite (qi_write q Hinv). apply Z.mod_pos_bound. queue_consts. lia. }
    pose proof (generate_in_place h (slot_at q (report_write_ptr q)) (wld s))
      as Hlen.
    rewrite (slot_at_length q _ Hinv Hwb) in Hlen.
    destruct (generate h (slot_at q (report_write_ptr q)) (wld s))
      as [made buf]. simpl in Hlen.
    pose proof (store_inv buf q Hinv Hfree Hlen) as Hst.
    set (s1 := invoke (MakeReportString h (report_write_ptr q))
                 (with_app (set_queue (store buf q)) s)).
    assert (Hcall : generator_on_free_slot q
                      (MakeReportString h (report_write_ptr q))).
    { exists h, (report_write_ptr q). split; [reflexivity |].
      rewrite (qi_write q Hinv).
      pose proof (qi_count q Hinv). pose proof (qi_read q Hinv).
      queue_consts. Z.div_mod_to_equations. lia. }
    assert (H1 : fill_post s s1).
    { constructor; simpl.
      - exact Hst.
      - reflexivity.
      - reflexivity.
      - fold q. lia.
      - exists [MakeReportString h (report_write_ptr q)].
        split; [reflexivity | now constructor].
      - fold q. intros Hfull. lia. }
    destruct made; [| exact H1].
    apply (fill_post_trans s s1 _ H1).
    set (s2 := with_app (fun a => set_queue (commit (queue a)) a) s1).
    assert (H2 : fill_post s1 s2).
    { constructor; simpl.
      - now apply commit_inv.
      - reflexivity.
      - reflexivity.
      - lia.
      - exists []. split; [now rewrite app_nil_r | constructor].
      - intros Hfull. fold q in Hfull. lia. }
    apply (fill_post_trans s1 s2 _ H2).
    apply IH. apply (fp_inv _ _ H2).
Qed.

Lemma report_fill_post (lut : list event_row) (s : sys) :
  q_inv (queue (app s)) -> fill_post s (report_fill lut s).
Proof.
  unfold report_fill. generalize (@None nat) as prev.
  generalize (live_rows lut) as rows. intros rows. revert s.
  induction rows as [| [h cl] rows IH]; intros s prev Hinv; simpl.
  - now apply fill_post_refl.
  - assert (Hbody : fill_post s (fill_while (fill_fuel s) h s))
      by now apply fill_while_post.
    destruct prev as [h' |]; [destruct (Nat.eqb h h') |].
    + apply IH, Hinv.
    + eapply fill_post_trans; [exact Hbody |]. apply IH, (fp_inv _ _ Hbody).
    + eapply fill_post_trans; [exact Hbody |]. apply IH, (fp_inv _ _ Hbody).
Qed.

(** More iterations than [fill_fuel] allows change nothing: the loop stops
    by its own condition. *)
Lemma fill_while_enough (h : nat) (fuel : nat) :
  forall (extra : nat) (s : sys),
  (Z.to_nat (NEURAPP_REPORT_QUEUE_LENGTH - report_count (queue (app s)))
   < fuel)%nat ->
  fill_while (fuel + extra) h s = fill_while fuel h s.
Proof.
  induction fuel as [| n IH]; intros extra s Hf; [lia |].
  simpl.
  destruct (Z.ltb_spec (report_count (queue (app s)))
                       NEURAPP_REPORT_QUEUE_LENGTH) as [Hfree | Hfull];
    [| reflexivity].
  destruct (generate h _ (wld s)) as [made buf].
  destruct made; [| reflexivity].
  apply IH. simpl. lia.
Qed.

(** The send step: nothing happens while the channel is busy; the oldest
    slot is retired only when the channel is free and a transmission was
    running; [UART_QueueSend] is called at most once, on a free channel. *)
Lemma report_send_post (busy : bool) (s : sys) :
  q_inv (queue (app s)) ->
  let s' := report_send busy s in
  q_inv (queue (app s')) /\
  (busy = true -> s' = s) /\
  (report_read_ptr (queue (app s')) <> report_read_ptr (queue (app s)) ->
   busy = false /\ transmit_running (queue (app s)) = true) /\
  (report_count (queue (app s')) <> report_count (queue (app s)) ->
   busy = false /\ transmit_running (queue (app s)) = true /\
   report_count (queue (app s')) = report_count (queue (app s)) - 1) /\
  (log s' = log s \/
   busy = false /\
   log s' = log s ++ [UART_QueueSend
                        (slot_at (queue (app s'))
                                 (report_read_ptr (queue (app s'))))]).
Proof.
  intros Hinv.
  assert (Hsame : q_inv (queue (app s)) /\
            (busy = true -> s = s) /\
            (report_read_ptr (queue (app s)) <> report_read_ptr (queue (app s))
             -> busy = false /\ transmit_running (queue (app s)) = true) /\
            (report_count (queue (app s)) <> report_count (queue (app s)) ->
             busy = false /\ transmit_running (queue (app s)) = true /\
             report_count (queue (app s)) = report_count (queue (app s)) - 1)
            /\
            (log s = log s \/
             busy = false /\
             log s = log s ++ [UART_QueueSend
                                 (slot_at (queue (app s))
                                    (report_read_ptr (queue (app s))))])).
  { split; [exact Hinv |]. split; [reflexivity |].
    split; [intros Hne; now elim Hne |].
    split; [intros Hne; now elim Hne | now left]. }
  unfold report_send.
  destruct (Z.ltb_spec 0 (report_count (queue (app s)))) as [Hpos | Hzero];
    [| exact Hsame].
  destruct busy; [exact Hsame |]. cbn [negb].
  destruct (transmit_running (queue (app s))) eqn:Htr.
  - (* a transmission has finished: retire, then maybe send the next *)
    pose proof (retire_inv _ Hinv Hpos) as Hret.
    cbn [with_app app queue set_queue retire report_count].
    destruct (Z.ltb_spec 0 (report_count (queue (app s)) - 1));
      cbn [invoke with_app app queue set_queue retire report_count
           report_read_ptr report_write_ptr reportqueue log wld].
    + split.
      { destruct Hret. constructor; assumption. }
      split; [discriminate |]. split; [auto |].
      split; [auto |]. right. auto.
    + split; [exact Hret |]. split; [discriminate |].
      split; [auto |]. split; [auto |]. now left.
  - (* nothing in flight: send the oldest queued report *)
    destruct (Z.ltb_spec 0 (report_count (queue (app s)))); [| lia].
    cbn [invoke with_app app queue set_queue report_count
         report_read_ptr report_write_ptr reportqueue log wld].
    split.
    { destruct Hinv. constructor; assumption. }
    split; [discriminate |].
    split; [intros Hne; now elim Hne |].
    split; [intros Hne; now elim Hne |]. right. auto.
Qed.

(** *** The invariant across whole polling cycles *)

Definition queue_ok (s : sys) : Prop := q_inv (queue (app s)).

(** The shape of the queue storage: the right number of slots of the
    right size. *)
Definition queue_shape (slots : list (list Z)) : Prop :=
  length slots = Z.to_nat NEURAPP_REPORT_QUEUE_LENGTH /\
  Forall (fun b => length b = Z.to_nat NEURAPP_REPORT_BUFFER_CHARS) slots.

Lemma queue_ok_for_distinct (body : nat -> sys -> sys) :
  (forall h s, queue_ok s -> queue_ok (body h s)) ->
  forall rows prev s, queue_ok s -> queue_ok (for_distinct prev rows body s).
Proof.
  intros Hbody rows.
  induction rows as [| [h cl] rows IH]; intros prev s Hs; simpl.
  - exact Hs.
  - apply IH. destruct prev as [h' |]; [destruct (Nat.eqb h h') |]; auto.
Qed.

Lemma queue_ok_for_each (body : nat -> sys -> sys) :
  (forall h s, queue_ok s -> queue_ok (body h s)) ->
  forall rows s, queue_ok s -> queue_ok (for_each_row rows body s).
Proof.
  intros Hbody rows. unfold for_each_row.
  induction rows as [| r rows IH]; intros s Hs; simpl; auto.
Qed.

Lemma queue_ok_print_raw (rawline : list Z) :
  forall s, queue_ok s -> queue_ok (print_raw rawline s).
Proof.
  induction rawline as [| c rest IH]; intros s Hs; simpl.
  - exact Hs.
  - destruct (c =? 0); [exact Hs |].
    destruct ((32 <=? c) && (126 >=? c)); apply IH; exact Hs.
Qed.

Lemma queue_ok_PrintShortHelp (rawline : list Z) (s : sys) :
  queue_ok s -> queue_ok (PrintShortHelp rawline s).
Proof. intros Hs. unfold PrintShortHelp. now apply queue_ok_print_raw. Qed.

Lemma clear_queue_shape (slots : list (list Z)) :
  queue_shape slots -> queue_shape (clear_queue slots).
Proof.
  unfold clear_queue.
  generalize (seq 0 (Z.to_nat NEURAPP_REPORT_QUEUE_LENGTH)) as idxs.
  intros idxs. revert slots.
  induction idxs as [| i idxs IH]; intros slots [Hlen Hall]; simpl.
  - now split.
  - apply IH. split; [now rewrite length_insert |].
    destruct (slots !! i) as [b |] eqn:E.
    + apply Forall_insert; [exact Hall |]. simpl.
      rewrite length_insert. rewrite Forall_lookup in Hall.
      apply (Hall _ _ E).
    + rewrite list_insert_ge; [exact Hall |].
      now apply lookup_ge_None_1.
Qed.

Lemma fresh_queue_ok (slots : list (list Z)) :
  queue_shape slots -> q_inv (mkQueue 0 0 0 false slots).
Proof.
  intros [Hlen Hall]. constructor; simpl; auto.
  - queue_consts. lia.
  - queue_consts. lia.
  - intros i Hi. lia.
Qed.

(** A soft reset leaves an empty, consistent queue. *)
Lemma ReInitState_queue (s : sys) :
  queue_shape (reportqueue (queue (app s))) -> queue_ok (ReInitState s).
Proof.
  intros Hshape. unfold ReInitState.
  assert (Hq : queue_ok
            (invoke UserInitState
               (with_app
                  (fun a => if NEURAPP_DEBUG_AVAILABLE
                            then set_stats zero_stats a else a)
                  (invoke UART_WaitForSendDone
                     (with_app
                        (fun a =>
                           set_queue
                             (mkQueue 0 0 0 false
                                (clear_queue (reportqueue (queue a))))
                             (set_parser (Parser.ResetState (parser a)) a))
                        s))))).
  { unfold queue_ok. simpl. apply fresh_queue_ok.
    now apply clear_queue_shape. }
  cbv zeta.
  destruct (event_lut _) as [lut |]; [| exact Hq].
  apply queue_ok_for_each; [| exact Hq]. auto.
Qed.

Lemma queue_ok_shape (s : sys) :
  queue_ok s -> queue_shape (reportqueue (queue (app s))).
Proof. intros [_ _ _ Hl Hs _]. now split. Qed.

Lemma queue_ok_help_command (lut : list event_row) (s : sys) :
  queue_ok s -> queue_ok (help_command lut s).
Proof.
  intros Hs. unfold help_command. unfold queue_ok. simpl.
  apply (queue_ok_for_distinct
           (fun h st =>
              invoke (UART_QueueSend_P (help_screen h))
                (invoke (GetHelpScreen h)
                   (invoke (UART_QueueSend_P crlf) st))));
    [auto | exact Hs].
Qed.

Lemma queue_ok_dispatch (lut : list event_row) (thiscommand : list Z)
      (arg1 arg2 nargs : Z) (s : sys) :
  queue_ok s ->
  queue_ok (snd (dispatch lut thiscommand arg1 arg2 nargs s)).
Proof.
  intros Hs. rewrite dispatch_first_match.
  destruct (first_match thiscommand (entries (live_rows lut)))
    as [[h e] |]; [| exact Hs].
  destruct (nargs =? argcount e); exact Hs.
Qed.

Lemma queue_ok_handle_command (lut : list event_row)
      (thisline thiscommand : list Z) (arg1 arg2 nargs : Z) (s : sys) :
  queue_ok s ->
  queue_ok (handle_command lut thisline thiscommand arg1 arg2 nargs s).
Proof.
  intros Hs. unfold handle_command.
  pose proof (queue_ok_dispatch lut thiscommand arg1 arg2 nargs s Hs) as Hd.
  pose proof (queue_ok_help_command lut s Hs) as Hh.
  pose proof (ReInitState_queue s (queue_ok_shape s Hs)) as Hr.
  assert (Hfin : forall (b : bool) (st : sys),
            queue_ok st ->
            queue_ok (if b then PrintShortHelp thisline st else st)).
  { intros [|] st Hst; [now apply queue_ok_PrintShortHelp | exact Hst]. }
  destruct (CommandMatch thiscommand Parser.cmd_help); [exact Hh |].
  destruct (CommandMatch thiscommand Parser.cmd_ident); [exact Hs |].
  destruct (CommandMatch thiscommand Parser.cmd_reset); [exact Hr |].
  destruct (CommandMatch thiscommand Parser.cmd_echo).
  { destruct (1 =? nargs);
      [exact Hs | now apply queue_ok_PrintShortHelp]. }
  destruct (NEURAPP_DEBUG_AVAILABLE
            && CommandMatch thiscommand Parser.cmd_debug_mem);
    [exact Hs |].
  destruct (NEURAPP_DEBUG_AVAILABLE
            && CommandMatch thiscommand Parser.cmd_debug_evticks);
    [exact Hs |].
  destruct (dispatch lut thiscommand arg1 arg2 nargs s) as [bad s'].
  now apply Hfin.
Qed.

Lemma queue_ok_poll_command (lut : list event_row)
      (thisline : option (list Z)) (s : sys) :
  queue_ok s -> queue_ok (poll_command lut thisline s).
Proof.
  intros Hs. unfold poll_command.
  destruct thisline as [line |]; [| exact Hs].
  set (s1 := if echo_state (app s) then _ else s).
  assert (H1 : queue_ok s1) by (subst s1; now destruct (echo_state (app s))).
  destruct (Parser.ParseInputLine line (parser (app s1))) as [ok p1].
  assert (H2 : queue_ok (with_app (set_parser p1) s1)) by exact H1.
  set (s2 := with_app (set_parser p1) s1) in *.
  assert (H3 : queue_ok
            (if ok
             then let '(cmd, p2) := Parser.WasNewCommand (parser (app s2)) in
                  match cmd with
                  | Some (thiscommand, arg1, arg2, nargs) =>
                      handle_command lut line thiscommand arg1 arg2 nargs
                        (with_app (set_parser p2) s2)
                  | None => with_app (set_parser p2) s2
                  end
             else PrintShortHelp line s2)).
  { destruct ok; [| now apply queue_ok_PrintShortHelp].
    destruct (Parser.WasNewCommand (parser (app s2)))
      as [[[[[cmd a1] a2] n] |] p2].
    - apply queue_ok_handle_command. exact H2.
    - exact H2. }
  exact H3.
Qed.

(** A polling cycle keeps the queue consistent. *)
Lemma DoPolling_queue (thisline : option (list Z)) (busy : bool)
      (s s' : sys) :
  queue_ok s -> DoPolling thisline busy s = Some s' -> queue_ok s'.
Proof.
  intros Hs Hpoll. unfold DoPolling in Hpoll.
  destruct (event_lut (app s)) as [lut |]; [| discriminate].
  injection Hpoll as <-.
  assert (H1 : queue_ok (poll_command lut thisline s))
    by now apply queue_ok_poll_command.
  assert (H2 : queue_ok
            (for_each_row (live_rows lut)
               (fun h => invoke (SaveReportState_Fast h))
               (poll_command lut thisline s)))
    by (apply queue_ok_for_each; auto).
  pose proof (proj1 (report_send_post busy _ H2)) as H3.
  pose proof (fp_inv _ _ (report_fill_post lut _ H3)) as H4.
  assert (H5 : queue_ok
            (for_distinct None (live_rows lut)
               (fun h => invoke (HandlePolling h))
               (report_fill lut
                  (report_send busy
                     (for_each_row (live_rows lut)
                        (fun h => invoke (SaveReportState_Fast h))
                        (poll_command lut thisline s))))))
    by (apply queue_ok_for_distinct; auto).
  exact H5.
Qed.

Lemma DoInitialSetup_queue (identity help : list Z)
      (eventdefs : option (list event_row)) (s : sys) :
  queue_shape (reportqueue (queue (app s))) ->
  queue_ok (DoInitialSetup identity help eventdefs s).
Proof.
  intros Hshape. unfold DoInitialSetup. apply ReInitState_queue.
  destruct eventdefs as [lut |]; [| exact Hshape].
  assert (Hkeep : forall rows prev st,
            reportqueue (queue (app
              (for_distinct prev rows
                 (fun h => invoke (InitHardware h)) st)))
            = reportqueue (queue (app st))).
  { induction rows as [| [h cl] rows IH]; intros prev st; simpl.
    - reflexivity.
    - rewrite IH.
      destruct prev as [h' |]; [destruct (Nat.eqb h h') |]; reflexivity. }
  rewrite Hkeep. exact Hshape.
Qed.

(** C8.  From a consistent queue, and so in every polling cycle after
    setup:
    - the queue stays consistent through the report part and through the
      whole of [DoPolling]: [0 <= report_count <=
      NEURAPP_REPORT_QUEUE_LENGTH], the write pointer is the read pointer
      plus the count (mod the length), and every queued slot ends in NUL
      at its last byte, whatever the generators wrote;
    - while the channel reports a send in progress nothing is retired or
      sent; the read pointer moves (and the count drops, by one) only when
      the channel is free and a transmission was running; the single
      [UART_QueueSend] is issued on a free channel, so it does not wait;
    - generators are only called on slots that hold no queued report, never
      when the queue is full, and they leave the read pointer and the
      running flag alone;
    - the filling loop stops by its own condition. *)
Theorem report_queue_bounded (lut : list event_row) (busy : bool) (s : sys) :
  q_inv (queue (app s)) ->
  let s1 := report_send busy s in
  let s2 := report_fill lut s1 in
  q_inv (queue (app s2)) /\
  (forall line s', DoPolling line busy s = Some s' ->
                   q_inv (queue (app s'))) /\
  (busy = true -> s1 = s) /\
  (report_read_ptr (queue (app s2)) <> report_read_ptr (queue (app s)) ->
   busy = false /\ transmit_running (queue (app s)) = true) /\
  (report_count (queue (app s1)) <> report_count (queue (app s)) ->
   busy = false /\ transmit_running (queue (app s)) = true /\
   report_count (queue (app s1)) = report_count (queue (app s)) - 1) /\
  (log s1 = log s \/
   busy = false /\
   log s1 = log s ++ [UART_QueueSend
                        (slot_at (queue (app s1))
                                 (report_read_ptr (queue (app s1))))]) /\
  (exists new,
     log s2 = log s1 ++ new /\
     Forall (generator_on_free_slot (queue (app s1))) new) /\
  (report_count (queue (app s1)) = NEURAPP_REPORT_QUEUE_LENGTH -> s2 = s1) /\
  report_count (queue (app s1)) <= report_count (queue (app s2)) /\
  transmit_running (queue (app s2)) = transmit_running (queue (app s1)) /\
  (forall h extra st,
     fill_while (fill_fuel st + extra) h st = fill_while (fill_fuel st) h st).
Proof.
  intros Hinv s1 s2.
  destruct (report_send_post busy s Hinv) as (Hi1 & Hb & Hr & Hc & Hl).
  fold s1 in Hi1, Hb, Hr, Hc, Hl.
  destruct (report_fill_post lut s1 Hi1) as [I2 R2 T2 C2 L2 U2].
  fold s2 in I2, R2, T2, C2, L2, U2.
  split; [exact I2 |].
  split; [intros line s' Hp; apply (DoPolling_queue line busy s s' Hinv Hp) |].
  split; [exact Hb |]. split.
  { intros Hne. apply Hr. congruence. }
  split; [exact Hc |]. split; [exact Hl |]. split; [exact L2 |].
  split; [exact U2 |]. split; [exact C2 |]. split; [exact T2 |].
  intros h extra st. apply fill_while_enough. unfold fill_fuel. lia.
Qed.

(** *** What each part of the framework may add to the call log *)

(** [s'] continues [s] with calls that all pass the test [p]. *)
Definition adds (p : call -> bool) (s s' : sys) : Prop :=
  exists d, log s' = log s ++ d /\ forallb p d = true.

Lemma adds_refl (p : call -> bool) (s : sys) : adds p s s.
Proof using Type. exists []. now rewrite app_nil_r. Qed.

Lemma adds_same (p : call -> bool) (s s' : sys) :
  log s' = log s -> adds p s s'.
Proof using Type. intros E. exists []. now rewrite app_nil_r. Qed.

Lemma adds_trans (p : call -> bool) (s1 s2 s3 : sys) :
  adds p s1 s2 -> adds p s2 s3 -> adds p s1 s3.
Proof using Type.
  intros (d1 & E1 & F1) (d2 & E2 & F2). exists (d1 ++ d2). split.
  - now rewrite E2, E1, app_assoc.
  - now rewrite forallb_app, F1, F2.
Qed.

Lemma adds_invoke (p : call -> bool) (c : call) (s : sys) :
  p c = true -> adds p s (invoke c s).
Proof using Type.
  intros Hc. exists [c]. split; [reflexivity |]. cbn. now rewrite Hc.
Qed.

Lemma adds_for_distinct (p : call -> bool) (body : nat -> sys -> sys) :
  (forall h s, adds p s (body h s)) ->
  forall rows prev s, adds p s (for_distinct prev rows body s).
Proof using Type.
  intros Hbody rows.
  induction rows as [| [h cl] rows IH]; intros prev s; cbn [for_distinct].
  - apply adds_refl.
  - eapply adds_trans; [| apply IH].
    destruct prev as [h' |]; [destruct (Nat.eqb h h') |];
      auto using adds_refl.
Qed.

Lemma adds_for_each (p : call -> bool) (body : nat -> sys -> sys) :
  (forall h s, adds p s (body h s)) ->
  forall rows s, adds p s (for_each_row rows body s).
Proof using Type.
  intros Hbody rows. unfold for_each_row.
  induction rows as [| r rows IH]; intros s; cbn [fold_left].
  - apply adds_refl.
  - eapply adds_trans; [apply Hbody | apply IH].
Qed.

(** Calls that cross to the serial channel. *)
Definition is_uart (c : call) : bool :=
  match c with
  | UART_QueueSend _ | UART_QueueSend_P _ | UART_PrintChar _
  | UART_PrintHex8 _ | UART_WaitForSendDone | UART_DoneWithLine => true
  | _ => false
  end.

Section LogFrame.

Variable p : call -> bool.

Hypothesis p_send_P : forall m, p (UART_QueueSend_P m) = true.
Hypothesis p_char : forall v, 32 <= v <= 126 -> p (UART_PrintChar v) = true.
Hypothesis p_hex : forall v, p (UART_PrintHex8 v) = true.

Lemma adds_print_raw (rawline : list Z) :
  forall s, adds p s (print_raw rawline s).
Proof using p_char p_hex.
  induction rawline as [| c rest IH]; intros s; cbn [print_raw].
  - apply adds_refl.
  - destruct (c =? 0); [apply adds_refl |].
    destruct (Z.leb_spec 32 c), (Z.geb_spec 126 c); cbn [andb];
      (eapply adds_trans; [| apply IH]).
    + apply adds_invoke, p_char. lia.
    + repeat (eapply adds_trans; [| apply adds_invoke]);
        [apply adds_refl | apply p_char; lia | apply p_hex
         | apply p_char; lia].
    + repeat (eapply adds_trans; [| apply adds_invoke]);
        [apply adds_refl | apply p_char; lia | apply p_hex
         | apply p_char; lia].
    + repeat (eapply adds_trans; [| apply adds_invoke]);
        [apply adds_refl | apply p_char; lia | apply p_hex
         | apply p_char; lia].
Qed.

Lemma adds_PrintShortHelp (rawline : list Z) (s : sys) :
  adds p s (PrintShortHelp rawline s).
Proof using p_send_P p_char p_hex.
  unfold PrintShortHelp.
  eapply adds_trans; [| apply adds_invoke, p_send_P].
  eapply adds_trans; [| apply adds_print_raw].
  apply adds_invoke, p_send_P.
Qed.

Hypothesis p_help : forall h, p (GetHelpScreen h) = true.

Lemma adds_help_command (lut : list event_row) (s : sys) :
  adds p s (help_command lut s).
Proof using p_send_P p_help.
  unfold help_command.
  repeat (eapply adds_trans; [| apply adds_invoke, p_send_P]).
  eapply adds_trans; [| apply adds_for_distinct].
  - repeat (eapply adds_trans; [| apply adds_invoke, p_send_P]).
    apply adds_refl.
  - intros h st.
    eapply adds_trans; [| apply adds_invoke, p_send_P].
    eapply adds_trans; [| apply adds_invoke, p_help].
    apply adds_invoke, p_send_P.
Qed.

Hypothesis p_wait : p UART_WaitForSendDone = true.
Hypothesis p_user_init : p UserInitState = true.
Hypothesis p_init : forall h, p (InitState h) = true.

Lemma adds_ReInitState (s : sys) : adds p s (ReInitState s).
Proof using p_wait p_user_init p_init.
  unfold ReInitState. cbv zeta.
  set (s4 := invoke UserInitState _).
  assert (H4 : adds p s s4).
  { subst s4.
    eapply adds_trans; [| apply adds_invoke, p_user_init].
    eapply adds_trans; [| apply adds_same; reflexivity].
    eapply adds_trans; [| apply adds_invoke, p_wait].
    apply adds_same. reflexivity. }
  destruct (event_lut (app s4)) as [lut |]; [| exact H4].
  eapply adds_trans; [exact H4 |].
  apply adds_for_each. intros h st. apply adds_invoke, p_init.
Qed.

Hypothesis p_debug_mem : p DebugMemReport = true.
Hypothesis p_debug_ticks : p DebugTickReport = true.

(** A built-in command. *)
Lemma adds_builtin (lut : list event_row) (thisline thiscommand : list Z)
      (arg1 arg2 nargs : Z) (s : sys) :
  is_builtin thiscommand = true ->
  adds p s (handle_command lut thisline thiscommand arg1 arg2 nargs s).
Proof using p_send_P p_char p_hex p_help p_wait p_user_init p_init
            p_debug_mem p_debug_ticks.
  intros Hb. unfold handle_command. unfold is_builtin in Hb.
  destruct (CommandMatch thiscommand Parser.cmd_help);
    [apply adds_help_command |].
  destruct (CommandMatch thiscommand Parser.cmd_ident);
    [apply adds_invoke, p_send_P |].
  destruct (CommandMatch thiscommand Parser.cmd_reset);
    [apply adds_ReInitState |].
  destruct (CommandMatch thiscommand Parser.cmd_echo).
  { destruct (1 =? nargs);
      [apply adds_same; reflexivity | apply adds_PrintShortHelp]. }
  destruct (NEURAPP_DEBUG_AVAILABLE
            && CommandMatch thiscommand Parser.cmd_debug_mem);
    [apply adds_invoke, p_debug_mem |].
  destruct (NEURAPP_DEBUG_AVAILABLE
            && CommandMatch thiscommand Parser.cmd_debug_evticks);
    [apply adds_invoke, p_debug_ticks |].
  discriminate.
Qed.

Hypothesis p_handle : forall h o a b, p (HandleCommand h o a b) = true.

Lemma adds_dispatch (lut : list event_row) (thisline thiscommand : list Z)
      (arg1 arg2 nargs : Z) (s : sys) :
  adds p s (snd (dispatch lut thiscommand arg1 arg2 nargs s)).
Proof using p_handle.
  rewrite dispatch_first_match.
  destruct (first_match thiscommand (entries (live_rows lut)))
    as [[h e] |]; [| apply adds_refl].
  destruct (nargs =? argcount e); [| apply adds_refl].
  apply adds_invoke, p_handle.
Qed.

Lemma adds_handle_command (lut : list event_row)
      (thisline thiscommand : list Z) (arg1 arg2 nargs : Z) (s : sys) :
  adds p s (handle_command lut thisline thiscommand arg1 arg2 nargs s).
Proof using p_send_P p_char p_hex p_help p_wait p_user_init p_init
            p_debug_mem p_debug_ticks p_handle.
  destruct (is_builtin thiscommand) eqn:Hb; [now apply adds_builtin |].
  unfold handle_command. unfold is_builtin in Hb.
  repeat (apply orb_false_iff in Hb as [Hb ?]).
  repeat match goal with
         | H : _ = false |- _ => rewrite H; clear H
         end.
  pose proof (adds_dispatch lut thisline thiscommand arg1 arg2 nargs s)
    as Hd.
  destruct (dispatch lut thiscommand arg1 arg2 nargs s) as [bad s'].
  cbn [snd] in Hd. destruct bad; [| exact Hd].
  eapply adds_trans; [exact Hd | apply adds_PrintShortHelp].
Qed.

Hypothesis p_send : forall m, p (UART_QueueSend m) = true.

(** The command branch of a polling cycle, up to the release of the
    line. *)
Lemma adds_poll_command (lut : list event_row) (line : list Z) (s : sys) :
  exists s3, poll_command lut (Some line) s = invoke UART_DoneWithLine s3 /\
             adds p s s3.
Proof using p_send_P p_char p_hex p_help p_wait p_user_init p_init
            p_debug_mem p_debug_ticks p_handle p_send.
  unfold poll_command.
  set (s1 := if echo_state (app s) then _ else s).
  assert (H1 : adds p s s1).
  { subst s1. destruct (echo_state (app s)); [| apply adds_refl].
    eapply adds_trans; [| apply adds_invoke, p_send_P].
    apply adds_invoke, p_send. }
  destruct (Parser.ParseInputLine line (parser (app s1))) as [ok p1].
  set (s2 := with_app (set_parser p1) s1).
  assert (H2 : adds p s s2)
    by (eapply adds_trans; [exact H1 | apply adds_same; reflexivity]).
  eexists. split; [reflexivity |].
  destruct ok; [| eapply adds_trans; [exact H2 | apply adds_PrintShortHelp]].
  destruct (Parser.WasNewCommand (parser (app s2)))
    as [[[[[cmd a1] a2] n] |] p2].
  - eapply adds_trans; [| apply adds_handle_command].
    eapply adds_trans; [exact H2 | apply adds_same; reflexivity].
  - eapply adds_trans; [exact H2 | apply adds_same; reflexivity].
Qed.

Hypothesis p_make : forall h slot, p (MakeReportString h slot) = true.

Lemma adds_fill_while (fuel : nat) (h : nat) :
  forall s, adds p s (fill_while fuel h s).
Proof using p_make.
  induction fuel as [| n IH]; intros s; cbn [fill_while].
  - apply adds_refl.
  - destruct (report_count (queue (app s)) <? NEURAPP_REPORT_QUEUE_LENGTH);
      [| apply adds_refl].
    destruct (generate h (slot_at (queue (app s))
                                  (report_write_ptr (queue (app s))))
                       (wld s)) as [made buf].
    assert (H1 : adds p s
              (invoke (MakeReportString h (report_write_ptr (queue (app s))))
                 (with_app (set_queue (store buf (queue (app s)))) s))).
    { eapply adds_trans; [| apply adds_invoke, p_make].
      apply adds_same. reflexivity. }
    destruct made; [| exact H1].
    eapply adds_trans; [exact H1 |].
    eapply adds_trans; [| apply IH]. apply adds_same. reflexivity.
Qed.

(** The report part of a polling cycle. *)
Lemma adds_report (lut : list event_row) (busy : bool) (s : sys) :
  adds p s (report_fill lut (report_send busy s)).
Proof using p_make p_send.
  apply (adds_trans p s (report_send busy s)).
  - unfold report_send. cbv zeta.
    destruct (0 <? report_count (queue (app s))); [| apply adds_refl].
    destruct (negb busy); [| apply adds_refl].
    set (s1 := if transmit_running (queue (app s))
               then with_app (fun a => set_queue (retire (queue a)) a) s
               else s).
    assert (H1 : adds p s s1).
    { subst s1. destruct (transmit_running (queue (app s)));
        [apply adds_same; reflexivity | apply adds_refl]. }
    destruct (0 <? report_count (queue (app s1))); [| exact H1].
    eapply adds_trans; [exact H1 |].
    eapply adds_trans; [| apply adds_invoke, p_send].
    apply adds_same. reflexivity.
  - unfold report_fill. apply adds_for_distinct.
    intros h st. apply adds_fill_while.
Qed.

End LogFrame.

(** *** Counting calls *)

Definition calls (q : call -> bool) (l : list call) : nat :=
  length (List.filter q l).

Lemma calls_app (q : call -> bool) (a b : list call) :
  calls q (a ++ b) = (calls q a + calls q b)%nat.
Proof using Type. unfold calls. now rewrite List.filter_app, length_app. Qed.

Lemma calls_single (q : call -> bool) (c : call) :
  calls q [c] = if q c then 1%nat else 0%nat.
Proof using Type. unfold calls. cbn. now destruct (q c). Qed.

Lemma calls_none (p q : call -> bool) (d : list call) :
  (forall c, p c = true -> q c = false) ->
  forallb p d = true -> calls q d = 0%nat.
Proof using Type.
  intros Hpq. unfold calls. induction d as [| c d IH]; cbn; [reflexivity |].
  intros Hd. apply andb_true_iff in Hd as [Hc Hd].
  rewrite (Hpq c Hc). now apply IH.
Qed.

Lemma calls_adds (p q : call -> bool) (s s' : sys) :
  (forall c, p c = true -> q c = false) ->
  adds p s s' -> calls q (log s') = calls q (log s).
Proof using Type.
  intros Hpq (d & -> & Hd). rewrite calls_app, (calls_none p q d Hpq Hd).
  lia.
Qed.

Definition is_init_hardware (h : nat) (c : call) : bool :=
  match c with InitHardware h' => Nat.eqb h' h | _ => false end.
Definition is_handle_polling (h : nat) (c : call) : bool :=
  match c with HandlePolling h' => Nat.eqb h' h | _ => false end.
Definition is_save_report (h : nat) (c : call) : bool :=
  match c with SaveReportState_Fast h' => Nat.eqb h' h | _ => false end.
Definition is_handle_command (c : call) : bool :=
  match c with HandleCommand _ _ _ _ => true | _ => false end.
Definition is_done_with_line (c : call) : bool :=
  match c with UART_DoneWithLine => true | _ => false end.

(** *** Hooks guarded against adjacent duplicates *)

(** The handlers a loop with the guard
    [(1 > hidx) || (handler[hidx] != handler[hidx-1])] calls, in order. *)
Fixpoint distinct_from (prev : option nat) (hs : list nat) : list nat :=
  match hs with
  | [] => []
  | h :: rest =>
      match prev with
      | Some h' => if Nat.eqb h h' then distinct_from (Some h) rest
                   else h :: distinct_from (Some h) rest
      | None => h :: distinct_from (Some h) rest
      end
  end.

Definition occurs (h : nat) (hs : list nat) : nat :=
  length (List.filter (fun x => Nat.eqb x h) hs).

(** The number of blocks of adjacent rows that hold handler [h]. *)
Definition blocks (h : nat) (hs : list nat) : nat :=
  occurs h (distinct_from None hs).

Lemma for_distinct_log (f : nat -> call)
      (rows : list (nat * option (list cmd_row))) :
  forall prev s,
  log (for_distinct prev rows (fun h => invoke (f h)) s)
  = log s ++ map f (distinct_from prev (map fst rows)).
Proof using Type.
  induction rows as [| [h cl] rows IH]; intros prev s;
    cbn [for_distinct distinct_from map fst].
  - now rewrite app_nil_r.
  - rewrite IH. destruct prev as [h' |]; [destruct (Nat.eqb h h') |];
      cbn [invoke log map]; now rewrite <- ?app_assoc.
Qed.

Lemma calls_hook (q : call -> bool) (f : nat -> call) (h : nat)
      (hs : list nat) :
  (forall x, q (f x) = Nat.eqb x h) ->
  calls q (map f hs) = occurs h hs.
Proof using Type.
  intros Hq. unfold calls, occurs.
  induction hs as [| x hs IH]; cbn; [reflexivity |].
  rewrite Hq. destruct (Nat.eqb x h); cbn; now rewrite IH.
Qed.

Lemma occurs_app (h : nat) (a b : list nat) :
  occurs h (a ++ b) = (occurs h a + occurs h b)%nat.
Proof using Type.
  unfold occurs. now rewrite List.filter_app, length_app.
Qed.

Lemma occurs_cons (h x : nat) (l : list nat) :
  occurs h (x :: l) = ((if Nat.eqb x h then 1 else 0) + occurs h l)%nat.
Proof using Type.
  unfold occurs. cbn [List.filter]. now destruct (Nat.eqb x h).
Qed.

Lemma distinct_cons_ne (x h' : nat) (l : list nat) :
  x <> h' ->
  distinct_from (Some h') (x :: l) = x :: distinct_from (Some x) l.
Proof using Type.
  intros Hne. change (distinct_from (Some h') (x :: l))
    with (if Nat.eqb x h' then distinct_from (Some x) l
          else x :: distinct_from (Some x) l).
  now destruct (Nat.eqb_spec x h').
Qed.

Lemma distinct_absent (h : nat) (hs : list nat) :
  forall prev, ~ In h hs -> occurs h (distinct_from prev hs) = 0%nat.
Proof using Type.
  induction hs as [| x hs IH]; intros prev Hn; cbn [distinct_from].
  - reflexivity.
  - assert (Hx : Nat.eqb x h = false).
    { apply Nat.eqb_neq. intros ->. apply Hn. now left. }
    assert (Hrest : ~ In h hs) by (intros Hin; apply Hn; now right).
    destruct prev as [h' |]; [destruct (Nat.eqb x h') |];
      unfold occurs in *; cbn [List.filter]; rewrite ?Hx; now apply IH.
Qed.

Lemma distinct_first (h : nat) (hs : list nat) :
  forall prev, prev <> Some h -> In h hs ->
               (1 <= occurs h (distinct_from prev hs))%nat.
Proof using Type.
  induction hs as [| x hs IH]; intros prev Hp Hin; [destruct Hin |].
  cbn [distinct_from].
  destruct (Nat.eq_dec x h) as [-> | Hne].
  - assert (E : occurs h (h :: distinct_from (Some h) hs)
                = S (occurs h (distinct_from (Some h) hs))).
    { unfold occurs. cbn [List.filter]. now rewrite Nat.eqb_refl. }
    destruct prev as [h' |]; [| rewrite E; lia].
    destruct (Nat.eqb_spec h h') as [-> | _]; [congruence |].
    rewrite E. lia.
  - destruct Hin as [-> | Hin]; [congruence |].
    assert (Hx : Nat.eqb x h = false) by now apply Nat.eqb_neq.
    assert (IH' := IH (Some x) ltac:(congruence) Hin).
    destruct prev as [h' |]; [destruct (Nat.eqb x h') |]; auto;
      unfold occurs in *; cbn [List.filter]; rewrite Hx; exact IH'.
Qed.

Definition last_or (prev : option nat) (hs : list nat) : option nat :=
  match last hs with
  | Some x => Some x
  | None => prev
  end.

Lemma distinct_app (a b : list nat) :
  forall prev,
  distinct_from prev (a ++ b)
  = distinct_from prev a ++ distinct_from (last_or prev a) b.
Proof using Type.
  induction a as [| x a IH]; intros prev.
  - reflexivity.
  - assert (E : last_or prev (x :: a) = last_or (Some x) a).
    { unfold last_or. destruct a as [| y a]; [reflexivity |].
      rewrite last_cons. now destruct (last (y :: a)). }
    rewrite E. rewrite <- app_comm_cons.
    change (distinct_from prev (x :: a ++ b))
      with (match prev with
            | Some h' => if Nat.eqb x h'
                         then distinct_from (Some x) (a ++ b)
                         else x :: distinct_from (Some x) (a ++ b)
            | None => x :: distinct_from (Some x) (a ++ b)
            end).
    change (distinct_from prev (x :: a))
      with (match prev with
            | Some h' => if Nat.eqb x h'
                         then distinct_from (Some x) a
                         else x :: distinct_from (Some x) a
            | None => x :: distinct_from (Some x) a
            end).
    rewrite IH.
    destruct prev as [h' |]; [destruct (Nat.eqb x h') |]; reflexivity.
Qed.

Lemma last_or_not (h : nat) (prev : option nat) (hs : list nat) :
  prev <> Some h -> ~ In h hs -> last_or prev hs <> Some h.
Proof using Type.
  intros Hp Hn. unfold last_or.
  destruct (last hs) as [x |] eqn:El; [| exact Hp].
  intros [= ->]. apply Hn. apply last_Some in El as [l' ->].
  apply in_or_app. right. now left.
Qed.

Lemma distinct_block (h : nat) (k : nat) :
  forall prev, prev <> Some h ->
  distinct_from prev (replicate (S k) h) = [h].
Proof using Type.
  intros prev Hp. cbn [replicate distinct_from].
  assert (E : forall n, distinct_from (Some h) (replicate n h) = []).
  { induction n as [| n IHn]; cbn; [reflexivity |].
    now rewrite Nat.eqb_refl. }
  destruct prev as [h' |]; [| now rewrite E].
  destruct (Nat.eqb_spec h h') as [-> | _]; [congruence | now rewrite E].
Qed.

Lemma last_or_block (h k : nat) (prev : option nat) :
  last_or prev (replicate (S k) h) = Some h.
Proof using Type.
  unfold last_or.
  replace (replicate (S k) h) with (replicate k h ++ [h]).
  - now rewrite last_snoc.
  - clear. induction k as [| k IH]; cbn in *; [reflexivity |].
    now rewrite IH.
Qed.

(** The handlers' rows form one block. *)
Lemma blocks_contiguous (h k : nat) (pre post : list nat) :
  ~ In h pre -> ~ In h post ->
  blocks h (pre ++ replicate (S k) h ++ post) = 1%nat.
Proof using Type.
  intros Hpre Hpost. unfold blocks.
  rewrite !distinct_app, !occurs_app.
  rewrite (distinct_absent h pre None Hpre).
  rewrite distinct_block by (apply last_or_not; [discriminate | exact Hpre]).
  rewrite last_or_block, (distinct_absent h post _ Hpost).
  unfold occurs. cbn. now rewrite Nat.eqb_refl.
Qed.

(** Two rows of one handler with other handlers' rows between them. *)
Lemma blocks_separated (h : nat) (pre mid post : list nat) :
  mid <> [] -> ~ In h mid ->
  (2 <= blocks h (pre ++ h :: mid ++ h :: post))%nat.
Proof using Type.
  intros Hne Hmid. unfold blocks.
  replace (pre ++ h :: mid ++ h :: post)
    with ((pre ++ [h]) ++ mid ++ h :: post) by now rewrite <- app_assoc.
  rewrite distinct_app, occurs_app.
  assert (H1 : (1 <= occurs h (distinct_from None (pre ++ [h])))%nat).
  { apply distinct_first; [discriminate |].
    apply in_or_app. right. now left. }
  assert (El : last_or None (pre ++ [h]) = Some h)
    by (unfold last_or; now rewrite last_snoc).
  rewrite El.
  destruct mid as [| m mid]; [congruence |].
  assert (Hm : m <> h) by (intros ->; apply Hmid; now left).
  assert (H2 : (1 <= occurs h (distinct_from (Some h)
                                 ((m :: mid) ++ h :: post)))%nat).
  { rewrite <- app_comm_cons, distinct_cons_ne by exact Hm.
    assert (H3 : (1 <= occurs h (distinct_from (Some m)
                                   (mid ++ h :: post)))%nat).
    { apply distinct_first; [congruence |].
      apply in_or_app. right. now left. }
    rewrite occurs_cons. lia. }
  lia.
Qed.

Lemma distinct_at_most (h : nat) (hs : list nat) :
  forall prev, (occurs h (distinct_from prev hs) <= occurs h hs)%nat.
Proof using Type.
  induction hs as [| x hs IH]; intros prev; [reflexivity |].
  rewrite (occurs_cons h x hs). specialize (IH (Some x)).
  destruct prev as [h' |].
  - destruct (Nat.eq_dec x h') as [-> | Hne].
    + change (distinct_from (Some h') (h' :: hs))
        with (if Nat.eqb h' h' then distinct_from (Some h') hs
              else h' :: distinct_from (Some h') hs).
      rewrite Nat.eqb_refl. lia.
    + rewrite distinct_cons_ne by exact Hne. rewrite occurs_cons. lia.
  - change (distinct_from None (x :: hs))
      with (x :: distinct_from (Some x) hs).
    rewrite occurs_cons. lia.
Qed.

Lemma rows_of_occurs (h : nat) (rows : list (nat * option (list cmd_row))) :
  rows_of h rows = occurs h (map fst rows).
Proof using Type.
  unfold rows_of, occurs. induction rows as [| r rows IH]; cbn;
    [reflexivity |].
  destruct (Nat.eqb (fst r) h); cbn; now rewrite IH.
Qed.

(** Calls made outside the three loops over the registry rows that
    [DoInitialSetup] and [DoPolling] run for the hooks counted below. *)
Definition not_loop_hook (c : call) : bool :=
  match c with
  | InitHardware _ | HandlePolling _ | SaveReportState_Fast _
  | UserInitHardware | UserUpdatePoll => false
  | _ => true
  end.

(** X11.  Hooks and repeated handlers.  A handler may occupy several rows
    of the registry.  [DoInitialSetup] calls its [InitHardware], and every
    polling cycle its [HandlePolling], once for each block of adjacent
    rows the handler occupies; [SaveReportState_Fast] is called once for
    each row.  So a registered handler gets each guarded hook at least
    once; exactly once when all its rows are adjacent; and twice or more,
    per setup or cycle, when rows of other handlers separate two of its
    rows. *)
Theorem hooks_once_per_block
        (lut : list event_row) (h : nat) (identity help : list Z)
        (thisline : option (list Z)) (busy : bool) (s s' : sys) :
  let hs := map fst (live_rows lut) in
  calls (is_init_hardware h)
        (log (DoInitialSetup identity help (Some lut) s))
  = (calls (is_init_hardware h) (log s) + blocks h hs)%nat /\
  (event_lut (app s) = Some lut ->
   DoPolling thisline busy s = Some s' ->
   calls (is_handle_polling h) (log s')
   = (calls (is_handle_polling h) (log s) + blocks h hs)%nat /\
   calls (is_save_report h) (log s')
   = (calls (is_save_report h) (log s) + occurs h hs)%nat) /\
  (In h hs -> (1 <= blocks h hs)%nat) /\
  (blocks h hs <= occurs h hs)%nat /\
  (forall pre k post,
     hs = pre ++ replicate (S k) h ++ post ->
     ~ In h pre -> ~ In h post -> blocks h hs = 1%nat) /\
  (forall pre mid post,
     hs = pre ++ h :: mid ++ h :: post ->
     mid <> [] -> ~ In h mid -> (2 <= blocks h hs)%nat).
Proof using Type.
  intros hs.
  assert (Hframe : forall q : call -> bool,
            (forall c, not_loop_hook c = true -> q c = false) ->
            forall a b, adds not_loop_hook a b ->
                        calls q (log b) = calls q (log a)).
  { intros q Hq a b. now apply calls_adds. }
  assert (Hq1 : forall c, not_loop_hook c = true ->
                          is_init_hardware h c = false)
    by (intros []; cbn; congruence).
  assert (Hq2 : forall c, not_loop_hook c = true ->
                          is_handle_polling h c = false)
    by (intros []; cbn; congruence).
  assert (Hq3 : forall c, not_loop_hook c = true ->
                          is_save_report h c = false)
    by (intros []; cbn; congruence).
  split; [| split; [| split; [| split; [| split]]]].
  - unfold DoInitialSetup. cbv zeta.
    rewrite (Hframe _ Hq1 _ _ (adds_ReInitState not_loop_hook
                                 eq_refl eq_refl (fun _ => eq_refl) _)).
    rewrite for_distinct_log, calls_app. cbn [invoke with_app log].
    rewrite calls_app, calls_single. cbn [is_init_hardware].
    rewrite (calls_hook _ InitHardware h); [fold hs; unfold blocks; lia |].
    reflexivity.
  - intros Hlut Hpoll. unfold DoPolling in Hpoll. rewrite Hlut in Hpoll.
    injection Hpoll as <-.
    set (s1 := poll_command lut thisline s).
    assert (H1 : forall q, (forall c, not_loop_hook c = true -> q c = false)
                           -> calls q (log s1) = calls q (log s)).
    { intros q Hq. subst s1. destruct thisline as [line |]; [| reflexivity].
      destruct (adds_poll_command not_loop_hook
                  (fun _ => eq_refl) (fun _ _ => eq_refl) (fun _ => eq_refl)
                  (fun _ => eq_refl) eq_refl eq_refl (fun _ => eq_refl)
                  eq_refl eq_refl (fun _ _ _ _ => eq_refl)
                  (fun _ => eq_refl) lut line s) as (s3 & -> & H3).
      cbn [invoke log]. rewrite calls_app, (Hframe q Hq _ _ H3).
      rewrite calls_single, (Hq UART_DoneWithLine eq_refl). lia. }
    set (s2 := for_each_row (live_rows lut)
                 (fun h0 => invoke (SaveReportState_Fast h0)) s1).
    assert (E2 : log s2 = log s1 ++ map (fun r => SaveReportState_Fast (fst r))
                                        (live_rows lut))
      by apply log_for_each_invoke.
    set (s4 := report_fill lut (report_send busy s2)).
    assert (H4 : adds not_loop_hook s2 s4)
      by (apply adds_report; intros; reflexivity).
    cbn [invoke log]. rewrite for_distinct_log, !calls_app, !calls_single.
    cbn [is_handle_polling is_save_report]. fold s4. rewrite !(Hframe _ Hq2 _ _ H4), !(Hframe _ Hq3 _ _ H4).
    rewrite E2, !calls_app, (H1 _ Hq2), (H1 _ Hq3).
    rewrite <- (map_map fst SaveReportState_Fast).
    rewrite (calls_hook (is_handle_polling h) HandlePolling h)
      by reflexivity.
    rewrite (calls_hook (is_save_report h) SaveReportState_Fast h)
      by reflexivity.
    fold hs. fold (blocks h hs).
    assert (Z1 : calls (is_handle_polling h)
                   (map SaveReportState_Fast hs) = 0%nat).
    { unfold calls. induction hs; cbn; auto. }
    assert (Z2 : calls (is_save_report h)
                   (map HandlePolling (distinct_from None hs)) = 0%nat).
    { unfold calls. induction (distinct_from None hs); cbn; auto. }
    rewrite Z1, Z2. cbn. lia.
  - intros Hin. apply distinct_first; [discriminate | exact Hin].
  - apply distinct_at_most.
  - intros pre k post -> Hpre Hpost. now apply blocks_contiguous.
  - intros pre mid post -> Hne Hmid. now apply blocks_separated.
Qed.

Lemma forallb_Forall_false (q : call -> bool) (d : list call) :
  forallb (fun c => negb (q c)) d = true ->
  Forall (fun c => q c = false) d.
Proof using Type.
  induction d as [| c d IH]; cbn; [constructor |].
  intros H. apply andb_true_iff in H as [Hc Hd].
  constructor; [now apply negb_true_iff | now apply IH].
Qed.

(** X12.  Built-in names shadow the registry.  A command whose name is
    that of a built-in (HLP, IDQ, INI, ECH, and ZZM, ZZE with the
    debugging commands compiled in) is served by the framework and never
    reaches a handler: whatever the registry lists under that name, with
    whatever argument count, no [HandleCommand] is called. *)
Theorem builtin_names_shadow_the_registry
        (lut : list event_row) (thisline thiscommand : list Z)
        (arg1 arg2 nargs : Z) (s : sys) :
  is_builtin thiscommand = true ->
  exists d,
    log (handle_command lut thisline thiscommand arg1 arg2 nargs s)
    = log s ++ d /\
    Forall (fun c => is_handle_command c = false) d.
Proof using Type.
  intros Hb.
  destruct (adds_builtin (fun c => negb (is_handle_command c))
              (fun _ => eq_refl) (fun _ _ => eq_refl) (fun _ => eq_refl)
              (fun _ => eq_refl) eq_refl eq_refl (fun _ => eq_refl)
              eq_refl eq_refl lut thisline thiscommand arg1 arg2 nargs s Hb)
    as (d & E & Hd).
  exists d. split; [exact E | now apply forallb_Forall_false].
Qed.

(** X13.  Every line taken from the UART is given back exactly once.  A
    polling cycle that found a line calls [UART_DoneWithLine] once, after
    everything the command caused (echo, parsing, built-in or handler,
    short help), whether the line was empty, valid or rejected; a cycle
    that found no line does not call it. *)
Theorem fetched_line_is_released_once
        (lut : list event_row) (thisline : option (list Z)) (busy : bool)
        (s s' : sys) :
  event_lut (app s) = Some lut ->
  DoPolling thisline busy s = Some s' ->
  calls is_done_with_line (log s')
  = (calls is_done_with_line (log s)
     + match thisline with Some _ => 1 | None => 0 end)%nat /\
  match thisline with
  | Some line =>
      exists d, log (poll_command lut thisline s)
                = log s ++ d ++ [UART_DoneWithLine] /\
                Forall (fun c => is_done_with_line c = false) d
  | None => poll_command lut thisline s = s
  end.
Proof using Type.
  intros Hlut Hpoll. unfold DoPolling in Hpoll. rewrite Hlut in Hpoll.
  injection Hpoll as <-.
  set (p := fun c => negb (is_done_with_line c)).
  assert (Hq : forall c, p c = true -> is_done_with_line c = false)
    by (intros c; subst p; cbn; apply negb_true_iff).
  set (s1 := poll_command lut thisline s).
  assert (H1 : match thisline with
               | Some line =>
                   exists d, log s1 = log s ++ d ++ [UART_DoneWithLine] /\
                             forallb p d = true
               | None => s1 = s
               end).
  { subst s1. destruct thisline as [line |]; [| reflexivity].
    destruct (adds_poll_command p
                (fun _ => eq_refl) (fun _ _ => eq_refl) (fun _ => eq_refl)
                (fun _ => eq_refl) eq_refl eq_refl (fun _ => eq_refl)
                eq_refl eq_refl (fun _ _ _ _ => eq_refl)
                (fun _ => eq_refl) lut line s) as (s3 & -> & d & E & Hd).
    exists d. cbn [invoke log]. rewrite E, <- app_assoc. auto. }
  set (s2 := for_each_row (live_rows lut)
               (fun h0 => invoke (SaveReportState_Fast h0)) s1).
  assert (H2 : adds p s1 s2)
    by (apply adds_for_each; intros; now apply adds_invoke).
  set (s4 := report_fill lut (report_send busy s2)).
  assert (H4 : adds p s2 s4) by (apply adds_report; intros; reflexivity).
  set (s5 := for_distinct None (live_rows lut)
               (fun h0 => invoke (HandlePolling h0)) s4).
  assert (H5 : adds p s4 s5)
    by (apply adds_for_distinct; intros; now apply adds_invoke).
  assert (H6 : adds p s1 (invoke UserUpdatePoll s5)).
  { eapply adds_trans; [exact H2 |]. eapply adds_trans; [exact H4 |].
    eapply adds_trans; [exact H5 |]. now apply adds_invoke. }
  rewrite (calls_adds p _ _ _ Hq H6).
  destruct thisline as [line |].
  - destruct H1 as (d & E & Hd). split.
    + rewrite E, !calls_app, (calls_none p _ d Hq Hd), calls_single.
      cbn. lia.
    + exists d. split; [exact E |]. now apply forallb_Forall_false.
  - rewrite H1. split; [lia | reflexivity].
Qed.

(** *** The echo command *)

(** The calls [PrintShortHelp] makes for a line. *)
Fixpoint raw_calls (rawline : list Z) : list call :=
  match rawline with
  | [] => []
  | thischar :: rest =>
      if thischar =? 0 then []
      else if (32 <=? thischar) && (126 >=? thischar) then
        UART_PrintChar thischar :: raw_calls rest
      else
        UART_PrintChar 60 :: UART_PrintHex8 thischar :: UART_PrintChar 62
          :: raw_calls rest
  end.

Definition short_help_calls (rawline : list Z) : list call :=
  UART_QueueSend_P short_help_prefix :: raw_calls rawline
    ++ [UART_QueueSend_P short_help_suffix].

Lemma print_raw_log (rawline : list Z) :
  forall s, log (print_raw rawline s) = log s ++ raw_calls rawline.
Proof using Type.
  induction rawline as [| c rest IH]; intros s; cbn [print_raw raw_calls].
  - now rewrite app_nil_r.
  - destruct (c =? 0); [now rewrite app_nil_r |].
    destruct ((32 <=? c) && (126 >=? c)); rewrite IH; cbn [invoke log];
      now rewrite <- !app_assoc.
Qed.

Lemma PrintShortHelp_log (rawline : list Z) (s : sys) :
  log (PrintShortHelp rawline s) = log s ++ short_help_calls rawline.
Proof using Type.
  unfold PrintShortHelp, short_help_calls. cbn [invoke log].
  rewrite print_raw_log. cbn [invoke log].
  now rewrite <- !app_assoc.
Qed.

Lemma print_raw_app (rawline : list Z) :
  forall s, app (print_raw rawline s) = app s.
Proof using Type.
  induction rawline as [| c rest IH]; intros s; cbn [print_raw].
  - reflexivity.
  - destruct (c =? 0); [reflexivity |].
    destruct ((32 <=? c) && (126 >=? c)); now rewrite IH.
Qed.

Lemma PrintShortHelp_app (rawline : list Z) (s : sys) :
  app (PrintShortHelp rawline s) = app s.
Proof using Type.
  unfold PrintShortHelp. cbn [invoke app]. now rewrite print_raw_app.
Qed.

Lemma echo_name_matches :
  CommandMatch Parser.cmd_echo Parser.cmd_help = false /\
  CommandMatch Parser.cmd_echo Parser.cmd_ident = false /\
  CommandMatch Parser.cmd_echo Parser.cmd_reset = false /\
  CommandMatch Parser.cmd_echo Parser.cmd_echo = true.
Proof using Type. repeat split; reflexivity. Qed.

(** What the command branch does before anything depends on the
    command: the echo. *)
Definition echo_calls (echo : bool) (line : list Z) : list call :=
  if echo then [UART_QueueSend line; UART_QueueSend_P crlf] else [].

(** X14.  The echo command from the wire to the flag.  A line that
    consists of ECH in any mix of cases and one decimal numeral, [ECH n],
    sets the echo flag to "[n] modulo 2^16 is not zero" (so 65536 switches
    the echo off like 0), sends nothing but the echo of the line itself,
    which still follows the flag as it was before, and releases the line.
    ECH without a numeral is answered with the short help and leaves the
    flag alone. *)
Theorem echo_command_switches_echo
        (lut : list event_row) (ws0 ls ws1 n1 ws2 : list Z) (s : sys) :
  Parser.whites ws0 -> map Parser.to_upper ls = Parser.cmd_echo ->
  Parser.whites ws1 -> ws1 <> [] ->
  Parser.numeral n1 -> n1 <> [] -> Parser.whites ws2 ->
  let line := ws0 ++ ls ++ ws1 ++ n1 ++ ws2 in
  let s' := poll_command lut (Some line) s in
  let bare := ws0 ++ ls ++ ws2 in
  let s'' := poll_command lut (Some bare) s in
  echo_state (app s') = negb (Parser.number n1 =? 0) /\
  log s' = log s ++ echo_calls (echo_state (app s)) line
                 ++ [UART_DoneWithLine] /\
  echo_state (app s'') = echo_state (app s) /\
  log s'' = log s ++ echo_calls (echo_state (app s)) bare
                  ++ short_help_calls bare ++ [UART_DoneWithLine].
Proof using Type.
  intros Hw0 Hname Hw1 Hn1 Hd1 Hnd1 Hw2 line s' bare s''.
  destruct (Parser.named_opcode ls Parser.cmd_echo Hname eq_refl)
    as (Hls & Hlen & Eop).
  { repeat (apply Forall_cons_2; [cbn; lia |]). apply Forall_nil_2. }
  destruct echo_name_matches as (M1 & M2 & M3 & M4).
  assert (Hp1 : forall p, Parser.ParseInputLine line p
                = (true, Parser.mkParser true Parser.cmd_echo
                                         (Parser.number n1) 0 1)).
  { intros p. apply Parser.parse_grammar. rewrite <- Eop.
    now apply Parser.parses_arg1. }
  assert (Hp0 : forall p, Parser.ParseInputLine bare p
                = (true, Parser.mkParser true Parser.cmd_echo 0 0 0)).
  { intros p. apply Parser.parse_grammar. rewrite <- Eop.
    now apply Parser.parses_cmd. }
  subst s' s''. unfold poll_command. rewrite Hp1, Hp0.
  cbn [Parser.WasNewCommand Parser.have_command Parser.this_cmdname
       Parser.this_arg1 Parser.this_arg2 Parser.argsfound with_app app
       parser set_parser].
  unfold handle_command. rewrite M1, M2, M3, M4.
  cbn [Z.eqb Pos.eqb invoke log app].
  rewrite PrintShortHelp_log, PrintShortHelp_app.
  unfold echo_calls.
  destruct (echo_state (app s)) eqn:Eecho;
    cbn [invoke with_app log app echo_state set_echo set_parser];
    rewrite ?Eecho, <- ?app_assoc, ?app_nil_r; cbn [List.app];
    repeat split; reflexivity.
Qed.

End Framework.
End App.

(** *** A registry with one handler in two adjacent rows *)

Definition demo_effect (c : App.call) (w : unit) : unit := w.
Definition demo_generate (h : nat) (buf : list Z) (w : unit)
  : bool * list Z := (false, buf).
Definition demo_help (h : nat) : list Z := [].

Definition shared_lut : list App.event_row :=
  [App.mkRow (Some 7%nat) (Some [App.mkCmd (chars "AAA") 1 0;
                                 App.mkCmd (chars "") 0 (-1)]);
   App.mkRow (Some 7%nat) (Some [App.mkCmd (chars "BBB") 2 1;
                                 App.mkCmd (chars "") 0 (-1)]);
   App.mkRow None None].

Definition shared_sys : App.sys unit :=
  App.mkSys unit
    (App.mkApp (chars "id") (chars "help") (Some shared_lut)
               Parser.parser_new false
               (App.queue App.app_new) (App.stats App.app_new) false false)
    tt [].

Lemma soft_reset_inits_each_row_example :
  App.log unit (App.ReInitState unit demo_effect shared_sys)
  = App.log unit shared_sys
      ++ [App.UART_WaitForSendDone; App.UserInitState]
      ++ map (fun r => App.InitState (fst r)) (App.live_rows shared_lut) /\
  App.init_state_calls 7
    (App.log unit (App.ReInitState unit demo_effect shared_sys))
  = (App.init_state_calls 7 (App.log unit shared_sys)
     + App.rows_of 7 (App.live_rows shared_lut))%nat /\
  (2 <= App.rows_of 7 (App.live_rows shared_lut))%nat /\
  (forall (thiscommand : list Z) (arg1 arg2 nargs : Z) (e : App.cmd_row)
          (st : App.sys unit),
     App.first_match thiscommand
       (App.entries (App.live_rows
          ([] ++ [App.mkRow (Some 7%nat)
                    (Some [App.mkCmd (chars "AAA") 1 0;
                           App.mkCmd (chars "") 0 (-1)])]))) = None ->
     List.find (fun e => App.CommandMatch thiscommand (App.name e))
       (App.live_cmds [App.mkCmd (chars "BBB") 2 1;
                       App.mkCmd (chars "") 0 (-1)])
     = Some e ->
     nargs = App.argcount e ->
     App.dispatch unit demo_effect shared_lut thiscommand arg1 arg2 nargs st
     = (false,
        App.invoke unit demo_effect
          (App.HandleCommand 7 (App.opcode e) arg1 arg2) st)).
Proof.
  apply (App.soft_reset_inits_each_row unit demo_effect
           [] [App.mkRow None None] 7%nat
           (Some [App.mkCmd (chars "AAA") 1 0; App.mkCmd (chars "") 0 (-1)])
           [App.mkCmd (chars "BBB") 2 1; App.mkCmd (chars "") 0 (-1)]
           shared_sys).
  - constructor.
  - reflexivity.
Defined.

(** The claim that the handler is initialised exactly once per reset
    fails: with handler 7 in two adjacent rows, [ReInitState] calls its
    [InitState] twice, at setup and on the INI command alike, while
    [InitHardware] (whose loop skips repeated rows) is called once; the
    command BBB of the second row still reaches handler 7. *)
Lemma soft_reset_inits_shared_handler_twice :
  App.init_state_calls 7
    (App.log unit (App.ReInitState unit demo_effect shared_sys)) = 2%nat /\
  App.log unit
    (App.DoInitialSetup unit demo_effect (chars "id") (chars "help")
       (Some shared_lut) shared_sys)
  = [App.UserInitHardware; App.InitHardware 7; App.UART_WaitForSendDone;
     App.UserInitState; App.InitState 7; App.InitState 7] /\
  option_map (App.log unit)
    (App.DoPolling unit demo_effect demo_generate demo_help
       (Some (chars "INI")) false shared_sys)
  = Some [App.UART_WaitForSendDone; App.UserInitState;
          App.InitState 7; App.InitState 7; App.UART_DoneWithLine;
          App.SaveReportState_Fast 7; App.SaveReportState_Fast 7;
          App.MakeReportString 7 0; App.HandlePolling 7;
          App.UserUpdatePoll] /\
  option_map (App.log unit)
    (App.DoPolling unit demo_effect demo_generate demo_help
       (Some (chars "BBB 5")) false shared_sys)
  = Some [App.HandleCommand 7 2 5 0; App.UART_DoneWithLine;
          App.SaveReportState_Fast 7; App.SaveReportState_Fast 7;
          App.MakeReportString 7 0; App.HandlePolling 7;
          App.UserUpdatePoll].
Proof. vm_compute. repeat split; reflexivity. Qed.

Lemma dispatch_first_entry_decides_example :
  App.handle_command unit demo_effect demo_help shared_lut
    (chars "BBB 5") (chars "BBB") 5 0 1 shared_sys
  = match App.first_match (chars "BBB")
            (App.entries (App.live_rows shared_lut)) with
    | Some (h, e) =>
        if 1 =? App.argcount e
        then App.invoke unit demo_effect
               (App.HandleCommand h (App.opcode e) 5 0) shared_sys
        else App.PrintShortHelp unit demo_effect (chars "BBB 5") shared_sys
    | None => App.PrintShortHelp unit demo_effect (chars "BBB 5") shared_sys
    end /\
  (forall line busy,
     App.event_lut (App.app unit shared_sys) = Some shared_lut ->
     exists s', App.DoPolling unit demo_effect demo_generate demo_help
                  line busy shared_sys = Some s').
Proof.
  apply (App.dispatch_first_entry_decides unit demo_effect demo_generate
           demo_help shared_lut (chars "BBB 5") (chars "BBB") 5 0 1
           shared_sys).
  reflexivity.
Defined.

(** *** A generator that always has one more report *)

Definition greedy_generate (h : nat) (buf : list Z) (w : unit)
  : bool * list Z := (true, map (fun _ => 65) buf).

Lemma fresh_queue_inv : App.q_inv (App.queue (App.app unit shared_sys)).
Proof.
  constructor; simpl; try (vm_compute; intuition congruence).
  - repeat constructor.
  - intros i Hi. lia.
Qed.

Lemma report_queue_bounded_example :
  let s1 := App.report_send unit demo_effect false shared_sys in
  let s2 := App.report_fill unit demo_effect greedy_generate shared_lut s1 in
  App.q_inv (App.queue (App.app unit s2)) /\
  (forall line s',
     App.DoPolling unit demo_effect greedy_generate demo_help
       line false shared_sys = Some s' ->
     App.q_inv (App.queue (App.app unit s'))) /\
  (false = true -> s1 = shared_sys) /\
  (App.report_read_ptr (App.queue (App.app unit s2)) <>
   App.report_read_ptr (App.queue (App.app unit shared_sys)) ->
   false = false /\
   App.transmit_running (App.queue (App.app unit shared_sys)) = true) /\
  (App.report_count (App.queue (App.app unit s1)) <>
   App.report_count (App.queue (App.app unit shared_sys)) ->
   false = false /\
   App.transmit_running (App.queue (App.app unit shared_sys)) = true /\
   App.report_count (App.queue (App.app unit s1)) =
   App.report_count (App.queue (App.app unit shared_sys)) - 1) /\
  (App.log unit s1 = App.log unit shared_sys \/
   false = false /\
   App.log unit s1 =
   App.log unit shared_sys ++
   [App.UART_QueueSend
      (App.slot_at (App.queue (App.app unit s1))
         (App.report_read_ptr (App.queue (App.app unit s1))))]) /\
  (exists new : list App.call,
     App.log unit s2 = App.log unit s1 ++ new /\
     Forall (App.generator_on_free_slot (App.queue (App.app unit s1))) new) /\
  (App.report_count (App.queue (App.app unit s1)) =
   App.NEURAPP_REPORT_QUEUE_LENGTH -> s2 = s1) /\
  App.report_count (App.queue (App.app unit s1)) <=
  App.report_count (App.queue (App.app unit s2)) /\
  App.transmit_running (App.queue (App.app unit s2)) =
  App.transmit_running (App.queue (App.app unit s1)) /\
  (forall (h extra : nat) (st : App.sys unit),
   App.fill_while unit demo_effect greedy_generate
     (App.fill_fuel unit st + extra) h st =
   App.fill_while unit demo_effect greedy_generate
     (App.fill_fuel unit st) h st).
Proof.
  apply (App.report_queue_bounded unit demo_effect greedy_generate demo_help).
  - intros h buf w. simpl. apply length_map.
  - exact fresh_queue_inv.
Defined.

(** Three report cycles with the greedy generator and a free channel:
    the first fills the four slots and then stops asking (every further
    report of this cycle is dropped), each slot ending in NUL; the second
    starts sending slot 0 and finds no room; the third retires slot 0,
    starts sending slot 1 and refills slot 0. *)
Example greedy_cycles :
  let cycle := fun s =>
    App.report_fill unit demo_effect greedy_generate shared_lut
      (App.report_send unit demo_effect false s) in
  let q := fun s => App.queue (App.app unit s) in
  let c1 := cycle shared_sys in
  let c2 := cycle c1 in
  let c3 := cycle c2 in
  App.log unit c1
  = [App.MakeReportString 7 0; App.MakeReportString 7 1;
     App.MakeReportString 7 2; App.MakeReportString 7 3] /\
  (App.report_read_ptr (q c1), App.report_write_ptr (q c1),
   App.report_count (q c1)) = (0, 0, 4) /\
  map App.last_byte (App.reportqueue (q c1))
  = [Some 0; Some 0; Some 0; Some 0] /\
  (App.report_read_ptr (q c2), App.report_write_ptr (q c2),
   App.report_count (q c2), App.transmit_running (q c2)) = (0, 0, 4, true) /\
  (App.report_read_ptr (q c3), App.report_write_ptr (q c3),
   App.report_count (q c3), App.transmit_running (q c3)) = (1, 1, 4, true) /\
  skipn 5 (App.log unit c3)
  = [App.UART_QueueSend (App.slot_at (q c3) 1); App.MakeReportString 7 0].
Proof. vm_compute. repeat split; reflexivity. Qed.

(** Two rows name the command AAA, the first without arguments, the second
    with one.  "AAA 5" matches the first entry by name; its argument count
    is wrong, so the line is answered with the short help and the second
    row is never asked. *)
Definition shadowed_lut : list App.event_row :=
  [App.mkRow (Some 3%nat) (Some [App.mkCmd (chars "AAA") 1 0;
                                 App.mkCmd (chars "") 0 (-1)]);
   App.mkRow (Some 4%nat) (Some [App.mkCmd (chars "AAA") 9 1;
                                 App.mkCmd (chars "") 0 (-1)]);
   App.mkRow None None].

Example first_entry_shadows_later_rows :
  App.log unit
    (App.handle_command unit demo_effect demo_help shadowed_lut
       (chars "AAA 5") (chars "AAA") 5 0 1 shared_sys)
  = App.log unit
      (App.PrintShortHelp unit demo_effect (chars "AAA 5") shared_sys) /\
  App.log unit
    (App.handle_command unit demo_effect demo_help shadowed_lut
       (chars "AAA") (chars "AAA") 0 0 0 shared_sys)
  = [App.HandleCommand 3 1 0 0].
Proof. vm_compute. split; reflexivity. Qed.

(** ** Hexadecimal rendering (neuravr-util.cpp) *)

Module Util.

Definition hexdigits : list Z := chars "0123456789abcdef".

(** Locals of the loop of [UTIL_WriteHex]. *)
Record hex_loop := mkHex {
  hx_buffer : list Z;
  hx_data : Z;      (* [uint32_t] *)
  hx_bidx : Z       (* [uint8_t] *)
}.

(** [bidx--; buffer[bidx] = hexdigits[data & 0x0f]; data >>= 4;] *)
Definition hex_body (st : hex_loop) (didx : nat) : hex_loop :=
  let bidx := (hx_bidx st - 1) mod 256 in
  mkHex (poke bidx
              (default 0 (hexdigits !! Z.to_nat (Z.land (hx_data st) 15)))
              (hx_buffer st))
        (Z.shiftr (hx_data st) 4)
        bidx.

(** [UTIL_WriteHex(buffer, data, digits)]; the result is the buffer. *)
Definition UTIL_WriteHex (buffer : list Z) (data : Z) (digits : Z)
  : list Z :=
  hx_buffer (fold_left hex_body (seq 0 (Z.to_nat digits))
                       (mkHex buffer data digits)).

(** The character for a digit value, and the value of a character. *)
Definition hex_char (v : Z) : Z := default 0 (hexdigits !! Z.to_nat v).
Definition hex_digit_value (c : Z) : Z :=
  if (48 <=? c) && (c <=? 57) then c - 48 else c - 87.


(** The [k] low hexadecimal digits of [data], most significant first. *)
Fixpoint hex_text (k : nat) (data : Z) : list Z :=
  match k with
  | O => []
  | S k' => hex_text k' (data / 16) ++ [hex_char (data mod 16)]
  end.

Lemma length_hex_text (k : nat) (data : Z) : length (hex_text k data) = k.
Proof.
  revert data. induction k as [| k IH]; intros data; cbn [hex_text].
  - reflexivity.
  - rewrite length_app, IH. cbn. lia.
Qed.

Lemma hex_char_cases (v : Z) :
  0 <= v < 16 ->
  In (hex_char v) hexdigits /\ hex_digit_value (hex_char v) = v /\
  hex_char v <> 0 /\ 32 <= hex_char v <= 126.
Proof.
  intros Hv.
  assert (Hc : v = 0 \/ v = 1 \/ v = 2 \/ v = 3 \/ v = 4 \/ v = 5 \/ v = 6 \/
               v = 7 \/ v = 8 \/ v = 9 \/ v = 10 \/ v = 11 \/ v = 12 \/
               v = 13 \/ v = 14 \/ v = 15) by lia.
  repeat (destruct Hc as [-> | Hc]); [.. | subst v];
    match goal with
    | |- context [hex_char ?v] =>
        let c := eval vm_compute in (hex_char v) in
        change (hex_char v) with c
    end;
    (split; [| split; [reflexivity | split; [discriminate | lia]]]);
    vm_compute; repeat ((left; reflexivity) || right).
Qed.

Lemma hex_text_chars (k : nat) (data : Z) :
  Forall (fun c => In c hexdigits /\ c <> 0 /\ 32 <= c <= 126)
         (hex_text k data).
Proof.
  revert data. induction k as [| k IH]; intros data; cbn [hex_text].
  - constructor.
  - apply Forall_app_2; [apply IH |].
    constructor; [| constructor].
    destruct (hex_char_cases (data mod 16)) as (H1 & _ & H3 & H4); auto.
    apply Z.mod_pos_bound. lia.
Qed.



(** The loop, [k] iterations from write index [n]. *)
Lemma hex_loop_spec (k : nat) :
  forall (a : nat) (buffer : list Z) (data : Z) (n : nat),
  (k <= n)%nat -> (n <= length buffer)%nat -> (n < 256)%nat -> 0 <= data ->
  fold_left hex_body (seq a k) (mkHex buffer data (Z.of_nat n))
  = mkHex (take (n - k) buffer ++ hex_text k data ++ drop n buffer)
          (data / 16 ^ Z.of_nat k) (Z.of_nat (n - k)).
Proof.
  induction k as [| k IH]; intros a buffer data n Hk Hn H8 Hd.
  - cbn [seq fold_left hex_text app]. rewrite Nat.sub_0_r.
    rewrite take_drop, Z.div_1_r. reflexivity.
  - cbn [seq fold_left]. unfold hex_body at 2.
    cbn [hx_bidx hx_data hx_buffer].
    assert (Eb : (Z.of_nat n - 1) mod 256 = Z.of_nat (n - 1)).
    { rewrite Z.mod_small by lia. lia. }
    rewrite Eb.
    change 15 with (Z.ones 4). rewrite Z.land_ones by lia.
    rewrite Z.shiftr_div_pow2 by lia.
    change (2 ^ 4) with 16.
    fold (hex_char (data mod 16)).
    unfold poke. rewrite Nat2Z.id.
    rewrite (IH (S a) _ (data / 16) (n - 1)%nat);
      [| lia | rewrite length_insert; lia | lia
       | apply Z.div_pos; lia].
    f_equal.
    + rewrite take_insert_ge by lia.
      replace (n - 1 - k)%nat with (n - S k)%nat by lia.
      f_equal. cbn [hex_text]. rewrite <- app_assoc. f_equal.
      rewrite drop_insert_ge by lia.
      rewrite Nat.sub_diag.
      assert (Hlt : (n - 1 < length buffer)%nat) by lia.
      destruct (lookup_lt_is_Some_2 buffer (n - 1)%nat Hlt) as [x Hx].
      rewrite (drop_S buffer x (n - 1)) by exact Hx.
      cbn. f_equal. f_equal. lia.
    + rewrite Nat2Z.inj_succ, Z.pow_succ_r by lia.
      rewrite Z.div_div by (try apply Z.pow_pos_nonneg; lia).
      reflexivity.
    + f_equal. lia.
Qed.

Lemma write_hex_spec (buffer : list Z) (data : Z) (digits : nat) :
  0 <= data -> (digits < 256)%nat -> (digits <= length buffer)%nat ->
  UTIL_WriteHex buffer data (Z.of_nat digits)
  = hex_text digits data ++ drop digits buffer.
Proof.
  intros Hd H8 Hlen. unfold UTIL_WriteHex. rewrite Nat2Z.id.
  rewrite hex_loop_spec by lia. cbn [hx_buffer].
  now rewrite Nat.sub_diag, take_0.
Qed.


End Util.

(** ** UART transmit side and printing (neuravr-uart.cpp, with the
    interrupt handler and the transmission-start hook of
    neur-m328p-uart.cpp)

    [UART_transbuf] points into a string owned by the caller or into the
    module's own scratch string; the transmit interrupt walks it one
    character per call.  The model keeps what the pointer refers to
    ([Scratch] is aliased: writing the scratch string changes what is
    sent), and records the characters the interrupt handler has written
    to the data register in [sent], oldest first. *)

Module Transmit.

Definition INT_SCRATCH_CHARS : Z := 16.

(** [0b10011000] and [0b10111000]: bit 5 enables the "data register
    empty" interrupt. *)
Definition UART_CSRB_TXIDLE : Z := 152.
Definition UART_CSRB_TXON : Z := 184.

Inductive source :=
| Scratch
| Text (message : list Z).

Record tx_state := mkTx {
  UART_transbuf : option source;   (* [None] is NULL *)
  transcharptr : Z;
  trans_is_flash : bool;
  scratchstr : list Z;             (* [char[INT_SCRATCH_CHARS]] *)
  sent : list Z;
  UCSR0B : Z
}.

(** The array behind a source. *)
Definition source_text (tx : tx_state) (src : source) : list Z :=
  match src with
  | Scratch => scratchstr tx
  | Text message => message
  end.

(** The transmit part of [UART_InitBuffers_ISR]. *)
Definition UART_InitBuffers_ISR (tx : tx_state) : tx_state :=
  mkTx None 0 false (scratchstr tx) (sent tx) (UCSR0B tx).

Definition UART_IsSendInProgress (tx : tx_state) : bool :=
  match UART_transbuf tx with
  | Some _ => true
  | None => false
  end.

(** [UART_GetNextSendChar_ISR]: the result, [sendchar], and the state;
    [None] when the read leaves the array, which happens when the string
    has no NUL. *)
Definition UART_GetNextSendChar_ISR (tx : tx_state)
  : option (bool * Z * tx_state) :=
  match UART_transbuf tx with
  | None => Some (false, 0, tx)
  | Some src =>
      match source_text tx src !! Z.to_nat (transcharptr tx) with
      | None => None
      | Some thischar =>
          if thischar =? 0 then
            Some (false, thischar,
                  mkTx None 0 false (scratchstr tx) (sent tx) (UCSR0B tx))
          else
            Some (true, thischar,
                  mkTx (Some src) (transcharptr tx + 1) (trans_is_flash tx)
                       (scratchstr tx) (sent tx) (UCSR0B tx))
      end
  end.

(** [ISR(USART_UDRE_vect)]: a character that [UART_GetNextSendChar_ISR]
    delivers is written to [UDR0]; otherwise the interrupt is switched
    off. *)
Definition USART_UDRE_vect (tx : tx_state) : option tx_state :=
  match UART_GetNextSendChar_ISR tx with
  | None => None
  | Some (true, thischar, tx') =>
      Some (mkTx (UART_transbuf tx') (transcharptr tx') (trans_is_flash tx')
                 (scratchstr tx') (sent tx' ++ [thischar]) (UCSR0B tx'))
  | Some (false, _, tx') =>
      Some (mkTx (UART_transbuf tx') (transcharptr tx') (trans_is_flash tx')
                 (scratchstr tx') (sent tx') UART_CSRB_TXIDLE)
  end.

(** The hardware raises the interrupt while bit 5 of [UCSR0B] is set. *)
Definition udre_enabled (tx : tx_state) : bool := Z.testbit (UCSR0B tx) 5.

Definition UART_EnableTransmit_ISR (tx : tx_state) : tx_state :=
  mkTx (UART_transbuf tx) (transcharptr tx) (trans_is_flash tx)
       (scratchstr tx) (sent tx) UART_CSRB_TXON.

(** [while (UART_IsSendInProgress()) _delay_loop_1(200);].  The loop
    itself changes nothing; it ends when the transmit interrupt has
    cleared [UART_transbuf].  One interrupt, if enabled, is served per
    round; with the interrupt disabled the loop spins. *)
Fixpoint wait_loop (fuel : nat) (tx : tx_state) : option tx_state :=
  if UART_IsSendInProgress tx then
    match fuel with
    | O => None
    | S n =>
        if udre_enabled tx then
          match USART_UDRE_vect tx with
          | None => None
          | Some tx' => wait_loop n tx'
          end
        else wait_loop n tx
    end
  else Some tx.

(** What the pointer has not passed yet. *)
Definition remaining (tx : tx_state) : list Z :=
  match UART_transbuf tx with
  | None => []
  | Some src => drop (Z.to_nat (transcharptr tx)) (source_text tx src)
  end.

(** Rounds enough for every character left and for the NUL: [None]
    means that the wait does not end. *)
Definition UART_WaitForSendDone (tx : tx_state) : option tx_state :=
  wait_loop (S (length (remaining tx))) tx.

(** The body of the atomic block of [UART_QueueSend]. *)
Definition install (src : source) (flash : bool) (tx : tx_state)
  : tx_state :=
  UART_EnableTransmit_ISR
    (mkTx (Some src) 0 flash (scratchstr tx) (sent tx) (UCSR0B tx)).

(** [UART_QueueSend(message)]; [None] as message is NULL. *)
Definition UART_QueueSend (message : option source) (tx : tx_state)
  : option tx_state :=
  match UART_WaitForSendDone tx with
  | None => None
  | Some tx1 =>
      match message with
      | None => Some tx1
      | Some src => Some (install src false tx1)
      end
  end.

Definition UART_QueueSend_P (message : option source) (tx : tx_state)
  : option tx_state :=
  match UART_WaitForSendDone tx with
  | None => None
  | Some tx1 =>
      match message with
      | None => Some tx1
      | Some src => Some (install src true tx1)
      end
  end.

Definition set_scratch (scratch : list Z) (tx : tx_state) : tx_state :=
  mkTx (UART_transbuf tx) (transcharptr tx) (trans_is_flash tx) scratch
       (sent tx) (UCSR0B tx).

Definition UART_PrintChar (value : Z) (tx : tx_state) : option tx_state :=
  match UART_WaitForSendDone tx with
  | None => None
  | Some tx1 =>
      UART_QueueSend (Some Scratch)
        (set_scratch (poke 1 0 (poke 0 value (scratchstr tx1))) tx1)
  end.

(** [for (idx = 0; idx < INT_SCRATCH_CHARS; idx++) scratchstr[idx] = 0;] *)
Definition clear_scratch (scratch : list Z) : list Z :=
  fold_left (fun acc idx => <[idx := 0]> acc)
            (seq 0 (Z.to_nat INT_SCRATCH_CHARS)) scratch.

(** The common body of [UART_PrintHex32], [UART_PrintHex16] and
    [UART_PrintHex8]. *)
Definition print_hex (digits : nat) (value : Z) (tx : tx_state)
  : option tx_state :=
  match UART_WaitForSendDone tx with
  | None => None
  | Some tx1 =>
      UART_QueueSend (Some Scratch)
        (set_scratch
           (Util.UTIL_WriteHex (clear_scratch (scratchstr tx1)) value
                               (Z.of_nat digits)) tx1)
  end.

(** The parameter types reduce the argument. *)
Definition UART_PrintHex32 (value : Z) : tx_state -> option tx_state :=
  print_hex 8 (value mod 2 ^ 32).
Definition UART_PrintHex16 (value : Z) : tx_state -> option tx_state :=
  print_hex 4 (value mod 2 ^ 16).
Definition UART_PrintHex8 (value : Z) : tx_state -> option tx_state :=
  print_hex 2 (value mod 2 ^ 8).

(** A sequence of calls from the main program. *)
Inductive print_op :=
| OpQueueSend (message : list Z)
| OpQueueSend_P (message : list Z)
| OpPrintChar (value : Z)
| OpPrintHex8 (value : Z)
| OpPrintHex16 (value : Z)
| OpPrintHex32 (value : Z)
| OpWaitForSendDone.

Definition print_step (o : print_op) (tx : tx_state) : option tx_state :=
  match o with
  | OpQueueSend message => UART_QueueSend (Some (Text message)) tx
  | OpQueueSend_P message => UART_QueueSend_P (Some (Text message)) tx
  | OpPrintChar value => UART_PrintChar value tx
  | OpPrintHex8 value => UART_PrintHex8 value tx
  | OpPrintHex16 value => UART_PrintHex16 value tx
  | OpPrintHex32 value => UART_PrintHex32 value tx
  | OpWaitForSendDone => UART_WaitForSendDone tx
  end.

Fixpoint run_prints (ops : list print_op) (tx : tx_state)
  : option tx_state :=
  match ops with
  | [] => Some tx
  | o :: rest =>
      match print_step o tx with
      | None => None
      | Some tx' => run_prints rest tx'
      end
  end.

(** The text a call is meant to put on the wire. *)
Definition op_text (o : print_op) : list Z :=
  match o with
  | OpQueueSend message | OpQueueSend_P message => until_nul message
  | OpPrintChar value => until_nul [value]
  | OpPrintHex8 value => Util.hex_text 2 (value mod 2 ^ 8)
  | OpPrintHex16 value => Util.hex_text 4 (value mod 2 ^ 16)
  | OpPrintHex32 value => Util.hex_text 8 (value mod 2 ^ 32)
  | OpWaitForSendDone => []
  end.

(** Strings handed over by the caller must be NUL-terminated. *)
Definition op_terminated (o : print_op) : Prop :=
  match o with
  | OpQueueSend message | OpQueueSend_P message => In 0 message
  | _ => True
  end.

(** The part of the current string that is still to be sent. *)
Definition pending (tx : tx_state) : list Z := until_nul (remaining tx).

(** Everything sent so far or committed to be sent. *)
Definition committed (tx : tx_state) : list Z := sent tx ++ pending tx.

Record tx_ok (tx : tx_state) : Prop := mkTxOk {
  ok_scratch : length (scratchstr tx) = Z.to_nat INT_SCRATCH_CHARS;
  ok_ptr : 0 <= transcharptr tx;
  ok_idle : UART_transbuf tx = None ->
            transcharptr tx = 0 /\ trans_is_flash tx = false /\
            UCSR0B tx = UART_CSRB_TXIDLE;
  ok_nul : UART_transbuf tx <> None -> In 0 (remaining tx);
  ok_busy : UART_transbuf tx <> None -> UCSR0B tx = UART_CSRB_TXON
}.

Definition idle (scratch sent_so_far : list Z) : tx_state :=
  mkTx None 0 false scratch sent_so_far UART_CSRB_TXIDLE.

Lemma remaining_head (tx : tx_state) (src : source) (c : Z) (r : list Z) :
  UART_transbuf tx = Some src -> 0 <= transcharptr tx ->
  remaining tx = c :: r ->
  source_text tx src !! Z.to_nat (transcharptr tx) = Some c /\
  drop (Z.to_nat (transcharptr tx + 1)) (source_text tx src) = r.
Proof.
  intros Hsrc Hptr Hrem. unfold remaining in Hrem. rewrite Hsrc in Hrem.
  assert (Hc : source_text tx src !! Z.to_nat (transcharptr tx) = Some c).
  { rewrite <- (Nat.add_0_r (Z.to_nat (transcharptr tx))), <- lookup_drop.
    now rewrite Hrem. }
  split; [exact Hc |].
  replace (Z.to_nat (transcharptr tx + 1))
    with (S (Z.to_nat (transcharptr tx))) by lia.
  rewrite (drop_S _ _ _ Hc) in Hrem. congruence.
Qed.

Lemma pending_cases (tx : tx_state) (c : Z) (p : list Z) :
  pending tx = c :: p ->
  exists r, remaining tx = c :: r /\ c <> 0 /\ until_nul r = p.
Proof.
  unfold pending. destruct (remaining tx) as [| c' r]; cbn; [discriminate |].
  destruct (Z.eqb_spec c' 0); [discriminate |].
  intros E. injection E as -> <-. now exists r.
Qed.

(** The interrupt while characters are left: the next one is sent. *)
Lemma interrupt_sends (tx : tx_state) (c : Z) (p : list Z) :
  tx_ok tx -> pending tx = c :: p ->
  exists tx',
    USART_UDRE_vect tx = Some tx' /\ tx_ok tx' /\
    sent tx' = sent tx ++ [c] /\ pending tx' = p /\
    scratchstr tx' = scratchstr tx /\
    UART_IsSendInProgress tx' = true /\
    UCSR0B tx' = UART_CSRB_TXON /\ udre_enabled tx = true.
Proof.
  intros Hok Hp.
  destruct (pending_cases tx c p Hp) as (r & Hrem & Hc0 & Hr).
  destruct tx as [buf ptr flash scratch out csrb].
  destruct Hok as [Hs Hptr Hi Hn Hb].
  cbn [UART_transbuf transcharptr trans_is_flash scratchstr sent UCSR0B] in *.
  destruct buf as [src |]; [| discriminate Hrem].
  specialize (Hn ltac:(discriminate)).
  specialize (Hb ltac:(discriminate)). subst csrb.
  set (tx := mkTx (Some src) ptr flash scratch out UART_CSRB_TXON) in *.
  destruct (remaining_head tx src c r eq_refl Hptr Hrem) as [Hc Hdrop].
  cbn [transcharptr tx] in Hc, Hdrop.
  set (tx' := mkTx (Some src) (ptr + 1) flash scratch (out ++ [c])
                   UART_CSRB_TXON).
  assert (Hrem' : remaining tx' = r) by exact Hdrop.
  exists tx'. repeat apply conj; try reflexivity.
  - unfold USART_UDRE_vect, UART_GetNextSendChar_ISR.
    cbn [UART_transbuf transcharptr trans_is_flash scratchstr sent UCSR0B tx].
    rewrite Hc. now destruct (Z.eqb_spec c 0).
  - constructor;
      [exact Hs | cbn; lia | intros H; cbn in H; discriminate | |
       reflexivity].
    intros _. rewrite Hrem'. rewrite Hrem in Hn.
    destruct Hn as [? | ?]; [congruence | assumption].
  - unfold pending. now rewrite Hrem'.
Qed.

(** The interrupt at the end of the string, or with nothing queued:
    nothing is sent and the interrupt is switched off. *)
Lemma interrupt_ends (tx : tx_state) :
  tx_ok tx -> pending tx = [] ->
  USART_UDRE_vect tx = Some (idle (scratchstr tx) (sent tx)).
Proof.
  intros Hok Hp.
  destruct tx as [buf ptr flash scratch out csrb].
  destruct Hok as [Hs Hptr Hi Hn Hb].
  cbn [UART_transbuf transcharptr trans_is_flash scratchstr sent UCSR0B] in *.
  destruct buf as [src |].
  2: { destruct (Hi eq_refl) as (-> & -> & ->). reflexivity. }
  specialize (Hn ltac:(discriminate)).
  set (tx := mkTx (Some src) ptr flash scratch out csrb) in *.
  unfold pending in Hp.
  destruct (remaining tx) as [| c r] eqn:Hrem; [destruct Hn |].
  destruct (remaining_head tx src c r eq_refl Hptr Hrem) as [Hc _].
  cbn [transcharptr tx] in Hc.
  cbn [until_nul] in Hp.
  destruct (Z.eqb_spec c 0) as [-> | ?]; [| discriminate].
  unfold USART_UDRE_vect, UART_GetNextSendChar_ISR.
  cbn [UART_transbuf transcharptr trans_is_flash scratchstr sent UCSR0B tx].
  now rewrite Hc.
Qed.

Lemma idle_spec (tx : tx_state) :
  tx_ok tx -> UART_IsSendInProgress tx = false ->
  tx = idle (scratchstr tx) (sent tx) /\ committed tx = sent tx.
Proof.
  intros Hok Hidle. unfold UART_IsSendInProgress in Hidle.
  destruct tx as [buf ptr flash scratch out csrb].
  cbn [UART_transbuf] in Hidle. destruct buf; [discriminate |].
  destruct (ok_idle _ Hok eq_refl) as (E1 & E2 & E3). cbn in E1, E2, E3.
  subst. split; [reflexivity |].
  unfold committed, pending, remaining. cbn. apply app_nil_r.
Qed.

Lemma wait_loop_idle (fuel : nat) (scratch out : list Z) :
  wait_loop fuel (idle scratch out) = Some (idle scratch out).
Proof. destruct fuel; reflexivity. Qed.

Lemma wait_loop_spec (fuel : nat) :
  forall tx,
  tx_ok tx -> (length (pending tx) < fuel)%nat ->
  wait_loop fuel tx = Some (idle (scratchstr tx) (committed tx)).
Proof.
  induction fuel as [| n IH]; intros tx Hok Hfuel; [lia |].
  destruct (UART_IsSendInProgress tx) eqn:Hbusy.
  2: { destruct (idle_spec tx Hok Hbusy) as [E ->].
       cbn [wait_loop]. rewrite Hbusy. now rewrite <- E. }
  cbn [wait_loop]. rewrite Hbusy.
  destruct (pending tx) as [| c p] eqn:Hp.
  - assert (Hen : udre_enabled tx = true).
    { unfold udre_enabled. rewrite (ok_busy tx Hok); [reflexivity |].
      unfold UART_IsSendInProgress in Hbusy.
      destruct (UART_transbuf tx); [discriminate | discriminate]. }
    rewrite Hen, (interrupt_ends tx Hok Hp), wait_loop_idle.
    unfold committed. now rewrite Hp, app_nil_r.
  - destruct (interrupt_sends tx c p Hok Hp)
      as (tx' & E & Hok' & Hs & Hp' & Hsc & _ & _ & Hen).
    rewrite Hen, E, (IH tx' Hok').
    + unfold committed. rewrite Hsc, Hs, Hp', Hp, <- app_assoc. reflexivity.
    + rewrite Hp'. cbn [length] in Hfuel. lia.
Qed.

Lemma length_until_nul (l : list Z) : (length (until_nul l) <= length l)%nat.
Proof.
  induction l as [| c l IH]; cbn; [lia |].
  destruct (c =? 0); cbn; lia.
Qed.

Lemma wait_spec (tx : tx_state) :
  tx_ok tx ->
  UART_WaitForSendDone tx = Some (idle (scratchstr tx) (committed tx)).
Proof.
  intros Hok. apply wait_loop_spec; [exact Hok |].
  unfold pending. pose proof (length_until_nul (remaining tx)). lia.
Qed.

Lemma idle_ok (scratch out : list Z) :
  length scratch = Z.to_nat INT_SCRATCH_CHARS -> tx_ok (idle scratch out).
Proof.
  intros Hs. constructor; cbn; auto; try lia; congruence.
Qed.

Lemma committed_idle (scratch out : list Z) :
  committed (idle scratch out) = out.
Proof. unfold committed, pending, remaining. cbn. apply app_nil_r. Qed.

(** A string is handed to the interrupt: the strings before it are out. *)
Lemma install_spec (src : source) (flash : bool) (scratch out text : list Z) :
  length scratch = Z.to_nat INT_SCRATCH_CHARS ->
  source_text (idle scratch out) src = text -> In 0 text ->
  let tx' := install src flash (idle scratch out) in
  tx_ok tx' /\ committed tx' = out ++ until_nul text /\
  scratchstr tx' = scratch.
Proof.
  intros Hs Ht Hnul tx'.
  assert (Hrem : remaining tx' = text).
  { unfold remaining, tx', install. cbn. rewrite drop_0.
    destruct src; cbn in *; exact Ht. }
  split; [| split; [| reflexivity]].
  - constructor;
      [exact Hs | cbn; lia | intros H; cbn in H; discriminate | |
       reflexivity].
    intros _. now rewrite Hrem.
  - unfold committed, pending. now rewrite Hrem.
Qed.

Lemma queue_send_spec (flash : bool) (message : list Z) (tx : tx_state) :
  tx_ok tx -> In 0 message ->
  exists tx',
    (if flash then UART_QueueSend_P else UART_QueueSend)
      (Some (Text message)) tx = Some tx' /\
    tx_ok tx' /\ committed tx' = committed tx ++ until_nul message.
Proof.
  intros Hok Hnul.
  destruct (install_spec (Text message) flash (scratchstr tx) (committed tx)
              message (ok_scratch tx Hok) eq_refl Hnul) as (H1 & H2 & _).
  exists (install (Text message) flash
                  (idle (scratchstr tx) (committed tx))).
  split; [| split; [exact H1 | exact H2]].
  destruct flash; unfold UART_QueueSend, UART_QueueSend_P;
    now rewrite (wait_spec tx Hok).
Qed.

Lemma scratch_send_spec (scratch : list Z) (tx : tx_state) :
  tx_ok tx -> length scratch = Z.to_nat INT_SCRATCH_CHARS -> In 0 scratch ->
  exists tx',
    UART_QueueSend (Some Scratch)
      (set_scratch scratch (idle (scratchstr tx) (committed tx))) = Some tx' /\
    tx_ok tx' /\ committed tx' = committed tx ++ until_nul scratch.
Proof.
  intros Hok Hs Hnul.
  destruct (install_spec Scratch false scratch (committed tx) scratch
              Hs eq_refl Hnul) as (H1 & H2 & _).
  exists (install Scratch false (idle scratch (committed tx))).
  split; [| split; [exact H1 | exact H2]].
  unfold UART_QueueSend.
  change (set_scratch scratch (idle (scratchstr tx) (committed tx)))
    with (idle scratch (committed tx)).
  rewrite (wait_spec _ (idle_ok scratch (committed tx) Hs)).
  now rewrite committed_idle.
Qed.

Lemma print_char_spec (value : Z) (tx : tx_state) :
  tx_ok tx ->
  exists tx',
    UART_PrintChar value tx = Some tx' /\
    tx_ok tx' /\ committed tx' = committed tx ++ until_nul [value].
Proof.
  intros Hok. pose proof (ok_scratch tx Hok) as Hs.
  destruct (scratchstr tx) as [| c0 [| c1 rest]] eqn:Es;
    try (cbn in Hs; discriminate).
  destruct (scratch_send_spec (value :: 0 :: rest) tx Hok) as
    (tx' & E & Hok' & Hc).
  { exact Hs. }
  { right. now left. }
  exists tx'. split; [| split; [exact Hok' |]].
  - unfold UART_PrintChar. rewrite (wait_spec tx Hok).
    cbn [scratchstr idle]. rewrite Es in E |- *. exact E.
  - rewrite Hc. reflexivity.
Qed.

Lemma clear_scratch_spec (scratch : list Z) :
  length scratch = Z.to_nat INT_SCRATCH_CHARS ->
  clear_scratch scratch = replicate (Z.to_nat INT_SCRATCH_CHARS) 0.
Proof.
  intros Hs. unfold clear_scratch. rewrite <- Hs. apply fold_insert_all.
Qed.

Lemma until_nul_app (a b : list Z) :
  Forall (fun c => c <> 0) a -> until_nul (a ++ 0 :: b) = a.
Proof.
  induction 1 as [| c a Hc _ IH]; cbn; [reflexivity |].
  destruct (Z.eqb_spec c 0); [contradiction | now rewrite IH].
Qed.

Lemma print_hex_spec (digits : nat) (value : Z) (tx : tx_state) :
  tx_ok tx -> 0 <= value -> (digits < Z.to_nat INT_SCRATCH_CHARS)%nat ->
  exists tx',
    print_hex digits value tx = Some tx' /\
    tx_ok tx' /\ committed tx' = committed tx ++ Util.hex_text digits value.
Proof.
  intros Hok Hv Hd. pose proof (ok_scratch tx Hok) as Hs.
  set (scratch := Util.UTIL_WriteHex (clear_scratch (scratchstr tx)) value
                                     (Z.of_nat digits)).
  assert (Es : scratch = Util.hex_text digits value
                         ++ 0 :: replicate (Z.to_nat INT_SCRATCH_CHARS
                                            - S digits) 0).
  { subst scratch. rewrite (clear_scratch_spec _ Hs).
    rewrite Util.write_hex_spec;
      [| exact Hv | unfold INT_SCRATCH_CHARS in Hd; lia
       | rewrite length_replicate; lia].
    rewrite drop_replicate.
    replace (Z.to_nat INT_SCRATCH_CHARS - digits)%nat
      with (S (Z.to_nat INT_SCRATCH_CHARS - S digits)) by lia.
    reflexivity. }
  destruct (scratch_send_spec scratch tx Hok) as (tx' & E & Hok' & Hc).
  { rewrite Es, length_app, Util.length_hex_text. cbn [length].
    rewrite length_replicate. lia. }
  { rewrite Es. apply in_or_app. right. now left. }
  exists tx'. split; [| split; [exact Hok' |]].
  - unfold print_hex. rewrite (wait_spec tx Hok). exact E.
  - rewrite Hc, Es. f_equal. apply until_nul_app.
    eapply List.Forall_impl; [| apply Util.hex_text_chars]. cbn. tauto.
Qed.

Lemma print_step_spec (o : print_op) (tx : tx_state) :
  tx_ok tx -> op_terminated o ->
  exists tx',
    print_step o tx = Some tx' /\
    tx_ok tx' /\ committed tx' = committed tx ++ op_text o.
Proof.
  intros Hok Ht.
  assert (Hmod : forall v k, 0 < k -> 0 <= v mod k).
  { intros v k Hk. apply Z.mod_pos_bound, Hk. }
  destruct o as [m | m | v | v | v | v |]; cbn [print_step op_text].
  - apply (queue_send_spec false m tx Hok Ht).
  - apply (queue_send_spec true m tx Hok Ht).
  - apply (print_char_spec v tx Hok).
  - apply print_hex_spec; [exact Hok | apply Hmod; lia | unfold INT_SCRATCH_CHARS; lia].
  - apply print_hex_spec; [exact Hok | apply Hmod; lia | unfold INT_SCRATCH_CHARS; lia].
  - apply print_hex_spec; [exact Hok | apply Hmod; lia | unfold INT_SCRATCH_CHARS; lia].
  - exists (idle (scratchstr tx) (committed tx)).
    split; [apply (wait_spec tx Hok) |].
    split; [apply idle_ok, (ok_scratch tx Hok) |].
    now rewrite committed_idle, app_nil_r.
Qed.

Lemma run_prints_spec (ops : list print_op) :
  forall tx,
  tx_ok tx -> Forall op_terminated ops ->
  exists tx',
    run_prints ops tx = Some tx' /\
    tx_ok tx' /\ committed tx' = committed tx ++ flat_map op_text ops.
Proof.
  induction ops as [| o ops IH]; intros tx Hok Hall.
  - exists tx. cbn. now rewrite app_nil_r.
  - apply Forall_cons in Hall as [Ho Hall].
    destruct (print_step_spec o tx Hok Ho) as (tx1 & E1 & Hok1 & Hc1).
    destruct (IH tx1 Hok1 Hall) as (tx' & E & Hok' & Hc).
    exists tx'. cbn [run_prints flat_map]. rewrite E1.
    split; [exact E |]. split; [exact Hok' |].
    now rewrite Hc, Hc1, <- app_assoc.
Qed.

(** X16.  Printing is serialised.  Any sequence of [UART_QueueSend],
    [UART_QueueSend_P], [UART_PrintChar], [UART_PrintHex8/16/32] and
    [UART_WaitForSendDone] calls, with NUL-terminated strings, returns
    (every wait ends), and once the last string has been waited for the
    transmitter has received exactly the texts of the calls, whole and in
    call order: each string up to its NUL, each character (a NUL prints
    nothing), each number as 2, 4 or 8 lower-case hexadecimal digits of
    its low 8, 16 or 32 bits, and the transmit interrupt is off again.
    Nothing is lost or mixed although all printing calls share one
    scratch string and one transmit pointer. *)
Theorem prints_are_sent_whole_and_in_order
        (ops : list print_op) (tx : tx_state) :
  tx_ok tx -> Forall op_terminated ops ->
  exists tx' tx'',
    run_prints ops tx = Some tx' /\
    UART_WaitForSendDone tx' = Some tx'' /\
    UART_IsSendInProgress tx'' = false /\
    udre_enabled tx'' = false /\
    sent tx'' = committed tx ++ flat_map op_text ops.
Proof.
  intros Hok Hall.
  destruct (run_prints_spec ops tx Hok Hall) as (tx' & E & Hok' & Hc).
  exists tx', (idle (scratchstr tx') (committed tx')).
  split; [exact E |]. split; [apply (wait_spec tx' Hok') |].
  split; [reflexivity |]. split; [reflexivity |].
  cbn [sent idle]. exact Hc.
Qed.

(** *** The interrupt handler, call by call *)

Fixpoint interrupts (n : nat) (tx : tx_state) : option tx_state :=
  match n with
  | O => Some tx
  | S k =>
      match USART_UDRE_vect tx with
      | None => None
      | Some tx' => interrupts k tx'
      end
  end.

Lemma interrupts_spec (n : nat) :
  forall tx,
  tx_ok tx -> (n <= length (pending tx))%nat ->
  exists tx',
    interrupts n tx = Some tx' /\ tx_ok tx' /\
    sent tx' = sent tx ++ take n (pending tx) /\
    pending tx' = drop n (pending tx) /\
    scratchstr tx' = scratchstr tx /\
    (UART_IsSendInProgress tx = true -> UART_IsSendInProgress tx' = true).
Proof.
  induction n as [| n IH]; intros tx Hok Hn.
  - exists tx. rewrite take_0, drop_0, app_nil_r.
    repeat apply conj; auto.
  - destruct (pending tx) as [| c p] eqn:Hp; [cbn in Hn; lia |].
    destruct (interrupt_sends tx c p Hok Hp)
      as (tx1 & E1 & Hok1 & Hs1 & Hp1 & Hsc1 & Hb1 & _ & _).
    destruct (IH tx1 Hok1) as (tx' & E & Hok' & Hs & Hp' & Hsc & Hb).
    { rewrite Hp1. cbn in Hn. lia. }
    exists tx'. cbn [interrupts take drop]. rewrite E1.
    repeat apply conj; auto.
    + rewrite Hs, Hs1, Hp1, <- app_assoc. reflexivity.
    + now rewrite Hp', Hp1.
    + now rewrite Hsc, Hsc1.
Qed.

Lemma interrupt_idle (scratch out : list Z) (n : nat) :
  interrupts n (idle scratch out) = Some (idle scratch out).
Proof. induction n as [| n IH]; [reflexivity | exact IH]. Qed.

Lemma interrupts_add (a b : nat) :
  forall tx,
  interrupts (a + b) tx
  = match interrupts a tx with
    | None => None
    | Some tx' => interrupts b tx'
    end.
Proof.
  induction a as [| a IH]; intros tx; cbn [interrupts Nat.add].
  - reflexivity.
  - destruct (USART_UDRE_vect tx); [apply IH | reflexivity].
Qed.

Lemma interrupts_all (tx : tx_state) (extra : nat) :
  tx_ok tx ->
  interrupts (S (length (pending tx)) + extra) tx
  = Some (idle (scratchstr tx) (committed tx)).
Proof.
  intros Hok.
  destruct (interrupts_spec (length (pending tx)) tx Hok ltac:(lia))
    as (tx1 & E1 & Hok1 & Hs1 & Hp1 & Hsc1 & _).
  rewrite drop_all in Hp1. rewrite firstn_all in Hs1.
  pose proof (interrupt_ends tx1 Hok1 Hp1) as E2.
  replace (S (length (pending tx)) + extra)%nat
    with (length (pending tx) + S extra)%nat by lia.
  rewrite interrupts_add, E1. cbn [interrupts]. rewrite E2.
  rewrite interrupt_idle, Hsc1, Hs1. reflexivity.
Qed.

(** X17.  The transmit interrupt, call by call.  After a NUL-terminated
    string has been queued on an idle sender, the first [k] interrupts
    (for [k] up to the length of the text before the NUL) write exactly
    the first [k] characters of the text to the data register and leave
    the sender busy with the interrupt enabled; the interrupt after the
    last character meets the NUL, sends nothing, makes the sender idle
    with its pointer cleared and switches the interrupt off, whatever
    follows the NUL in the buffer; further calls of the handler on the
    idle sender send nothing. *)
Theorem one_character_per_interrupt
        (message : list Z) (k extra : nat) (tx : tx_state) :
  tx_ok tx -> UART_IsSendInProgress tx = false -> In 0 message ->
  (k <= length (until_nul message))%nat ->
  let text := until_nul message in
  exists tx0,
    UART_QueueSend (Some (Text message)) tx = Some tx0 /\
    (exists txk,
       interrupts k tx0 = Some txk /\
       sent txk = sent tx ++ take k text /\
       pending txk = drop k text /\
       UART_IsSendInProgress txk = true /\
       udre_enabled txk = true) /\
    interrupts (S (length text) + extra) tx0
    = Some (mkTx None 0 false (scratchstr tx) (sent tx ++ text)
                 UART_CSRB_TXIDLE).
Proof.
  intros Hok Hidle Hnul Hk text.
  destruct (idle_spec tx Hok Hidle) as [_ Hc].
  destruct (install_spec (Text message) false (scratchstr tx) (sent tx)
              message (ok_scratch tx Hok) eq_refl Hnul) as (Hok0 & Hc0 & Hsc0).
  set (tx0 := install (Text message) false (idle (scratchstr tx) (sent tx)))
    in *.
  assert (Hp0 : pending tx0 = text).
  { unfold pending, remaining, tx0, install. cbn. now rewrite drop_0. }
  exists tx0. repeat apply conj.
  - unfold UART_QueueSend. rewrite (wait_spec tx Hok), Hc. reflexivity.
  - destruct (interrupts_spec k tx0 Hok0)
      as (txk & E & Hokk & Hs & Hp & _ & Hb).
    { rewrite Hp0. exact Hk. }
    specialize (Hb eq_refl).
    exists txk. rewrite Hp0 in Hs, Hp. repeat apply conj; auto.
    unfold udre_enabled. rewrite (ok_busy txk Hokk); [reflexivity |].
    unfold UART_IsSendInProgress in Hb.
    destruct (UART_transbuf txk); [discriminate | discriminate].
  - rewrite <- Hp0, (interrupts_all tx0 extra Hok0), Hc0, Hsc0.
    fold text. now rewrite Hp0.
Qed.

End Transmit.

(** ** The ATmega328P's UART set-up (neur-m328p-uart.cpp) *)

Module M328P.

Definition UART_CSRA_2X : Z := 2.
Definition UART_CSRB_OFF : Z := 0.
Definition UART_CSRC : Z := 6.

Definition UART_LINE_COUNT : Z := 8.
Definition UART_LINE_BITS : Z := 6.

(** Arithmetic on [uint32_t]. *)
Definition uint32 (x : Z) : Z := x mod 2 ^ 32.

(** The USART's registers and the module's variables; [UCSR0B] is kept
    with the transmit side, which writes it. *)
Record usart := mkUsart {
  UCSR0A : Z;
  UCSR0C : Z;
  UBRR0H : Z;
  UBRR0L : Z;
  real_baud_rate : Z;
  receiver : UART.uart_state;
  sender : Transmit.tx_state
}.

Definition set_UCSR0B (value : Z) (tx : Transmit.tx_state)
  : Transmit.tx_state :=
  Transmit.mkTx (Transmit.UART_transbuf tx) (Transmit.transcharptr tx)
                (Transmit.trans_is_flash tx) (Transmit.scratchstr tx)
                (Transmit.sent tx) value.

(** [UART_Init]; [None] when the first division is by zero.  The later
    divisors are at least 8. *)
Definition UART_Init (mcu_hz baud_rate : Z) (u : usart) : option usart :=
  if 0 =? baud_rate then
    Some (mkUsart UART_CSRA_2X UART_CSRC (UBRR0H u) (UBRR0L u) 0
                  (receiver u) (set_UCSR0B UART_CSRB_OFF (sender u)))
  else
    let divisor := uint32 (Z.shiftl baud_rate 3) in
    if divisor =? 0 then None
    else
      let ubrr_value := mcu_hz / divisor in
      let ubrr_value := if 0 <? ubrr_value then ubrr_value - 1
                        else ubrr_value in
      let ubrr_value := if 4095 <? ubrr_value then 4095 else ubrr_value in
      let real := mcu_hz / uint32 (Z.shiftl (ubrr_value + 1) 3) in
      let scratch := mcu_hz / uint32 (Z.shiftl (ubrr_value + 2) 3) in
      let round_up :=
        (ubrr_value <? 4095)
        && (uint32 (real - baud_rate) >? uint32 (baud_rate - scratch)) in
      let ubrr_value := if round_up then ubrr_value + 1 else ubrr_value in
      let real := if round_up then scratch else real in
      Some (mkUsart (UCSR0A u) (UCSR0C u)
                    (Z.land (Z.shiftr ubrr_value 8) 255)
                    (Z.land ubrr_value 255)
                    real
                    (UART.UART_InitBuffers_ISR UART_LINE_COUNT UART_LINE_BITS
                                               (receiver u))
                    (set_UCSR0B Transmit.UART_CSRB_TXIDLE
                       (Transmit.UART_InitBuffers_ISR
                          (set_UCSR0B UART_CSRB_OFF (sender u))))).

Definition UART_QueryBaud (u : usart) : Z := real_baud_rate u.

(** The divisor the baud-rate registers hold, and the rate the USART
    runs at with divisor [k] in double-speed mode. *)
Definition UBRR0 (u : usart) : Z := UBRR0H u * 256 + UBRR0L u.
Definition rate_of (mcu_hz k : Z) : Z := mcu_hz / (8 * (k + 1)).

Lemma rate_of_antitone (mcu_hz k k' : Z) :
  0 <= mcu_hz -> 0 <= k <= k' -> rate_of mcu_hz k' <= rate_of mcu_hz k.
Proof.
  intros Hhz Hk. unfold rate_of. apply Z.div_le_compat_l; lia.
Qed.

Lemma rate_above (mcu_hz baud k : Z) :
  0 <= k -> 8 * (k + 1) * baud <= mcu_hz -> baud <= rate_of mcu_hz k.
Proof.
  intros Hk Hb. unfold rate_of. apply Z.div_le_lower_bound; lia.
Qed.

Lemma rate_below (mcu_hz baud k : Z) :
  0 <= k -> mcu_hz < 8 * (k + 1) * baud -> rate_of mcu_hz k < baud.
Proof.
  intros Hk Hb. unfold rate_of. apply Z.div_lt_upper_bound; lia.
Qed.

Lemma shift_3 (x : Z) : 0 <= x < 2 ^ 29 -> uint32 (Z.shiftl x 3) = 8 * x.
Proof.
  intros Hx. unfold uint32. rewrite Z.shiftl_mul_pow2 by lia.
  rewrite Z.mod_small; lia.
Qed.

Lemma uint32_small (x : Z) : 0 <= x < 2 ^ 32 -> uint32 x = x.
Proof. apply Z.mod_small. Qed.

Lemma registers_hold (k : Z) :
  0 <= k <= 4095 ->
  Z.land (Z.shiftr k 8) 255 * 256 + Z.land k 255 = k /\
  0 <= Z.land (Z.shiftr k 8) 255 < 16 /\ 0 <= Z.land k 255 < 256.
Proof.
  intros Hk. change 255 with (Z.ones 8).
  rewrite !Z.land_ones by lia. rewrite Z.shiftr_div_pow2 by lia.
  change (2 ^ 8) with 256.
  assert (0 <= k / 256 < 16)
    by (split; [apply Z.div_pos | apply Z.div_lt_upper_bound]; lia).
  rewrite (Z.mod_small (k / 256)) by lia.
  pose proof (Z.mod_pos_bound k 256 ltac:(lia)).
  pose proof (Z.div_mod k 256 ltac:(lia)). lia.
Qed.

(** What [UART_Init] computes for a rate the USART can reach. *)
Lemma init_divisor (mcu_hz baud_rate : Z) (u : usart) :
  0 < baud_rate -> 8 * baud_rate <= mcu_hz -> mcu_hz < 2 ^ 32 ->
  exists k,
    0 <= k <= 4095 /\
    (forall j, 0 <= j <= 4095 ->
       Z.abs (rate_of mcu_hz k - baud_rate)
       <= Z.abs (rate_of mcu_hz j - baud_rate)) /\
    UART_Init mcu_hz baud_rate u
    = Some (mkUsart (UCSR0A u) (UCSR0C u)
                    (Z.land (Z.shiftr k 8) 255) (Z.land k 255)
                    (rate_of mcu_hz k)
                    (UART.UART_InitBuffers_ISR UART_LINE_COUNT UART_LINE_BITS
                                               (receiver u))
                    (set_UCSR0B Transmit.UART_CSRB_TXIDLE
                       (Transmit.UART_InitBuffers_ISR
                          (set_UCSR0B UART_CSRB_OFF (sender u))))).
Proof.
  intros Hb Hreach Hhz. unfold UART_Init.
  destruct (Z.eqb_spec 0 baud_rate); [lia |].
  rewrite shift_3 by lia.
  destruct (Z.eqb_spec (8 * baud_rate) 0); [lia |].
  set (F := mcu_hz / (8 * baud_rate)).
  assert (HF : 1 <= F) by (apply Z.div_le_lower_bound; lia).
  assert (HFlo : 8 * baud_rate * F <= mcu_hz)
    by (apply Z.mul_div_le; lia).
  assert (HFhi : mcu_hz < 8 * baud_rate * (F + 1)).
  { pose proof (Z.mul_succ_div_gt mcu_hz (8 * baud_rate) ltac:(lia))
      as Hgt.
    fold F in Hgt. lia. }
  assert (HFmax : F < 2 ^ 29)
    by (apply Z.div_lt_upper_bound; lia).
  destruct (Z.ltb_spec 0 F); [| lia].
  destruct (Z.ltb_spec 4095 (F - 1)) as [Hclamp | Hfit].
  - (* clamped to 12 bits *)
    exists 4095. split; [lia |].
    assert (Hr : baud_rate <= rate_of mcu_hz 4095)
      by (apply rate_above; nia).
    split.
    + intros j Hj.
      pose proof (rate_of_antitone mcu_hz j 4095 ltac:(lia) ltac:(lia)).
      lia.
    + change (4095 <? 4095) with false. cbn [andb].
      rewrite shift_3 by lia. reflexivity.
  - (* the quotient fits *)
    rewrite !shift_3 by lia.
    fold (rate_of mcu_hz (F - 1)).
    replace (8 * (F - 1 + 2)) with (8 * (F + 1)) by lia.
    fold (rate_of mcu_hz F).
    assert (Hup : baud_rate <= rate_of mcu_hz (F - 1))
      by (apply rate_above; nia).
    assert (Hdn : rate_of mcu_hz F < baud_rate)
      by (apply rate_below; nia).
    assert (Hdn0 : 0 <= rate_of mcu_hz F)
      by (unfold rate_of; apply Z.div_pos; lia).
    assert (Hup32 : rate_of mcu_hz (F - 1) < 2 ^ 32).
    { unfold rate_of. apply Z.div_lt_upper_bound; lia. }
    rewrite !uint32_small by lia.
    assert (Hlow : forall j, 0 <= j <= F - 1 ->
                     rate_of mcu_hz (F - 1) <= rate_of mcu_hz j)
      by (intros j Hj; apply rate_of_antitone; lia).
    assert (Hhigh : forall j, F <= j ->
                      rate_of mcu_hz j <= rate_of mcu_hz F)
      by (intros j Hj; apply rate_of_antitone; lia).
    destruct ((F - 1 <? 4095)
              && (rate_of mcu_hz (F - 1) - baud_rate
                  >? baud_rate - rate_of mcu_hz F)) eqn:Hround.
    + apply andb_true_iff in Hround as [Hr1 Hr2].
      apply Z.ltb_lt in Hr1. apply Z.gtb_lt in Hr2.
      exists (F - 1 + 1). split; [lia |].
      replace (F - 1 + 1) with F by lia.
      split; [| reflexivity].
      intros j Hj. destruct (Z.le_gt_cases F j).
      * pose proof (Hhigh j ltac:(lia)). lia.
      * pose proof (Hlow j ltac:(lia)). lia.
    + exists (F - 1). split; [lia |]. split; [| reflexivity].
      intros j Hj. destruct (Z.le_gt_cases F j).
      * pose proof (Hhigh j ltac:(lia)).
        apply andb_false_iff in Hround as [Hr1 | Hr2].
        -- apply Z.ltb_ge in Hr1. lia.
        -- assert (~ (baud_rate - rate_of mcu_hz F
                      < rate_of mcu_hz (F - 1) - baud_rate))
             by (intros Hlt; apply Z.gtb_lt in Hlt; congruence).
           lia.
      * pose proof (Hlow j ltac:(lia)). lia.
Qed.

(** X18.  The baud-rate divisor is the best one.  For a requested rate
    that the USART can reach in double-speed mode (at most an eighth of
    the clock), [UART_Init] returns, and the divisor it writes to
    [UBRR0H]:[UBRR0L] is a 12-bit value whose rate [mcu_hz / (8 (k + 1))]
    is at least as close to the requested rate as that of every other
    12-bit divisor; [real_baud_rate] is that rate; the receive buffers
    are initialised, nothing is queued for sending, and the USART is left
    in the transmit-idle mode.  [UCSR0A] and [UCSR0C] are not written on
    this path: the double-speed mode that the rate formula assumes, and
    the frame format, are those of an earlier switch-off call
    [UART_Init(_, 0)], as [MCU_Init] makes one. *)
Theorem baud_divisor_is_nearest (mcu_hz baud_rate : Z) (u : usart) :
  0 < baud_rate -> 8 * baud_rate <= mcu_hz -> mcu_hz < 2 ^ 32 ->
  exists u',
    UART_Init mcu_hz baud_rate u = Some u' /\
    0 <= UBRR0 u' <= 4095 /\ 0 <= UBRR0H u' < 16 /\ 0 <= UBRR0L u' < 256 /\
    UART_QueryBaud u' = rate_of mcu_hz (UBRR0 u') /\
    (forall j, 0 <= j <= 4095 ->
       Z.abs (UART_QueryBaud u' - baud_rate)
       <= Z.abs (rate_of mcu_hz j - baud_rate)) /\
    receiver u'
    = UART.UART_InitBuffers_ISR UART_LINE_COUNT UART_LINE_BITS (receiver u) /\
    Transmit.UART_IsSendInProgress (sender u') = false /\
    Transmit.UCSR0B (sender u') = Transmit.UART_CSRB_TXIDLE /\
    UCSR0A u' = UCSR0A u /\ UCSR0C u' = UCSR0C u /\
    (forall hz0 u0, UART_Init hz0 0 u0 = Some u ->
       UCSR0A u' = UART_CSRA_2X /\ UCSR0C u' = UART_CSRC).
Proof.
  intros Hb Hreach Hhz.
  destruct (init_divisor mcu_hz baud_rate u Hb Hreach Hhz)
    as (k & Hk & Hbest & E).
  destruct (registers_hold k Hk) as (Hreg & HH & HL).
  eexists. split; [exact E |].
  unfold UBRR0, UART_QueryBaud.
  cbn [UBRR0H UBRR0L real_baud_rate receiver sender UCSR0A UCSR0C].
  rewrite Hreg. repeat apply conj; auto; try lia.
  intros hz0 u0 E0. unfold UART_Init in E0. cbn [Z.eqb] in E0.
  injection E0 as <-. split; reflexivity.
Qed.

(** What [UART_Init] computes for a rate beyond the USART's reach. *)
Lemma init_too_fast (mcu_hz baud_rate : Z) (u : usart) :
  0 <= mcu_hz -> mcu_hz < 8 * baud_rate -> baud_rate < 2 ^ 29 ->
  exists u',
    UART_Init mcu_hz baud_rate u = Some u' /\
    UBRR0H u' = 0 /\ UBRR0L u' = 1 /\
    real_baud_rate u' = rate_of mcu_hz 1.
Proof.
  intros Hhz Hfast Hb. unfold UART_Init.
  destruct (Z.eqb_spec 0 baud_rate); [lia |].
  rewrite shift_3 by lia.
  destruct (Z.eqb_spec (8 * baud_rate) 0); [lia |].
  rewrite (Z.div_small mcu_hz (8 * baud_rate)) by lia.
  change (0 <? 0) with false. cbv iota.
  change (4095 <? 0) with false. cbv iota.
  change (0 <? 4095) with true. cbn [andb].
  rewrite !shift_3 by lia.
  change (8 * (0 + 1)) with 8. change (8 * (0 + 2)) with 16.
  assert (H8 : 0 <= mcu_hz / 8 < baud_rate)
    by (split; [apply Z.div_pos | apply Z.div_lt_upper_bound]; lia).
  assert (H16 : 0 <= mcu_hz / 16 <= mcu_hz / 8)
    by (split; [apply Z.div_pos | apply Z.div_le_compat_l]; lia).
  assert (E1 : uint32 (mcu_hz / 8 - baud_rate)
               = mcu_hz / 8 - baud_rate + 2 ^ 32).
  { unfold uint32. symmetry. apply (Z.mod_unique _ _ (-1)); lia. }
  rewrite E1, (uint32_small (baud_rate - mcu_hz / 16)) by lia.
  assert (E2 : (mcu_hz / 8 - baud_rate + 2 ^ 32 >? baud_rate - mcu_hz / 16)
               = true) by (apply Z.gtb_lt; lia).
  rewrite E2. eexists. split; [reflexivity |].
  cbn [UBRR0H UBRR0L real_baud_rate]. repeat split.
Qed.

(** X19.  A rate beyond reach is not rounded to the fastest setting.
    When the requested rate is above an eighth of the clock (and below
    2^29), the difference "real rate minus requested rate" is negative
    and wraps around as an unsigned number, so the "round up" test always
    succeeds: [UART_Init] writes divisor 1 and records a sixteenth of the
    clock, although divisor 0 (an eighth of the clock) would be at least
    as close to the request. *)
Theorem unreachable_rate_gets_divisor_one
        (mcu_hz baud_rate : Z) (u : usart) :
  0 <= mcu_hz -> mcu_hz < 8 * baud_rate -> baud_rate < 2 ^ 29 ->
  exists u',
    UART_Init mcu_hz baud_rate u = Some u' /\
    UBRR0 u' = 1 /\
    UART_QueryBaud u' = mcu_hz / 16 /\
    Z.abs (rate_of mcu_hz 0 - baud_rate)
    <= Z.abs (UART_QueryBaud u' - baud_rate).
Proof.
  intros Hhz Hfast Hb.
  destruct (init_too_fast mcu_hz baud_rate u Hhz Hfast Hb)
    as (u' & E & HH & HL & Hr).
  exists u'. split; [exact E |].
  unfold UBRR0, UART_QueryBaud. rewrite HH, HL, Hr.
  unfold rate_of. change (8 * (1 + 1)) with 16. change (8 * (0 + 1)) with 8.
  assert (H8 : 0 <= mcu_hz / 8 < baud_rate)
    by (split; [apply Z.div_pos | apply Z.div_lt_upper_bound]; lia).
  assert (H16 : 0 <= mcu_hz / 16 <= mcu_hz / 8)
    by (split; [apply Z.div_pos | apply Z.div_le_compat_l]; lia).
  repeat split; lia.
Qed.

End M328P.

(** ** The framework's messages on the wire

    The framework's UART calls, as logged by the model of neurapp-oo.cpp,
    replayed on the model of the transmit side of neuravr-uart.cpp. *)

Module Wire.

(** A logged call as a call of the UART module.  A string argument is a
    C string: the characters followed by the terminating NUL. *)
Definition uart_op (c : App.call) : list Transmit.print_op :=
  match c with
  | App.UART_QueueSend message => [Transmit.OpQueueSend (message ++ [0])]
  | App.UART_QueueSend_P message => [Transmit.OpQueueSend_P (message ++ [0])]
  | App.UART_PrintChar value => [Transmit.OpPrintChar value]
  | App.UART_PrintHex8 value => [Transmit.OpPrintHex8 value]
  | App.UART_WaitForSendDone => [Transmit.OpWaitForSendDone]
  | _ => []
  end.

Definition replay (calls : list App.call) (tx : Transmit.tx_state)
  : option Transmit.tx_state :=
  Transmit.run_prints (flat_map uart_op calls) tx.

(** How [PrintShortHelp] is meant to show one character of the line. *)
Definition render (thischar : Z) : list Z :=
  if (32 <=? thischar) && (126 >=? thischar) then [thischar]
  else [60] ++ Util.hex_text 2 (thischar mod 2 ^ 8) ++ [62].

Definition short_help_text (rawline : list Z) : list Z :=
  App.short_help_prefix ++ flat_map render (until_nul rawline)
  ++ App.short_help_suffix.

Definition printable_or_eol (c : Z) : Prop :=
  32 <= c <= 126 \/ c = 13 \/ c = 10.

Lemma uart_ops_terminated (calls : list App.call) :
  Forall Transmit.op_terminated (flat_map uart_op calls).
Proof.
  induction calls as [| c calls IH]; cbn [flat_map]; [constructor |].
  apply Forall_app_2; [| exact IH].
  destruct c; cbn; repeat constructor;
    apply in_or_app; right; now left.
Qed.

Lemma until_nul_terminated (l : list Z) :
  Forall (fun c => c <> 0) l -> until_nul (l ++ [0]) = l.
Proof. apply Transmit.until_nul_app. Qed.

Lemma raw_calls_text (rawline : list Z) :
  flat_map Transmit.op_text (flat_map uart_op (App.raw_calls rawline))
  = flat_map render (until_nul rawline).
Proof.
  induction rawline as [| c rest IH]; cbn [App.raw_calls until_nul];
    [reflexivity |].
  destruct (Z.eqb_spec c 0) as [| Hc]; [reflexivity |].
  cbn [flat_map].
  assert (Hr : render c
               = if (32 <=? c) && (126 >=? c) then [c]
                 else [60] ++ Util.hex_text 2 (c mod 2 ^ 8) ++ [62])
    by reflexivity.
  rewrite Hr. clear Hr.
  destruct ((32 <=? c) && (126 >=? c)).
  - cbn [flat_map uart_op Transmit.op_text until_nul app].
    destruct (Z.eqb_spec c 0); [contradiction |]. cbn [app].
    now rewrite IH.
  - cbn [flat_map uart_op app Transmit.op_text].
    rewrite IH. cbn [until_nul app].
    change (60 =? 0) with false. change (62 =? 0) with false. cbv iota.
    rewrite <- !app_assoc. reflexivity.
Qed.

Lemma short_help_calls_text (rawline : list Z) :
  flat_map Transmit.op_text (flat_map uart_op (App.short_help_calls rawline))
  = short_help_text rawline.
Proof.
  unfold App.short_help_calls, short_help_text.
  cbn [flat_map]. rewrite !flat_map_app, raw_calls_text.
  cbn [flat_map uart_op Transmit.op_text app]. rewrite !app_nil_r.
  rewrite !until_nul_terminated; [reflexivity | |];
    vm_compute; repeat constructor; discriminate.
Qed.

Lemma render_printable (c : Z) : Forall printable_or_eol (render c).
Proof.
  unfold render.
  destruct (32 <=? c) eqn:E1; destruct (126 >=? c) eqn:E2; cbn [andb].
  1: { apply Forall_cons_2; [left; lia | apply Forall_nil_2]. }
  all: apply Forall_app_2; [apply Forall_cons_2;
                              [left; lia | apply Forall_nil_2] |];
    apply Forall_app_2; [| apply Forall_cons_2;
                              [left; lia | apply Forall_nil_2]];
    eapply List.Forall_impl; [| apply Util.hex_text_chars];
    cbn; intros a (_ & _ & Ha); left; exact Ha.
Qed.

Lemma short_help_printable (rawline : list Z) :
  Forall printable_or_eol (short_help_text rawline).
Proof.
  unfold short_help_text.
  apply Forall_app_2; [| apply Forall_app_2].
  - let l := eval vm_compute in App.short_help_prefix in
    change App.short_help_prefix with l.
    repeat (apply Forall_cons_2; [left; lia |]).
    apply Forall_nil_2.
  - induction (until_nul rawline) as [| c l IH]; cbn [flat_map].
    + constructor.
    + apply Forall_app_2; [apply render_printable | exact IH].
  - let l := eval vm_compute in App.short_help_suffix in
    change App.short_help_suffix with l.
    repeat (apply Forall_cons_2;
            [first [left; lia | right; left; reflexivity
                   | right; right; reflexivity] |]).
    apply Forall_nil_2.
Qed.

Section Framework.

Variable world : Type.
Variable effect : App.call -> world -> world.

(** X20.  The bad-command message as the host sees it.  Whatever is in the
    rejected line, [PrintShortHelp], with its UART calls carried out by
    the UART module, returns and transmits exactly: the fixed opening
    text, then the line up to its first NUL with every character from 32
    to 126 as itself and every other character as [<hh>], [hh] being the
    two lower-case hexadecimal digits of its low eight bits, then the
    fixed closing text.  Every character sent is printable ASCII or CR or
    LF, so control characters of a corrupted line never reach the host's
    terminal. *)
Theorem short_help_shows_the_line_safely
        (rawline : list Z) (s : App.sys world) (tx : Transmit.tx_state) :
  Transmit.tx_ok tx ->
  exists d tx' tx'',
    App.log world (App.PrintShortHelp world effect rawline s)
    = App.log world s ++ d /\
    replay d tx = Some tx' /\
    Transmit.UART_WaitForSendDone tx' = Some tx'' /\
    Transmit.sent tx'' = Transmit.committed tx ++ short_help_text rawline /\
    Forall printable_or_eol (short_help_text rawline).
Proof using Type.
  intros Hok.
  destruct (Transmit.run_prints_spec
              (flat_map uart_op (App.short_help_calls rawline)) tx Hok
              (uart_ops_terminated _)) as (tx' & E & Hok' & Hc).
  exists (App.short_help_calls rawline), tx',
         (Transmit.idle (Transmit.scratchstr tx') (Transmit.committed tx')).
  split; [apply App.PrintShortHelp_log |].
  split; [exact E |].
  split; [apply (Transmit.wait_spec tx' Hok') |].
  split; [| apply short_help_printable].
  cbn [Transmit.sent Transmit.idle].
  now rewrite Hc, short_help_calls_text.
Qed.

End Framework.

End Wire.

(** ** Atomic blocks under interleaving (neuravr-emu.cpp)

    On the workstation the interrupt handlers are threads, and
    [ATOMIC_GetCli] and [ATOMIC_ReleaseCli] can be interrupted between
    their statements.  The bookkeeping variables are only touched while
    [atomic_access_mutex] is held, so each of those bracketed groups is one
    step; taking [atomic_waiting_mutex] is a step that needs the mutex to
    be free.  The shared state and the mutex operations are those of
    [Atomic]. *)

Module Interleaving.

Import Atomic.

(** Where a thread is. *)
Inductive pc :=
| Idle                                   (* not inside either function *)
| GetRead (save_old : bool)              (* [ATOMIC_GetCli] entered *)
| GetLock (save_old : bool) (old_count : Z) (old_id : option thread_id)
                                         (* bookkeeping read *)
| GetUpdate (save_old : bool)            (* past the [if], mutex held *)
| RelUpdate (desired_state : Z)          (* [ATOMIC_ReleaseCli] entered *)
| RelUnlock (old_count : Z).             (* count decremented and read *)

(** [open_blocks]: the [ATOMIC_idx] of every [ATOMIC_BLOCK] whose body the
    thread is in, innermost first. *)
Record local := mkLocal {
  at_pc : pc;
  open_blocks : list Z
}.

Record system := mkSystem {
  globals : atomic_state;
  threads : thread_id -> local
}.

Definition set_thread (t : thread_id) (l : local) (g : atomic_state)
           (s : system) : system :=
  mkSystem g (fun u => if Nat.eqb u t then l else threads s u).

(** What the scheduler lets a thread do next: enter a block, leave the
    innermost block, or run the next step of the function it is in. *)
Inductive move :=
| CallGetCli (save_old : bool)
| CallReleaseCli
| Advance.

(** One step of thread [t]; [None] when the move is not possible (the
    thread is blocked on the mutex, or is elsewhere in its code). *)
Definition step (t : thread_id) (m : move) (s : system) : option system :=
  let g := globals s in
  let l := threads s t in
  match at_pc l, m with
  | Idle, CallGetCli save_old =>
      Some (set_thread t (mkLocal (GetRead save_old) (open_blocks l)) g s)
  | Idle, CallReleaseCli =>
      match open_blocks l with
      | [] => None
      | ATOMIC_idx :: rest =>
          Some (set_thread t (mkLocal (RelUpdate ATOMIC_idx) rest) g s)
      end
  | GetRead save_old, Advance =>
      Some (set_thread t
              (mkLocal (GetLock save_old (atomic_owner_count g)
                                (atomic_owner_id g)) (open_blocks l)) g s)
  | GetLock save_old old_count old_id, Advance =>
      if (0 =? old_count) || negb (same_thread t old_id) then
        match waiting_lock t g with
        | None => None
        | Some g' =>
            Some (set_thread t (mkLocal (GetUpdate save_old) (open_blocks l))
                             g' s)
        end
      else
        Some (set_thread t (mkLocal (GetUpdate save_old) (open_blocks l)) g s)
  | GetUpdate save_old, Advance =>
      let old_count := atomic_owner_count g in
      let g' := mkAtomic (atomic_owner_count g + 1) (Some t)
                         (atomic_waiting_mutex g) (mutex_log g) in
      let result := if save_old && (0 <? old_count)
                    then ATOMIC_WANT_NO_INTERRUPTS
                    else ATOMIC_WANT_INTERRUPTS in
      Some (set_thread t (mkLocal Idle (result :: open_blocks l)) g' s)
  | RelUpdate _, Advance =>
      let old_count := atomic_owner_count g - 1 in
      Some (set_thread t (mkLocal (RelUnlock old_count) (open_blocks l))
              (mkAtomic old_count (atomic_owner_id g)
                        (atomic_waiting_mutex g) (mutex_log g)) s)
  | RelUnlock old_count, Advance =>
      let g' := if 0 =? old_count
                then mkAtomic (atomic_owner_count g) (atomic_owner_id g)
                              None (mutex_log g ++ [Unlock])
                else g in
      Some (set_thread t (mkLocal Idle (open_blocks l)) g' s)
  | _, _ => None
  end.

(** A schedule: which thread is given which move, in order.  A move that
    is not possible leaves the system as it is. *)
Fixpoint run_schedule (sched : list (thread_id * move)) (s : system)
  : system :=
  match sched with
  | [] => s
  | (t, m) :: rest =>
      run_schedule rest (match step t m s with
                         | Some s' => s'
                         | None => s
                         end)
  end.

Definition boot : system :=
  mkSystem atomic_boot (fun _ => mkLocal Idle []).

(** Thread [t] is in the body of an atomic block. *)
Definition inside (s : system) (t : thread_id) : Prop :=
  open_blocks (threads s t) <> [].

(** Thread [t] is stuck in [atomic_waiting_mutex.lock()]. *)
Definition blocked (s : system) (t : thread_id) : Prop :=
  at_pc (threads s t) <> Idle /\ step t Advance s = None.

Definition depth (l : local) : Z := Z.of_nat (length (open_blocks l)).

(** The thread's share of [atomic_owner_count]. *)
Definition share (l : local) : Z :=
  depth l + match at_pc l with
            | RelUpdate _ => 1
            | _ => 0
            end.

(** The thread is where holding the mutex is needed. *)
Definition needs_mutex (l : local) : Prop :=
  match at_pc l with
  | GetUpdate _ | RelUpdate _ | RelUnlock _ => True
  | _ => open_blocks l <> []
  end.

Record safe (s : system) : Prop := mkSafe {
  sf_holder : forall t,
    needs_mutex (threads s t) <-> atomic_waiting_mutex (globals s) = Some t;
  sf_count : forall t,
    atomic_waiting_mutex (globals s) = Some t ->
    atomic_owner_count (globals s) = share (threads s t) /\
    (0 < share (threads s t) -> atomic_owner_id (globals s) = Some t) /\
    (forall oc, at_pc (threads s t) = RelUnlock oc ->
                oc = share (threads s t));
  sf_free :
    atomic_waiting_mutex (globals s) = None ->
    atomic_owner_count (globals s) = 0;
  sf_read : forall t sv c id,
    at_pc (threads s t) = GetLock sv c id ->
    (open_blocks (threads s t) <> [] <-> c <> 0 /\ same_thread t id = true);
  sf_token : forall t tok,
    last (open_blocks (threads s t)) = Some tok ->
    tok = ATOMIC_WANT_INTERRUPTS
}.

Lemma same_thread_iff (t : thread_id) (id : option thread_id) :
  same_thread t id = true <-> id = Some t.
Proof.
  unfold same_thread. destruct id as [u |]; [| split; discriminate].
  rewrite Nat.eqb_eq. split; congruence.
Qed.

Lemma safe_boot : safe boot.
Proof.
  constructor; cbn; try discriminate; try tauto.
  intros t. split; [tauto | discriminate].
Qed.

Lemma nonempty_depth (l : list Z) : l <> [] <-> 0 < Z.of_nat (length l).
Proof. destruct l; cbn [length]; split; intros; try congruence; lia. Qed.

Lemma threads_set_same (t : thread_id) (l : local) (g : atomic_state)
      (s : system) :
  threads (set_thread t l g s) t = l.
Proof. cbn. now rewrite Nat.eqb_refl. Qed.

Lemma threads_set_other (t u : thread_id) (l : local) (g : atomic_state)
      (s : system) :
  u <> t -> threads (set_thread t l g s) u = threads s u.
Proof. intros H. cbn. now destruct (Nat.eqb_spec u t). Qed.

(** Re-establishing the invariant after thread [t] moved. *)
Lemma safe_set (t : thread_id) (l : local) (g : atomic_state) (s : system) :
  safe s ->
  (needs_mutex l <-> atomic_waiting_mutex g = Some t) ->
  (forall u, u <> t ->
     (needs_mutex (threads s u) <-> atomic_waiting_mutex g = Some u)) ->
  (atomic_waiting_mutex g = Some t ->
   atomic_owner_count g = share l /\
   (0 < share l -> atomic_owner_id g = Some t) /\
   (forall oc, at_pc l = RelUnlock oc -> oc = share l)) ->
  (forall u, u <> t -> atomic_waiting_mutex g = Some u ->
   atomic_owner_count g = share (threads s u) /\
   (0 < share (threads s u) -> atomic_owner_id g = Some u) /\
   (forall oc, at_pc (threads s u) = RelUnlock oc ->
               oc = share (threads s u))) ->
  (atomic_waiting_mutex g = None -> atomic_owner_count g = 0) ->
  (forall sv c id, at_pc l = GetLock sv c id ->
     (open_blocks l <> [] <-> c <> 0 /\ same_thread t id = true)) ->
  (forall tok, last (open_blocks l) = Some tok ->
               tok = ATOMIC_WANT_INTERRUPTS) ->
  safe (set_thread t l g s).
Proof.
  intros Hs H1 H1' H2 H2' H3 H4 H5.
  constructor; cbn [globals]; try exact H3; intros u;
    (destruct (Nat.eq_dec u t) as [-> | Hne];
     [rewrite ?threads_set_same | rewrite ?threads_set_other by exact Hne]);
    auto.
  - apply (sf_read s Hs).
  - apply (sf_token s Hs).
Qed.

(** The invariant at the moving thread [t], which is at [l], and at
    another thread [u]. *)
Ltac thread_facts Hs t u Hl :=
  let Hht := fresh "Hht" in
  let Hhu := fresh "Hhu" in
  let Hct := fresh "Hct" in
  let Hcu := fresh "Hcu" in
  let Hf := fresh "Hf" in
  let Hrt := fresh "Hrt" in
  let Htt := fresh "Htt" in
  pose proof (sf_holder _ Hs t) as Hht; pose proof (sf_holder _ Hs u) as Hhu;
  pose proof (sf_count _ Hs t) as Hct; pose proof (sf_count _ Hs u) as Hcu;
  pose proof (sf_free _ Hs) as Hf;
  pose proof (sf_read _ Hs t) as Hrt;
  pose proof (sf_token _ Hs t) as Htt;
  rewrite ?Hl in *; unfold needs_mutex, share, depth in *;
  cbn [at_pc open_blocks globals atomic_owner_count atomic_owner_id
       atomic_waiting_mutex mutex_log length] in *.

Ltac settle :=
  cbn [at_pc open_blocks globals atomic_owner_count atomic_owner_id
       atomic_waiting_mutex mutex_log length last] in *;
  rewrite ?same_thread_iff, ?nonempty_depth in *;
  solve [ eauto
        | intuition (subst; try congruence; try lia)
        | repeat split; intros; try discriminate;
          intuition (subst; try congruence; try lia) ].

(** The obligations of [safe_set], each with the invariant at hand. *)
Ltac moved Hs t Hl :=
  apply safe_set;
  [ exact Hs
  | thread_facts Hs t t Hl
  | let u := fresh "u" in let Hne := fresh "Hne" in
    intros u Hne; thread_facts Hs t u Hl;
    destruct (threads _ u) as [[| ? | ? ? ? | ? | ? | ?] ?]
  | thread_facts Hs t t Hl
  | let u := fresh "u" in let Hne := fresh "Hne" in
    intros u Hne; thread_facts Hs t u Hl;
    destruct (threads _ u) as [[| ? | ? ? ? | ? | ? | ?] ?]
  | thread_facts Hs t t Hl
  | let Hpc := fresh "Hpc" in
    intros ? ? ? Hpc; thread_facts Hs t t Hl
  | let Htok := fresh "Htok" in
    intros ? Htok; thread_facts Hs t t Hl ].

Lemma step_safe (t : thread_id) (m : move) (s s' : system) :
  safe s -> step t m s = Some s' -> safe s'.
Proof.
  intros Hs Hstep. unfold step in Hstep.
  destruct (threads s t) as [p toks] eqn:Hl.
  cbn [at_pc open_blocks] in Hstep.
  destruct p as [| sv | sv c id | sv | ds | oc], m as [sv' | |];
    try discriminate Hstep.
  - (* call ATOMIC_GetCli *)
    injection Hstep as <-.
    moved Hs t Hl; try settle.
  - (* call ATOMIC_ReleaseCli *)
    destruct toks as [| ATOMIC_idx rest]; [discriminate |].
    injection Hstep as <-.
    moved Hs t Hl; try settle.
    + split; [intros _; apply Hht; discriminate | tauto].
    + destruct rest as [| b rest]; [discriminate Htok |].
      apply Htt. exact Htok.
  - (* read the bookkeeping *)
    injection Hstep as <-.
    moved Hs t Hl; try settle.
    injection Hpc as _ <- <-. rewrite same_thread_iff. split.
    + intros Hne. pose proof (proj1 Hht Hne) as Hm.
      destruct (Hct Hm) as (Hc & Ho & _). apply nonempty_depth in Hne.
      split; [lia | apply Ho; lia].
    + intros [Hc0 Hid].
      destruct (atomic_waiting_mutex (globals s)) as [h |] eqn:Hm;
        [| specialize (Hf eq_refl); lia].
      destruct (sf_count s Hs h Hm) as (Hc & Ho & _).
      assert (Hpos : 0 <= share (threads s h))
        by (unfold share, depth; destruct (at_pc (threads s h)); lia).
      assert (h = t) by (specialize (Ho ltac:(lia)); congruence).
      subst h. now apply Hht.
  - (* take the mutex, or go on without *)
    destruct ((0 =? c) || negb (same_thread t id)) eqn:Hif.
    + unfold waiting_lock in Hstep.
      destruct (atomic_waiting_mutex (globals s)) eqn:Hm; [discriminate |].
      injection Hstep as <-.
      moved Hs t Hl; try settle.
      intros _.
      assert (toks = []) as ->.
      { destruct toks as [| a toks]; [reflexivity |].
        assert (atomic_waiting_mutex (globals s) = Some t)
          by (apply Hht; discriminate).
        congruence. }
      rewrite (Hf Hm). cbn [length].
      repeat split; [lia | discriminate].
    + injection Hstep as <-.
      moved Hs t Hl; try settle.
      split; [intros _ | tauto].
      apply Hht, (Hrt sv c id eq_refl).
      apply orb_false_iff in Hif as [H1 H2].
      apply negb_false_iff in H2. apply Z.eqb_neq in H1.
      split; [lia | exact H2].
  - (* count up and return *)
    injection Hstep as <-.
    moved Hs t Hl; try settle.
    destruct (Hct (proj1 Hht I)) as (Hc & _ & _).
    destruct toks as [| b toks].
    + cbn [length] in Hc. rewrite Hc in Htok.
      rewrite andb_false_r in Htok. cbn in Htok. congruence.
    + apply Htt. exact Htok.
  - (* count down *)
    injection Hstep as <-.
    moved Hs t Hl; try settle.
    intros Hm. destruct (Hct Hm) as (Hc & Ho & _).
    repeat split; [lia | intros; apply Ho; lia |].
    intros oc' E. injection E as <-. lia.
  - (* unlock at the outermost level and return *)
    destruct (Z.eqb_spec 0 oc) as [<- | Hoc]; injection Hstep as <-.
    + moved Hs t Hl; try settle;
        destruct (Hct (proj1 Hht I)) as (Hc & _ & Hoc);
        specialize (Hoc 0 eq_refl).
      * split; [intros Hne; apply nonempty_depth in Hne; lia | discriminate].
      * intros _. lia.
    + moved Hs t Hl; try settle.
      destruct (Hct (proj1 Hht I)) as (_ & _ & Hoc').
      specialize (Hoc' oc eq_refl).
      split; [intros _; apply Hht; exact I |].
      intros _. apply nonempty_depth. lia.
Qed.

Lemma run_safe (sched : list (thread_id * move)) :
  forall s, safe s -> safe (run_schedule sched s).
Proof.
  induction sched as [| [t m] sched IH]; intros s Hs; cbn [run_schedule].
  - exact Hs.
  - apply IH. destruct (step t m s) as [s' |] eqn:E; [| exact Hs].
    exact (step_safe t m s s' Hs E).
Qed.

Lemma safe_exclusive (s : system) (t u : thread_id) :
  safe s -> inside s t -> inside s u -> t = u.
Proof.
  intros Hs Ht Hu.
  assert (Hc : forall v, inside s v ->
                         atomic_waiting_mutex (globals s) = Some v).
  { intros v Hv. apply (sf_holder s Hs v). unfold needs_mutex, inside in *.
    destruct (at_pc (threads s v)); auto. }
  pose proof (Hc t Ht). pose proof (Hc u Hu). congruence.
Qed.

Lemma safe_inside (s : system) (t : thread_id) :
  safe s -> inside s t ->
  atomic_waiting_mutex (globals s) = Some t /\
  atomic_owner_id (globals s) = Some t /\
  (at_pc (threads s t) = Idle ->
   atomic_owner_count (globals s)
   = Z.of_nat (length (open_blocks (threads s t)))).
Proof.
  intros Hs Ht.
  assert (Hm : atomic_waiting_mutex (globals s) = Some t).
  { apply (sf_holder s Hs t). unfold needs_mutex, inside in *.
    destruct (at_pc (threads s t)); auto. }
  destruct (sf_count s Hs t Hm) as (Hc & Ho & _).
  unfold inside in Ht. apply nonempty_depth in Ht.
  unfold share, depth in *.
  split; [exact Hm |]. split.
  - apply Ho. destruct (at_pc (threads s t)); lia.
  - intros E. rewrite E in Hc. lia.
Qed.

(** A thread that is about to lock the mutex does not hold it, and a
    thread that is about to unlock it does. *)
Lemma safe_mutex_use (s : system) (t : thread_id) :
  safe s ->
  (forall sv c id,
     at_pc (threads s t) = GetLock sv c id ->
     (0 =? c) || negb (same_thread t id) = true ->
     atomic_waiting_mutex (globals s) <> Some t) /\
  (at_pc (threads s t) = RelUnlock 0 ->
   atomic_waiting_mutex (globals s) = Some t).
Proof.
  intros Hs. split.
  - intros sv c id Hpc Hif Hm.
    apply (sf_holder s Hs t) in Hm. unfold needs_mutex in Hm. rewrite Hpc in Hm.
    apply (sf_read s Hs t sv c id Hpc) in Hm as [Hc Hid].
    rewrite Hid in Hif. cbn [negb] in Hif. rewrite orb_false_r in Hif.
    apply Z.eqb_eq in Hif. congruence.
  - intros Hpc. apply (sf_holder s Hs t). unfold needs_mutex. now rewrite Hpc.
Qed.

Lemma blocked_cases (s : system) (t : thread_id) :
  blocked s t ->
  exists sv c id h,
    at_pc (threads s t) = GetLock sv c id /\
    (0 =? c) || negb (same_thread t id) = true /\
    atomic_waiting_mutex (globals s) = Some h.
Proof.
  intros [Hpc Hstep]. unfold step in Hstep.
  destruct (at_pc (threads s t)) as [| sv | sv c id | sv | ds | oc];
    try discriminate; [congruence |].
  destruct ((0 =? c) || negb (same_thread t id)) eqn:Hif; [| discriminate].
  unfold waiting_lock in Hstep.
  destruct (atomic_waiting_mutex (globals s)) as [h |]; [| discriminate].
  now exists sv, c, id, h.
Qed.

Lemma holder_can_move (s : system) (h : thread_id) :
  safe s -> atomic_waiting_mutex (globals s) = Some h ->
  exists m, step h m s <> None.
Proof.
  intros Hs Hm. pose proof (proj2 (sf_holder s Hs h) Hm) as Hc.
  pose proof (sf_read s Hs h) as Hr.
  unfold needs_mutex in Hc. unfold step.
  destruct (threads s h) as [p toks]. cbn [at_pc open_blocks] in *.
  destruct p as [| sv | sv c id | sv | ds | oc].
  - exists CallReleaseCli. destruct toks; [congruence | discriminate].
  - exists Advance. discriminate.
  - exists Advance.
    destruct (proj1 (Hr sv c id eq_refl) Hc) as [Hc0 Hid].
    rewrite Hid. destruct (Z.eqb_spec 0 c); [congruence |].
    cbn. discriminate.
  - exists Advance. discriminate.
  - exists Advance. discriminate.
  - exists Advance. discriminate.
Qed.

(** [step] at a thread whose place is known. *)
Lemma step_here (t : thread_id) (m : move) (s : system) (p : pc)
      (toks : list Z) :
  threads s t = mkLocal p toks ->
  step t m s
  = match p, m with
    | Idle, CallGetCli save_old =>
        Some (set_thread t (mkLocal (GetRead save_old) toks) (globals s) s)
    | Idle, CallReleaseCli =>
        match toks with
        | [] => None
        | ATOMIC_idx :: rest =>
            Some (set_thread t (mkLocal (RelUpdate ATOMIC_idx) rest)
                             (globals s) s)
        end
    | GetRead save_old, Advance =>
        Some (set_thread t
                (mkLocal (GetLock save_old (atomic_owner_count (globals s))
                                  (atomic_owner_id (globals s))) toks)
                (globals s) s)
    | GetLock save_old old_count old_id, Advance =>
        if (0 =? old_count) || negb (same_thread t old_id) then
          match waiting_lock t (globals s) with
          | None => None
          | Some g' =>
              Some (set_thread t (mkLocal (GetUpdate save_old) toks) g' s)
          end
        else
          Some (set_thread t (mkLocal (GetUpdate save_old) toks)
                           (globals s) s)
    | GetUpdate save_old, Advance =>
        Some (set_thread t
                (mkLocal Idle
                   ((if save_old && (0 <? atomic_owner_count (globals s))
                     then ATOMIC_WANT_NO_INTERRUPTS
                     else ATOMIC_WANT_INTERRUPTS) :: toks))
                (mkAtomic (atomic_owner_count (globals s) + 1) (Some t)
                          (atomic_waiting_mutex (globals s))
                          (mutex_log (globals s))) s)
    | RelUpdate _, Advance =>
        Some (set_thread t
                (mkLocal (RelUnlock (atomic_owner_count (globals s) - 1))
                         toks)
                (mkAtomic (atomic_owner_count (globals s) - 1)
                          (atomic_owner_id (globals s))
                          (atomic_waiting_mutex (globals s))
                          (mutex_log (globals s))) s)
    | RelUnlock old_count, Advance =>
        Some (set_thread t (mkLocal Idle toks)
                (if 0 =? old_count
                 then mkAtomic (atomic_owner_count (globals s))
                               (atomic_owner_id (globals s)) None
                               (mutex_log (globals s) ++ [Unlock])
                 else globals s) s)
    | _, _ => None
    end.
Proof. intros Hl. unfold step. rewrite Hl. reflexivity. Qed.

(** A call that no other thread interrupts does what the function does
    as a whole. *)
Lemma uninterrupted_get_cli (t : thread_id) (sv : bool) (s : system) :
  at_pc (threads s t) = Idle ->
  let s' := run_schedule [(t, CallGetCli sv); (t, Advance); (t, Advance);
                          (t, Advance)] s in
  match ATOMIC_GetCli t sv (globals s) with
  | Some (result, g') =>
      globals s' = g' /\
      threads s' t = mkLocal Idle (result :: open_blocks (threads s t))
  | None =>
      globals s' = globals s /\
      at_pc (threads s' t)
      = GetLock sv (atomic_owner_count (globals s))
                (atomic_owner_id (globals s))
  end.
Proof.
  intros Hpc. destruct (threads s t) as [p toks] eqn:Hl.
  cbn [at_pc open_blocks] in *. subst p.
  set (g := globals s).
  set (s1 := set_thread t (mkLocal (GetRead sv) toks) g s).
  set (s2 := set_thread t (mkLocal (GetLock sv (atomic_owner_count g)
                                            (atomic_owner_id g)) toks) g s1).
  assert (E1 : step t (CallGetCli sv) s = Some s1)
    by (rewrite (step_here t _ s _ _ Hl); reflexivity).
  assert (E2 : step t Advance s1 = Some s2)
    by (rewrite (step_here t _ s1 _ _ (threads_set_same _ _ _ _));
        reflexivity).
  pose proof (step_here t Advance s2 _ _ (threads_set_same _ _ _ _)) as E3.
  cbv iota in E3. change (globals s2) with g in E3.
  cbn [run_schedule]. rewrite E1, E2. unfold ATOMIC_GetCli. fold g.
  destruct ((0 =? atomic_owner_count g)
            || negb (same_thread t (atomic_owner_id g))).
  - destruct (waiting_lock t g) as [g1 |] eqn:Hw.
    + rewrite E3.
      rewrite (step_here t Advance _ _ _ (threads_set_same _ _ _ _)).
      cbn [globals set_thread threads]. now rewrite Nat.eqb_refl.
    + rewrite E3. rewrite E3. split; [reflexivity |].
      unfold s2. now rewrite threads_set_same.
  - rewrite E3.
    rewrite (step_here t Advance _ _ _ (threads_set_same _ _ _ _)).
    cbn [globals set_thread threads]. now rewrite Nat.eqb_refl.
Qed.

Lemma uninterrupted_release_cli (t : thread_id) (token : Z) (rest : list Z)
      (s : system) :
  threads s t = mkLocal Idle (token :: rest) ->
  let s' := run_schedule [(t, CallReleaseCli); (t, Advance); (t, Advance)]
                         s in
  globals s' = snd (ATOMIC_ReleaseCli token (globals s)) /\
  threads s' t = mkLocal Idle rest.
Proof.
  intros Hl. cbn [run_schedule].
  rewrite (step_here t _ s _ _ Hl).
  rewrite (step_here t Advance _ _ _ (threads_set_same _ _ _ _)).
  rewrite (step_here t Advance _ _ _ (threads_set_same _ _ _ _)).
  cbn [globals set_thread threads atomic_owner_count atomic_owner_id
       atomic_waiting_mutex mutex_log].
  rewrite Nat.eqb_refl. unfold ATOMIC_ReleaseCli. cbn [snd].
  destruct (0 =? atomic_owner_count (globals s) - 1); auto.
Qed.

(** X21.  Atomic blocks exclude each other under every interleaving.
    However the scheduler interleaves the steps of [ATOMIC_GetCli] and
    [ATOMIC_ReleaseCli] of any number of threads, from the initial state:
    two different threads are never both in the body of an atomic block;
    a thread that is in a body holds [atomic_waiting_mutex] and is the
    recorded owner, and between its calls the nesting count is the number
    of blocks it has open; the mutex is never locked by the thread that
    holds it and never unlocked by a thread that does not; and the token
    of a thread's outermost open block is always "want interrupts". *)
Theorem atomic_blocks_exclude_each_other
        (sched : list (thread_id * move)) :
  let s := run_schedule sched boot in
  (forall t u, inside s t -> inside s u -> t = u) /\
  (forall t, inside s t ->
     atomic_waiting_mutex (globals s) = Some t /\
     atomic_owner_id (globals s) = Some t /\
     (at_pc (threads s t) = Idle ->
      atomic_owner_count (globals s)
      = Z.of_nat (length (open_blocks (threads s t))))) /\
  (forall t sv c id,
     at_pc (threads s t) = GetLock sv c id ->
     (0 =? c) || negb (same_thread t id) = true ->
     atomic_waiting_mutex (globals s) <> Some t) /\
  (forall t, at_pc (threads s t) = RelUnlock 0 ->
             atomic_waiting_mutex (globals s) = Some t) /\
  (forall t tok, last (open_blocks (threads s t)) = Some tok ->
                 tok = ATOMIC_WANT_INTERRUPTS).
Proof.
  intros s. pose proof (run_safe sched boot safe_boot) as Hs. fold s in Hs.
  split; [intros t u; apply (safe_exclusive s t u Hs) |].
  split; [intros t; apply (safe_inside s t Hs) |].
  split; [intros t; apply (safe_mutex_use s t Hs) |].
  split; [intros t; apply (safe_mutex_use s t Hs) |].
  apply (sf_token s Hs).
Qed.

(** X22.  No deadlock on the atomic-block mutex.  In every state that an
    interleaving reaches, a thread that cannot go on is waiting in
    [ATOMIC_GetCli] for [atomic_waiting_mutex], the mutex is held by
    another thread, and that thread can take a step: it is never itself
    waiting for the mutex, and a thread never waits for a mutex it holds
    (nested blocks skip the lock). *)
Theorem blocked_thread_waits_for_a_running_one
        (sched : list (thread_id * move)) (t : thread_id) :
  let s := run_schedule sched boot in
  blocked s t ->
  exists h,
    atomic_waiting_mutex (globals s) = Some h /\ h <> t /\
    ~ blocked s h /\ exists m, step h m s <> None.
Proof.
  intros s Hb. pose proof (run_safe sched boot safe_boot) as Hs. fold s in Hs.
  destruct (blocked_cases s t Hb) as (sv & c & id & h & Hpc & Hif & Hm).
  exists h. split; [exact Hm |].
  assert (Hne : h <> t).
  { intros ->. exact (proj1 (safe_mutex_use s t Hs) sv c id Hpc Hif Hm). }
  split; [exact Hne |]. split; [| exact (holder_can_move s h Hs Hm)].
  intros Hbh.
  destruct (blocked_cases s h Hbh) as (sv' & c' & id' & h' & Hpc' & Hif' & _).
  exact (proj1 (safe_mutex_use s h Hs) sv' c' id' Hpc' Hif' Hm).
Qed.

End Interleaving.

(** ** Concrete instances

    The theorems above at inputs of the ATmega328P build (8 receive lines
    of 64 characters, 6 ADC channels, 16 MHz clock). *)

(** [Forall P l] for a closed list [l], element by element. *)
Ltac each_char tac :=
  hnf;
  match goal with
  | |- Forall ?P ?l =>
      let l' := eval vm_compute in l in change (Forall P l')
  end;
  repeat (apply List.Forall_cons; [cbv beta; tac |]); apply List.Forall_nil.

Lemma received_line_is_queued_m328p :
  UART.queued 8 6 (m328p_feed (chars "go" ++ [13])) = [chars "go"].
Proof.
  refine (proj1 (UART.received_line_is_queued 8 6 _ eq_refl
                   (UART.uart_init 8 6) (chars "go") 13
                   (UART.uart_inv_init 8 6 _ eq_refl) eq_refl _ _ _)).
  - lia.
  - lia.
  - each_char ltac:(repeat split; discriminate).
  - discriminate.
  - now left.
Defined.

Lemma lines_come_out_in_order_m328p :
  fst (UART.consume 8 6 2 (m328p_feed seven_lines_then_h))
  = [chars "a"; chars "b"].
Proof.
  rewrite (proj1 (UART.lines_come_out_in_order 8 6 ltac:(lia) eq_refl 2
                    (m328p_feed seven_lines_then_h) full_state_inv)).
  vm_compute. reflexivity.
Defined.

Lemma lines_round_trip_m328p :
  UART.queued 8 6
    (UART.feed 8 6 (UART.uart_init 8 6)
       (UART.wire [(chars "go", UART.EolCRLF); (chars "x", UART.EolLF)]))
  = [chars "go"; chars "x"].
Proof.
  refine (proj1 (UART.lines_round_trip 8 6 _ eq_refl
                   [(chars "go", UART.EolCRLF); (chars "x", UART.EolLF)] _)).
  - lia.
  - each_char ltac:(split; [each_char ltac:(repeat split; discriminate)
                           | discriminate]).
Defined.

Lemma unread_lines_survive_input_m328p :
  let s := m328p_feed (chars "a" ++ [13]) in
  UART.UART_GetNextLine 6 (UART.feed 8 6 s (chars "bc" ++ [10])) = Some 0 /\
  UART.text_at (UART.feed 8 6 s (chars "bc" ++ [10])) 0 = UART.text_at s 0.
Proof.
  refine (proj2 (UART.unread_lines_survive_input 8 6 _ eq_refl
                   (m328p_feed (chars "a" ++ [13])) (chars "bc" ++ [10]) _)
                0 eq_refl).
  - lia.
  - apply UART.uart_inv_feed; [lia | reflexivity |].
    apply UART.uart_inv_init; [lia | reflexivity].
Defined.

Lemma filtering_queues_no_empty_line_m328p :
  Forall (fun l => l <> [])
    (UART.queued 8 6
       (UART.uart_run 8 6
          (UART.UART_SetLineFiltering true (UART.uart_init 8 6))
          [UART.EvRecv 13; UART.EvRecv 10; UART.EvRecv 10; UART.EvRecv 104;
           UART.EvRecv 13; UART.EvFilter true; UART.EvRecv 13; UART.EvDone])).
Proof.
  refine (proj2 (UART.filtering_queues_no_empty_line 8 6 _ eq_refl _ _ _)).
  - lia.
  - lia.
  - each_char ltac:(cbn; first [discriminate | reflexivity | exact I]).
Defined.

(** A round over channels 0, 2 and 5; the hardware is busy at the first
    and the third tick. *)
Definition round_ticks : list (bool * Z) :=
  [(true, 0); (false, 11); (true, 0); (false, 12); (false, 13); (false, 14)].

Lemma wait_for_data_ends_with_the_round_m328p :
  let s0 := ADC.ADC_StartConversion 6 37 (ADC.adc_boot 6) in
  let s' := ADC.polls 6 (take (length (ADC.requested 6 37))
                              (ADC.free_polls round_ticks)) s0 in
  ADC.ADC_WaitForData 6 round_ticks s0 = Some s' /\
  ADC.ADC_idle s' = true /\
  forall c, (c < 6)%nat ->
            ADC.flag (ADC.ADC_data_ready s') c = ADC.mask_has 37 c.
Proof.
  refine (proj1 (ADC.wait_for_data_ends_with_the_round 6 37 round_ticks
                   (ADC.adc_boot 6) (ADC.adc_inv_boot 6) eq_refl) _ _).
  - vm_compute. discriminate.
  - vm_compute. lia.
Defined.


(** A registry whose handler 5 registers the name ECH itself. *)
Definition echo_lut : list App.event_row :=
  [App.mkRow (Some 5%nat)
     (Some [App.mkCmd (chars "ECH") 9 1; App.mkCmd (chars "") 0 (-1)]);
   App.mkRow None None].

Definition echo_sys : App.sys unit :=
  App.mkSys unit
    (App.mkApp (chars "id") (chars "help") (Some echo_lut)
       Parser.parser_new false (App.queue App.app_new)
       (App.stats App.app_new) false false)
    tt [].

Lemma builtin_names_shadow_the_registry_example :
  exists d,
    App.log unit
      (App.handle_command unit demo_effect demo_help echo_lut
         (chars "ECH 1") Parser.cmd_echo 1 0 1 echo_sys)
    = App.log unit echo_sys ++ d /\
    Forall (fun c => App.is_handle_command c = false) d.
Proof.
  apply (App.builtin_names_shadow_the_registry unit demo_effect demo_help
           echo_lut (chars "ECH 1") Parser.cmd_echo 1 0 1 echo_sys).
  reflexivity.
Defined.

Lemma fetched_line_is_released_once_example :
  exists s',
    App.DoPolling unit demo_effect demo_generate demo_help
      (Some (chars "ECH 1")) false echo_sys = Some s' /\
    App.calls App.is_done_with_line (App.log unit s') = 1%nat.
Proof.
  destruct (App.DoPolling unit demo_effect demo_generate demo_help
              (Some (chars "ECH 1")) false echo_sys) as [s' |] eqn:E;
    [| vm_compute in E; discriminate E].
  exists s'. split; [reflexivity |].
  exact (proj1 (App.fetched_line_is_released_once unit demo_effect
                  demo_generate demo_help echo_lut (Some (chars "ECH 1"))
                  false echo_sys s' eq_refl E)).
Defined.

Lemma echo_command_switches_echo_example :
  App.echo_state
    (App.app unit
       (App.poll_command unit demo_effect demo_help echo_lut
          (Some (chars "ech 7")) echo_sys)) = true /\
  App.echo_state
    (App.app unit
       (App.poll_command unit demo_effect demo_help echo_lut
          (Some (chars "ech 65536")) echo_sys)) = false.
Proof.
  split.
  - refine (proj1 (App.echo_command_switches_echo unit demo_effect demo_help
                     echo_lut [] (chars "ech") [32] (chars "7") [] echo_sys
                     _ eq_refl _ _ _ _ _)).
    + each_char ltac:(split; [lia | discriminate]).
    + each_char ltac:(split; [lia | discriminate]).
    + discriminate.
    + each_char ltac:(lia).
    + discriminate.
    + each_char ltac:(split; [lia | discriminate]).
  - refine (proj1 (App.echo_command_switches_echo unit demo_effect demo_help
                     echo_lut [] (chars "ech") [32] (chars "65536") []
                     echo_sys _ eq_refl _ _ _ _ _)).
    + each_char ltac:(split; [lia | discriminate]).
    + each_char ltac:(split; [lia | discriminate]).
    + discriminate.
    + each_char ltac:(lia).
    + discriminate.
    + each_char ltac:(split; [lia | discriminate]).
Defined.


(** The sender after [UART_Init], with a cleared scratch string. *)
Definition sender_ready : Transmit.tx_state :=
  Transmit.idle (replicate 16 0) [].

Lemma sender_ready_ok : Transmit.tx_ok sender_ready.
Proof. apply Transmit.idle_ok. reflexivity. Qed.

Lemma prints_are_sent_whole_and_in_order_example :
  exists tx' tx'',
    Transmit.run_prints
      [Transmit.OpQueueSend (chars "v=" ++ [0]); Transmit.OpPrintHex8 171;
       Transmit.OpPrintChar 10] sender_ready = Some tx' /\
    Transmit.UART_WaitForSendDone tx' = Some tx'' /\
    Transmit.UART_IsSendInProgress tx'' = false /\
    Transmit.udre_enabled tx'' = false /\
    Transmit.sent tx'' = chars "v=ab" ++ [10].
Proof.
  apply (Transmit.prints_are_sent_whole_and_in_order
           [Transmit.OpQueueSend (chars "v=" ++ [0]); Transmit.OpPrintHex8 171;
            Transmit.OpPrintChar 10] sender_ready sender_ready_ok).
  each_char ltac:(first [exact I | cbn; tauto]).
Defined.

Lemma one_character_per_interrupt_example :
  exists tx0,
    Transmit.UART_QueueSend (Some (Transmit.Text (chars "ok" ++ [0; 33])))
                            sender_ready = Some tx0 /\
    (exists txk,
       Transmit.interrupts 1 tx0 = Some txk /\
       Transmit.sent txk = chars "o" /\
       Transmit.pending txk = chars "k" /\
       Transmit.UART_IsSendInProgress txk = true /\
       Transmit.udre_enabled txk = true) /\
    Transmit.interrupts 5 tx0
    = Some (Transmit.mkTx None 0 false (replicate 16 0) (chars "ok")
                          Transmit.UART_CSRB_TXIDLE).
Proof.
  apply (Transmit.one_character_per_interrupt (chars "ok" ++ [0; 33]) 1 2
           sender_ready sender_ready_ok eq_refl).
  - vm_compute. tauto.
  - vm_compute. lia.
Defined.

Lemma short_help_shows_the_line_safely_example :
  exists d tx' tx'',
    App.log unit (App.PrintShortHelp unit demo_effect [120; 7; 0; 121]
                                     echo_sys)
    = App.log unit echo_sys ++ d /\
    Wire.replay d sender_ready = Some tx' /\
    Transmit.UART_WaitForSendDone tx' = Some tx'' /\
    Transmit.sent tx''
    = Transmit.committed sender_ready ++ Wire.short_help_text [120; 7; 0; 121]
    /\
    Forall Wire.printable_or_eol (Wire.short_help_text [120; 7; 0; 121]).
Proof.
  apply (Wire.short_help_shows_the_line_safely unit demo_effect
           [120; 7; 0; 121] echo_sys sender_ready sender_ready_ok).
Defined.

(** Thread 1 enters a block; thread 2 then tries to. *)
Definition contended : list (Atomic.thread_id * Interleaving.move) :=
  [(1%nat, Interleaving.CallGetCli true); (1%nat, Interleaving.Advance);
   (1%nat, Interleaving.Advance); (1%nat, Interleaving.Advance);
   (2%nat, Interleaving.CallGetCli true); (2%nat, Interleaving.Advance)].

Lemma blocked_thread_waits_for_a_running_one_example :
  let s := Interleaving.run_schedule contended Interleaving.boot in
  exists h,
    Atomic.atomic_waiting_mutex (Interleaving.globals s) = Some h /\
    h <> 2%nat /\ ~ Interleaving.blocked s h /\
    exists m, Interleaving.step h m s <> None.
Proof.
  apply (Interleaving.blocked_thread_waits_for_a_running_one contended 2%nat).
  split; [vm_compute; discriminate | vm_compute; reflexivity].
Defined.

(** The USART before [UART_Init]. *)
Definition usart_boot : M328P.usart :=
  M328P.mkUsart 0 0 0 0 0 (UART.uart_boot 8 6) sender_ready.

Lemma baud_divisor_is_nearest_16mhz :
  exists u',
    M328P.UART_Init 16000000 115200 usart_boot = Some u' /\
    0 <= M328P.UBRR0 u' <= 4095 /\ 0 <= M328P.UBRR0H u' < 16 /\
    0 <= M328P.UBRR0L u' < 256 /\
    M328P.UART_QueryBaud u' = M328P.rate_of 16000000 (M328P.UBRR0 u') /\
    (forall j, 0 <= j <= 4095 ->
       Z.abs (M328P.UART_QueryBaud u' - 115200)
       <= Z.abs (M328P.rate_of 16000000 j - 115200)) /\
    M328P.receiver u'
    = UART.UART_InitBuffers_ISR M328P.UART_LINE_COUNT M328P.UART_LINE_BITS
                                (M328P.receiver usart_boot) /\
    Transmit.UART_IsSendInProgress (M328P.sender u') = false /\
    Transmit.UCSR0B (M328P.sender u') = Transmit.UART_CSRB_TXIDLE /\
    M328P.UCSR0A u' = M328P.UCSR0A usart_boot /\
    M328P.UCSR0C u' = M328P.UCSR0C usart_boot /\
    (forall hz0 u0, M328P.UART_Init hz0 0 u0 = Some usart_boot ->
       M328P.UCSR0A u' = M328P.UART_CSRA_2X /\
       M328P.UCSR0C u' = M328P.UART_CSRC).
Proof.
  apply (M328P.baud_divisor_is_nearest 16000000 115200 usart_boot); lia.
Defined.

Lemma unreachable_rate_gets_divisor_one_16mhz :
  exists u',
    M328P.UART_Init 16000000 3000000 usart_boot = Some u' /\
    M328P.UBRR0 u' = 1 /\
    M328P.UART_QueryBaud u' = 16000000 / 16 /\
    Z.abs (M328P.rate_of 16000000 0 - 3000000)
    <= Z.abs (M328P.UART_QueryBaud u' - 3000000).
Proof.
  apply (M328P.unreachable_rate_gets_divisor_one 16000000 3000000 usart_boot);
    lia.
Defined.
